(** * Z3Builder: translation of the KLEE expression IR to Z3 terms

    A shallow embedding of [lib/Solver/Z3Builder.cpp].  The builder produces
    Z3 terms, so the terms themselves are data here: [Z3_ast] is the syntax
    the C API builds, [Z3_get_sort] is the sort Z3 reports for it, and
    [eval] gives the terms their SMT-LIB meaning (bitvectors, Booleans and
    arrays interpreted; the floating-point theory through an oracle).
    The builder functions keep their C++ names. *)

From Stdlib Require Import ZArith List String Ascii Bool Lia.
From Stdlib Require Import DecimalString Decimal.
Import ListNotations.
Local Open Scope Z_scope.
Set Warnings "-register-all".

(** ** Z3 sorts and terms *)

Inductive Z3_sort : Type :=
| Z3_mk_bool_sort
| Z3_mk_bv_sort (sz : Z)
| Z3_mk_array_sort (domain range : Z3_sort)
| Z3_mk_fpa_sort (ebits sbits : Z)
| Z3_mk_fpa_rounding_mode_sort.

Definition Z3_mk_fpa_sort_16 := Z3_mk_fpa_sort 5 11.
Definition Z3_mk_fpa_sort_32 := Z3_mk_fpa_sort 8 24.
Definition Z3_mk_fpa_sort_64 := Z3_mk_fpa_sort 11 53.
Definition Z3_mk_fpa_sort_128 := Z3_mk_fpa_sort 15 113.

(** Function symbols of the floating-point theory, one per C API
    constructor the builder calls; sort and size arguments of the API call
    are parameters of the symbol. *)
Inductive Z3_fpa_decl : Type :=
| fpa_round_nearest_ties_to_even
| fpa_round_toward_positive
| fpa_round_toward_negative
| fpa_round_toward_zero
| fpa_round_nearest_ties_to_away
| fpa_nan (s : Z3_sort)
| fpa_zero (s : Z3_sort) (negative : bool)
| fpa_numeral_float (bits : Z) (s : Z3_sort)
| fpa_numeral_double (bits : Z) (s : Z3_sort)
| fpa_fp
| fpa_is_nan
| fpa_is_infinite
| fpa_is_zero
| fpa_is_subnormal
| fpa_is_negative
| fpa_abs
| fpa_sqrt
| fpa_round_to_integral
| fpa_add
| fpa_sub
| fpa_mul
| fpa_div
| fpa_rem
| fpa_min
| fpa_max
| fpa_eq
| fpa_lt
| fpa_leq
| fpa_gt
| fpa_geq
| fpa_to_fp_bv (s : Z3_sort)
| fpa_to_fp_float (s : Z3_sort)
| fpa_to_fp_signed (s : Z3_sort)
| fpa_to_fp_unsigned (s : Z3_sort)
| fpa_to_ubv (sz : Z)
| fpa_to_sbv (sz : Z)
| fpa_to_ieee_bv.

Inductive Z3_ast : Type :=
| Z3_mk_const (s : string) (ty : Z3_sort)
| Z3_mk_true
| Z3_mk_false
| Z3_mk_unsigned_int (v : Z) (ty : Z3_sort)
| Z3_mk_unsigned_int64 (v : Z) (ty : Z3_sort)
| Z3_mk_int64 (v : Z) (ty : Z3_sort)
| Z3_mk_eq (l r : Z3_ast)
| Z3_mk_not (a : Z3_ast)
| Z3_mk_and (args : list Z3_ast)
| Z3_mk_or (args : list Z3_ast)
| Z3_mk_iff (t1 t2 : Z3_ast)
| Z3_mk_ite (t1 t2 t3 : Z3_ast)
| Z3_mk_extract (high low : Z) (t1 : Z3_ast)
| Z3_mk_concat (t1 t2 : Z3_ast)
| Z3_mk_sign_ext (i : Z) (t1 : Z3_ast)
| Z3_mk_bvnot (t1 : Z3_ast)
| Z3_mk_bvredor (t1 : Z3_ast)
| Z3_mk_bvand (t1 t2 : Z3_ast)
| Z3_mk_bvor (t1 t2 : Z3_ast)
| Z3_mk_bvxor (t1 t2 : Z3_ast)
| Z3_mk_bvadd (t1 t2 : Z3_ast)
| Z3_mk_bvsub (t1 t2 : Z3_ast)
| Z3_mk_bvmul (t1 t2 : Z3_ast)
| Z3_mk_bvudiv (t1 t2 : Z3_ast)
| Z3_mk_bvsdiv (t1 t2 : Z3_ast)
| Z3_mk_bvurem (t1 t2 : Z3_ast)
| Z3_mk_bvsrem (t1 t2 : Z3_ast)
| Z3_mk_bvult (t1 t2 : Z3_ast)
| Z3_mk_bvule (t1 t2 : Z3_ast)
| Z3_mk_bvslt (t1 t2 : Z3_ast)
| Z3_mk_bvsle (t1 t2 : Z3_ast)
| Z3_mk_store (a i v : Z3_ast)
| Z3_mk_select (a i : Z3_ast)
| Z3_mk_fpa (d : Z3_fpa_decl) (args : list Z3_ast).

(** The C API names of the floating-point constructors. *)
Definition Z3_mk_fpa_round_nearest_ties_to_even := Z3_mk_fpa fpa_round_nearest_ties_to_even [].
Definition Z3_mk_fpa_round_toward_positive := Z3_mk_fpa fpa_round_toward_positive [].
Definition Z3_mk_fpa_round_toward_negative := Z3_mk_fpa fpa_round_toward_negative [].
Definition Z3_mk_fpa_round_toward_zero := Z3_mk_fpa fpa_round_toward_zero [].
Definition Z3_mk_fpa_round_nearest_ties_to_away := Z3_mk_fpa fpa_round_nearest_ties_to_away [].
Definition Z3_mk_fpa_nan (s : Z3_sort) := Z3_mk_fpa (fpa_nan s) [].
Definition Z3_mk_fpa_zero (s : Z3_sort) (negative : bool) := Z3_mk_fpa (fpa_zero s negative) [].
Definition Z3_mk_fpa_numeral_float (v : Z) (ty : Z3_sort) := Z3_mk_fpa (fpa_numeral_float v ty) [].
Definition Z3_mk_fpa_numeral_double (v : Z) (ty : Z3_sort) := Z3_mk_fpa (fpa_numeral_double v ty) [].
Definition Z3_mk_fpa_fp (sgn exp sig : Z3_ast) := Z3_mk_fpa fpa_fp [sgn; exp; sig].
Definition Z3_mk_fpa_is_nan (t : Z3_ast) := Z3_mk_fpa fpa_is_nan [t].
Definition Z3_mk_fpa_is_infinite (t : Z3_ast) := Z3_mk_fpa fpa_is_infinite [t].
Definition Z3_mk_fpa_is_zero (t : Z3_ast) := Z3_mk_fpa fpa_is_zero [t].
Definition Z3_mk_fpa_is_subnormal (t : Z3_ast) := Z3_mk_fpa fpa_is_subnormal [t].
Definition Z3_mk_fpa_is_negative (t : Z3_ast) := Z3_mk_fpa fpa_is_negative [t].
Definition Z3_mk_fpa_abs (t : Z3_ast) := Z3_mk_fpa fpa_abs [t].
Definition Z3_mk_fpa_sqrt (rm t : Z3_ast) := Z3_mk_fpa fpa_sqrt [rm; t].
Definition Z3_mk_fpa_round_to_integral (rm t : Z3_ast) := Z3_mk_fpa fpa_round_to_integral [rm; t].
Definition Z3_mk_fpa_add (rm t1 t2 : Z3_ast) := Z3_mk_fpa fpa_add [rm; t1; t2].
Definition Z3_mk_fpa_sub (rm t1 t2 : Z3_ast) := Z3_mk_fpa fpa_sub [rm; t1; t2].
Definition Z3_mk_fpa_mul (rm t1 t2 : Z3_ast) := Z3_mk_fpa fpa_mul [rm; t1; t2].
Definition Z3_mk_fpa_div (rm t1 t2 : Z3_ast) := Z3_mk_fpa fpa_div [rm; t1; t2].
Definition Z3_mk_fpa_rem (t1 t2 : Z3_ast) := Z3_mk_fpa fpa_rem [t1; t2].
Definition Z3_mk_fpa_min (t1 t2 : Z3_ast) := Z3_mk_fpa fpa_min [t1; t2].
Definition Z3_mk_fpa_max (t1 t2 : Z3_ast) := Z3_mk_fpa fpa_max [t1; t2].
Definition Z3_mk_fpa_eq (t1 t2 : Z3_ast) := Z3_mk_fpa fpa_eq [t1; t2].
Definition Z3_mk_fpa_lt (t1 t2 : Z3_ast) := Z3_mk_fpa fpa_lt [t1; t2].
Definition Z3_mk_fpa_leq (t1 t2 : Z3_ast) := Z3_mk_fpa fpa_leq [t1; t2].
Definition Z3_mk_fpa_gt (t1 t2 : Z3_ast) := Z3_mk_fpa fpa_gt [t1; t2].
Definition Z3_mk_fpa_geq (t1 t2 : Z3_ast) := Z3_mk_fpa fpa_geq [t1; t2].
Definition Z3_mk_fpa_to_fp_bv (bv : Z3_ast) (s : Z3_sort) := Z3_mk_fpa (fpa_to_fp_bv s) [bv].
Definition Z3_mk_fpa_to_fp_float (rm t : Z3_ast) (s : Z3_sort) := Z3_mk_fpa (fpa_to_fp_float s) [rm; t].
Definition Z3_mk_fpa_to_fp_signed (rm t : Z3_ast) (s : Z3_sort) := Z3_mk_fpa (fpa_to_fp_signed s) [rm; t].
Definition Z3_mk_fpa_to_fp_unsigned (rm t : Z3_ast) (s : Z3_sort) := Z3_mk_fpa (fpa_to_fp_unsigned s) [rm; t].
Definition Z3_mk_fpa_to_ubv (rm t : Z3_ast) (sz : Z) := Z3_mk_fpa (fpa_to_ubv sz) [rm; t].
Definition Z3_mk_fpa_to_sbv (rm t : Z3_ast) (sz : Z) := Z3_mk_fpa (fpa_to_sbv sz) [rm; t].
Definition Z3_mk_fpa_to_ieee_bv (t : Z3_ast) := Z3_mk_fpa fpa_to_ieee_bv [t].

(** The sort Z3 reports for a term.  It is read off the head symbol and, for
    the polymorphic symbols, off one argument.  Z3 rejects an ill-sorted
    application when it is built (the error handler aborts); that check is
    [wellSorted] below, and [Z3_checked] makes it where a cast applies a
    floating-point conversion. *)
Fixpoint Z3_get_sort (a : Z3_ast) : Z3_sort :=
  match a with
  | Z3_mk_const _ ty => ty
  | Z3_mk_true | Z3_mk_false => Z3_mk_bool_sort
  | Z3_mk_unsigned_int _ ty | Z3_mk_unsigned_int64 _ ty | Z3_mk_int64 _ ty => ty
  | Z3_mk_eq _ _ | Z3_mk_not _ | Z3_mk_and _ | Z3_mk_or _ | Z3_mk_iff _ _ =>
      Z3_mk_bool_sort
  | Z3_mk_ite _ t2 _ => Z3_get_sort t2
  | Z3_mk_extract high low _ => Z3_mk_bv_sort (high - low + 1)
  | Z3_mk_concat t1 t2 =>
      match Z3_get_sort t1, Z3_get_sort t2 with
      | Z3_mk_bv_sort n, Z3_mk_bv_sort m => Z3_mk_bv_sort (n + m)
      | _, _ => Z3_mk_bv_sort 0
      end
  | Z3_mk_sign_ext i t1 =>
      match Z3_get_sort t1 with
      | Z3_mk_bv_sort n => Z3_mk_bv_sort (n + i)
      | _ => Z3_mk_bv_sort 0
      end
  | Z3_mk_bvredor _ => Z3_mk_bv_sort 1
  | Z3_mk_bvnot t1
  | Z3_mk_bvand t1 _ | Z3_mk_bvor t1 _ | Z3_mk_bvxor t1 _
  | Z3_mk_bvadd t1 _ | Z3_mk_bvsub t1 _ | Z3_mk_bvmul t1 _
  | Z3_mk_bvudiv t1 _ | Z3_mk_bvsdiv t1 _ | Z3_mk_bvurem t1 _ | Z3_mk_bvsrem t1 _ =>
      Z3_get_sort t1
  | Z3_mk_bvult _ _ | Z3_mk_bvule _ _ | Z3_mk_bvslt _ _ | Z3_mk_bvsle _ _ =>
      Z3_mk_bool_sort
  | Z3_mk_store a _ _ => Z3_get_sort a
  | Z3_mk_select a _ =>
      match Z3_get_sort a with
      | Z3_mk_array_sort _ r => r
      | _ => Z3_mk_bool_sort
      end
  | Z3_mk_fpa d args =>
      match d with
      | fpa_round_nearest_ties_to_even | fpa_round_toward_positive
      | fpa_round_toward_negative | fpa_round_toward_zero
      | fpa_round_nearest_ties_to_away => Z3_mk_fpa_rounding_mode_sort
      | fpa_nan s | fpa_zero s _ | fpa_numeral_float _ s | fpa_numeral_double _ s
      | fpa_to_fp_bv s | fpa_to_fp_float s | fpa_to_fp_signed s
      | fpa_to_fp_unsigned s => s
      | fpa_fp =>
          match args with
          | [_; e; m] =>
              match Z3_get_sort e, Z3_get_sort m with
              | Z3_mk_bv_sort eb, Z3_mk_bv_sort sb => Z3_mk_fpa_sort eb (sb + 1)
              | _, _ => Z3_mk_fpa_sort 0 0
              end
          | _ => Z3_mk_fpa_sort 0 0
          end
      | fpa_is_nan | fpa_is_infinite | fpa_is_zero | fpa_is_subnormal
      | fpa_is_negative | fpa_eq | fpa_lt | fpa_leq | fpa_gt | fpa_geq =>
          Z3_mk_bool_sort
      | fpa_abs | fpa_rem | fpa_min | fpa_max =>
          match args with
          | t :: _ => Z3_get_sort t
          | [] => Z3_mk_fpa_sort 0 0
          end
      | fpa_sqrt | fpa_round_to_integral | fpa_add | fpa_sub | fpa_mul | fpa_div =>
          match args with
          | _ :: t :: _ => Z3_get_sort t
          | _ => Z3_mk_fpa_sort 0 0
          end
      | fpa_to_ubv sz | fpa_to_sbv sz => Z3_mk_bv_sort sz
      | fpa_to_ieee_bv =>
          match args with
          | t :: _ =>
              match Z3_get_sort t with
              | Z3_mk_fpa_sort eb sb => Z3_mk_bv_sort (eb + sb)
              | _ => Z3_mk_bv_sort 0
              end
          | [] => Z3_mk_bv_sort 0
          end
      end
  end.

(** [Z3_get_bv_sort_size] is 0 on a sort that is no bitvector sort (Z3
    reports an error there). *)
Definition Z3_get_bv_sort_size (t : Z3_sort) : Z :=
  match t with
  | Z3_mk_bv_sort sz => sz
  | _ => 0
  end.

Inductive Z3_sort_kind : Type :=
| Z3_BOOL_SORT | Z3_BV_SORT | Z3_ARRAY_SORT | Z3_FLOATING_POINT_SORT
| Z3_ROUNDING_MODE_SORT.

Definition Z3_get_sort_kind (t : Z3_sort) : Z3_sort_kind :=
  match t with
  | Z3_mk_bool_sort => Z3_BOOL_SORT
  | Z3_mk_bv_sort _ => Z3_BV_SORT
  | Z3_mk_array_sort _ _ => Z3_ARRAY_SORT
  | Z3_mk_fpa_sort _ _ => Z3_FLOATING_POINT_SORT
  | Z3_mk_fpa_rounding_mode_sort => Z3_ROUNDING_MODE_SORT
  end.

Definition Z3_sort_kind_eqb (a b : Z3_sort_kind) : bool :=
  match a, b with
  | Z3_BOOL_SORT, Z3_BOOL_SORT | Z3_BV_SORT, Z3_BV_SORT
  | Z3_ARRAY_SORT, Z3_ARRAY_SORT
  | Z3_FLOATING_POINT_SORT, Z3_FLOATING_POINT_SORT
  | Z3_ROUNDING_MODE_SORT, Z3_ROUNDING_MODE_SORT => true
  | _, _ => false
  end.

(** ** Well-sorted terms

    The checks Z3 makes on the sorts of the arguments when an application
    is built; [Z3_get_sort] above reads the sort of a term off its head
    symbol and leaves them out. *)
Definition isBoolSort (s : Z3_sort) : bool :=
  match s with Z3_mk_bool_sort => true | _ => false end.

Definition isBvSort (s : Z3_sort) : bool :=
  match s with Z3_mk_bv_sort _ => true | _ => false end.

Definition isFpSort (s : Z3_sort) : bool :=
  match s with Z3_mk_fpa_sort _ _ => true | _ => false end.

Definition isRmSort (s : Z3_sort) : bool :=
  match s with Z3_mk_fpa_rounding_mode_sort => true | _ => false end.

Fixpoint sortEqb (a b : Z3_sort) : bool :=
  match a, b with
  | Z3_mk_bool_sort, Z3_mk_bool_sort => true
  | Z3_mk_bv_sort n, Z3_mk_bv_sort m => n =? m
  | Z3_mk_array_sort d r, Z3_mk_array_sort d' r' => sortEqb d d' && sortEqb r r'
  | Z3_mk_fpa_sort e s, Z3_mk_fpa_sort e' s' => (e =? e') && (s =? s')
  | Z3_mk_fpa_rounding_mode_sort, Z3_mk_fpa_rounding_mode_sort => true
  | _, _ => false
  end.

(** The sorts Z3 makes: a bitvector sort has at least one bit, a
    floating-point sort 2 to 63 exponent bits and at least 2 significand
    bits. *)
Fixpoint sortExists (s : Z3_sort) : bool :=
  match s with
  | Z3_mk_bool_sort | Z3_mk_fpa_rounding_mode_sort => true
  | Z3_mk_bv_sort sz => 0 <? sz
  | Z3_mk_array_sort d r => sortExists d && sortExists r
  | Z3_mk_fpa_sort eb sb => (1 <? eb) && (eb <? 64) && (1 <? sb)
  end.

(** The sorts of the arguments a floating-point symbol is applied to. *)
Definition fpaSorted (d : Z3_fpa_decl) (args : list Z3_sort) : bool :=
  match d, args with
  | (fpa_round_nearest_ties_to_even | fpa_round_toward_positive
    | fpa_round_toward_negative | fpa_round_toward_zero
    | fpa_round_nearest_ties_to_away), [] => true
  | (fpa_nan s | fpa_zero s _ | fpa_numeral_float _ s | fpa_numeral_double _ s), [] =>
      isFpSort s && sortExists s
  | fpa_fp, [Z3_mk_bv_sort 1; Z3_mk_bv_sort eb; Z3_mk_bv_sort sb] =>
      sortExists (Z3_mk_fpa_sort eb (sb + 1))
  | (fpa_is_nan | fpa_is_infinite | fpa_is_zero | fpa_is_subnormal | fpa_is_negative
    | fpa_abs | fpa_to_ieee_bv), [t] => isFpSort t
  | (fpa_sqrt | fpa_round_to_integral), [rm; t] => isRmSort rm && isFpSort t
  | (fpa_add | fpa_sub | fpa_mul | fpa_div), [rm; t1; t2] =>
      isRmSort rm && isFpSort t1 && sortEqb t1 t2
  | (fpa_rem | fpa_min | fpa_max | fpa_eq | fpa_lt | fpa_leq | fpa_gt | fpa_geq),
    [t1; t2] => isFpSort t1 && sortEqb t1 t2
  | fpa_to_fp_bv (Z3_mk_fpa_sort eb sb), [Z3_mk_bv_sort n] =>
      sortExists (Z3_mk_fpa_sort eb sb) && (n =? eb + sb)
  | fpa_to_fp_float s, [rm; t] => isFpSort s && sortExists s && isRmSort rm && isFpSort t
  | (fpa_to_fp_signed s | fpa_to_fp_unsigned s), [rm; t] =>
      isFpSort s && sortExists s && isRmSort rm && isBvSort t
  | (fpa_to_ubv sz | fpa_to_sbv sz), [rm; t] => (0 <? sz) && isRmSort rm && isFpSort t
  | _, _ => false
  end.

(** [wellSorted a]: every application in [a] has arguments of the sorts its
    symbol takes.  Z3 checks this when the application is built and reports
    a failure to the error handler, which aborts
    ([custom_z3_error_handler]). *)
Fixpoint wellSorted (a : Z3_ast) : bool :=
  match a with
  | Z3_mk_const _ ty => sortExists ty
  | Z3_mk_true | Z3_mk_false => true
  | Z3_mk_unsigned_int _ ty | Z3_mk_unsigned_int64 _ ty | Z3_mk_int64 _ ty =>
      isBvSort ty && sortExists ty
  | Z3_mk_eq l r =>
      wellSorted l && wellSorted r && sortEqb (Z3_get_sort l) (Z3_get_sort r)
  | Z3_mk_not a => wellSorted a && isBoolSort (Z3_get_sort a)
  | Z3_mk_and args | Z3_mk_or args =>
      forallb (fun t => wellSorted t && isBoolSort (Z3_get_sort t)) args
  | Z3_mk_iff t1 t2 =>
      wellSorted t1 && wellSorted t2
      && isBoolSort (Z3_get_sort t1) && isBoolSort (Z3_get_sort t2)
  | Z3_mk_ite c t f =>
      wellSorted c && wellSorted t && wellSorted f
      && isBoolSort (Z3_get_sort c) && sortEqb (Z3_get_sort t) (Z3_get_sort f)
  | Z3_mk_extract high low t =>
      wellSorted t
      && match Z3_get_sort t with
         | Z3_mk_bv_sort n => (0 <=? low) && (low <=? high) && (high <? n)
         | _ => false
         end
  | Z3_mk_concat t1 t2 =>
      wellSorted t1 && wellSorted t2
      && isBvSort (Z3_get_sort t1) && isBvSort (Z3_get_sort t2)
  | Z3_mk_sign_ext i t => wellSorted t && isBvSort (Z3_get_sort t) && (0 <=? i)
  | Z3_mk_bvnot t | Z3_mk_bvredor t => wellSorted t && isBvSort (Z3_get_sort t)
  | Z3_mk_bvand t1 t2 | Z3_mk_bvor t1 t2 | Z3_mk_bvxor t1 t2
  | Z3_mk_bvadd t1 t2 | Z3_mk_bvsub t1 t2 | Z3_mk_bvmul t1 t2
  | Z3_mk_bvudiv t1 t2 | Z3_mk_bvsdiv t1 t2 | Z3_mk_bvurem t1 t2 | Z3_mk_bvsrem t1 t2
  | Z3_mk_bvult t1 t2 | Z3_mk_bvule t1 t2 | Z3_mk_bvslt t1 t2 | Z3_mk_bvsle t1 t2 =>
      wellSorted t1 && wellSorted t2
      && isBvSort (Z3_get_sort t1) && sortEqb (Z3_get_sort t1) (Z3_get_sort t2)
  | Z3_mk_store a i v =>
      wellSorted a && wellSorted i && wellSorted v
      && match Z3_get_sort a with
         | Z3_mk_array_sort d r =>
             sortEqb (Z3_get_sort i) d && sortEqb (Z3_get_sort v) r
         | _ => false
         end
  | Z3_mk_select a i =>
      wellSorted a && wellSorted i
      && match Z3_get_sort a with
         | Z3_mk_array_sort d _ => sortEqb (Z3_get_sort i) d
         | _ => false
         end
  | Z3_mk_fpa d args =>
      forallb wellSorted args && fpaSorted d (map Z3_get_sort args)
  end.

(** ** Builder helpers (Z3Builder.cpp, lines 82-417)

    [Z3ASTHandle] and [Z3SortHandle] wrap a term or sort with its reference
    count; the count does not show in the terms built, so a handle is the
    term.  The context argument [ctx] is the single context of the builder
    and is left out. *)

Definition Z3ASTHandle := Z3_ast.
Definition Z3SortHandle := Z3_sort.

Definition getBvSort (width : Z) : Z3SortHandle := Z3_mk_bv_sort width.

Definition getArraySort (domainSort rangeSort : Z3SortHandle) : Z3SortHandle :=
  Z3_mk_array_sort domainSort rangeSort.

Definition buildArray (name : string) (indexWidth valueWidth : Z) : Z3ASTHandle :=
  let domainSort := getBvSort indexWidth in
  let rangeSort := getBvSort valueWidth in
  let t := getArraySort domainSort rangeSort in
  Z3_mk_const name t.

Definition getTrue : Z3ASTHandle := Z3_mk_true.
Definition getFalse : Z3ASTHandle := Z3_mk_false.

(** [value] is a [uint32_t] / [uint64_t] parameter: the argument is
    truncated on the call. *)
Definition bvConst32 (width : Z) (value : Z) : Z3ASTHandle :=
  let t := getBvSort width in
  Z3_mk_unsigned_int (value mod 2 ^ 32) t.

Definition bvConst64 (width : Z) (value : Z) : Z3ASTHandle :=
  let t := getBvSort width in
  Z3_mk_unsigned_int64 (value mod 2 ^ 64) t.

Definition concatExpr (lhs rhs : Z3ASTHandle) : Z3ASTHandle := Z3_mk_concat lhs rhs.

Definition concatExpr3 (first second third : Z3ASTHandle) : Z3ASTHandle :=
  Z3_mk_concat (Z3_mk_concat first second) third.

Definition concatExpr4 (first second third fourth : Z3ASTHandle) : Z3ASTHandle :=
  Z3_mk_concat (Z3_mk_concat (Z3_mk_concat first second) third) fourth.

(** The loop [for (width -= 64; width > 64; width -= 64) expr = concat(zero, expr)]
    of [bvZExtConst]; it runs fewer than [width] times, which is the fuel
    [bvZExtConst] gives it. *)
Fixpoint bvZExtConst_loop (fuel : nat) (width : Z) (zero expr : Z3ASTHandle)
  : Z * Z3ASTHandle :=
  match fuel with
  | O => (width, expr)
  | S fuel' =>
      if 64 <? width
      then bvZExtConst_loop fuel' (width - 64) zero (concatExpr zero expr)
      else (width, expr)
  end.

Definition bvZExtConst (width : Z) (value : Z) : Z3ASTHandle :=
  if width <=? 64 then bvConst64 width value
  else
    let expr := bvConst64 64 value in
    let zero := bvConst64 64 0 in
    let '(width', expr') :=
      bvZExtConst_loop (Z.to_nat width) (width - 64) zero expr in
    concatExpr (bvConst64 width' 0) expr'.

Definition bvSExtConst (width : Z) (value : Z) : Z3ASTHandle :=
  if width <=? 64 then bvConst64 width value
  else
    let t := getBvSort (width - 64) in
    if negb (Z.shiftr (value mod 2 ^ 64) 63 =? 0) then
      let r := Z3_mk_int64 (-1) t in
      concatExpr r (bvConst64 64 value)
    else
      let r := Z3_mk_int64 0 t in
      concatExpr r (bvConst64 64 value).

Definition bvOne (width : Z) : Z3ASTHandle := bvZExtConst width 1.
Definition bvZero (width : Z) : Z3ASTHandle := bvZExtConst width 0.
Definition bvMinusOne (width : Z) : Z3ASTHandle := bvSExtConst width (-1).

Definition bvExtract (expr : Z3ASTHandle) (top bottom : Z) : Z3ASTHandle :=
  Z3_mk_extract top bottom expr.

Definition bvBoolExtract (expr : Z3ASTHandle) (bit : Z) : Z3ASTHandle :=
  Z3_mk_eq (bvExtract expr bit bit) (bvOne 1).

Definition eqExpr (a b : Z3ASTHandle) : Z3ASTHandle := Z3_mk_eq a b.

Definition getBVLength (expr : Z3ASTHandle) : Z :=
  Z3_get_bv_sort_size (Z3_get_sort expr).

(** logical right shift *)
Definition bvRightShift (expr : Z3ASTHandle) (shift : Z) : Z3ASTHandle :=
  let width := getBVLength expr in
  if shift =? 0 then expr
  else if width <=? shift then bvZero width
  else concatExpr (bvZero shift) (bvExtract expr (width - 1) shift).

(** logical left shift *)
Definition bvLeftShift (expr : Z3ASTHandle) (shift : Z) : Z3ASTHandle :=
  let width := getBVLength expr in
  if shift =? 0 then expr
  else if width <=? shift then bvZero width
  else concatExpr (bvExtract expr (width - shift - 1) 0) (bvZero shift).

Definition notExpr (expr : Z3ASTHandle) : Z3ASTHandle := Z3_mk_not expr.
Definition bvNotExpr (expr : Z3ASTHandle) : Z3ASTHandle := Z3_mk_bvnot expr.
Definition andExpr (lhs rhs : Z3ASTHandle) : Z3ASTHandle := Z3_mk_and [lhs; rhs].
Definition bvAndExpr (lhs rhs : Z3ASTHandle) : Z3ASTHandle := Z3_mk_bvand lhs rhs.
Definition orExpr (lhs rhs : Z3ASTHandle) : Z3ASTHandle := Z3_mk_or [lhs; rhs].
Definition orExpr3 (first second third : Z3ASTHandle) : Z3ASTHandle :=
  Z3_mk_or [first; second; third].
Definition bvOrExpr (lhs rhs : Z3ASTHandle) : Z3ASTHandle := Z3_mk_bvor lhs rhs.
Definition bvXorExpr (lhs rhs : Z3ASTHandle) : Z3ASTHandle := Z3_mk_bvxor lhs rhs.
Definition bvRedorExpr (expr : Z3ASTHandle) : Z3ASTHandle := Z3_mk_bvredor expr.
Definition extractExpr (high low : Z) (expr : Z3ASTHandle) : Z3ASTHandle :=
  Z3_mk_extract high low expr.
Definition isNanExpr (expr : Z3ASTHandle) : Z3ASTHandle := Z3_mk_fpa_is_nan expr.
Definition isInfinityExpr (expr : Z3ASTHandle) : Z3ASTHandle := Z3_mk_fpa_is_infinite expr.
Definition isFPZeroExpr (expr : Z3ASTHandle) : Z3ASTHandle := Z3_mk_fpa_is_zero expr.
Definition isSubnormalExpr (expr : Z3ASTHandle) : Z3ASTHandle := Z3_mk_fpa_is_subnormal expr.
Definition isFPNegativeExpr (expr : Z3ASTHandle) : Z3ASTHandle := Z3_mk_fpa_is_negative expr.
Definition fpNan (sort : Z3SortHandle) : Z3ASTHandle := Z3_mk_fpa_nan sort.
Definition fpZero (sort : Z3SortHandle) : Z3ASTHandle := Z3_mk_fpa_zero sort false.
Definition writeExpr (array index value : Z3ASTHandle) : Z3ASTHandle :=
  Z3_mk_store array index value.
Definition readExpr (array index : Z3ASTHandle) : Z3ASTHandle := Z3_mk_select array index.
Definition iteExpr (condition whenTrue whenFalse : Z3ASTHandle) : Z3ASTHandle :=
  Z3_mk_ite condition whenTrue whenFalse.
Definition bvLtExpr (lhs rhs : Z3ASTHandle) : Z3ASTHandle := Z3_mk_bvult lhs rhs.
Definition bvLeExpr (lhs rhs : Z3ASTHandle) : Z3ASTHandle := Z3_mk_bvule lhs rhs.
Definition sbvLtExpr (lhs rhs : Z3ASTHandle) : Z3ASTHandle := Z3_mk_bvslt lhs rhs.
Definition sbvLeExpr (lhs rhs : Z3ASTHandle) : Z3ASTHandle := Z3_mk_bvsle lhs rhs.

(** [llvm::APFloat::roundingMode] *)
Inductive roundingMode : Type :=
| rmNearestTiesToEven | rmTowardPositive | rmTowardNegative | rmTowardZero
| rmNearestTiesToAway.

Definition getRoundingModeAST (rm : roundingMode) : Z3_ast :=
  match rm with
  | rmNearestTiesToEven => Z3_mk_fpa_round_nearest_ties_to_even
  | rmTowardPositive => Z3_mk_fpa_round_toward_positive
  | rmTowardNegative => Z3_mk_fpa_round_toward_negative
  | rmTowardZero => Z3_mk_fpa_round_toward_zero
  | rmNearestTiesToAway => Z3_mk_fpa_round_nearest_ties_to_away
  end.

Definition constructAShrByConstant (expr : Z3ASTHandle) (shift : Z)
    (isSigned : Z3ASTHandle) : Z3ASTHandle :=
  let width := getBVLength expr in
  if shift =? 0 then expr
  else if width <=? shift then bvZero width
  else
    iteExpr isSigned
      (concatExpr (bvMinusOne shift) (bvExtract expr (width - 1) shift))
      (bvRightShift expr shift).

(** The loops [for (int i = width - 1; i >= 0; i--)] of the variable shifts:
    [n] counts the iterations left, the loop variable is [i = n - 1]. *)
Fixpoint bvVarLeftShift_loop (n : nat) (width : Z) (expr shift res : Z3ASTHandle)
  : Z3ASTHandle :=
  match n with
  | O => res
  | S i =>
      bvVarLeftShift_loop i width expr shift
        (iteExpr (eqExpr shift (bvConst32 width (Z.of_nat i)))
           (bvLeftShift expr (Z.of_nat i)) res)
  end.

(** left shift by a variable amount on an expression of the specified width *)
Definition bvVarLeftShift (expr shift : Z3ASTHandle) : Z3ASTHandle :=
  let width := getBVLength expr in
  let res := bvZero width in
  let res := bvVarLeftShift_loop (Z.to_nat width) width expr shift res in
  let ex := bvLtExpr shift (bvConst32 (getBVLength shift) width) in
  iteExpr ex res (bvZero width).

Fixpoint bvVarRightShift_loop (n : nat) (width : Z) (expr shift res : Z3ASTHandle)
  : Z3ASTHandle :=
  match n with
  | O => res
  | S i =>
      bvVarRightShift_loop i width expr shift
        (iteExpr (eqExpr shift (bvConst32 width (Z.of_nat i)))
           (bvRightShift expr (Z.of_nat i)) res)
  end.

(** logical right shift by a variable amount on an expression of the
    specified width *)
Definition bvVarRightShift (expr shift : Z3ASTHandle) : Z3ASTHandle :=
  let width := getBVLength expr in
  let res := bvZero width in
  let res := bvVarRightShift_loop (Z.to_nat width) width expr shift res in
  let ex := bvLtExpr shift (bvConst32 (getBVLength shift) width) in
  iteExpr ex res (bvZero width).

(** The loop [for (int i = width - 2; i >= 0; i--)]. *)
Fixpoint bvVarArithRightShift_loop (n : nat) (width : Z)
    (expr shift signedBool res : Z3ASTHandle) : Z3ASTHandle :=
  match n with
  | O => res
  | S i =>
      bvVarArithRightShift_loop i width expr shift signedBool
        (iteExpr (eqExpr shift (bvConst32 width (Z.of_nat i)))
           (constructAShrByConstant expr (Z.of_nat i) signedBool) res)
  end.

(** arithmetic right shift by a variable amount on an expression of the
    specified width *)
Definition bvVarArithRightShift (expr shift : Z3ASTHandle) : Z3ASTHandle :=
  let width := getBVLength expr in
  let signedBool := bvBoolExtract expr (width - 1) in
  let res := constructAShrByConstant expr (width - 1) signedBool in
  let res :=
    bvVarArithRightShift_loop (Z.to_nat (width - 1)) width expr shift signedBool res in
  let ex := bvLtExpr shift (bvConst32 (getBVLength shift) width) in
  iteExpr ex res (bvZero width).

(** ** Meaning of the terms

    Bitvector, Boolean and array symbols have their SMT-LIB meaning.  A
    bitvector value [VBv w n] has width [w] and unsigned value [n].  The
    symbols of the floating-point theory are interpreted by the model's
    oracle [fpa_interp] on the values of their arguments; the result is read
    as a truth value, a bitvector or a floating-point value according to the
    sort of the application.  [VErr] is the value of an ill-sorted term: of
    a floating-point application on arguments of other sorts than its
    symbol takes ([fpaSorted]), and of the other applications on values of
    another shape than theirs. *)

Inductive val : Type :=
| VBool (b : bool)
| VBv (w n : Z)
| VFp (c : Z)
| VArr (f : Z -> val)
| VErr.

Record Z3_model : Type := mkModel {
  const_interp : string -> Z3_sort -> val;
  fpa_interp : Z3_fpa_decl -> list val -> Z
}.

Definition toSigned (w n : Z) : Z :=
  if n <? 2 ^ (w - 1) then n else n - 2 ^ w.

Definition numeral (v : Z) (ty : Z3_sort) : val :=
  match ty with
  | Z3_mk_bv_sort sz => if 0 <? sz then VBv sz (v mod 2 ^ sz) else VErr
  | _ => VErr
  end.

Definition val_eq (a b : val) : val :=
  match a, b with
  | VBool x, VBool y => VBool (Bool.eqb x y)
  | VBv w n, VBv w' m => if w =? w' then VBool (n =? m) else VErr
  | VFp c, VFp d => VBool (c =? d)
  | _, _ => VErr
  end.

Definition val_and (a b : val) : val :=
  match a, b with
  | VBool x, VBool y => VBool (x && y)
  | _, _ => VErr
  end.

Definition val_or (a b : val) : val :=
  match a, b with
  | VBool x, VBool y => VBool (x || y)
  | _, _ => VErr
  end.

Definition bvBinop (op : Z -> Z -> Z -> Z) (a b : val) : val :=
  match a, b with
  | VBv w n, VBv w' m => if w =? w' then VBv w (op w n m mod 2 ^ w) else VErr
  | _, _ => VErr
  end.

Definition bvCmp (op : Z -> Z -> Z -> bool) (a b : val) : val :=
  match a, b with
  | VBv w n, VBv w' m => if w =? w' then VBool (op w n m) else VErr
  | _, _ => VErr
  end.

Definition udiv (w n m : Z) : Z := if m =? 0 then 2 ^ w - 1 else n / m.
Definition urem (w n m : Z) : Z := if m =? 0 then n else n mod m.
Definition sdiv (w n m : Z) : Z :=
  if m =? 0 then (if toSigned w n <? 0 then 1 else -1)
  else Z.quot (toSigned w n) (toSigned w m).
Definition srem (w n m : Z) : Z :=
  if m =? 0 then n else Z.rem (toSigned w n) (toSigned w m).

Fixpoint eval (M : Z3_model) (a : Z3_ast) : val :=
  match a with
  | Z3_mk_const s ty => const_interp M s ty
  | Z3_mk_true => VBool true
  | Z3_mk_false => VBool false
  | Z3_mk_unsigned_int v ty | Z3_mk_unsigned_int64 v ty | Z3_mk_int64 v ty =>
      numeral v ty
  | Z3_mk_eq l r => val_eq (eval M l) (eval M r)
  | Z3_mk_not t =>
      match eval M t with
      | VBool b => VBool (negb b)
      | _ => VErr
      end
  | Z3_mk_and args => fold_right (fun t acc => val_and (eval M t) acc) (VBool true) args
  | Z3_mk_or args => fold_right (fun t acc => val_or (eval M t) acc) (VBool false) args
  | Z3_mk_iff t1 t2 =>
      match eval M t1, eval M t2 with
      | VBool x, VBool y => VBool (Bool.eqb x y)
      | _, _ => VErr
      end
  | Z3_mk_ite t1 t2 t3 =>
      match eval M t1 with
      | VBool true => eval M t2
      | VBool false => eval M t3
      | _ => VErr
      end
  | Z3_mk_extract high low t1 =>
      match eval M t1 with
      | VBv w n =>
          if (0 <=? low) && (low <=? high) && (high <? w)
          then VBv (high - low + 1) ((n / 2 ^ low) mod 2 ^ (high - low + 1))
          else VErr
      | _ => VErr
      end
  | Z3_mk_concat t1 t2 =>
      match eval M t1, eval M t2 with
      | VBv w1 n1, VBv w2 n2 => VBv (w1 + w2) (n1 * 2 ^ w2 + n2)
      | _, _ => VErr
      end
  | Z3_mk_sign_ext i t1 =>
      match eval M t1 with
      | VBv w n => if 0 <=? i then VBv (w + i) (toSigned w n mod 2 ^ (w + i)) else VErr
      | _ => VErr
      end
  | Z3_mk_bvnot t1 =>
      match eval M t1 with
      | VBv w n => VBv w (2 ^ w - 1 - n)
      | _ => VErr
      end
  | Z3_mk_bvredor t1 =>
      match eval M t1 with
      | VBv w n => VBv 1 (if n =? 0 then 0 else 1)
      | _ => VErr
      end
  | Z3_mk_bvand t1 t2 => bvBinop (fun _ => Z.land) (eval M t1) (eval M t2)
  | Z3_mk_bvor t1 t2 => bvBinop (fun _ => Z.lor) (eval M t1) (eval M t2)
  | Z3_mk_bvxor t1 t2 => bvBinop (fun _ => Z.lxor) (eval M t1) (eval M t2)
  | Z3_mk_bvadd t1 t2 => bvBinop (fun _ => Z.add) (eval M t1) (eval M t2)
  | Z3_mk_bvsub t1 t2 => bvBinop (fun _ => Z.sub) (eval M t1) (eval M t2)
  | Z3_mk_bvmul t1 t2 => bvBinop (fun _ => Z.mul) (eval M t1) (eval M t2)
  | Z3_mk_bvudiv t1 t2 => bvBinop udiv (eval M t1) (eval M t2)
  | Z3_mk_bvsdiv t1 t2 => bvBinop sdiv (eval M t1) (eval M t2)
  | Z3_mk_bvurem t1 t2 => bvBinop urem (eval M t1) (eval M t2)
  | Z3_mk_bvsrem t1 t2 => bvBinop srem (eval M t1) (eval M t2)
  | Z3_mk_bvult t1 t2 => bvCmp (fun _ => Z.ltb) (eval M t1) (eval M t2)
  | Z3_mk_bvule t1 t2 => bvCmp (fun _ => Z.leb) (eval M t1) (eval M t2)
  | Z3_mk_bvslt t1 t2 =>
      bvCmp (fun w n m => toSigned w n <? toSigned w m) (eval M t1) (eval M t2)
  | Z3_mk_bvsle t1 t2 =>
      bvCmp (fun w n m => toSigned w n <=? toSigned w m) (eval M t1) (eval M t2)
  | Z3_mk_store t1 i v =>
      match eval M t1, eval M i with
      | VArr f, VBv _ k => VArr (fun j => if j =? k then eval M v else f j)
      | _, _ => VErr
      end
  | Z3_mk_select t1 i =>
      match eval M t1, eval M i with
      | VArr f, VBv _ k => f k
      | _, _ => VErr
      end
  | Z3_mk_fpa d args =>
      if fpaSorted d (map Z3_get_sort args) then
        let c := fpa_interp M d (map (eval M) args) in
        match Z3_get_sort (Z3_mk_fpa d args) with
        | Z3_mk_bool_sort => VBool (negb (c =? 0))
        | Z3_mk_bv_sort sz => VBv sz (c mod 2 ^ sz)
        | _ => VFp c
        end
      else VErr
  end.

(** ** The expression IR (klee/Expr.h)

    The header is not part of the sources at hand; the IR is modelled as far
    as [Z3Builder.cpp] reads it: the node classes it casts to, with the
    fields it accesses.  Kinds that share a class (the C++ subclasses of
    [BinaryExpr], [CmpExpr], [CastExpr], ...) are one constructor with the
    kind as a tag. *)

Module Expr.
Definition Width := Z.
Definition Bool : Width := 1.
Definition Int8 : Width := 8.
Definition Int16 : Width := 16.
Definition Int32 : Width := 32.
Definition Int64 : Width := 64.
Definition Fl32 : Width := 32.
Definition Fl64 : Width := 64.
Definition Fl80 : Width := 80.

Inductive CastKind := ZExt | SExt.
Inductive FCastRoundKind := FExt | UToF | SToF.
Inductive CastRoundKind := FToU | FToS.
Inductive FUnaryKind := FAbs | FpClassify | FIsFinite | FIsNan | FIsInf.
Inductive FUnaryRoundKind := FSqrt | FNearbyInt.
Inductive BinaryKind :=
| Add | Sub | Mul | UDiv | SDiv | URem | SRem | And | Or | Xor | Shl | LShr | AShr.
Inductive FBinaryRoundKind := FAdd | FSub | FMul | FDiv | FRem.
Inductive FBinaryKind := FMin | FMax.
Inductive CmpKind := Eq | Ne | Ult | Ule | Ugt | Uge | Slt | Sle | Sgt | Sge.
Inductive FCmpKind :=
| FOrd | FUno | FUeq | FOeq | FUgt | FOgt | FUge | FOge | FUlt | FOlt | FUle | FOle
| FUne | FOne.
End Expr.

(** [klee::Array]: a symbolic array, or a constant one when
    [constantValues] is not empty; a constant value is the pair of the width
    and the value of a [ConstantExpr]. *)
Record Array : Type := mkArray {
  name : string;
  size : Z;
  domain : Z;
  range : Z;
  constantValues : list (Z * Z)
}.

Definition getDomain (root : Array) : Z := domain root.
Definition getRange (root : Array) : Z := range root.
Definition isConstantArray (root : Array) : bool :=
  match constantValues root with
  | [] => false
  | _ :: _ => true
  end.

(** [UpdateNode] is the linked list of writes of an [UpdateList]; [UNull] is
    the null pointer.  [Kids] is the non-empty sequence of operands of a
    [ConcatExpr]. *)
Inductive Expr : Type :=
| ConstantExpr (width value : Z)
| FConstantExpr (width raw : Z)
| NotOptimizedExpr (src : Expr)
| ReadExpr (root : Array) (head : UpdateNode) (index : Expr)
| SelectExpr (cond trueExpr falseExpr : Expr)
| FSelectExpr (cond trueExpr falseExpr : Expr)
| ConcatExpr (width : Z) (kids : Kids)
| ExtractExpr (expr : Expr) (offset width : Z)
| CastExpr (kind : Expr.CastKind) (src : Expr) (width : Z)
| FCastRoundExpr (kind : Expr.FCastRoundKind) (src : Expr) (width : Z)
    (rm : roundingMode)
| CastRoundExpr (kind : Expr.CastRoundKind) (src : Expr) (width : Z)
    (rm : roundingMode)
| ExplicitFloatExpr (src : Expr)
| ExplicitIntExpr (src : Expr)
| FUnaryExpr (kind : Expr.FUnaryKind) (expr : Expr)
| FUnaryRoundExpr (kind : Expr.FUnaryRoundKind) (expr : Expr) (rm : roundingMode)
| NotExpr (expr : Expr)
| BinaryExpr (kind : Expr.BinaryKind) (left right : Expr)
| FBinaryRoundExpr (kind : Expr.FBinaryRoundKind) (left right : Expr)
    (rm : roundingMode)
| FBinaryExpr (kind : Expr.FBinaryKind) (left right : Expr)
| CmpExpr (kind : Expr.CmpKind) (left right : Expr)
| FCmpExpr (kind : Expr.FCmpKind) (left right : Expr)
with UpdateNode : Type :=
| UNull
| UNode (index value : Expr) (next : UpdateNode)
with Kids : Type :=
| KLast (kid : Expr)
| KCons (kid : Expr) (rest : Kids).

Scheme Expr_mut := Induction for Expr Sort Prop
  with UpdateNode_mut := Induction for UpdateNode Sort Prop
  with Kids_mut := Induction for Kids Sort Prop.

Combined Scheme Expr_mutind from Expr_mut, UpdateNode_mut, Kids_mut.

(** Expressions are compared by structure ([ExprHashMap] hashes and compares
    the expression, not the pointer).  Arrays and update nodes are hashed by
    address in the C++.  An array has a name of its own, and an update node
    is a node of the update list of one array: here the contents of the
    array stand for its address, and the array together with the contents of
    the node stand for the address of an update node. *)
Definition roundingMode_eq_dec (a b : roundingMode) : {a = b} + {a <> b}.
Proof. decide equality. Defined.

Definition Array_eq_dec (a b : Array) : {a = b} + {a <> b}.
Proof.
  decide equality; auto using Z.eq_dec, string_dec, list_eq_dec.
  apply list_eq_dec. decide equality; apply Z.eq_dec.
Defined.

Fixpoint Expr_eq_dec (a b : Expr) {struct a} : {a = b} + {a <> b}
with UpdateNode_eq_dec (a b : UpdateNode) {struct a} : {a = b} + {a <> b}
with Kids_eq_dec (a b : Kids) {struct a} : {a = b} + {a <> b}.
Proof.
  - decide equality; auto using Z.eq_dec, Array_eq_dec, roundingMode_eq_dec;
      decide equality.
  - decide equality.
  - decide equality.
Defined.

(** *** [ConstantExpr] as the builder reads it

    A [ConstantExpr] holds an [APInt]: [width] bits with unsigned value
    [value mod 2 ^ width]. *)
Definition APValue (width value : Z) : Z := value mod 2 ^ width.

(** [ConstantExpr::getZExtValue(bits)]: the value as a [uint64_t]. *)
Definition getZExtValue (width value : Z) : Z := APValue width value mod 2 ^ 64.

(** [ConstantExpr::getLimitedValue()]: the value, or [UINT64_MAX] when it
    does not fit 64 bits. *)
Definition getLimitedValue (width value : Z) : Z :=
  Z.min (APValue width value) (2 ^ 64 - 1).

(** [ConstantExpr::isTrue()] *)
Definition isTrue (width value : Z) : bool :=
  (width =? Expr.Bool) && (APValue width value =? 1).

(** [ConstantExpr::Extract(offset, width)] as a (width, value) pair. *)
Definition CE_Extract (w v : Z) (offset width : Z) : Z * Z :=
  (width, (APValue w v / 2 ^ offset) mod 2 ^ width).

(** Modelled from the spec: [bits64::isPowerOfTwo] and
    [bits64::indexOfSingleBit] of klee/util/Bits.h, which is not part of the
    sources at hand.  The spec has the lowering apply when the divisor is a
    constant power of two, [2^k], and shift by [k]. *)
Definition isPowerOfTwo (x : Z) : bool := (0 <? x) && (x =? 2 ^ Z.log2 x).
Definition indexOfSingleBit (x : Z) : Z := Z.log2 x.

(** Classification values of <math.h> (glibc) and [sizeof(int) * 8]. *)
Definition FP_NAN : Z := 0.
Definition FP_INFINITE : Z := 1.
Definition FP_ZERO : Z := 2.
Definition FP_SUBNORMAL : Z := 3.
Definition FP_NORMAL : Z := 4.
Definition sizeof_int_bits : Z := 32.
Definition INT32_MIN : Z := - 2 ^ 31.
Definition INT64_MIN : Z := - 2 ^ 63.

(** ** The builder state and its monad

    A failed [assert] and a fatal Z3 error abort the process: [Abort] with
    the message.  A computation of the builder reads and updates the caches
    of the [Z3Builder] object. *)
Inductive Result (A : Type) : Type :=
| Ok (a : A)
| Abort (msg : string).
Arguments Ok {A} a.
Arguments Abort {A} msg.

Record Z3Builder : Type := mkZ3Builder {
  constructed : list (Expr * (Z3ASTHandle * Z));
  _array_hash : list (Array * Z3ASTHandle);
  _update_node_hash : list ((Array * UpdateNode) * Z3ASTHandle);
  UseConstructHashZ3 : bool
}.

Definition M (A : Type) : Type := Z3Builder -> Result (A * Z3Builder).

Definition ret {A : Type} (a : A) : M A := fun s => Ok (a, s).

Definition bind {A B : Type} (m : M A) (f : A -> M B) : M B :=
  fun s =>
    match m s with
    | Ok (a, s') => f a s'
    | Abort msg => Abort msg
    end.

Definition abort {A : Type} (msg : string) : M A := fun _ => Abort msg.

Definition assert (b : bool) (msg : string) : M unit :=
  fun s => if b then Ok (tt, s) else Abort msg.

Definition lift {A : Type} (r : Result A) : M A :=
  fun s =>
    match r with
    | Ok a => Ok (a, s)
    | Abort msg => Abort msg
    end.

Declare Scope builder_scope.
Delimit Scope builder_scope with builder.
Notation "x <- c ;; k" := (bind c (fun x => k))
  (at level 61, c at next level, right associativity) : builder_scope.
Notation "' pat <- c ;; k" := (bind c (fun x => match x with pat => k end))
  (at level 61, pat pattern, c at next level, right associativity) : builder_scope.
Notation "c ;;; k" := (bind c (fun _ => k))
  (at level 61, right associativity) : builder_scope.
Local Open Scope builder_scope.

(** Z3 checks the sorts of the arguments when an application is built and
    reports a mismatch to the error handler of the context.  The handler
    the builder installs, [custom_z3_error_handler], prints
    "Error: Incorrect use of Z3." followed by the error code and the
    message of Z3, and aborts; [Z3_error] is the start of what it prints.
    The check is made here for the floating-point conversions, which the
    casts apply to the translation of their operand; for every other
    application it is [wellSorted] that states it. *)
Definition Z3_error : string := "Error: Incorrect use of Z3.".

Definition Z3_checked (t : Z3_ast) : Result Z3_ast :=
  match t with
  | Z3_mk_fpa d args =>
      if fpaSorted d (map Z3_get_sort args) then Ok t else Abort Z3_error
  | _ => Ok t
  end.

Definition andThen {A B : Type} (r : Result A) (f : A -> Result B) : Result B :=
  match r with
  | Ok a => f a
  | Abort msg => Abort msg
  end.

(** Cache lookups ([find] on the hash maps). *)
Fixpoint lookupExpr (e : Expr) (m : list (Expr * (Z3ASTHandle * Z)))
  : option (Z3ASTHandle * Z) :=
  match m with
  | [] => None
  | (k, v) :: m' => if Expr_eq_dec e k then Some v else lookupExpr e m'
  end.

Fixpoint lookupArrayExpr (root : Array) (m : list (Array * Z3ASTHandle))
  : option Z3ASTHandle :=
  match m with
  | [] => None
  | (k, v) :: m' => if Array_eq_dec root k then Some v else lookupArrayExpr root m'
  end.

Fixpoint lookupUpdateNodeExpr (root : Array) (un : UpdateNode)
    (m : list ((Array * UpdateNode) * Z3ASTHandle)) : option Z3ASTHandle :=
  match m with
  | [] => None
  | ((kr, ku), v) :: m' =>
      if Array_eq_dec root kr then
        if UpdateNode_eq_dec un ku then Some v else lookupUpdateNodeExpr root un m'
      else lookupUpdateNodeExpr root un m'
  end.

Definition hashArrayExpr (root : Array) (array_expr : Z3ASTHandle) : M unit :=
  fun s =>
    Ok (tt, mkZ3Builder (constructed s) ((root, array_expr) :: _array_hash s)
              (_update_node_hash s) (UseConstructHashZ3 s)).

Definition hashUpdateNodeExpr (root : Array) (un : UpdateNode)
    (un_expr : Z3ASTHandle) : M unit :=
  fun s =>
    Ok (tt, mkZ3Builder (constructed s) (_array_hash s)
              (((root, un), un_expr) :: _update_node_hash s) (UseConstructHashZ3 s)).

Definition insertConstructed (e : Expr) (res : Z3ASTHandle) (width : Z) : M unit :=
  fun s =>
    Ok (tt, mkZ3Builder ((e, (res, width)) :: constructed s) (_array_hash s)
              (_update_node_hash s) (UseConstructHashZ3 s)).

Definition clearConstructCache : M unit :=
  fun s =>
    Ok (tt, mkZ3Builder [] (_array_hash s) (_update_node_hash s)
              (UseConstructHashZ3 s)).

(** ** [constructActual], case by case

    Each case of the [switch] first translates operands and then builds its
    term from their translations.  The second half of each case is a
    function of its own here, named after the kind; [constructActual] below
    does the recursive calls in the order of the source.  [width_out] is the
    value [*width_out] holds when the case returns. *)

Definition ResW : Type := Z3ASTHandle * Z.

(** The [while (Tmp->getWidth() > 64)] loop of [case Expr::Constant]; [Tmp]
    loses 64 bits per iteration, so [width] iterations suffice. *)
Fixpoint Constant_loop (fuel : nat) (Tmp : Z * Z) (Res : Z3ASTHandle) : Z3ASTHandle :=
  match fuel with
  | O => Res
  | S fuel' =>
      if 64 <? fst Tmp then
        let Tmp' := CE_Extract (fst Tmp) (snd Tmp) 64 (fst Tmp - 64) in
        let Width := Z.min 64 (fst Tmp') in
        let chunk := CE_Extract (fst Tmp') (snd Tmp') 0 Width in
        Constant_loop fuel' Tmp'
          (concatExpr (bvConst64 Width (getZExtValue (fst chunk) (snd chunk))) Res)
      else Res
  end.

Definition constructActual_Constant (width value : Z) : ResW :=
  let width_out := width in
  (* Coerce to bool if necessary. *)
  if width_out =? 1 then ((if isTrue width value then getTrue else getFalse), width_out)
  (* Fast path. *)
  else if width_out <=? 32 then (bvConst32 width_out (getZExtValue width value), width_out)
  else if width_out <=? 64 then (bvConst64 width_out (getZExtValue width value), width_out)
  else
    let Tmp := (width, value) in
    let low := CE_Extract width value 0 64 in
    let Res := bvConst64 64 (getZExtValue (fst low) (snd low)) in
    (Constant_loop (Z.to_nat width) Tmp Res, width_out).

(** The sort FP(15,64) of the number of an 80-bit float, and the array
    constant every F80 encoding is written into. *)
Definition sortF80 : Z3SortHandle := Z3_mk_fpa_sort 15 64.
Definition sortF80Array : Z3_sort := getArraySort (getBvSort 1) sortF80.

Definition arrF80 : Z3ASTHandle :=
  Z3_mk_const "[F80, unnormal]" (getArraySort (getBvSort 1) sortF80).

Definition packF80 (number sentinel : Z3ASTHandle) : Z3ASTHandle :=
  let arr := arrF80 in
  let arr := writeExpr arr (bvZero 1) number in
  writeExpr arr (bvOne 1) sentinel.

Definition constructActual_FConstant (width raw : Z) : Result ResW :=
  let width_out := width in
  if width_out =? Expr.Fl32 then
    Ok (Z3_mk_fpa_numeral_float (APValue width raw) Z3_mk_fpa_sort_32, width_out)
  else if width_out =? Expr.Fl64 then
    Ok (Z3_mk_fpa_numeral_double (APValue width raw) Z3_mk_fpa_sort_64, width_out)
  else if width_out =? Expr.Fl80 then
    let raw0 := APValue width raw mod 2 ^ 64 in
    let raw1 := APValue width raw / 2 ^ 64 in
    let sign := Z.land (Z.shiftr raw1 15) 1 in
    let exp := Z.land raw1 32767 in
    let mnt := raw0 in
    let correctHiddenBit :=
      Bool.eqb (exp =? 0) (Z.land (Z.shiftr mnt 63) 1 =? 0) in
    let mnt := Z.land mnt 9223372036854775807 in
    (* Z3_mk_unsigned_int takes an [unsigned]: the mantissa is truncated *)
    let conv :=
      Z3_mk_fpa_fp (Z3_mk_unsigned_int sign (Z3_mk_bv_sort 1))
        (Z3_mk_unsigned_int exp (Z3_mk_bv_sort 15))
        (Z3_mk_unsigned_int (mnt mod 2 ^ 32) (Z3_mk_bv_sort 63)) in
    let sort := sortF80 in
    if correctHiddenBit then Ok (packF80 conv (fpZero sort), width_out)
    else Ok (packF80 conv (fpNan sort), width_out)
  else
    (* no case of the inner switch returns: control falls into
       [case Expr::NotOptimized], whose cast fails *)
    Abort "cast<NotOptimizedExpr>() argument of incompatible type!".

Definition constructActual_Extract (src : Z3ASTHandle) (offset width : Z) : ResW :=
  let width_out := width in
  if width_out =? 1 then (bvBoolExtract src offset, width_out)
  else (bvExtract src (offset + width_out - 1) offset, width_out).

Definition bvSignExtend (src : Z3ASTHandle) (width : Z) : Result Z3ASTHandle :=
  let src_width := Z3_get_bv_sort_size (Z3_get_sort src) in
  if src_width <=? width then Ok (Z3_mk_sign_ext (width - src_width) src)
  else Abort "attempted to extend longer data".

Definition iffExpr (lhs rhs : Z3ASTHandle) : Result Z3ASTHandle :=
  let lhsSort := Z3_get_sort lhs in
  let rhsSort := Z3_get_sort rhs in
  if negb (Z3_sort_kind_eqb (Z3_get_sort_kind lhsSort) (Z3_get_sort_kind rhsSort))
  then Abort "lhs and rhs sorts must match"
  else if negb (Z3_sort_kind_eqb (Z3_get_sort_kind lhsSort) Z3_BOOL_SORT)
  then Abort "args must have BOOL sort"
  else Ok (Z3_mk_iff lhs rhs).

Definition constructActual_ZExt (src : Z3ASTHandle) (srcWidth width : Z) : ResW :=
  let width_out := width in
  if srcWidth =? 1 then (iteExpr src (bvOne width_out) (bvZero width_out), width_out)
  else (concatExpr (bvZero (width_out - srcWidth)) src, width_out).

Definition constructActual_SExt (src : Z3ASTHandle) (srcWidth width : Z)
  : Result ResW :=
  let width_out := width in
  if srcWidth =? 1
  then Ok (iteExpr src (bvMinusOne width_out) (bvZero width_out), width_out)
  else
    match bvSignExtend src width_out with
    | Ok r => Ok (r, width_out)
    | Abort msg => Abort msg
    end.

(** The [switch] on [*width_out] that picks the float sort of a cast to 16, 32,
    64 or 128 bits.  For any other width the [Z3SortHandle] stays null and
    Z3 fails on it. *)
Definition castSort (width_out : Z) : option Z3SortHandle :=
  if width_out =? 16 then Some Z3_mk_fpa_sort_16
  else if width_out =? Expr.Fl32 then Some Z3_mk_fpa_sort_32
  else if width_out =? Expr.Fl64 then Some Z3_mk_fpa_sort_64
  else if width_out =? 128 then Some Z3_mk_fpa_sort_128
  else None.

Definition constructActual_FExt (src : Z3ASTHandle) (srcWidth width : Z)
    (rm : roundingMode) : Result ResW :=
  let width_out := width in
  if width_out =? Expr.Fl80 then
    let sort := sortF80 in
    andThen (Z3_checked (Z3_mk_fpa_to_fp_float (getRoundingModeAST rm) src sort))
      (fun conv => Ok (packF80 conv (fpZero sort), width_out))
  else
    match castSort width_out with
    | None => Abort "null sort"
    | Some sort =>
        (* casting unnormal f80s results in NaN *)
        if srcWidth =? Expr.Fl80 then
          let wrongHiddenBit := isNanExpr (readExpr src (bvOne 1)) in
          let src := readExpr src (bvZero 1) in
          andThen (Z3_checked (Z3_mk_fpa_to_fp_float (getRoundingModeAST rm) src sort))
            (fun conv => Ok (iteExpr wrongHiddenBit (fpNan sort) conv, width_out))
        else
          andThen (Z3_checked (Z3_mk_fpa_to_fp_float (getRoundingModeAST rm) src sort))
            (fun conv => Ok (conv, width_out))
    end.

Definition constructActual_FToU (src : Z3ASTHandle) (srcWidth width : Z)
    (rm : roundingMode) : Result ResW :=
  let width_out := width in
  (* casting unnormal f80s results in 0 *)
  if srcWidth =? Expr.Fl80 then
    let wrongHiddenBit := isNanExpr (readExpr src (bvOne 1)) in
    let src := readExpr src (bvZero 1) in
    andThen (Z3_checked (Z3_mk_fpa_to_ubv (getRoundingModeAST rm) src width_out))
      (fun conv => Ok (iteExpr wrongHiddenBit (bvZero width_out) conv, width_out))
  else
    andThen (Z3_checked (Z3_mk_fpa_to_ubv (getRoundingModeAST rm) src width_out))
      (fun conv => Ok (conv, width_out)).

(** At source width 80 the conversion is applied to [src], the F80 array,
    and not to [num]. *)
Definition constructActual_FToS (src : Z3ASTHandle) (srcWidth width : Z)
    (rm : roundingMode) : Result ResW :=
  let width_out := width in
  (* casting unnormal f80s results in 0 for char and short, in the least
     value for int and long long *)
  if srcWidth =? Expr.Fl80 then
    let num := readExpr src (bvZero 1) in
    let wrongHiddenBit := isNanExpr (readExpr src (bvOne 1)) in
    if width_out =? Expr.Int32 then
      andThen (Z3_checked (Z3_mk_fpa_to_sbv (getRoundingModeAST rm) src Expr.Int32))
        (fun conv =>
           Ok (iteExpr wrongHiddenBit (bvSExtConst Expr.Int32 INT32_MIN) conv, width_out))
    else if width_out =? Expr.Int64 then
      andThen (Z3_checked (Z3_mk_fpa_to_sbv (getRoundingModeAST rm) src Expr.Int64))
        (fun conv =>
           Ok (iteExpr wrongHiddenBit (bvSExtConst Expr.Int64 INT64_MIN) conv, width_out))
    else
      andThen (Z3_checked (Z3_mk_fpa_to_sbv (getRoundingModeAST rm) src width_out))
        (fun conv => Ok (iteExpr wrongHiddenBit (bvZero width_out) conv, width_out))
  else
    andThen (Z3_checked (Z3_mk_fpa_to_sbv (getRoundingModeAST rm) src width_out))
      (fun conv => Ok (conv, width_out)).

Definition constructActual_UToF (src : Z3ASTHandle) (width : Z)
    (rm : roundingMode) : Result ResW :=
  let width_out := width in
  if width_out =? Expr.Fl80 then
    let sort := sortF80 in
    andThen (Z3_checked (Z3_mk_fpa_to_fp_unsigned (getRoundingModeAST rm) src sort))
      (fun conv => Ok (packF80 conv (fpZero sort), width_out))
  else
    match castSort width_out with
    | None => Abort "null sort"
    | Some sort =>
        andThen (Z3_checked (Z3_mk_fpa_to_fp_unsigned (getRoundingModeAST rm) src sort))
          (fun conv => Ok (conv, width_out))
    end.

Definition constructActual_SToF (src : Z3ASTHandle) (width : Z)
    (rm : roundingMode) : Result ResW :=
  let width_out := width in
  if width_out =? Expr.Fl80 then
    let sort := sortF80 in
    andThen (Z3_checked (Z3_mk_fpa_to_fp_unsigned (getRoundingModeAST rm) src sort))
      (fun conv => Ok (packF80 conv (fpZero sort), width_out))
  else
    match castSort width_out with
    | None => Abort "null sort"
    | Some sort =>
        andThen (Z3_checked (Z3_mk_fpa_to_fp_signed (getRoundingModeAST rm) src sort))
          (fun conv => Ok (conv, width_out))
    end.

Definition constructActual_ExplicitFloat (src : Z3ASTHandle) (width_out : Z)
  : Result ResW :=
  if width_out =? Expr.Fl80 then
    (* turn the 80-bit bitvector into a 79-bit one, discarding the 63rd bit *)
    let sort := sortF80 in
    let sign := extractExpr 79 79 src in
    let exp := extractExpr 78 64 src in
    let hiddenBit := extractExpr 63 63 src in
    let mnt := extractExpr 62 0 src in
    let correctHiddenBit :=
      eqExpr hiddenBit
        (iteExpr (eqExpr (bvRedorExpr exp) (bvZero 1)) (bvZero 1) (bvOne 1)) in
    andThen (Z3_checked (Z3_mk_fpa_to_fp_bv (concatExpr3 sign exp mnt) sort))
      (fun conv =>
         Ok (packF80 conv (iteExpr correctHiddenBit (fpZero sort) (fpNan sort)),
             width_out))
  else
    match castSort width_out with
    | None => Abort "null sort"
    | Some sort =>
        andThen (Z3_checked (Z3_mk_fpa_to_fp_bv src sort))
          (fun conv => Ok (conv, width_out))
    end.

(** The conversion is applied to [src] at every width, at width 80 to the
    F80 array. *)
Definition constructActual_ExplicitInt (src : Z3ASTHandle) (width_out : Z)
  : Result ResW :=
  andThen (Z3_checked (Z3_mk_fpa_to_ieee_bv src))
    (fun ret =>
       if width_out =? Expr.Fl80 then
         let sign := extractExpr 78 78 ret in
         let exp := extractExpr 77 63 ret in
         let mnt := extractExpr 62 0 ret in
         (* if the exponent is all zeros, bit 63 has to be 0, else it has to be 1 *)
         let ite :=
           iteExpr (eqExpr (bvRedorExpr exp) (bvZero 1)) (bvZero 1) (bvOne 1) in
         Ok (concatExpr4 sign exp ite mnt, width_out)
       else Ok (ret, width_out)).

(** The assertion of the floating-point cases on the operand width. *)
Definition isFloatWidth (width_out : Z) : bool :=
  (width_out =? Expr.Int32) || (width_out =? Expr.Int64) || (width_out =? Expr.Fl80).

Definition constructActual_FAbs (expr : Z3ASTHandle) (width_out : Z) : Result ResW :=
  if negb (isFloatWidth width_out) then Abort "non-float argument to FAbs"
  (* fabs doesn't care about unnormal f80s - probably just sets the sign bit
     without reading the rest *)
  else if width_out =? Expr.Fl80 then
    Ok (writeExpr expr (bvZero 1) (Z3_mk_fpa_abs (readExpr expr (bvZero 1))), width_out)
  else Ok (Z3_mk_fpa_abs expr, width_out).

Definition constructActual_FpClassify (expr : Z3ASTHandle) (width_out : Z)
  : Result ResW :=
  if negb (isFloatWidth width_out) then Abort "non-float argument to FpClassify"
  else
    (* classification functions don't care about unnormal f80s *)
    let expr := if width_out =? Expr.Fl80 then readExpr expr (bvZero 1) else expr in
    let width_out := sizeof_int_bits in
    Ok (iteExpr (isNanExpr expr) (bvSExtConst width_out FP_NAN)
          (iteExpr (isInfinityExpr expr) (bvSExtConst width_out FP_INFINITE)
             (iteExpr (isFPZeroExpr expr) (bvSExtConst width_out FP_ZERO)
                (iteExpr (isSubnormalExpr expr) (bvSExtConst width_out FP_SUBNORMAL)
                   (bvSExtConst width_out FP_NORMAL)))), width_out).

Definition constructActual_FIsFinite (expr : Z3ASTHandle) (width_out : Z)
  : Result ResW :=
  if negb (isFloatWidth width_out) then Abort "non-float argument to FIsFinite"
  else
    let expr := if width_out =? Expr.Fl80 then readExpr expr (bvZero 1) else expr in
    let width_out := sizeof_int_bits in
    Ok (iteExpr (orExpr (isNanExpr expr) (isInfinityExpr expr))
          (bvZero width_out) (bvOne width_out), width_out).

Definition constructActual_FIsNan (expr : Z3ASTHandle) (width_out : Z)
  : Result ResW :=
  if negb (isFloatWidth width_out) then Abort "non-float argument to FIsNan"
  else
    let expr := if width_out =? Expr.Fl80 then readExpr expr (bvZero 1) else expr in
    let width_out := sizeof_int_bits in
    Ok (iteExpr (isNanExpr expr) (bvOne width_out) (bvZero width_out), width_out).

Definition constructActual_FIsInf (expr : Z3ASTHandle) (width_out : Z)
  : Result ResW :=
  if negb (isFloatWidth width_out) then Abort "non-float argument to FIsInf"
  (* isinf does care about unnormal f80s for some reason *)
  else if width_out =? Expr.Fl80 then
    let width_out := sizeof_int_bits in
    let wrongHiddenBit := isNanExpr (readExpr expr (bvOne 1)) in
    let expr := readExpr expr (bvZero 1) in
    Ok (iteExpr wrongHiddenBit (bvZero width_out)
          (iteExpr (isInfinityExpr expr)
             (iteExpr (isFPNegativeExpr expr) (bvMinusOne width_out) (bvOne width_out))
             (bvZero width_out)), width_out)
  else
    let width_out := sizeof_int_bits in
    Ok (iteExpr (isInfinityExpr expr)
          (iteExpr (isFPNegativeExpr expr) (bvMinusOne width_out) (bvOne width_out))
          (bvZero width_out), width_out).

(** [FSqrt] and [FNearbyInt] differ in the Z3 operation [op] only. *)
Definition fpUnaryRound (msg : string) (op : Z3_ast -> Z3_ast -> Z3_ast)
    (expr : Z3ASTHandle) (width_out : Z) (rm : roundingMode) : Result ResW :=
  if negb (isFloatWidth width_out) then Abort msg
  else if width_out =? Expr.Fl80 then
    let sort := sortF80 in
    let wrongHiddenBit := isNanExpr (readExpr expr (bvOne 1)) in
    let expr := readExpr expr (bvZero 1) in
    let result := iteExpr wrongHiddenBit (fpNan sort) (op (getRoundingModeAST rm) expr) in
    Ok (packF80 result (fpZero sort), width_out)
  else Ok (op (getRoundingModeAST rm) expr, width_out).

Definition constructActual_FSqrt :=
  fpUnaryRound "non-float argument to FSqrt" Z3_mk_fpa_sqrt.
Definition constructActual_FNearbyInt :=
  fpUnaryRound "non-float argument to FNearbyInt" Z3_mk_fpa_round_to_integral.

(** [Add], [Sub], [Mul], [UDiv], [SDiv], [URem], [SRem] end alike: the
    bitvector operation and the width check of the result. *)
Definition bvArith (op : Z3_ast -> Z3_ast -> Z3_ast) (left right : Z3ASTHandle)
    (width_out : Z) : Result ResW :=
  let result := op left right in
  if getBVLength result =? width_out then Ok (result, width_out)
  else Abort "width mismatch".

Definition constructActual_Add (left right : Z3ASTHandle) (width_out : Z)
  : Result ResW :=
  if width_out =? 1 then Abort "uncanonicalized add"
  else bvArith Z3_mk_bvadd left right width_out.

Definition constructActual_Sub (left right : Z3ASTHandle) (width_out : Z)
  : Result ResW :=
  if width_out =? 1 then Abort "uncanonicalized sub"
  else bvArith Z3_mk_bvsub left right width_out.

Definition constructActual_SRem (left right : Z3ASTHandle) (width_out : Z)
  : Result ResW :=
  if width_out =? 1 then Abort "uncanonicalized srem"
  else bvArith Z3_mk_bvsrem left right width_out.

Definition constructActual_And (left right : Z3ASTHandle) (width_out : Z) : ResW :=
  if width_out =? 1 then (andExpr left right, width_out)
  else (bvAndExpr left right, width_out).

Definition constructActual_Or (left right : Z3ASTHandle) (width_out : Z) : ResW :=
  if width_out =? 1 then (orExpr left right, width_out)
  else (bvOrExpr left right, width_out).

Definition constructActual_Xor (left right : Z3ASTHandle) (width_out : Z) : ResW :=
  if width_out =? 1 then (iteExpr left (notExpr right) right, width_out)
  else (bvXorExpr left right, width_out).

Definition constructActual_Not (expr : Z3ASTHandle) (width_out : Z) : ResW :=
  if width_out =? 1 then (notExpr expr, width_out)
  else (bvNotExpr expr, width_out).

(** The power-of-two test of [UDiv] and [URem] on the divisor expression:
    the shift count when the divisor is a [ConstantExpr] of at most 64 bits
    whose value is a power of two. *)
Definition constantPowerOfTwo (right : Expr) : option Z :=
  match right with
  | ConstantExpr cw cv =>
      if cw <=? 64 then
        let divisor := getZExtValue cw cv in
        if isPowerOfTwo divisor then Some (indexOfSingleBit divisor) else None
      else None
  | _ => None
  end.

Definition constructActual_URem_pow2 (left : Z3ASTHandle) (width_out bits : Z)
  : ResW :=
  (* special case for modding by 1 or else we bvExtract -1:0 *)
  if bits =? 0 then (bvZero width_out, width_out)
  else (concatExpr (bvZero (width_out - bits)) (bvExtract left (bits - 1) 0), width_out).

(** [FAdd], [FSub], [FMul], [FDiv], [FRem] differ in the Z3 operation only
    ([FRem] takes no rounding mode). *)
Definition isFloatWidth2 (width_out : Z) : bool :=
  (width_out =? Expr.Fl32) || (width_out =? Expr.Fl64) || (width_out =? Expr.Fl80).

Definition fpArith (msg : string) (op : Z3_ast -> Z3_ast -> Z3_ast)
    (left right : Z3ASTHandle) (width_out : Z) : Result ResW :=
  if negb (isFloatWidth2 width_out) then Abort msg
  else if width_out =? Expr.Fl80 then
    let sort := sortF80 in
    let wrongHiddenBit :=
      orExpr (isNanExpr (readExpr left (bvOne 1))) (isNanExpr (readExpr right (bvOne 1))) in
    let left := readExpr left (bvZero 1) in
    let right := readExpr right (bvZero 1) in
    let result := iteExpr wrongHiddenBit (fpNan sort) (op left right) in
    Ok (packF80 result (fpZero sort), width_out)
  else Ok (op left right, width_out).

Definition constructActual_FAdd left right width_out (rm : roundingMode) :=
  fpArith "non-float argument to FAdd" (Z3_mk_fpa_add (getRoundingModeAST rm))
    left right width_out.
Definition constructActual_FSub left right width_out (rm : roundingMode) :=
  fpArith "non-float argument to FSub" (Z3_mk_fpa_sub (getRoundingModeAST rm))
    left right width_out.
Definition constructActual_FMul left right width_out (rm : roundingMode) :=
  fpArith "non-float argument to FMul" (Z3_mk_fpa_mul (getRoundingModeAST rm))
    left right width_out.
Definition constructActual_FDiv left right width_out (rm : roundingMode) :=
  fpArith "non-float argument to FDiv" (Z3_mk_fpa_div (getRoundingModeAST rm))
    left right width_out.
Definition constructActual_FRem left right width_out (rm : roundingMode) :=
  fpArith "non-float argument to FRem" Z3_mk_fpa_rem left right width_out.

(** fmin/fmax is weird with unnormal f80s - if one operand is unnormal it
    returns the other operand, if both are unnormal it returns the left one *)
Definition fpMinMax (msg : string) (op : Z3_ast -> Z3_ast -> Z3_ast)
    (left right : Z3ASTHandle) (width_out : Z) : Result ResW :=
  if negb (isFloatWidth2 width_out) then Abort msg
  else if width_out =? Expr.Fl80 then
    let sort := sortF80 in
    let wrongHiddenBitLeft := isNanExpr (readExpr left (bvOne 1)) in
    let wrongHiddenBitRight := isNanExpr (readExpr right (bvOne 1)) in
    let left := readExpr left (bvZero 1) in
    let right := readExpr right (bvZero 1) in
    let result :=
      iteExpr wrongHiddenBitLeft (iteExpr wrongHiddenBitRight left right)
        (iteExpr wrongHiddenBitRight left (op left right)) in
    Ok (packF80 result (fpZero sort), width_out)
  else Ok (op left right, width_out).

Definition constructActual_FMin := fpMinMax "non-float argument to FMin" Z3_mk_fpa_min.
Definition constructActual_FMax := fpMinMax "non-float argument to FMax" Z3_mk_fpa_max.

(** [Eq]; [ee_left] is the left operand expression [ee->left]. *)
Definition constructActual_Eq (ee_left : Expr) (left right : Z3ASTHandle)
    (width_out : Z) : Result ResW :=
  if width_out =? 1 then
    match ee_left with
    | ConstantExpr cw cv =>
        if isTrue cw cv then Ok (right, width_out)
        else Ok (notExpr right, width_out)
    | _ =>
        match iffExpr left right with
        | Ok r => Ok (r, width_out)
        | Abort msg => Abort msg
        end
    end
  else Ok (eqExpr left right, 1).

(** [Ult], [Ule], [Slt], [Sle] *)
Definition bvCompare (msg : string) (op : Z3_ast -> Z3_ast -> Z3_ast)
    (left right : Z3ASTHandle) (width_out : Z) : Result ResW :=
  if width_out =? 1 then Abort msg else Ok (op left right, 1).

Definition constructActual_Ult := bvCompare "uncanonicalized ult" bvLtExpr.
Definition constructActual_Ule := bvCompare "uncanonicalized ule" bvLeExpr.
Definition constructActual_Slt := bvCompare "uncanonicalized slt" sbvLtExpr.
Definition constructActual_Sle := bvCompare "uncanonicalized sle" sbvLeExpr.

(** *** Floating-point comparison *)

(** [wrongHiddenBit] of a comparison at width 80 *)
Definition wrongHiddenBit2 (left right : Z3ASTHandle) : Z3ASTHandle :=
  orExpr (isNanExpr (readExpr left (bvOne 1))) (isNanExpr (readExpr right (bvOne 1))).

Definition constructActual_FOrd (left right : Z3ASTHandle) (width_out : Z)
  : Result ResW :=
  if negb (isFloatWidth2 width_out) then Abort "non-float argument to FOrd"
  else
    (* don't care about unnormal f80s, just act like isnan *)
    let left := if width_out =? Expr.Fl80 then readExpr left (bvZero 1) else left in
    let right := if width_out =? Expr.Fl80 then readExpr right (bvZero 1) else right in
    Ok (andExpr (notExpr (isNanExpr left)) (notExpr (isNanExpr right)), 1).

Definition constructActual_FUno (left right : Z3ASTHandle) (width_out : Z)
  : Result ResW :=
  if negb (isFloatWidth2 width_out) then Abort "non-float argument to FUno"
  else
    let left := if width_out =? Expr.Fl80 then readExpr left (bvZero 1) else left in
    let right := if width_out =? Expr.Fl80 then readExpr right (bvZero 1) else right in
    Ok (orExpr (isNanExpr left) (isNanExpr right), 1).

(** [FUeq], [FUgt], [FUge], [FUlt], [FUle] differ in the Z3 comparison only. *)
Definition fcmpUnordered (msg : string) (op : Z3_ast -> Z3_ast -> Z3_ast)
    (left right : Z3ASTHandle) (width_out : Z) : Result ResW :=
  if negb (isFloatWidth2 width_out) then Abort msg
  else if width_out =? Expr.Fl80 then
    let wrongHiddenBit := wrongHiddenBit2 left right in
    let left := readExpr left (bvZero 1) in
    let right := readExpr right (bvZero 1) in
    Ok (andExpr (notExpr wrongHiddenBit)
          (orExpr3 (isNanExpr left) (isNanExpr right) (op left right)), 1)
  else Ok (orExpr3 (isNanExpr left) (isNanExpr right) (op left right), 1).

(** [FOeq], [FOgt], [FOge], [FOlt], [FOle] differ in the Z3 comparison only. *)
Definition fcmpOrdered (msg : string) (op : Z3_ast -> Z3_ast -> Z3_ast)
    (left right : Z3ASTHandle) (width_out : Z) : Result ResW :=
  if negb (isFloatWidth2 width_out) then Abort msg
  else if width_out =? Expr.Fl80 then
    let wrongHiddenBit := wrongHiddenBit2 left right in
    let left := readExpr left (bvZero 1) in
    let right := readExpr right (bvZero 1) in
    Ok (andExpr (notExpr wrongHiddenBit) (op left right), 1)
  else Ok (op left right, 1).

Definition constructActual_FUeq := fcmpUnordered "non-float argument to FUeq" Z3_mk_fpa_eq.
Definition constructActual_FOeq := fcmpOrdered "non-float argument to FOeq" Z3_mk_fpa_eq.
Definition constructActual_FUgt := fcmpUnordered "non-float argument to FUgt" Z3_mk_fpa_gt.
Definition constructActual_FOgt := fcmpOrdered "non-float argument to FOgt" Z3_mk_fpa_gt.
Definition constructActual_FUge := fcmpUnordered "non-float argument to FUge" Z3_mk_fpa_geq.
Definition constructActual_FOge := fcmpOrdered "non-float argument to FOge" Z3_mk_fpa_geq.
Definition constructActual_FUlt := fcmpUnordered "non-float argument to FUlt" Z3_mk_fpa_lt.
Definition constructActual_FOlt := fcmpOrdered "non-float argument to FOlt" Z3_mk_fpa_lt.
Definition constructActual_FUle := fcmpUnordered "non-float argument to FUle" Z3_mk_fpa_leq.
Definition constructActual_FOle := fcmpOrdered "non-float argument to FOle" Z3_mk_fpa_leq.

Definition constructActual_FUne (left right : Z3ASTHandle) (width_out : Z)
  : Result ResW :=
  if negb (isFloatWidth2 width_out) then Abort "non-float argument to FUne"
  else if width_out =? Expr.Fl80 then
    let wrongHiddenBit := wrongHiddenBit2 left right in
    let left := readExpr left (bvZero 1) in
    let right := readExpr right (bvZero 1) in
    (* != is the only comparison that is true for unnormal f80s *)
    Ok (orExpr wrongHiddenBit (notExpr (Z3_mk_fpa_eq left right)), 1)
  else Ok (notExpr (Z3_mk_fpa_eq left right), 1).

Definition constructActual_FOne (left right : Z3ASTHandle) (width_out : Z)
  : Result ResW :=
  if negb (isFloatWidth2 width_out) then Abort "non-float argument to FOne"
  else if width_out =? Expr.Fl80 then
    let wrongHiddenBit := wrongHiddenBit2 left right in
    let left := readExpr left (bvZero 1) in
    let right := readExpr right (bvZero 1) in
    (* != is the only comparison that is true for unnormal f80s *)
    Ok (orExpr wrongHiddenBit
          (notExpr (orExpr3 (isNanExpr left) (isNanExpr right)
                      (Z3_mk_fpa_eq left right))), 1)
  else
    Ok (notExpr (orExpr3 (isNanExpr left) (isNanExpr right)
                   (Z3_mk_fpa_eq left right)), 1).

(** ** Arrays and update chains *)

Definition itostr (n : nat) : string := NilZero.string_of_uint (Nat.to_uint n).

(** The loop of [getInitialArray] that flushes the values of a constant
    array; [construct] on a [ConstantExpr] goes straight to the [Constant]
    case of [constructActual] and leaves the caches alone.  Reading
    [constantValues] beyond its end has no defined result: [Abort]. *)
Fixpoint getInitialArray_loop (n : nat) (i : Z) (root : Array)
    (array_expr : Z3ASTHandle) : Result Z3ASTHandle :=
  match n with
  | O => Ok array_expr
  | S n' =>
      match nth_error (constantValues root) (Z.to_nat i) with
      | None => Abort "constantValues index out of range"
      | Some (cw, cv) =>
          let prev := array_expr in
          getInitialArray_loop n' (i + 1) root
            (writeExpr prev (fst (constructActual_Constant (getDomain root) i))
               (fst (constructActual_Constant cw cv)))
      end
  end.

Definition getInitialArray (root : Array) : M Z3ASTHandle :=
  fun s =>
    match lookupArrayExpr root (_array_hash s) with
    | Some array_expr => Ok (array_expr, s)
    | None =>
        (* Unique arrays by name, so we make sure the name is unique by
           using the size of the array hash as a counter. *)
        let unique_id := itostr (List.length (_array_hash s)) in
        let uid_length := String.length unique_id in
        let space :=
          if (32 - uid_length <? String.length (name root))%nat
          then (32 - uid_length)%nat
          else String.length (name root) in
        let unique_name := String.append (String.substring 0 space (name root)) unique_id in
        let array_expr := buildArray unique_name (getDomain root) (getRange root) in
        let flushed :=
          if isConstantArray root
          then getInitialArray_loop (Z.to_nat (size root)) 0 root array_expr
          else Ok array_expr in
        match flushed with
        | Ok array_expr => (hashArrayExpr root array_expr ;;; ret array_expr) s
        | Abort msg => Abort msg
        end
    end.

Definition getInitialRead (root : Array) (index : Z) : M Z3ASTHandle :=
  arr <- getInitialArray root ;; ret (readExpr arr (bvConst32 32 index)).

(** ** [construct] and [constructActual] *)

Definition isa_ConstantExpr (e : Expr) : bool :=
  match e with
  | ConstantExpr _ _ => true
  | _ => false
  end.

(** [construct], with the function it memoises as a parameter. *)
Definition construct_with (constructActual : Expr -> M ResW) (e : Expr) : M ResW :=
  fun s =>
    if negb (UseConstructHashZ3 s) || isa_ConstantExpr e then constructActual e s
    else
      match lookupExpr e (constructed s) with
      | Some (res, width) => Ok ((res, width), s)
      | None =>
          ('(res, width_out) <- constructActual e ;;
           insertConstructed e res width_out ;;;
           ret (res, width_out)) s
      end.

(** The shift amount of a constant shift: [(unsigned)CE->getLimitedValue()]. *)
Definition constantShift (right : Expr) : option Z :=
  match right with
  | ConstantExpr cw cv => Some (getLimitedValue cw cv mod 2 ^ 32)
  | _ => None
  end.

(** Operands that are arguments of one call ([readExpr], [writeExpr]) are
    translated left to right.  The statistics counter
    [stats::queryConstructs], which the function increments on entry and
    never reads, is left out of the state. *)
Fixpoint constructActual (e : Expr) : M ResW :=
  let construct := construct_with constructActual in
  match e with
  | ConstantExpr width value => ret (constructActual_Constant width value)
  | FConstantExpr width raw => lift (constructActual_FConstant width raw)
  (* Special *)
  | NotOptimizedExpr src => construct src
  | ReadExpr root head index =>
      arr <- getArrayForUpdate root head ;;
      '(idx, _) <- construct index ;;
      ret (readExpr arr idx, getRange root)
  | SelectExpr cond trueExpr falseExpr
  | FSelectExpr cond trueExpr falseExpr =>
      '(cond, _) <- construct cond ;;
      '(tExpr, _) <- construct trueExpr ;;
      '(fExpr, width_out) <- construct falseExpr ;;
      ret (iteExpr cond tExpr fExpr, width_out)
  | ConcatExpr width kids =>
      res <- constructKids kids ;;
      ret (res, width)
  | ExtractExpr expr offset width =>
      '(src, _) <- construct expr ;;
      ret (constructActual_Extract src offset width)
  (* Casting *)
  | CastExpr Expr.ZExt src width =>
      '(src, srcWidth) <- construct src ;;
      ret (constructActual_ZExt src srcWidth width)
  | CastExpr Expr.SExt src width =>
      '(src, srcWidth) <- construct src ;;
      lift (constructActual_SExt src srcWidth width)
  | FCastRoundExpr Expr.FExt src width rm =>
      '(src, srcWidth) <- construct src ;;
      lift (constructActual_FExt src srcWidth width rm)
  | CastRoundExpr Expr.FToU src width rm =>
      '(src, srcWidth) <- construct src ;;
      lift (constructActual_FToU src srcWidth width rm)
  | CastRoundExpr Expr.FToS src width rm =>
      '(src, srcWidth) <- construct src ;;
      lift (constructActual_FToS src srcWidth width rm)
  | FCastRoundExpr Expr.UToF src width rm =>
      '(src, _) <- construct src ;;
      lift (constructActual_UToF src width rm)
  | FCastRoundExpr Expr.SToF src width rm =>
      '(src, _) <- construct src ;;
      lift (constructActual_SToF src width rm)
  | ExplicitFloatExpr src =>
      '(src, width_out) <- construct src ;;
      lift (constructActual_ExplicitFloat src width_out)
  | ExplicitIntExpr src =>
      '(src, width_out) <- construct src ;;
      lift (constructActual_ExplicitInt src width_out)
  (* Floating-point special functions *)
  | FUnaryExpr kind expr =>
      '(expr, width_out) <- construct expr ;;
      lift (match kind with
            | Expr.FAbs => constructActual_FAbs expr width_out
            | Expr.FpClassify => constructActual_FpClassify expr width_out
            | Expr.FIsFinite => constructActual_FIsFinite expr width_out
            | Expr.FIsNan => constructActual_FIsNan expr width_out
            | Expr.FIsInf => constructActual_FIsInf expr width_out
            end)
  | FUnaryRoundExpr kind expr rm =>
      '(expr, width_out) <- construct expr ;;
      lift (match kind with
            | Expr.FSqrt => constructActual_FSqrt expr width_out rm
            | Expr.FNearbyInt => constructActual_FNearbyInt expr width_out rm
            end)
  (* Arithmetic *)
  | BinaryExpr Expr.Add lhs rhs =>
      '(lhs, _) <- construct lhs ;;
      '(rhs, width_out) <- construct rhs ;;
      lift (constructActual_Add lhs rhs width_out)
  | BinaryExpr Expr.Sub lhs rhs =>
      '(lhs, _) <- construct lhs ;;
      '(rhs, width_out) <- construct rhs ;;
      lift (constructActual_Sub lhs rhs width_out)
  | BinaryExpr Expr.Mul lhs rhs =>
      '(rhs, width_out) <- construct rhs ;;
      assert (negb (width_out =? 1)) "uncanonicalized mul" ;;;
      '(lhs, width_out) <- construct lhs ;;
      lift (bvArith Z3_mk_bvmul lhs rhs width_out)
  | BinaryExpr Expr.UDiv lhs rhs =>
      '(lhs, width_out) <- construct lhs ;;
      assert (negb (width_out =? 1)) "uncanonicalized udiv" ;;;
      match constantPowerOfTwo rhs with
      | Some bits => ret (bvRightShift lhs bits, width_out)
      | None =>
          '(rhs, width_out) <- construct rhs ;;
          lift (bvArith Z3_mk_bvudiv lhs rhs width_out)
      end
  | BinaryExpr Expr.SDiv lhs rhs =>
      '(lhs, width_out) <- construct lhs ;;
      assert (negb (width_out =? 1)) "uncanonicalized sdiv" ;;;
      '(rhs, width_out) <- construct rhs ;;
      lift (bvArith Z3_mk_bvsdiv lhs rhs width_out)
  | BinaryExpr Expr.URem lhs rhs =>
      '(lhs, width_out) <- construct lhs ;;
      assert (negb (width_out =? 1)) "uncanonicalized urem" ;;;
      match constantPowerOfTwo rhs with
      | Some bits => ret (constructActual_URem_pow2 lhs width_out bits)
      | None =>
          '(rhs, width_out) <- construct rhs ;;
          lift (bvArith Z3_mk_bvurem lhs rhs width_out)
      end
  | BinaryExpr Expr.SRem lhs rhs =>
      '(lhs, _) <- construct lhs ;;
      '(rhs, width_out) <- construct rhs ;;
      lift (constructActual_SRem lhs rhs width_out)
  (* Bitwise *)
  | NotExpr expr =>
      '(expr, width_out) <- construct expr ;;
      ret (constructActual_Not expr width_out)
  | BinaryExpr Expr.And lhs rhs =>
      '(lhs, _) <- construct lhs ;;
      '(rhs, width_out) <- construct rhs ;;
      ret (constructActual_And lhs rhs width_out)
  | BinaryExpr Expr.Or lhs rhs =>
      '(lhs, _) <- construct lhs ;;
      '(rhs, width_out) <- construct rhs ;;
      ret (constructActual_Or lhs rhs width_out)
  | BinaryExpr Expr.Xor lhs rhs =>
      '(lhs, _) <- construct lhs ;;
      '(rhs, width_out) <- construct rhs ;;
      ret (constructActual_Xor lhs rhs width_out)
  | BinaryExpr Expr.Shl lhs rhs =>
      '(lhs, width_out) <- construct lhs ;;
      assert (negb (width_out =? 1)) "uncanonicalized shl" ;;;
      match constantShift rhs with
      | Some shift => ret (bvLeftShift lhs shift, width_out)
      | None =>
          '(amount, shiftWidth) <- construct rhs ;;
          ret (bvVarLeftShift lhs amount, width_out)
      end
  | BinaryExpr Expr.LShr lhs rhs =>
      '(lhs, width_out) <- construct lhs ;;
      assert (negb (width_out =? 1)) "uncanonicalized lshr" ;;;
      match constantShift rhs with
      | Some shift => ret (bvRightShift lhs shift, width_out)
      | None =>
          '(amount, shiftWidth) <- construct rhs ;;
          ret (bvVarRightShift lhs amount, width_out)
      end
  | BinaryExpr Expr.AShr lhs rhs =>
      '(lhs, width_out) <- construct lhs ;;
      assert (negb (width_out =? 1)) "uncanonicalized ashr" ;;;
      match constantShift rhs with
      | Some shift =>
          let signedBool := bvBoolExtract lhs (width_out - 1) in
          ret (constructAShrByConstant lhs shift signedBool, width_out)
      | None =>
          '(amount, shiftWidth) <- construct rhs ;;
          ret (bvVarArithRightShift lhs amount, width_out)
      end
  (* Floating-point *)
  | FBinaryRoundExpr kind lhs rhs rm =>
      '(lhs, _) <- construct lhs ;;
      '(rhs, width_out) <- construct rhs ;;
      lift (match kind with
            | Expr.FAdd => constructActual_FAdd lhs rhs width_out rm
            | Expr.FSub => constructActual_FSub lhs rhs width_out rm
            | Expr.FMul => constructActual_FMul lhs rhs width_out rm
            | Expr.FDiv => constructActual_FDiv lhs rhs width_out rm
            | Expr.FRem => constructActual_FRem lhs rhs width_out rm
            end)
  | FBinaryExpr kind lhs rhs =>
      '(lhs, _) <- construct lhs ;;
      '(rhs, width_out) <- construct rhs ;;
      lift (match kind with
            | Expr.FMin => constructActual_FMin lhs rhs width_out
            | Expr.FMax => constructActual_FMax lhs rhs width_out
            end)
  (* Comparison *)
  | CmpExpr kind ee_left ee_right =>
      match kind with
      | Expr.Eq =>
          '(lhs, _) <- construct ee_left ;;
          '(rhs, width_out) <- construct ee_right ;;
          lift (constructActual_Eq ee_left lhs rhs width_out)
      | Expr.Ult =>
          '(lhs, _) <- construct ee_left ;;
          '(rhs, width_out) <- construct ee_right ;;
          lift (constructActual_Ult lhs rhs width_out)
      | Expr.Ule =>
          '(lhs, _) <- construct ee_left ;;
          '(rhs, width_out) <- construct ee_right ;;
          lift (constructActual_Ule lhs rhs width_out)
      | Expr.Slt =>
          '(lhs, _) <- construct ee_left ;;
          '(rhs, width_out) <- construct ee_right ;;
          lift (constructActual_Slt lhs rhs width_out)
      | Expr.Sle =>
          '(lhs, _) <- construct ee_left ;;
          '(rhs, width_out) <- construct ee_right ;;
          lift (constructActual_Sle lhs rhs width_out)
      (* unused due to canonicalization *)
      | Expr.Ne | Expr.Ugt | Expr.Uge | Expr.Sgt | Expr.Sge =>
          abort "unhandled Expr type"
      end
  (* Floating-point comparison *)
  | FCmpExpr kind lhs rhs =>
      '(lhs, _) <- construct lhs ;;
      '(rhs, width_out) <- construct rhs ;;
      lift (match kind with
            | Expr.FOrd => constructActual_FOrd lhs rhs width_out
            | Expr.FUno => constructActual_FUno lhs rhs width_out
            | Expr.FUeq => constructActual_FUeq lhs rhs width_out
            | Expr.FOeq => constructActual_FOeq lhs rhs width_out
            | Expr.FUgt => constructActual_FUgt lhs rhs width_out
            | Expr.FOgt => constructActual_FOgt lhs rhs width_out
            | Expr.FUge => constructActual_FUge lhs rhs width_out
            | Expr.FOge => constructActual_FOge lhs rhs width_out
            | Expr.FUlt => constructActual_FUlt lhs rhs width_out
            | Expr.FOlt => constructActual_FOlt lhs rhs width_out
            | Expr.FUle => constructActual_FUle lhs rhs width_out
            | Expr.FOle => constructActual_FOle lhs rhs width_out
            | Expr.FUne => constructActual_FUne lhs rhs width_out
            | Expr.FOne => constructActual_FOne lhs rhs width_out
            end)
  end
with getArrayForUpdate (root : Array) (un : UpdateNode) : M Z3ASTHandle :=
  let construct := construct_with constructActual in
  match un with
  | UNull => getInitialArray root
  | UNode index value next =>
      fun s =>
        match lookupUpdateNodeExpr root (UNode index value next)
                (_update_node_hash s) with
        | Some un_expr => Ok (un_expr, s)
        | None =>
            (arr <- getArrayForUpdate root next ;;
             '(i, _) <- construct index ;;
             '(v, _) <- construct value ;;
             let un_expr := writeExpr arr i v in
             hashUpdateNodeExpr root (UNode index value next) un_expr ;;;
             ret un_expr) s
        end
  end
with constructKids (kids : Kids) : M Z3ASTHandle :=
  let construct := construct_with constructActual in
  match kids with
  | KLast kid => '(res, _) <- construct kid ;; ret res
  | KCons kid rest =>
      res <- constructKids rest ;;
      '(k, _) <- construct kid ;;
      ret (concatExpr k res)
  end.

(** if [*width_out != 1] then result is a bitvector, otherwise it is a bool *)
Definition construct : Expr -> M ResW := construct_with constructActual.

(** A builder right after its constructor ran. *)
Definition newBuilder : Z3Builder := mkZ3Builder [] [] [] true.

(** ** Reference forms of the lowerings

    The terms the loops of the builder are meant to build, written by
    recursion on the structure of the result. *)

(** The demultiplexed chain
    [ite(shift == i, byConst i, ite(shift == i+1, byConst (i+1), ... dflt))]
    with [n] candidates starting at [i]. *)
Fixpoint iteChain (n : nat) (i : Z) (shift : Z3ASTHandle) (width : Z)
    (byConst : Z -> Z3ASTHandle) (dflt : Z3ASTHandle) : Z3ASTHandle :=
  match n with
  | O => dflt
  | S n' =>
      iteExpr (eqExpr shift (bvConst32 width i)) (byConst i)
        (iteChain n' (i + 1) shift width byConst dflt)
  end.

(** The 64-bit chunks of a [width]-bit value, lowest first; the last chunk
    has the width that remains. *)
Fixpoint chunks (fuel : nat) (width value : Z) : list (Z * Z) :=
  match fuel with
  | O => []
  | S fuel' =>
      if width <=? 64 then [(width, value mod 2 ^ width)]
      else (64, value mod 2 ^ 64) :: chunks fuel' (width - 64) (value / 2 ^ 64)
  end.

(** The chunks concatenated, each new chunk on the high side. *)
Definition concatChunks (cs : list (Z * Z)) : Z3ASTHandle :=
  match cs with
  | [] => bvConst64 0 0
  | c0 :: rest =>
      fold_left (fun acc c => concatExpr (bvConst64 (fst c) (snd c)) acc) rest
        (bvConst64 (fst c0) (snd c0))
  end.

(** ** Sample inputs

    Two symbolic byte arrays and reads from them, used to run the builder on
    concrete expressions. *)
Definition sampleA : Array := mkArray "A" 4 32 8 [].
Definition sampleB : Array := mkArray "B" 4 32 8 [].
Definition sampleX : Expr := ReadExpr sampleA UNull (ConstantExpr 32 0).
Definition sampleY : Expr := ReadExpr sampleB UNull (ConstantExpr 32 0).

(** An 80-bit constant with exponent [0x3FFF] and integer bit 0 (an
    unnormal), and the 80-bit constant 1.0 (integer bit 1). *)
Definition sampleUnnormal : Expr := FConstantExpr 80 (16383 * 2 ^ 64).
Definition sampleNormal : Expr := FConstantExpr 80 (16383 * 2 ^ 64 + 2 ^ 63).

(** A width-1 expression that is no constant: bit 0 of a byte read. *)
Definition sampleBit : Expr := ExtractExpr sampleX 0 1.

(** A model of the floating-point symbols on codes: NaN is the code 1,
    every other value has a code different from 1; [is_nan] tests for the
    code 1, and [fp.eq] is false on NaN. *)
Definition sampleModel : Z3_model :=
  mkModel (fun _ _ => VArr (fun _ => VBv 8 0))
    (fun d args =>
       match d, args with
       | fpa_nan _, _ => 1
       | fpa_is_nan, [VFp c] => if c =? 1 then 1 else 0
       | fpa_eq, [VFp a; VFp b] =>
           if (a =? 1) || (b =? 1) then 0 else if a =? b then 1 else 0
       | fpa_fp, [VBv _ sgn; VBv _ e; VBv _ m] => 2 + sgn + 2 * e + 65536 * m
       | _, _ => 0
       end).

(** The Z3 comparison of an ordered predicate other than [FOne], and the
    predicates an unnormal operand makes true. *)
Definition nativeCmp (kind : Expr.FCmpKind) : option (Z3_ast -> Z3_ast -> Z3_ast) :=
  match kind with
  | Expr.FOeq => Some Z3_mk_fpa_eq
  | Expr.FOgt => Some Z3_mk_fpa_gt
  | Expr.FOge => Some Z3_mk_fpa_geq
  | Expr.FOlt => Some Z3_mk_fpa_lt
  | Expr.FOle => Some Z3_mk_fpa_leq
  | _ => None
  end.

Definition isNotEqual (kind : Expr.FCmpKind) : bool :=
  match kind with
  | Expr.FUne | Expr.FOne => true
  | _ => false
  end.

(** The terms of [FOrd] and [FUno], from the numbers of the operands. *)
Definition sentinelFree (kind : Expr.FCmpKind)
  : option (Z3_ast -> Z3_ast -> Z3_ast) :=
  match kind with
  | Expr.FOrd => Some (fun L R => andExpr (notExpr (isNanExpr L)) (notExpr (isNanExpr R)))
  | Expr.FUno => Some (fun L R => orExpr (isNanExpr L) (isNanExpr R))
  | _ => None
  end.

Definition ignoresSentinel (kind : Expr.FCmpKind) : bool :=
  match kind with
  | Expr.FOrd | Expr.FUno => true
  | _ => false
  end.

(** ** The width and the type of an IR node

    Modelled from the spec: [Expr::getWidth] of klee/Expr.h, which is not
    part of the sources at hand.  The spec has every node declare a width:
    a constant, an extraction, a concatenation and a cast carry theirs; a
    read has the range of its array; a comparison has width 1
    ([Expr::Bool]); every other node has the width of its (first) operand.
    For the classifications ([FpClassify], [FIsFinite], [FIsNan],
    [FIsInf]) the spec states no width.  Their case here is the width the
    translation writes, [sizeof(int) * 8] (lines 913-1021), so that a node
    above a classification has a width; that the translation writes the
    width of a node is stated of the other nodes only (C1). *)
Fixpoint getWidth (e : Expr) : Z :=
  match e with
  | ConstantExpr width _ | FConstantExpr width _ => width
  | NotOptimizedExpr src => getWidth src
  | ReadExpr root _ _ => getRange root
  | SelectExpr _ trueExpr _ | FSelectExpr _ trueExpr _ => getWidth trueExpr
  | ConcatExpr width _ => width
  | ExtractExpr _ _ width => width
  | CastExpr _ _ width | FCastRoundExpr _ _ width _ | CastRoundExpr _ _ width _ => width
  | ExplicitFloatExpr src | ExplicitIntExpr src => getWidth src
  | FUnaryExpr Expr.FAbs expr => getWidth expr
  | FUnaryExpr _ _ => sizeof_int_bits
  | FUnaryRoundExpr _ expr _ => getWidth expr
  | NotExpr expr => getWidth expr
  | BinaryExpr _ l _ | FBinaryRoundExpr _ l _ _ | FBinaryExpr _ l _ => getWidth l
  | CmpExpr _ _ _ | FCmpExpr _ _ _ => Expr.Bool
  end.


(** Whether a node denotes a floating-point number (and not an integer). *)
Fixpoint isFloat (e : Expr) : bool :=
  match e with
  | FConstantExpr _ _ => true
  | NotOptimizedExpr src => isFloat src
  | FSelectExpr _ _ _ => true
  | FCastRoundExpr _ _ _ _ => true
  | ExplicitFloatExpr _ => true
  | FUnaryExpr Expr.FAbs _ => true
  | FUnaryRoundExpr _ _ _ => true
  | FBinaryRoundExpr _ _ _ _ | FBinaryExpr _ _ _ => true
  | _ => false
  end.

(** The sort of the translation of a node of a given type and width: an
    integer of width 1 is a Boolean and of another width a bitvector; a
    float of width 80 is the F80 array and of width 16, 32, 64 or 128 a
    floating-point term. *)
Definition intSort (w : Z) : Z3_sort :=
  if w =? 1 then Z3_mk_bool_sort else Z3_mk_bv_sort w.

Definition floatSort (w : Z) : Z3_sort :=
  if w =? Expr.Fl80 then getArraySort (getBvSort 1) sortF80
  else
    match castSort w with
    | Some sort => sort
    | None => Z3_mk_bool_sort
    end.

Definition sortOf (float : bool) (w : Z) : Z3_sort :=
  if float then floatSort w else intSort w.

Definition sortFor (e : Expr) : Z3_sort := sortOf (isFloat e) (getWidth e).

Definition arraySortOf (root : Array) : Z3_sort :=
  getArraySort (getBvSort (getDomain root)) (getBvSort (getRange root)).

(** *** Well-formed IR

    The contract of the IR the translation relies on: operands have the
    type and width their kind asks for; the integer operations other than
    the bitwise ones and [Eq] are not used at width 1 and [Ne], [Ugt],
    [Uge], [Sgt], [Sge] are not used at all (canonical form); floats have a
    width the cases of the translation handle; an array has elements wider
    than one bit and, when constant, a value for each of its cells.

    Left out with that are the nodes of width 1 whose translation is a
    1-bit vector and no Boolean, and the nodes that hand a Boolean to a
    bitvector symbol: a read of an array of 1-bit elements, [FToU] and
    [FToS] to width 1, a [Concat] with a 1-bit operand, [UToF] and [SToF]
    of a 1-bit integer.  Left out as well are the nodes on which the
    translation applies a conversion to the F80 array itself, which Z3
    rejects: [FToS] and [ExplicitInt] of an 80-bit float and [FExt] from 80
    to 80 bits. *)
Definition isCastWidth (w : Z) : bool :=
  (w =? 16) || (w =? 32) || (w =? 64) || (w =? 80) || (w =? 128).

Fixpoint kidsWidth (kids : Kids) : Z :=
  match kids with
  | KLast kid => getWidth kid
  | KCons kid rest => getWidth kid + kidsWidth rest
  end.

Definition wellFormedArray (root : Array) : bool :=
  (1 <? getRange root) &&
  (negb (isConstantArray root)
   || (Z.to_nat (size root) <=? List.length (constantValues root))%nat).

Definition intOperand (e : Expr) : bool := negb (isFloat e) && (0 <? getWidth e).
Definition floatOperand (e : Expr) : bool := isFloat e && isCastWidth (getWidth e).

Fixpoint wellFormed (e : Expr) : bool :=
  match e with
  | ConstantExpr width value => (0 <? width) && (0 <=? value) && (value <? 2 ^ width)
  | FConstantExpr width _ => isFloatWidth2 width
  | NotOptimizedExpr src => wellFormed src
  | ReadExpr root head index =>
      wellFormedArray root && wellFormedUpdates head && wellFormed index
  | SelectExpr cond trueExpr falseExpr =>
      wellFormed cond && wellFormed trueExpr && wellFormed falseExpr
      && intOperand trueExpr && intOperand falseExpr
      && (getWidth trueExpr =? getWidth falseExpr)
  | FSelectExpr cond trueExpr falseExpr =>
      wellFormed cond && wellFormed trueExpr && wellFormed falseExpr
      && floatOperand trueExpr && floatOperand falseExpr
      && (getWidth trueExpr =? getWidth falseExpr)
  | ConcatExpr width kids => wellFormedKids kids && (width =? kidsWidth kids)
  | ExtractExpr expr _ width => wellFormed expr && (0 <? width)
  | CastExpr _ src width =>
      wellFormed src && intOperand src && (getWidth src <? width)
  | FCastRoundExpr Expr.FExt src width _ =>
      wellFormed src && floatOperand src && isCastWidth width
      && negb ((getWidth src =? Expr.Fl80) && (width =? Expr.Fl80))
  | FCastRoundExpr _ src width _ =>
      wellFormed src && intOperand src && isCastWidth width && (1 <? getWidth src)
  | CastRoundExpr Expr.FToU src width _ =>
      wellFormed src && floatOperand src && (1 <? width)
  | CastRoundExpr Expr.FToS src width _ =>
      wellFormed src && floatOperand src && (1 <? width)
      && negb (getWidth src =? Expr.Fl80)
  | ExplicitFloatExpr src =>
      wellFormed src && intOperand src && isCastWidth (getWidth src)
  | ExplicitIntExpr src =>
      wellFormed src && floatOperand src && negb (getWidth src =? Expr.Fl80)
  | FUnaryExpr _ expr | FUnaryRoundExpr _ expr _ =>
      wellFormed expr && floatOperand expr && isFloatWidth (getWidth expr)
  | NotExpr expr => wellFormed expr && intOperand expr
  | BinaryExpr kind l r =>
      wellFormed l && wellFormed r && intOperand l && intOperand r
      && (getWidth l =? getWidth r)
      && match kind with
         | Expr.And | Expr.Or | Expr.Xor => true
         | _ => negb (getWidth l =? 1)
         end
  | FBinaryRoundExpr _ l r _ | FBinaryExpr _ l r | FCmpExpr _ l r =>
      wellFormed l && wellFormed r && floatOperand l && floatOperand r
      && (getWidth l =? getWidth r) && isFloatWidth2 (getWidth l)
  | CmpExpr kind l r =>
      wellFormed l && wellFormed r && intOperand l && intOperand r
      && (getWidth l =? getWidth r)
      && match kind with
         | Expr.Eq => true
         | Expr.Ult | Expr.Ule | Expr.Slt | Expr.Sle => negb (getWidth l =? 1)
         | _ => false
         end
  end
with wellFormedUpdates (un : UpdateNode) : bool :=
  match un with
  | UNull => true
  | UNode index value next =>
      wellFormed index && wellFormed value && wellFormedUpdates next
  end
with wellFormedKids (kids : Kids) : bool :=
  match kids with
  | KLast kid => wellFormed kid && negb (isFloat kid) && (1 <? getWidth kid)
  | KCons kid rest =>
      wellFormed kid && negb (isFloat kid) && (1 <? getWidth kid) && wellFormedKids rest
  end.

(** *** The caches hold what the translation builds

    Every entry of the construct cache has the width of its key and a term
    of the sort of its key; every cached array term has the array sort of
    its array. *)
Definition cachesSound (s : Z3Builder) : Prop :=
  (forall e a w, lookupExpr e (constructed s) = Some (a, w) ->
                 w = getWidth e /\ Z3_get_sort a = sortFor e) /\
  (forall root a, lookupArrayExpr root (_array_hash s) = Some a ->
                  Z3_get_sort a = arraySortOf root) /\
  (forall root un a, lookupUpdateNodeExpr root un (_update_node_hash s) = Some a ->
                     Z3_get_sort a = arraySortOf root).


(** A case of [constructActual] yields a node of type [float] and width [w]
    when it returns with that width and a term of the sort of that type and
    width. *)
Definition yields (r : ResW) (float : bool) (w : Z) : Prop :=
  snd r = w /\ Z3_get_sort (fst r) = sortOf float w.

Definition yieldsR (r : Result ResW) (float : bool) (w : Z) : Prop :=
  exists a, r = Ok (a, w) /\ Z3_get_sort a = sortOf float w.

(** [constructActual] (and [construct]) is right on a node when, from every
    state with sound caches, it returns the width of the node and a term of
    the sort of the node, and leaves the caches sound. *)
Definition constructActualOk (e : Expr) : Prop :=
  forall s, cachesSound s ->
    exists a s', constructActual e s = Ok ((a, getWidth e), s') /\
                 Z3_get_sort a = sortFor e /\ cachesSound s'.

Definition constructOk (e : Expr) : Prop :=
  forall s, cachesSound s ->
    exists a s', construct e s = Ok ((a, getWidth e), s') /\
                 Z3_get_sort a = sortFor e /\ cachesSound s'.

(** ** Further reference definitions

    Names for what the further properties below speak about. *)

(** The Z3 operation of a floating-point operation of the IR. *)

Definition fpBinaryOp (kind : Expr.FBinaryRoundKind) (rm : roundingMode)
  : Z3_ast -> Z3_ast -> Z3_ast :=
  match kind with
  | Expr.FAdd => Z3_mk_fpa_add (getRoundingModeAST rm)
  | Expr.FSub => Z3_mk_fpa_sub (getRoundingModeAST rm)
  | Expr.FMul => Z3_mk_fpa_mul (getRoundingModeAST rm)
  | Expr.FDiv => Z3_mk_fpa_div (getRoundingModeAST rm)
  | Expr.FRem => Z3_mk_fpa_rem
  end.

Definition fpMinMaxOp (kind : Expr.FBinaryKind) : Z3_ast -> Z3_ast -> Z3_ast :=
  match kind with
  | Expr.FMin => Z3_mk_fpa_min
  | Expr.FMax => Z3_mk_fpa_max
  end.

(** The models that interpret the array constant of the F80 encoding as an
    array. *)
Definition interpretsF80 (M : Z3_model) : Prop :=
  exists f, const_interp M "[F80, unnormal]" (getArraySort (getBvSort 1) sortF80) = VArr f.

(** The operations that assert [*width_out != 1], and the comparisons that
    have no case in [constructActual]. *)



(** *** The caches over time *)

(** Sizes of expressions, update lists and operand lists: an operand is
    smaller than its node, and the nodes of an update list are smaller than
    the read that carries it. *)
Fixpoint exprSize (e : Expr) : nat :=
  match e with
  | ConstantExpr _ _ | FConstantExpr _ _ => 1
  | NotOptimizedExpr src => S (exprSize src)
  | ReadExpr _ head index => S (updateSize head + exprSize index)
  | SelectExpr c t f | FSelectExpr c t f => S (exprSize c + exprSize t + exprSize f)
  | ConcatExpr _ kids => S (kidsSize kids)
  | ExtractExpr e _ _ => S (exprSize e)
  | CastExpr _ src _ | FCastRoundExpr _ src _ _ | CastRoundExpr _ src _ _ =>
      S (exprSize src)
  | ExplicitFloatExpr src | ExplicitIntExpr src => S (exprSize src)
  | FUnaryExpr _ e | FUnaryRoundExpr _ e _ | NotExpr e => S (exprSize e)
  | BinaryExpr _ l r | FBinaryRoundExpr _ l r _ | FBinaryExpr _ l r
  | CmpExpr _ l r | FCmpExpr _ l r => S (exprSize l + exprSize r)
  end
with updateSize (un : UpdateNode) : nat :=
  match un with
  | UNull => 0
  | UNode index value next => S (exprSize index + exprSize value + updateSize next)
  end
with kidsSize (kids : Kids) : nat :=
  match kids with
  | KLast kid => S (exprSize kid)
  | KCons kid rest => S (exprSize kid + kidsSize rest)
  end.

(** [s'] extends [s]: the hashing switch is as it was and every entry of the
    three caches of [s] is in [s'], unchanged. *)
Definition cacheExtends (s s' : Z3Builder) : Prop :=
  UseConstructHashZ3 s' = UseConstructHashZ3 s /\
  (forall e v, lookupExpr e (constructed s) = Some v ->
               lookupExpr e (constructed s') = Some v) /\
  (forall root v, lookupArrayExpr root (_array_hash s) = Some v ->
                  lookupArrayExpr root (_array_hash s') = Some v) /\
  (forall root un v, lookupUpdateNodeExpr root un (_update_node_hash s) = Some v ->
                     lookupUpdateNodeExpr root un (_update_node_hash s') = Some v).

(** The entries for expressions and update nodes of size [n] or more are
    the same in [s] and [s']. *)
Definition untouchedFrom (n : nat) (s s' : Z3Builder) : Prop :=
  (forall k, (n <= exprSize k)%nat ->
             lookupExpr k (constructed s') = lookupExpr k (constructed s)) /\
  (forall root un, (n <= updateSize un)%nat ->
             lookupUpdateNodeExpr root un (_update_node_hash s')
             = lookupUpdateNodeExpr root un (_update_node_hash s)).

(** A computation of the builder is memoised below [n] when a run that
    returns only adds entries to the caches, adds none for a key of size [n]
    or more, and returns the same value, with no further change, from every
    later state. *)
Definition memoisedBelow {A : Type} (n : nat) (m : M A) : Prop :=
  forall s a s1, m s = Ok (a, s1) ->
    cacheExtends s s1 /\ untouchedFrom n s s1 /\
    forall s2, cacheExtends s1 s2 -> m s2 = Ok (a, s2).

(** [hashingAgrees son soff]: two builders that have translated the same
    expressions, [son] with hash-consing and [soff] without: they hold the
    same arrays and update nodes, and every entry of the hash-consing cache
    of [son] is what [construct] returns in [soff] and in every state that
    extends it. *)
Definition hashingAgrees (son soff : Z3Builder) : Prop :=
  UseConstructHashZ3 son = true /\ UseConstructHashZ3 soff = false /\
  _array_hash son = _array_hash soff /\
  _update_node_hash son = _update_node_hash soff /\
  forall e r, lookupExpr e (constructed son) = Some r ->
              forall s2, cacheExtends soff s2 -> construct e s2 = Ok (r, s2).

(** Two runs have the same outcome when both abort with the same message
    or both return the same value, in states that agree again. *)
Definition sameOutcome {A : Type} (x y : Result (A * Z3Builder)) : Prop :=
  match x, y with
  | Ok (a, s), Ok (a', s') => a = a' /\ hashingAgrees s s'
  | Abort m, Abort m' => m = m'
  | _, _ => False
  end.

(** A computation is transparent to hash-consing when it has the same
    outcome from every two builders that agree. *)

Definition hashingTransparent {A : Type} (m : M A) : Prop :=
  forall son soff, hashingAgrees son soff -> sameOutcome (m son) (m soff).

(** The translation of an update node that is not in the cache: the write
    is built first and hashed then. *)
Definition writeUpdateNode (root : Array) (index value : Expr) (next : UpdateNode)
  : M Z3ASTHandle :=
  arr <- getArrayForUpdate root next ;;
  ' (i, _) <- construct index ;;
  ' (v, _) <- construct value ;;
  ret (writeExpr arr i v).

(** *** Arrays *)

(** The name [getInitialArray] gives the Z3 constant of an array when the
    array cache holds [count] arrays. *)
Definition uniqueName (root : Array) (count : nat) : string :=
  let unique_id := itostr count in
  (substring 0 (Nat.min (32 - String.length unique_id) (String.length (name root)))
     (name root) ++ unique_id)%string.

(** A constant table of three bytes. *)

Definition sampleTable : Array := mkArray "T" 3 32 8 [(8, 10); (8, 20); (8, 30)].

(** The builders a client reaches from a new one by translating expressions
    and by clearing the construct cache (as the solver does after a query);
    the array and update-node caches live until the builder is destroyed. *)
Inductive reachable : Z3Builder -> Prop :=
| reach_new : reachable newBuilder
| reach_construct (e : Expr) (r : ResW) (s s' : Z3Builder) :
    reachable s -> construct e s = Ok (r, s') -> reachable s'
| reach_clear (s s' : Z3Builder) :
    reachable s -> clearConstructCache s = Ok (tt, s') -> reachable s'.

(** The operands of a [ConcatExpr], first (most significant) operand first. *)
Fixpoint kidsList (kids : Kids) : list Expr :=
  match kids with
  | KLast kid => [kid]
  | KCons kid rest => kid :: kidsList rest
  end.

(** The terms concatenated, the first on the high side. *)
Fixpoint concatTerms (first : Z3ASTHandle) (others : list Z3ASTHandle) : Z3ASTHandle :=
  match others with
  | [] => first
  | t :: ts => concatExpr first (concatTerms t ts)
  end.

(** Width and value of bitvectors laid side by side, first on the high
    side. *)
Fixpoint bigEndian (first : Z * Z) (others : list (Z * Z)) : Z * Z :=
  match others with
  | [] => first
  | c :: cs =>
      let low := bigEndian c cs in
      (fst first + fst low, snd first * 2 ^ fst low + snd low)
  end.

(** A case that returns has built a well-sorted term. *)
Definition okSorted (r : Result ResW) : Prop :=
  match r with
  | Ok (a, _) => wellSorted a = true
  | Abort _ => True
  end.

(** *** IR whose translation is well-sorted

    What the translation relies on beyond [wellFormed] when it applies a
    Z3 symbol: the condition of a select is an integer of width 1; an
    extraction stays within a source wider than one bit; the integer
    source of [UToF] and [SToF] is wider than one bit; an index has the
    width of the domain of its array and a written value the width of its
    range; an array has a domain wider than one bit and constant values of
    the width of its range.  As in [wellFormed], [FToS] and [ExplicitInt]
    have no 80-bit source and [FExt] does not go from 80 to 80 bits. *)
Definition sortSafeArray (root : Array) : bool :=
  (1 <? getDomain root)
  && forallb (fun c => fst c =? getRange root) (constantValues root).

Definition intOfWidth (e : Expr) (w : Z) : bool := negb (isFloat e) && (getWidth e =? w).

Fixpoint sortSafe (e : Expr) : bool :=
  match e with
  | ConstantExpr _ _ | FConstantExpr _ _ => true
  | NotOptimizedExpr src => sortSafe src
  | ReadExpr root head index =>
      sortSafeArray root && sortSafeUpdates root head && sortSafe index
      && intOfWidth index (getDomain root)
  | SelectExpr cond trueExpr falseExpr | FSelectExpr cond trueExpr falseExpr =>
      sortSafe cond && sortSafe trueExpr && sortSafe falseExpr && intOfWidth cond 1
  | ConcatExpr _ kids => sortSafeKids kids
  | ExtractExpr expr offset width =>
      sortSafe expr && negb (isFloat expr) && (1 <? getWidth expr)
      && (0 <=? offset) && (offset + width <=? getWidth expr)
  | CastExpr _ src _ => sortSafe src
  | FCastRoundExpr Expr.FExt src width _ =>
      sortSafe src && negb ((getWidth src =? 80) && (width =? 80))
  | FCastRoundExpr _ src _ _ => sortSafe src && (1 <? getWidth src)
  | CastRoundExpr Expr.FToU src _ _ => sortSafe src
  | CastRoundExpr Expr.FToS src _ _ => sortSafe src && negb (getWidth src =? 80)
  | ExplicitFloatExpr src => sortSafe src
  | ExplicitIntExpr src => sortSafe src && negb (getWidth src =? 80)
  | FUnaryExpr _ expr | FUnaryRoundExpr _ expr _ | NotExpr expr => sortSafe expr
  | BinaryExpr _ l r | FBinaryRoundExpr _ l r _ | FBinaryExpr _ l r
  | CmpExpr _ l r | FCmpExpr _ l r => sortSafe l && sortSafe r
  end
with sortSafeUpdates (root : Array) (un : UpdateNode) : bool :=
  match un with
  | UNull => true
  | UNode index value next =>
      sortSafe index && sortSafe value && sortSafeUpdates root next
      && intOfWidth index (getDomain root) && intOfWidth value (getRange root)
  end
with sortSafeKids (kids : Kids) : bool :=
  match kids with
  | KLast kid => sortSafe kid
  | KCons kid rest => sortSafe kid && sortSafeKids rest
  end.

(** Every term the caches hold is well-sorted. *)
Definition cachesWellSorted (s : Z3Builder) : Prop :=
  (forall e a w, lookupExpr e (constructed s) = Some (a, w) -> wellSorted a = true) /\
  (forall root a, lookupArrayExpr root (_array_hash s) = Some a -> wellSorted a = true) /\
  (forall root un a, lookupUpdateNodeExpr root un (_update_node_hash s) = Some a ->
                     wellSorted a = true).

(** [constructActual] on a node builds a well-sorted term and keeps the
    terms in the caches well-sorted. *)
Definition actualSorted (e : Expr) : Prop :=
  forall s a w s', cachesSound s -> cachesWellSorted s ->
    constructActual e s = Ok ((a, w), s') ->
    wellSorted a = true /\ cachesWellSorted s'.

(** * Properties *)

(** ** Sorts and values of the constant builders *)

Lemma pow2_pos (w : Z) : 0 <= w -> 0 < 2 ^ w.
Proof. intros. apply Z.pow_pos_nonneg; lia. Qed.

Lemma eval_bvConst64 (M : Z3_model) (w v : Z) :
  0 < w -> eval M (bvConst64 w v) = VBv w ((v mod 2 ^ 64) mod 2 ^ w).
Proof.
  intros Hw. unfold bvConst64, getBvSort. cbn [eval numeral].
  destruct (Z.ltb_spec 0 w); [reflexivity | lia].
Qed.

Lemma eval_bvConst32 (M : Z3_model) (w v : Z) :
  0 < w -> eval M (bvConst32 w v) = VBv w ((v mod 2 ^ 32) mod 2 ^ w).
Proof.
  intros Hw. unfold bvConst32, getBvSort. cbn [eval numeral].
  destruct (Z.ltb_spec 0 w); [reflexivity | lia].
Qed.

Lemma sort_bvConst64 (w v : Z) : Z3_get_sort (bvConst64 w v) = Z3_mk_bv_sort w.
Proof. reflexivity. Qed.

Lemma sort_bvConst32 (w v : Z) : Z3_get_sort (bvConst32 w v) = Z3_mk_bv_sort w.
Proof. reflexivity. Qed.

Lemma sort_concatExpr (a b : Z3ASTHandle) (n m : Z) :
  Z3_get_sort a = Z3_mk_bv_sort n -> Z3_get_sort b = Z3_mk_bv_sort m ->
  Z3_get_sort (concatExpr a b) = Z3_mk_bv_sort (n + m).
Proof. intros Ha Hb. unfold concatExpr. cbn [Z3_get_sort]. now rewrite Ha, Hb. Qed.

Lemma eval_concatExpr (M : Z3_model) (a b : Z3ASTHandle) (w1 n1 w2 n2 : Z) :
  eval M a = VBv w1 n1 -> eval M b = VBv w2 n2 ->
  eval M (concatExpr a b) = VBv (w1 + w2) (n1 * 2 ^ w2 + n2).
Proof. intros Ha Hb. unfold concatExpr. cbn [eval]. now rewrite Ha, Hb. Qed.

(** The loop of [bvZExtConst] stops with at most 64 bits left, and prepends
    zero chunks only: the sort grows by the bits consumed and the value
    stays. *)
Lemma bvZExtConst_loop_spec (M : Z3_model) (fuel : nat) :
  forall (width : Z) (expr : Z3ASTHandle) (k n : Z),
    0 < width -> width <= 64 * Z.of_nat fuel + 64 ->
    Z3_get_sort expr = Z3_mk_bv_sort k ->
    eval M expr = VBv k n ->
    let r := bvZExtConst_loop fuel width (bvConst64 64 0) expr in
    0 < fst r <= 64 /\
    Z3_get_sort (snd r) = Z3_mk_bv_sort (k + (width - fst r)) /\
    eval M (snd r) = VBv (k + (width - fst r)) n.
Proof.
  induction fuel as [|fuel IH]; intros width expr k n Hw Hf Hs He; cbn -[Z.pow Z.mul].
  - cbn in Hf. repeat split; try lia.
    + rewrite Hs. f_equal. lia.
    + rewrite He. f_equal. lia.
  - destruct (Z.ltb_spec 64 width) as [Hlt|Hge].
    + specialize (IH (width - 64) (concatExpr (bvConst64 64 0) expr) (64 + k) n).
      destruct IH as (H1 & H2 & H3); try lia.
      * apply sort_concatExpr; [apply sort_bvConst64 | exact Hs].
      * rewrite (eval_concatExpr M _ _ 64 0 k n); [reflexivity | | exact He].
        rewrite eval_bvConst64 by lia. reflexivity.
      * repeat split; try lia.
        -- rewrite H2. f_equal. lia.
        -- rewrite H3. f_equal. lia.
    + cbn [fst snd]. repeat split; try lia.
      * rewrite Hs. f_equal. lia.
      * rewrite He. f_equal. lia.
Qed.

Lemma sort_bvZExtConst (w v : Z) :
  Z3_get_sort (bvZExtConst w v) = Z3_mk_bv_sort w.
Proof.
  unfold bvZExtConst.
  destruct (Z.leb_spec w 64) as [Hle|Hgt]; [apply sort_bvConst64|].
  pose (M := mkModel (fun _ _ => VErr) (fun _ _ => 0)).
  pose proof (bvZExtConst_loop_spec M (Z.to_nat w) (w - 64) (bvConst64 64 v) 64
                (v mod 2 ^ 64 mod 2 ^ 64)) as H.
  destruct (bvZExtConst_loop (Z.to_nat w) (w - 64) (bvConst64 64 0) (bvConst64 64 v))
    as [w' e'] eqn:E.
  cbn [fst snd] in H. destruct H as (H1 & H2 & _); try lia.
  - apply sort_bvConst64.
  - apply eval_bvConst64; lia.
  - rewrite (sort_concatExpr _ _ w' (64 + (w - 64 - w'))); [f_equal; lia | | exact H2].
    apply sort_bvConst64.
Qed.

Lemma eval_bvZExtConst (M : Z3_model) (w v : Z) :
  0 < w -> 0 <= v < 2 ^ 64 -> eval M (bvZExtConst w v) = VBv w (v mod 2 ^ w).
Proof.
  intros Hw Hv. unfold bvZExtConst.
  destruct (Z.leb_spec w 64) as [Hle|Hgt].
  - rewrite eval_bvConst64 by lia. rewrite (Z.mod_small v (2 ^ 64)) by lia. reflexivity.
  - pose proof (bvZExtConst_loop_spec M (Z.to_nat w) (w - 64) (bvConst64 64 v) 64
                  (v mod 2 ^ 64 mod 2 ^ 64)) as H.
    destruct (bvZExtConst_loop (Z.to_nat w) (w - 64) (bvConst64 64 0) (bvConst64 64 v))
      as [w' e'] eqn:E.
    cbn [fst snd] in H. destruct H as (H1 & _ & H3); try lia.
    + apply sort_bvConst64.
    + apply eval_bvConst64; lia.
    + assert (Hz : eval M (bvConst64 w' 0) = VBv w' 0).
      { rewrite eval_bvConst64 by lia.
        rewrite (Z.mod_0_l (2 ^ 64)) by (apply Z.pow_nonzero; lia).
        rewrite Z.mod_0_l by (apply Z.pow_nonzero; lia). reflexivity. }
      rewrite (eval_concatExpr M _ _ w' 0 _ _ Hz H3).
      f_equal; [lia|].
      rewrite !(Z.mod_small v (2 ^ 64)) by lia.
      rewrite Z.mod_small; [lia|].
      split; [lia|]. apply Z.lt_le_trans with (2 ^ 64); [lia|].
      apply Z.pow_le_mono_r; lia.
Qed.

Lemma sort_bvZero (w : Z) : Z3_get_sort (bvZero w) = Z3_mk_bv_sort w.
Proof. apply sort_bvZExtConst. Qed.

Lemma sort_bvOne (w : Z) : Z3_get_sort (bvOne w) = Z3_mk_bv_sort w.
Proof. apply sort_bvZExtConst. Qed.

Lemma sort_bvSExtConst (w v : Z) : Z3_get_sort (bvSExtConst w v) = Z3_mk_bv_sort w.
Proof.
  unfold bvSExtConst. destruct (Z.leb_spec w 64); [apply sort_bvConst64|].
  destruct (negb _);
    (rewrite (sort_concatExpr _ _ (w - 64) 64); [f_equal; lia | reflexivity | reflexivity]).
Qed.

Lemma sort_bvMinusOne (w : Z) : Z3_get_sort (bvMinusOne w) = Z3_mk_bv_sort w.
Proof. apply sort_bvSExtConst. Qed.

Lemma eval_bvZero (M : Z3_model) (w : Z) : 0 < w -> eval M (bvZero w) = VBv w 0.
Proof.
  intros Hw. unfold bvZero. rewrite eval_bvZExtConst; [|lia|].
  - rewrite Z.mod_0_l; [reflexivity|]. pose proof (pow2_pos w). lia.
  - split; [lia|]. apply pow2_pos. lia.
Qed.

Lemma getBVLength_sort (x : Z3ASTHandle) (w : Z) :
  Z3_get_sort x = Z3_mk_bv_sort w -> getBVLength x = w.
Proof. intros H. unfold getBVLength. now rewrite H. Qed.

(** ** Constant shifts *)

Lemma eval_bvExtract (M : Z3_model) (x : Z3ASTHandle) (w n top bottom : Z) :
  eval M x = VBv w n -> 0 <= bottom <= top -> top < w ->
  eval M (bvExtract x top bottom)
  = VBv (top - bottom + 1) ((n / 2 ^ bottom) mod 2 ^ (top - bottom + 1)).
Proof.
  intros Hx Hb Ht. unfold bvExtract. cbn [eval]. rewrite Hx.
  destruct (Z.leb_spec 0 bottom); [|lia].
  destruct (Z.leb_spec bottom top); [|lia].
  destruct (Z.ltb_spec top w); [|lia]. reflexivity.
Qed.

(** The three cases of [bvRightShift], [bvLeftShift] and
    [constructAShrByConstant]. *)
Lemma bvRightShift_cases (x : Z3ASTHandle) (w k : Z) :
  Z3_get_sort x = Z3_mk_bv_sort w ->
  bvRightShift x k =
    if k =? 0 then x
    else if w <=? k then bvZero w
    else concatExpr (bvZero k) (bvExtract x (w - 1) k).
Proof. intros H. unfold bvRightShift. now rewrite (getBVLength_sort x w H). Qed.

Lemma bvLeftShift_cases (x : Z3ASTHandle) (w k : Z) :
  Z3_get_sort x = Z3_mk_bv_sort w ->
  bvLeftShift x k =
    if k =? 0 then x
    else if w <=? k then bvZero w
    else concatExpr (bvExtract x (w - k - 1) 0) (bvZero k).
Proof. intros H. unfold bvLeftShift. now rewrite (getBVLength_sort x w H). Qed.

Lemma constructAShrByConstant_cases (x isSigned : Z3ASTHandle) (w k : Z) :
  Z3_get_sort x = Z3_mk_bv_sort w ->
  constructAShrByConstant x k isSigned =
    if k =? 0 then x
    else if w <=? k then bvZero w
    else iteExpr isSigned
           (concatExpr (bvMinusOne k) (bvExtract x (w - 1) k))
           (bvRightShift x k).
Proof.
  intros H. unfold constructAShrByConstant. now rewrite (getBVLength_sort x w H).
Qed.

(** The logical right shift by a constant divides by [2 ^ k]. *)
Lemma eval_bvRightShift (M : Z3_model) (x : Z3ASTHandle) (w n k : Z) :
  Z3_get_sort x = Z3_mk_bv_sort w -> eval M x = VBv w n ->
  0 < w -> 0 <= n < 2 ^ w -> 0 <= k ->
  eval M (bvRightShift x k) = VBv w (n / 2 ^ k).
Proof.
  intros Hs He Hw Hn Hk. rewrite (bvRightShift_cases x w k Hs).
  destruct (Z.eqb_spec k 0) as [->|Hk0].
  - rewrite He. f_equal. cbn. now rewrite Z.div_1_r.
  - destruct (Z.leb_spec w k) as [Hle|Hlt].
    + rewrite eval_bvZero by lia. f_equal. symmetry. apply Z.div_small.
      split; [lia|]. apply Z.lt_le_trans with (2 ^ w); [lia|].
      apply Z.pow_le_mono_r; lia.
    + rewrite (eval_concatExpr M _ _ k 0 (w - 1 - k + 1)
                 ((n / 2 ^ k) mod 2 ^ (w - 1 - k + 1))).
      * f_equal; [lia|]. replace (w - 1 - k + 1) with (w - k) by lia.
        rewrite Z.mul_0_l, Z.add_0_l. apply Z.mod_small. split.
        -- apply Z.div_pos; [lia|]. apply pow2_pos; lia.
        -- apply Z.div_lt_upper_bound; [apply pow2_pos; lia|].
           rewrite <- Z.pow_add_r by lia. replace (k + (w - k)) with w by lia. lia.
      * apply eval_bvZero; lia.
      * apply (eval_bvExtract M x w n); [exact He | lia | lia].
Qed.

(** The logical left shift by a constant multiplies by [2 ^ k] modulo
    [2 ^ w]. *)
Lemma eval_bvLeftShift (M : Z3_model) (x : Z3ASTHandle) (w n k : Z) :
  Z3_get_sort x = Z3_mk_bv_sort w -> eval M x = VBv w n ->
  0 < w -> 0 <= n < 2 ^ w -> 0 <= k ->
  eval M (bvLeftShift x k) = VBv w ((n * 2 ^ k) mod 2 ^ w).
Proof.
  intros Hs He Hw Hn Hk. rewrite (bvLeftShift_cases x w k Hs).
  destruct (Z.eqb_spec k 0) as [->|Hk0].
  - rewrite He. f_equal. cbn. rewrite Z.mul_1_r. symmetry. now apply Z.mod_small.
  - destruct (Z.leb_spec w k) as [Hle|Hlt].
    + rewrite eval_bvZero by lia. f_equal. symmetry.
      replace k with (w + (k - w)) by lia. rewrite Z.pow_add_r by lia.
      rewrite Z.mul_assoc, (Z.mul_comm n), <- Z.mul_assoc.
      rewrite Z.mul_comm. apply Z.mod_mul. apply Z.pow_nonzero; lia.
    + rewrite (eval_concatExpr M _ _ (w - k - 1 - 0 + 1)
                 ((n / 2 ^ 0) mod 2 ^ (w - k - 1 - 0 + 1)) k 0).
      * f_equal; [lia|]. replace (w - k - 1 - 0 + 1) with (w - k) by lia.
        rewrite Z.add_0_r. cbn [Z.pow]. rewrite Z.div_1_r.
        replace (2 ^ w) with (2 ^ (w - k) * 2 ^ k).
        -- rewrite Z.mul_mod_distr_r; [reflexivity| |].
           ++ apply Z.pow_nonzero; lia.
           ++ apply Z.pow_nonzero; lia.
        -- rewrite <- Z.pow_add_r by lia. f_equal. lia.
      * apply (eval_bvExtract M x w n); [exact He | lia | lia].
      * apply eval_bvZero; lia.
Qed.



(** C10.  For a bitvector term [x] of width [w], [constructAShrByConstant]
    with a shift [k >= w] is the zero bitvector of width [w], whatever the
    sign bit of [x] and the term [isSigned] are; with [k = 0] it is [x]. *)
Theorem constructAShrByConstant_overshift (x isSigned : Z3ASTHandle) (w k : Z) :
  Z3_get_sort x = Z3_mk_bv_sort w -> 0 < w ->
  (w <= k ->
   constructAShrByConstant x k isSigned = bvZero w /\
   forall M, eval M (constructAShrByConstant x k isSigned) = VBv w 0) /\
  constructAShrByConstant x 0 isSigned = x.
Proof.
  intros Hs Hw. split.
  - intros Hle. rewrite (constructAShrByConstant_cases x isSigned w k Hs).
    destruct (Z.eqb_spec k 0); [lia|]. destruct (Z.leb_spec w k); [|lia].
    split; [reflexivity|]. intros M. now apply eval_bvZero.
  - now rewrite (constructAShrByConstant_cases x isSigned w 0 Hs).
Qed.

Lemma constructAShrByConstant_overshift_witness :
  let x := Z3_mk_unsigned_int 255 (Z3_mk_bv_sort 8) in
  let isSigned := bvBoolExtract x 7 in
  (8 <= 8 ->
   constructAShrByConstant x 8 isSigned = bvZero 8 /\
   forall M, eval M (constructAShrByConstant x 8 isSigned) = VBv 8 0) /\
  constructAShrByConstant x 0 isSigned = x.
Proof.
  intros x isSigned.
  apply (constructAShrByConstant_overshift x isSigned 8 8); [reflexivity | lia].
Defined.

(** ** Variable shifts *)

Lemma iteChain_snoc (shift : Z3ASTHandle) (width : Z) (byConst : Z -> Z3ASTHandle)
    (n : nat) :
  forall (i : Z) (dflt : Z3ASTHandle),
    iteChain n i shift width byConst
      (iteExpr (eqExpr shift (bvConst32 width (i + Z.of_nat n)))
         (byConst (i + Z.of_nat n)) dflt)
    = iteChain (S n) i shift width byConst dflt.
Proof.
  induction n as [|n IH]; intros i dflt.
  - cbn [iteChain Z.of_nat]. now rewrite Z.add_0_r.
  - cbn [iteChain]. f_equal.
    replace (i + Z.of_nat (S n)) with (i + 1 + Z.of_nat n) by lia.
    rewrite IH. reflexivity.
Qed.

(** Each of the three loops builds the chain from its last candidate
    inwards; the result is the chain read from candidate 0. *)
Lemma bvVarLeftShift_loop_chain (width : Z) (expr shift : Z3ASTHandle) (n : nat) :
  forall res,
    bvVarLeftShift_loop n width expr shift res
    = iteChain n 0 shift width (bvLeftShift expr) res.
Proof.
  induction n as [|n IH]; intros res; [reflexivity|].
  cbn [bvVarLeftShift_loop]. rewrite IH.
  now rewrite <- iteChain_snoc.
Qed.

Lemma bvVarRightShift_loop_chain (width : Z) (expr shift : Z3ASTHandle) (n : nat) :
  forall res,
    bvVarRightShift_loop n width expr shift res
    = iteChain n 0 shift width (bvRightShift expr) res.
Proof.
  induction n as [|n IH]; intros res; [reflexivity|].
  cbn [bvVarRightShift_loop]. rewrite IH.
  now rewrite <- iteChain_snoc.
Qed.

Lemma bvVarArithRightShift_loop_chain (width : Z)
    (expr shift signedBool : Z3ASTHandle) (n : nat) :
  forall res,
    bvVarArithRightShift_loop n width expr shift signedBool res
    = iteChain n 0 shift width
        (fun i => constructAShrByConstant expr i signedBool) res.
Proof.
  induction n as [|n IH]; intros res; [reflexivity|].
  cbn [bvVarArithRightShift_loop]. rewrite IH.
  now rewrite <- (iteChain_snoc shift width
                    (fun i => constructAShrByConstant expr i signedBool)).
Qed.



(** The variable shifts as guarded chains. *)
Lemma bvVarLeftShift_chain (expr shift : Z3ASTHandle) (w sw : Z) :
  Z3_get_sort expr = Z3_mk_bv_sort w -> Z3_get_sort shift = Z3_mk_bv_sort sw ->
  bvVarLeftShift expr shift
  = iteExpr (bvLtExpr shift (bvConst32 sw w))
      (iteChain (Z.to_nat w) 0 shift w (bvLeftShift expr) (bvZero w))
      (bvZero w).
Proof.
  intros He Hs. unfold bvVarLeftShift.
  rewrite (getBVLength_sort expr w He), (getBVLength_sort shift sw Hs).
  now rewrite bvVarLeftShift_loop_chain.
Qed.

Lemma bvVarRightShift_chain (expr shift : Z3ASTHandle) (w sw : Z) :
  Z3_get_sort expr = Z3_mk_bv_sort w -> Z3_get_sort shift = Z3_mk_bv_sort sw ->
  bvVarRightShift expr shift
  = iteExpr (bvLtExpr shift (bvConst32 sw w))
      (iteChain (Z.to_nat w) 0 shift w (bvRightShift expr) (bvZero w))
      (bvZero w).
Proof.
  intros He Hs. unfold bvVarRightShift.
  rewrite (getBVLength_sort expr w He), (getBVLength_sort shift sw Hs).
  now rewrite bvVarRightShift_loop_chain.
Qed.

Lemma bvVarArithRightShift_chain (expr shift : Z3ASTHandle) (w sw : Z) :
  Z3_get_sort expr = Z3_mk_bv_sort w -> Z3_get_sort shift = Z3_mk_bv_sort sw ->
  bvVarArithRightShift expr shift
  = let signedBool := bvBoolExtract expr (w - 1) in
    iteExpr (bvLtExpr shift (bvConst32 sw w))
      (iteChain (Z.to_nat (w - 1)) 0 shift w
         (fun i => constructAShrByConstant expr i signedBool)
         (constructAShrByConstant expr (w - 1) signedBool))
      (bvZero w).
Proof.
  intros He Hs. unfold bvVarArithRightShift.
  rewrite (getBVLength_sort expr w He), (getBVLength_sort shift sw Hs).
  now rewrite bvVarArithRightShift_loop_chain.
Qed.

(** ** Running [constructActual] on a node whose operands are translated *)

Lemma construct_fold : construct_with constructActual = construct.
Proof. reflexivity. Qed.

Ltac run_case :=
  cbn [constructActual]; rewrite ?construct_fold;
  unfold bind, ret, lift, assert, abort.




(** ** The F80 encoding *)

Lemma eval_bvOne_1 (M : Z3_model) : eval M (bvOne 1) = VBv 1 1.
Proof. reflexivity. Qed.

Lemma eval_bvZero_1 (M : Z3_model) : eval M (bvZero 1) = VBv 1 0.
Proof. reflexivity. Qed.

(** Reading an F80 encoding built by [packF80]: index 0 holds the number,
    index 1 the sentinel. *)
Lemma eval_packF80 (M : Z3_model) (number sentinel : Z3ASTHandle) :
  (exists f, const_interp M "[F80, unnormal]" (getArraySort (getBvSort 1) sortF80)
             = VArr f) ->
  eval M (readExpr (packF80 number sentinel) (bvZero 1)) = eval M number /\
  eval M (readExpr (packF80 number sentinel) (bvOne 1)) = eval M sentinel.
Proof.
  intros [f Hf]. unfold readExpr, packF80, writeExpr, arrF80.
  cbn [eval]. rewrite Hf, !eval_bvOne_1, !eval_bvZero_1. cbn. split; reflexivity.
Qed.

Lemma sort_packF80 (number sentinel : Z3ASTHandle) :
  Z3_get_sort (packF80 number sentinel) = getArraySort (getBvSort 1) sortF80.
Proof. reflexivity. Qed.

(** C9.  [FAbs] at width 80 stores [fp.abs] of the number at index 0 of the
    operand's array and nothing else: the translation is
    [store(A, 0, abs(select(A, 0)))] for the operand's translation [A].  Its
    index 1 reads what index 1 of [A] holds, and its index 0 is a function
    of what index 0 of [A] holds alone: the sentinel is carried through and
    not consulted. *)
Theorem FAbs_F80_frame (e : Expr) (s s' : Z3Builder) (A : Z3ASTHandle) :
  construct e s = Ok ((A, Expr.Fl80), s') ->
  Z3_get_sort A = getArraySort (getBvSort 1) sortF80 ->
  let result := writeExpr A (bvZero 1) (Z3_mk_fpa_abs (readExpr A (bvZero 1))) in
  constructActual (FUnaryExpr Expr.FAbs e) s = Ok ((result, Expr.Fl80), s') /\
  forall (M : Z3_model) (f : Z -> val),
    eval M A = VArr f ->
    eval M (readExpr result (bvOne 1)) = f 1 /\
    eval M (readExpr A (bvOne 1)) = f 1 /\
    eval M (readExpr result (bvZero 1)) = VFp (fpa_interp M fpa_abs [f 0]).
Proof.
  intros Hc Hs result. split.
  - run_case. rewrite Hc. reflexivity.
  - intros M f Hf. unfold result, readExpr, writeExpr, Z3_mk_fpa_abs.
    cbn [eval map Z3_get_sort]. rewrite Hf, Hs, !eval_bvOne_1, !eval_bvZero_1.
    cbn. repeat split; reflexivity.
Qed.

Lemma FAbs_F80_frame_witness :
  exists (A : Z3ASTHandle) (s' : Z3Builder),
    construct sampleUnnormal newBuilder = Ok ((A, Expr.Fl80), s') /\
    constructActual (FUnaryExpr Expr.FAbs sampleUnnormal) newBuilder
    = Ok ((writeExpr A (bvZero 1) (Z3_mk_fpa_abs (readExpr A (bvZero 1))), Expr.Fl80), s')
    /\
    forall (M : Z3_model) (f : Z -> val),
      eval M A = VArr f ->
      eval M (readExpr (writeExpr A (bvZero 1) (Z3_mk_fpa_abs (readExpr A (bvZero 1))))
                (bvOne 1)) = f 1.
Proof.
  eexists _, _. split; [reflexivity|].
  destruct (FAbs_F80_frame sampleUnnormal newBuilder _ _ eq_refl eq_refl) as [H1 H2].
  split; [exact H1|]. intros M f Hf. exact (proj1 (H2 M f Hf)).
Defined.

(** ** Casts to 80 bits *)

(** [SToF] to 80 bits as the code has it: the number at index 0 is the
    source converted with [to_fp_unsigned].  The casts [UToF] to 80 bits and
    [SToF] to 32 bits are the neighbours: the first builds the same term,
    the second converts with [to_fp_signed]. *)
Theorem SToF_F80_converts_unsigned :
  exists (src : Z3ASTHandle) (s' : Z3Builder),
    let rm := Z3_mk_fpa_round_nearest_ties_to_even in
    construct sampleX newBuilder = Ok ((src, 8), s') /\
    constructActual (FCastRoundExpr Expr.SToF sampleX 80 rmNearestTiesToEven) newBuilder
    = Ok ((packF80 (Z3_mk_fpa_to_fp_unsigned rm src sortF80) (fpZero sortF80), 80), s') /\
    constructActual (FCastRoundExpr Expr.SToF sampleX 80 rmNearestTiesToEven) newBuilder
    <> Ok ((packF80 (Z3_mk_fpa_to_fp_signed rm src sortF80) (fpZero sortF80), 80), s') /\
    constructActual (FCastRoundExpr Expr.UToF sampleX 80 rmNearestTiesToEven) newBuilder
    = constructActual (FCastRoundExpr Expr.SToF sampleX 80 rmNearestTiesToEven) newBuilder
    /\
    constructActual (FCastRoundExpr Expr.SToF sampleX 32 rmNearestTiesToEven) newBuilder
    = Ok ((Z3_mk_fpa_to_fp_signed rm src Z3_mk_fpa_sort_32, 32), s').
Proof.
  eexists _, _. cbv zeta. split; [reflexivity|].
  split; [reflexivity|]. split; [discriminate|]. split; reflexivity.
Qed.

(** For every source expression and rounding mode, [SToF] to 80 bits builds
    the term [UToF] to 80 bits builds. *)
Lemma SToF_F80_is_UToF_F80 (e : Expr) (rm : roundingMode) (s : Z3Builder) :
  constructActual (FCastRoundExpr Expr.SToF e 80 rm) s
  = constructActual (FCastRoundExpr Expr.UToF e 80 rm) s.
Proof. reflexivity. Qed.

(** ** Floating-point comparisons at width 80 *)

Lemma constructActual_FCmp (kind : Expr.FCmpKind) (l r : Expr) (s s1 s2 : Z3Builder)
    (lhs rhs : Z3ASTHandle) (wl w : Z) :
  construct l s = Ok ((lhs, wl), s1) ->
  construct r s1 = Ok ((rhs, w), s2) ->
  constructActual (FCmpExpr kind l r) s
  = lift (match kind with
          | Expr.FOrd => constructActual_FOrd lhs rhs w
          | Expr.FUno => constructActual_FUno lhs rhs w
          | Expr.FUeq => constructActual_FUeq lhs rhs w
          | Expr.FOeq => constructActual_FOeq lhs rhs w
          | Expr.FUgt => constructActual_FUgt lhs rhs w
          | Expr.FOgt => constructActual_FOgt lhs rhs w
          | Expr.FUge => constructActual_FUge lhs rhs w
          | Expr.FOge => constructActual_FOge lhs rhs w
          | Expr.FUlt => constructActual_FUlt lhs rhs w
          | Expr.FOlt => constructActual_FOlt lhs rhs w
          | Expr.FUle => constructActual_FUle lhs rhs w
          | Expr.FOle => constructActual_FOle lhs rhs w
          | Expr.FUne => constructActual_FUne lhs rhs w
          | Expr.FOne => constructActual_FOne lhs rhs w
          end) s2.
Proof. intros Hl Hr. run_case. rewrite Hl, Hr. reflexivity. Qed.

(** A well-sorted floating-point predicate has a truth value in every
    model. *)
Lemma eval_fpa_pred (M : Z3_model) (d : Z3_fpa_decl) (args : list Z3_ast) :
  fpaSorted d (map Z3_get_sort args) = true ->
  Z3_get_sort (Z3_mk_fpa d args) = Z3_mk_bool_sort ->
  exists b, eval M (Z3_mk_fpa d args) = VBool b.
Proof. intros Hs H. cbn [eval]. rewrite Hs, H. eauto. Qed.

Lemma sort_readF80 (a i : Z3ASTHandle) :
  Z3_get_sort a = sortF80Array -> Z3_get_sort (readExpr a i) = sortF80.
Proof. intros H. unfold readExpr. cbn [Z3_get_sort]. now rewrite H. Qed.

(** On the numbers of two F80 arrays, [is_nan] and the comparisons have a
    truth value. *)
Lemma eval_F80_preds (M : Z3_model) (x y : Z3ASTHandle) :
  Z3_get_sort x = sortF80 -> Z3_get_sort y = sortF80 ->
  (exists b, eval M (isNanExpr x) = VBool b) /\
  forall d, In d [fpa_eq; fpa_lt; fpa_leq; fpa_gt; fpa_geq] ->
            exists b, eval M (Z3_mk_fpa d [x; y]) = VBool b.
Proof.
  intros Hx Hy. split.
  - apply eval_fpa_pred; [|reflexivity]. cbn [map fpaSorted]. now rewrite Hx.
  - intros d Hd. cbn [In] in Hd.
    destruct Hd as [<- | [<- | [<- | [<- | [<- | []]]]]];
      (apply eval_fpa_pred; [|reflexivity]);
      cbn [map fpaSorted]; rewrite Hx, Hy; reflexivity.
Qed.

(** The four shapes of a comparison that reads the sentinel, in a model
    where an operand is unnormal. *)
Lemma eval_sentinel_shapes (M : Z3_model) (whb nl nr c : Z3ASTHandle) :
  eval M whb = VBool true ->
  (exists b, eval M nl = VBool b) -> (exists b, eval M nr = VBool b) ->
  (exists b, eval M c = VBool b) ->
  eval M (andExpr (notExpr whb) c) = VBool false /\
  eval M (andExpr (notExpr whb) (orExpr3 nl nr c)) = VBool false /\
  eval M (orExpr whb (notExpr c)) = VBool true /\
  eval M (orExpr whb (notExpr (orExpr3 nl nr c))) = VBool true.
Proof.
  intros Hw (bl & Hl) (br & Hr) (bc & Hc).
  unfold andExpr, orExpr, orExpr3, notExpr. cbn [eval fold_right].
  rewrite Hw, Hl, Hr, Hc. cbn [negb val_and val_or andb orb].
  repeat split; now destruct bl, br, bc.
Qed.

(** C3, as the code has it.  At operand width 80, with
    [wrongHiddenBit = is_nan(left[1]) OR is_nan(right[1])] and [L], [R] the
    numbers at index 0: the ordered predicates [FOeq], [FOgt], [FOge],
    [FOlt], [FOle] translate to [(NOT wrongHiddenBit) AND cmp(L, R)];
    [FOne] translates to
    [wrongHiddenBit OR NOT (isnan(L) OR isnan(R) OR eq(L, R))].  So in a
    model where an operand is unnormal, [FUne] and [FOne] are true and
    every other predicate that reads the sentinel is false (the operands
    being F80 arrays, as the translations of 80-bit floats are).  [FOrd] and
    [FUno] do not read the sentinel: their terms are built from [L] and [R]
    alone, and their value is given by [is_nan] of [L] and of [R]. *)
Theorem ordered_comparisons_F80 (kind : Expr.FCmpKind) (l r : Expr)
    (s s1 s2 : Z3Builder) (lhs rhs : Z3ASTHandle) (wl : Z) :
  construct l s = Ok ((lhs, wl), s1) ->
  construct r s1 = Ok ((rhs, Expr.Fl80), s2) ->
  let wrongHiddenBit := wrongHiddenBit2 lhs rhs in
  let L := readExpr lhs (bvZero 1) in
  let R := readExpr rhs (bvZero 1) in
  (forall cmp, nativeCmp kind = Some cmp ->
     constructActual (FCmpExpr kind l r) s
     = Ok ((andExpr (notExpr wrongHiddenBit) (cmp L R), 1), s2)) /\
  (kind = Expr.FOne ->
     constructActual (FCmpExpr kind l r) s
     = Ok ((orExpr wrongHiddenBit
              (notExpr (orExpr3 (isNanExpr L) (isNanExpr R) (Z3_mk_fpa_eq L R))), 1), s2)) /\
  (ignoresSentinel kind = false ->
   exists res,
     constructActual (FCmpExpr kind l r) s = Ok ((res, 1), s2) /\
     (Z3_get_sort lhs = sortF80Array -> Z3_get_sort rhs = sortF80Array ->
      forall M, eval M wrongHiddenBit = VBool true ->
                eval M res = VBool (isNotEqual kind))) /\
  (forall f, sentinelFree kind = Some f ->
     constructActual (FCmpExpr kind l r) s = Ok ((f L R, 1), s2) /\
     forall M a b,
       eval M (isNanExpr L) = VBool a -> eval M (isNanExpr R) = VBool b ->
       eval M (f L R)
       = VBool (match kind with Expr.FOrd => negb a && negb b | _ => a || b end)).
Proof.
  intros Hl Hr whb L R.
  rewrite (constructActual_FCmp kind l r s s1 s2 lhs rhs wl Expr.Fl80 Hl Hr).
  split; [|split; [|split]].
  - intros cmp Hk. destruct kind; inversion Hk; subst; reflexivity.
  - intros ->. reflexivity.
  - intros Hk. destruct kind; try discriminate Hk;
      (eexists; split; [reflexivity|]); intros Sl Sr M Hw; cbn [isNotEqual];
      pose proof (sort_readF80 lhs (bvZero 1) Sl) as SL;
      pose proof (sort_readF80 rhs (bvZero 1) Sr) as SR;
      destruct (eval_F80_preds M L R SL SR) as (HnL & Hcmp);
      destruct (eval_F80_preds M R L SR SL) as (HnR & _);
      pose proof (fun d Hd =>
                    eval_sentinel_shapes M whb (isNanExpr L) (isNanExpr R)
                      (Z3_mk_fpa d [L; R]) Hw HnL HnR (Hcmp d Hd)) as Hs;
      cbn [In] in Hs;
      first
        [ exact (proj1 (Hs fpa_eq ltac:(tauto)))
        | exact (proj1 (Hs fpa_lt ltac:(tauto)))
        | exact (proj1 (Hs fpa_leq ltac:(tauto)))
        | exact (proj1 (Hs fpa_gt ltac:(tauto)))
        | exact (proj1 (Hs fpa_geq ltac:(tauto)))
        | exact (proj1 (proj2 (Hs fpa_eq ltac:(tauto))))
        | exact (proj1 (proj2 (Hs fpa_lt ltac:(tauto))))
        | exact (proj1 (proj2 (Hs fpa_leq ltac:(tauto))))
        | exact (proj1 (proj2 (Hs fpa_gt ltac:(tauto))))
        | exact (proj1 (proj2 (Hs fpa_geq ltac:(tauto))))
        | exact (proj1 (proj2 (proj2 (Hs fpa_eq ltac:(tauto)))))
        | exact (proj2 (proj2 (proj2 (Hs fpa_eq ltac:(tauto))))) ].
  - intros f Hf. destruct kind; inversion Hf; subst; (split; [reflexivity|]);
      intros M a b Ha Hb; unfold andExpr, orExpr, notExpr; cbn [eval fold_right];
      rewrite Ha, Hb; cbn [val_and val_or]; now destruct a, b.
Qed.

Lemma ordered_comparisons_F80_witness :
  exists (lhs rhs : Z3ASTHandle) (s1 s2 : Z3Builder),
    construct sampleUnnormal newBuilder = Ok ((lhs, 80), s1) /\
    construct sampleNormal s1 = Ok ((rhs, Expr.Fl80), s2) /\
    constructActual (FCmpExpr Expr.FOeq sampleUnnormal sampleNormal) newBuilder
    = Ok ((andExpr (notExpr (wrongHiddenBit2 lhs rhs))
             (Z3_mk_fpa_eq (readExpr lhs (bvZero 1)) (readExpr rhs (bvZero 1))), 1), s2) /\
    exists res,
      constructActual (FCmpExpr Expr.FOeq sampleUnnormal sampleNormal) newBuilder
      = Ok ((res, 1), s2) /\
      forall M, eval M (wrongHiddenBit2 lhs rhs) = VBool true ->
                eval M res = VBool (isNotEqual Expr.FOeq).
Proof.
  eexists _, _, _, _. split; [reflexivity|]. split; [reflexivity|].
  destruct (ordered_comparisons_F80 Expr.FOeq sampleUnnormal sampleNormal newBuilder
              _ _ _ _ 80 eq_refl eq_refl) as (H1 & _ & H3 & _).
  split; [exact (H1 _ eq_refl)|].
  destruct (H3 eq_refl) as (res & Hres & Hval).
  exists res. split; [exact Hres | exact (Hval eq_refl eq_refl)].
Defined.

(** C3 as stated fails for [FOne]: on an unnormal left operand its
    translation is a disjunction with [wrongHiddenBit] and is true in the
    sample model, where no term of the form
    [(NOT wrongHiddenBit) AND native] is true.  [FUne] is therefore not the
    only comparison that is true on unnormal operands. *)
Lemma FOne_F80_counterexample :
  exists (lhs rhs res : Z3ASTHandle) (s1 s2 : Z3Builder),
    construct sampleUnnormal newBuilder = Ok ((lhs, 80), s1) /\
    construct sampleNormal s1 = Ok ((rhs, 80), s2) /\
    constructActual (FCmpExpr Expr.FOne sampleUnnormal sampleNormal) newBuilder
    = Ok ((res, 1), s2) /\
    eval sampleModel (wrongHiddenBit2 lhs rhs) = VBool true /\
    eval sampleModel res = VBool true /\
    forall native : Z3ASTHandle,
      res <> andExpr (notExpr (wrongHiddenBit2 lhs rhs)) native /\
      eval sampleModel (andExpr (notExpr (wrongHiddenBit2 lhs rhs)) native) <> VBool true.
Proof.
  eexists _, _, _, _, _. split; [reflexivity|]. split; [reflexivity|].
  split; [reflexivity|]. split; [reflexivity|]. split; [reflexivity|].
  intros native. split; [discriminate|].
  unfold andExpr, notExpr. cbn [eval fold_right].
  match goal with
  | |- context [eval sampleModel (wrongHiddenBit2 ?a ?b)] =>
      change (eval sampleModel (wrongHiddenBit2 a b)) with (VBool true)
  end.
  cbn [negb val_and]. destruct (eval sampleModel native) as [[|]| | | |]; discriminate.
Qed.

(** ** [Eq] *)




(** ** [UDiv] and [URem] *)

Lemma isPowerOfTwo_spec (x : Z) :
  isPowerOfTwo x = true <-> exists k, 0 <= k /\ x = 2 ^ k.
Proof.
  unfold isPowerOfTwo. rewrite andb_true_iff, Z.ltb_lt, Z.eqb_eq. split.
  - intros [Hx He]. exists (Z.log2 x). split; [apply Z.log2_nonneg | exact He].
  - intros (k & Hk & ->). split; [apply pow2_pos; lia|].
    now rewrite Z.log2_pow2 by lia.
Qed.

(** The test of the lowering succeeds with [k] exactly on a [ConstantExpr]
    of at most 64 bits whose value is [2 ^ k]. *)
Lemma constantPowerOfTwo_spec (r : Expr) (k : Z) :
  constantPowerOfTwo r = Some k <->
  exists cw cv, r = ConstantExpr cw cv /\ cw <= 64 /\ 0 <= k /\
                getZExtValue cw cv = 2 ^ k.
Proof.
  split.
  - destruct r; try discriminate. cbn [constantPowerOfTwo].
    destruct (Z.leb_spec width 64); [|discriminate].
    destruct (isPowerOfTwo (getZExtValue width value)) eqn:E; [|discriminate].
    intros [= <-]. apply isPowerOfTwo_spec in E. destruct E as (k & Hk & E).
    exists width, value. repeat split; auto.
    + unfold indexOfSingleBit. apply Z.log2_nonneg.
    + unfold indexOfSingleBit. rewrite E. now rewrite Z.log2_pow2 by lia.
  - intros (cw & cv & -> & Hcw & Hk & E). cbn [constantPowerOfTwo].
    destruct (Z.leb_spec cw 64); [|lia].
    assert (Hp : isPowerOfTwo (getZExtValue cw cv) = true)
      by (apply isPowerOfTwo_spec; eauto).
    rewrite Hp. unfold indexOfSingleBit. rewrite E. now rewrite Z.log2_pow2 by lia.
Qed.



(** ** Integer constants *)

Lemma chunks_head (fuel : nat) (w v : Z) :
  chunks (S fuel) w v
  = (Z.min 64 w, v mod 2 ^ Z.min 64 w) :: tl (chunks (S fuel) w v).
Proof.
  cbn [chunks]. destruct (Z.leb_spec w 64).
  - rewrite Z.min_r by lia. reflexivity.
  - rewrite Z.min_l by lia. reflexivity.
Qed.

Lemma div_pow2_bound (v w : Z) :
  64 < w -> 0 <= v < 2 ^ w -> 0 <= v / 2 ^ 64 < 2 ^ (w - 64).
Proof.
  intros Hw Hv. split.
  - apply Z.div_pos; [lia | apply pow2_pos; lia].
  - apply Z.div_lt_upper_bound; [apply pow2_pos; lia|].
    rewrite <- Z.pow_add_r by lia. replace (64 + (w - 64)) with w by lia. lia.
Qed.

(** The loop of [case Expr::Constant] concatenates the chunks above the
    lowest one, in order, each on the high side. *)
Lemma Constant_loop_chunks (fuel : nat) :
  forall (w v : Z) (Res : Z3ASTHandle),
    0 <= v < 2 ^ w ->
    Constant_loop fuel (w, v) Res
    = fold_left (fun acc c => concatExpr (bvConst64 (fst c) (snd c)) acc)
        (tl (chunks (S fuel) w v)) Res.
Proof.
  induction fuel as [|fuel IH]; intros w v Res Hv.
  - cbn [Constant_loop chunks]. destruct (w <=? 64); reflexivity.
  - cbn [Constant_loop fst snd].
    destruct (Z.ltb_spec 64 w) as [Hlt|Hge].
    + assert (Hv' := div_pow2_bound v w Hlt Hv).
      assert (E : CE_Extract w v 64 (w - 64) = (w - 64, v / 2 ^ 64)).
      { unfold CE_Extract, APValue. f_equal.
        rewrite (Z.mod_small v) by lia. apply Z.mod_small. lia. }
      rewrite E. cbn [fst snd]. rewrite IH by lia.
      replace (chunks (S (S fuel)) w v)
        with ((64, v mod 2 ^ 64) :: chunks (S fuel) (w - 64) (v / 2 ^ 64)).
      2:{ cbn [chunks]. destruct (Z.leb_spec w 64); [lia | reflexivity]. }
      cbn [tl]. rewrite (chunks_head fuel (w - 64) (v / 2 ^ 64)) at 2.
      cbn [fold_left fst snd]. f_equal. f_equal.
      unfold bvConst64, CE_Extract, getZExtValue, APValue. cbn [fst snd]. f_equal.
      change (2 ^ 0) with 1. rewrite Z.div_1_r.
      rewrite (Z.mod_small (v / 2 ^ 64) (2 ^ (w - 64))) by lia.
      rewrite (Z.mod_mod (v / 2 ^ 64) (2 ^ Z.min 64 (w - 64)))
        by (apply Z.pow_nonzero; lia).
      rewrite (Z.mod_mod _ (2 ^ 64)) by (apply Z.pow_nonzero; lia).
      reflexivity.
    + cbn [chunks]. destruct (Z.leb_spec w 64); [reflexivity | lia].
Qed.

Lemma eval_fold_chunks (M : Z3_model) (fuel : nat) :
  forall (w v : Z) (acc : Z3ASTHandle) (k n : Z),
    0 < w -> w <= 64 * Z.of_nat fuel -> 0 <= v < 2 ^ w -> 0 <= k ->
    Z3_get_sort acc = Z3_mk_bv_sort k -> eval M acc = VBv k n -> 0 <= n < 2 ^ k ->
    let t := fold_left (fun acc c => concatExpr (bvConst64 (fst c) (snd c)) acc)
               (chunks fuel w v) acc in
    Z3_get_sort t = Z3_mk_bv_sort (w + k) /\ eval M t = VBv (w + k) (v * 2 ^ k + n).
Proof.
  induction fuel as [|fuel IH]; intros w v acc k n Hw Hf Hv Hk Hs He Hn; [cbn in Hf; lia|].
  cbn [chunks]. destruct (Z.leb_spec w 64) as [Hle|Hgt].
  - cbn [fold_left fst snd]. split.
    + apply sort_concatExpr; [apply sort_bvConst64 | exact Hs].
    + rewrite (eval_concatExpr M _ _ w v k n); [reflexivity | | exact He].
      rewrite eval_bvConst64 by lia. f_equal.
      rewrite (Z.mod_small v (2 ^ w)) by lia.
      rewrite (Z.mod_small v (2 ^ 64)); [apply Z.mod_small; lia|].
      split; [lia|]. apply Z.lt_le_trans with (2 ^ w); [lia|].
      apply Z.pow_le_mono_r; lia.
  - cbn [fold_left fst snd].
    pose proof (pow2_pos 64 ltac:(lia)) as HP.
    pose proof (pow2_pos k Hk) as HQ.
    pose proof (Z.mod_pos_bound v (2 ^ 64) HP) as Hb.
    pose proof (Z.div_mod v (2 ^ 64) ltac:(lia)) as Hdm.
    destruct (IH (w - 64) (v / 2 ^ 64)
                (concatExpr (bvConst64 64 (v mod 2 ^ 64)) acc) (64 + k)
                (v mod 2 ^ 64 * 2 ^ k + n)) as [H1 H2]; try lia.
    + apply div_pow2_bound; lia.
    + apply sort_concatExpr; [apply sort_bvConst64 | exact Hs].
    + rewrite (eval_concatExpr M _ _ 64 (v mod 2 ^ 64) k n); [reflexivity | | exact He].
      rewrite eval_bvConst64 by lia. f_equal.
      rewrite !Z.mod_mod by lia. reflexivity.
    + rewrite Z.pow_add_r by lia. nia.
    + split.
      * rewrite H1. f_equal. lia.
      * rewrite H2. f_equal; [lia|]. rewrite Z.pow_add_r by lia.
        generalize dependent (v / 2 ^ 64). generalize dependent (v mod 2 ^ 64).
        intros b Hb a Hdm _ _. rewrite Hdm. ring.
Qed.

(** The term built for an integer constant, by width: the shape of the term
    in each of the four ranges of the width, and its sort and value. *)
Lemma Constant_term_spec (width value : Z) :
  0 < width -> 0 <= value < 2 ^ width ->
  let t := fst (constructActual_Constant width value) in
  snd (constructActual_Constant width value) = width /\
  (width = 1 -> t = if value =? 1 then getTrue else getFalse) /\
  (1 < width <= 32 -> t = bvConst32 width value) /\
  (32 < width <= 64 -> t = bvConst64 width value) /\
  (64 < width -> t = concatChunks (chunks (S (Z.to_nat width)) width value)) /\
  (1 < width ->
   Z3_get_sort t = Z3_mk_bv_sort width /\ forall M, eval M t = VBv width value).
Proof.
  intros Hw Hv.
  assert (Hz : width <= 64 -> getZExtValue width value = value).
  { intros H. unfold getZExtValue, APValue. rewrite (Z.mod_small value (2 ^ width)) by lia.
    apply Z.mod_small. split; [lia|]. apply Z.lt_le_trans with (2 ^ width); [lia|].
    apply Z.pow_le_mono_r; lia. }
  assert (Hwd : snd (constructActual_Constant width value) = width).
  { unfold constructActual_Constant.
    destruct (width =? 1), (width <=? 32), (width <=? 64); reflexivity. }
  intros t. subst t. split; [exact Hwd|].
  unfold constructActual_Constant.
  destruct (Z.eqb_spec width 1) as [->|Hn1].
  { repeat split; try lia. intros _. cbn [fst]. unfold isTrue, APValue.
    change (2 ^ 1) with 2 in *. rewrite (Z.mod_small value 2) by lia.
    now rewrite Z.eqb_refl. }
  destruct (Z.leb_spec width 32) as [H32|H32].
  { cbn [fst]. rewrite Hz by lia. repeat split; try lia; try reflexivity.
    intros M. rewrite eval_bvConst32 by lia. f_equal.
    rewrite (Z.mod_small value (2 ^ 32)); [apply Z.mod_small; lia|].
    split; [lia|]. apply Z.lt_le_trans with (2 ^ width); [lia|].
    apply Z.pow_le_mono_r; lia. }
  destruct (Z.leb_spec width 64) as [H64|H64].
  { cbn [fst]. rewrite Hz by lia. repeat split; try lia; try reflexivity.
    intros M. rewrite eval_bvConst64 by lia. f_equal.
    rewrite (Z.mod_small value (2 ^ 64)); [apply Z.mod_small; lia|].
    split; [lia|]. apply Z.lt_le_trans with (2 ^ width); [lia|].
    apply Z.pow_le_mono_r; lia. }
  cbn [fst snd].
  assert (Hlow : getZExtValue (fst (CE_Extract width value 0 64))
                   (snd (CE_Extract width value 0 64)) mod 2 ^ 64
                 = (value mod 2 ^ 64) mod 2 ^ 64).
  { unfold CE_Extract, getZExtValue, APValue. cbn [fst snd].
    change (2 ^ 0) with 1. rewrite Z.div_1_r.
    rewrite (Z.mod_small value (2 ^ width)) by lia.
    rewrite !Z.mod_mod by (apply Z.pow_nonzero; lia). reflexivity. }
  assert (Hterm : Constant_loop (Z.to_nat width) (width, value)
                    (bvConst64 64 (getZExtValue (fst (CE_Extract width value 0 64))
                                     (snd (CE_Extract width value 0 64))))
                  = concatChunks (chunks (S (Z.to_nat width)) width value)).
  { rewrite Constant_loop_chunks by lia. unfold concatChunks.
    cbn [chunks]. destruct (Z.leb_spec width 64); [lia|]. cbn [tl fst snd].
    f_equal. unfold bvConst64. now rewrite Hlow. }
  rewrite Hterm. repeat split; try lia; try reflexivity.
  - unfold concatChunks. cbn [chunks]. destruct (Z.leb_spec width 64); [lia|].
    cbn [fst snd].
    pose (M := mkModel (fun _ _ => VErr) (fun _ _ => 0)).
    destruct (eval_fold_chunks M (Z.to_nat width) (width - 64) (value / 2 ^ 64)
                (bvConst64 64 (value mod 2 ^ 64)) 64 (value mod 2 ^ 64)) as [H1 _];
      try lia.
    + apply div_pow2_bound; lia.
    + apply sort_bvConst64.
    + rewrite eval_bvConst64 by lia. now rewrite !Z.mod_mod by lia.
    + apply Z.mod_pos_bound. lia.
    + rewrite H1. f_equal. lia.
  - intros M. unfold concatChunks. cbn [chunks]. destruct (Z.leb_spec width 64); [lia|].
    cbn [fst snd].
    destruct (eval_fold_chunks M (Z.to_nat width) (width - 64) (value / 2 ^ 64)
                (bvConst64 64 (value mod 2 ^ 64)) 64 (value mod 2 ^ 64)) as [_ H2];
      try lia.
    + apply div_pow2_bound; lia.
    + apply sort_bvConst64.
    + rewrite eval_bvConst64 by lia. now rewrite !Z.mod_mod by lia.
    + apply Z.mod_pos_bound. lia.
    + rewrite H2. f_equal; [lia|].
      pose proof (Z.div_mod value (2 ^ 64) ltac:(lia)). lia.
Qed.

(** C7, as the code has it.  A constant of width 1 is translated to the
    Boolean literal of its value; of width 2 to 32, to a bitvector numeral
    of the constant's own width, built by the 32-bit constructor; of width
    33 to 64, to a numeral of the constant's own width, built by the 64-bit
    constructor; a wider one, to its 64-bit chunks concatenated from the low
    chunk up, each next chunk on the high side, the last with the width that
    remains.  In every case above width 1 the term is a bitvector of the
    constant's width whose value is the constant's value. *)
Theorem Constant_lowering (width value : Z) (s : Z3Builder) :
  0 < width -> 0 <= value < 2 ^ width ->
  exists t,
    constructActual (ConstantExpr width value) s = Ok ((t, width), s) /\
    construct (ConstantExpr width value) s = Ok ((t, width), s) /\
    (width = 1 -> t = if value =? 1 then getTrue else getFalse) /\
    (1 < width <= 32 -> t = bvConst32 width value) /\
    (32 < width <= 64 -> t = bvConst64 width value) /\
    (64 < width -> t = concatChunks (chunks (S (Z.to_nat width)) width value)) /\
    (1 < width ->
     Z3_get_sort t = Z3_mk_bv_sort width /\ forall M, eval M t = VBv width value).
Proof.
  intros Hw Hv.
  destruct (Constant_term_spec width value Hw Hv) as (Hwd & H1 & H2 & H3 & H4 & H5).
  exists (fst (constructActual_Constant width value)).
  split; [|split; [|exact (conj H1 (conj H2 (conj H3 (conj H4 H5))))]].
  - run_case. rewrite (surjective_pairing (constructActual_Constant width value)).
    now rewrite Hwd.
  - unfold construct, construct_with. cbn [isa_ConstantExpr]. rewrite orb_true_r.
    run_case. rewrite (surjective_pairing (constructActual_Constant width value)).
    now rewrite Hwd.
Qed.

Lemma Constant_lowering_witness :
  exists t,
    constructActual (ConstantExpr 128 (2 ^ 100 + 5)) newBuilder
    = Ok ((t, 128), newBuilder) /\
    t = concatChunks (chunks (S (Z.to_nat 128)) 128 (2 ^ 100 + 5)) /\
    Z3_get_sort t = Z3_mk_bv_sort 128 /\
    forall M, eval M t = VBv 128 (2 ^ 100 + 5).
Proof.
  destruct (Constant_lowering 128 (2 ^ 100 + 5) newBuilder ltac:(lia)
              ltac:(split; [discriminate | reflexivity]))
    as (t & H1 & _ & _ & _ & _ & H5 & H6).
  exists t. split; [exact H1|]. split; [apply H5; lia|]. apply H6; lia.
Defined.

(** C7 as stated fails on the width of the numerals: an 8-bit constant is
    translated to an 8-bit numeral, not a 32-bit one, and a 40-bit constant
    to a 40-bit numeral, not a 64-bit one. *)
Lemma Constant_numeral_width_counterexample :
  constructActual (ConstantExpr 8 5) newBuilder
  = Ok ((Z3_mk_unsigned_int 5 (Z3_mk_bv_sort 8), 8), newBuilder) /\
  getBVLength (Z3_mk_unsigned_int 5 (Z3_mk_bv_sort 8)) = 8 /\
  getBVLength (Z3_mk_unsigned_int 5 (Z3_mk_bv_sort 8)) <> 32 /\
  constructActual (ConstantExpr 40 5) newBuilder
  = Ok ((Z3_mk_unsigned_int64 5 (Z3_mk_bv_sort 40), 40), newBuilder) /\
  getBVLength (Z3_mk_unsigned_int64 5 (Z3_mk_bv_sort 40)) = 40 /\
  getBVLength (Z3_mk_unsigned_int64 5 (Z3_mk_bv_sort 40)) <> 64.
Proof.
  repeat split; try reflexivity; discriminate.
Qed.

(** ** Width and sort of the result of every case *)

Lemma yields_yieldsR (r : ResW) (float : bool) (w : Z) :
  yields r float w -> yieldsR (Ok r) float w.
Proof. destruct r as [a w']. intros [Hw Hs]. cbn in *. subst. exists a. auto. Qed.

Lemma intSort_bv (w : Z) : w <> 1 -> intSort w = Z3_mk_bv_sort w.
Proof. intros H. unfold intSort. now destruct (Z.eqb_spec w 1). Qed.

Lemma isCastWidth_cases (w : Z) :
  isCastWidth w = true -> w = 16 \/ w = 32 \/ w = 64 \/ w = 80 \/ w = 128.
Proof. unfold isCastWidth. rewrite !orb_true_iff, !Z.eqb_eq. tauto. Qed.

Lemma isFloatWidth_cases (w : Z) :
  isFloatWidth w = true -> w = 32 \/ w = 64 \/ w = 80.
Proof. unfold isFloatWidth. rewrite !orb_true_iff, !Z.eqb_eq. tauto. Qed.

Lemma isFloatWidth2_cases (w : Z) :
  isFloatWidth2 w = true -> w = 32 \/ w = 64 \/ w = 80.
Proof. unfold isFloatWidth2. rewrite !orb_true_iff, !Z.eqb_eq. tauto. Qed.

Ltac float_width H :=
  first [apply isFloatWidth_cases in H | apply isFloatWidth2_cases in H];
  destruct H as [-> | [-> | ->]].

Ltac cast_width H :=
  apply isCastWidth_cases in H; destruct H as [-> | [-> | [-> | [-> | ->]]]].

Lemma Constant_yields (w v : Z) :
  0 < w -> 0 <= v < 2 ^ w -> yields (constructActual_Constant w v) false w.
Proof.
  intros Hw Hv.
  destruct (Constant_term_spec w v Hw Hv) as (Hwd & H1 & _ & _ & _ & H5).
  split; [exact Hwd|]. cbn [sortOf]. unfold intSort.
  destruct (Z.eqb_spec w 1) as [Hn|Hn].
  - rewrite (H1 Hn). now destruct (v =? 1).
  - apply H5. lia.
Qed.

Lemma FConstant_yieldsR (w raw : Z) :
  isFloatWidth2 w = true -> yieldsR (constructActual_FConstant w raw) true w.
Proof.
  intros H. float_width H; unfold constructActual_FConstant; cbn [Z.eqb Pos.eqb Expr.Fl32 Expr.Fl64 Expr.Fl80].
  - eexists; split; reflexivity.
  - eexists; split; reflexivity.
  - destruct (Bool.eqb _ _); eexists; split; reflexivity.
Qed.

Lemma Extract_yields (src : Z3ASTHandle) (offset w : Z) :
  0 < w -> yields (constructActual_Extract src offset w) false w.
Proof.
  intros Hw. unfold constructActual_Extract, yields, sortOf, intSort.
  destruct (Z.eqb_spec w 1); cbn [fst snd]; split; try reflexivity.
  unfold bvExtract. cbn [Z3_get_sort]. f_equal. lia.
Qed.

Lemma ZExt_yields (src : Z3ASTHandle) (sw w : Z) :
  Z3_get_sort src = intSort sw -> 0 < sw < w ->
  yields (constructActual_ZExt src sw w) false w.
Proof.
  intros Hs Hw. unfold constructActual_ZExt, yields, sortOf.
  rewrite (intSort_bv w) by lia.
  destruct (Z.eqb_spec sw 1); cbn [fst snd]; split; try reflexivity.
  - unfold iteExpr. cbn [Z3_get_sort]. apply sort_bvOne.
  - rewrite (sort_concatExpr _ _ (w - sw) sw); [f_equal; lia | apply sort_bvZero |].
    now rewrite Hs, intSort_bv.
Qed.

Lemma SExt_yieldsR (src : Z3ASTHandle) (sw w : Z) :
  Z3_get_sort src = intSort sw -> 0 < sw < w ->
  yieldsR (constructActual_SExt src sw w) false w.
Proof.
  intros Hs Hw. unfold constructActual_SExt, yieldsR, sortOf.
  rewrite (intSort_bv w) by lia.
  destruct (Z.eqb_spec sw 1).
  - eexists; split; [reflexivity|]. unfold iteExpr. cbn [Z3_get_sort].
    apply sort_bvMinusOne.
  - rewrite intSort_bv in Hs by assumption. unfold bvSignExtend. rewrite Hs.
    cbn [Z3_get_bv_sort_size]. destruct (Z.leb_spec sw w); [|lia].
    eexists; split; [reflexivity|]. cbn [Z3_get_sort]. rewrite Hs. f_equal. lia.
Qed.

Lemma sort_rm (rm : roundingMode) :
  Z3_get_sort (getRoundingModeAST rm) = Z3_mk_fpa_rounding_mode_sort.
Proof. now destruct rm. Qed.

(** Running the check of a conversion on an operand of a known sort. *)
Ltac run_checked Hs :=
  unfold floatSort, castSort in Hs;
  cbn [Z.eqb Pos.eqb Expr.Fl32 Expr.Fl64 Expr.Fl80] in Hs;
  unfold Z3_checked, Z3_mk_fpa_to_fp_float, Z3_mk_fpa_to_fp_signed,
    Z3_mk_fpa_to_fp_unsigned, Z3_mk_fpa_to_fp_bv, Z3_mk_fpa_to_ubv, Z3_mk_fpa_to_sbv,
    Z3_mk_fpa_to_ieee_bv, readExpr, sortF80, getArraySort, getBvSort,
    Z3_mk_fpa_sort_16, Z3_mk_fpa_sort_32, Z3_mk_fpa_sort_64, Z3_mk_fpa_sort_128 in *;
  cbn [map Z3_get_sort fpaSorted]; rewrite ?sort_rm, ?Hs;
  cbn [isFpSort isRmSort isBvSort sortExists andb Z.ltb Z.eqb Z.compare Pos.compare
       Pos.compare_cont Pos.eqb Z.add Pos.add Pos.succ Pos.add_carry andThen].

Lemma FExt_yieldsR (src : Z3ASTHandle) (sw w : Z) (rm : roundingMode) :
  Z3_get_sort src = floatSort sw ->
  isCastWidth sw = true -> isCastWidth w = true ->
  (sw =? Expr.Fl80) && (w =? Expr.Fl80) = false ->
  yieldsR (constructActual_FExt src sw w rm) true w.
Proof.
  intros Hs Hsw H Hne. unfold yieldsR.
  cast_width Hsw; cast_width H; try discriminate Hne; unfold constructActual_FExt;
    cbn [Z.eqb Pos.eqb Expr.Fl32 Expr.Fl64 Expr.Fl80 castSort];
    run_checked Hs; eexists; split; reflexivity.
Qed.

Lemma FToU_yieldsR (src : Z3ASTHandle) (sw w : Z) (rm : roundingMode) :
  Z3_get_sort src = floatSort sw -> isCastWidth sw = true -> 1 < w ->
  yieldsR (constructActual_FToU src sw w rm) false w.
Proof.
  intros Hs Hsw Hw. unfold yieldsR, sortOf. rewrite (intSort_bv w) by lia.
  assert (H0 : (0 <? w) = true) by (apply Z.ltb_lt; lia).
  cast_width Hsw; unfold constructActual_FToU;
    cbn [Z.eqb Pos.eqb Expr.Fl32 Expr.Fl64 Expr.Fl80];
    run_checked Hs; rewrite H0; cbn [andb andThen];
    (eexists; split; [reflexivity|]); try reflexivity.
  unfold iteExpr. cbn [Z3_get_sort]. apply sort_bvZero.
Qed.

Lemma FToS_yieldsR (src : Z3ASTHandle) (sw w : Z) (rm : roundingMode) :
  Z3_get_sort src = floatSort sw -> isCastWidth sw = true -> sw <> Expr.Fl80 ->
  1 < w -> yieldsR (constructActual_FToS src sw w rm) false w.
Proof.
  intros Hs Hsw Hne Hw. unfold yieldsR, sortOf. rewrite (intSort_bv w) by lia.
  assert (H0 : (0 <? w) = true) by (apply Z.ltb_lt; lia).
  cast_width Hsw; try (now contradiction Hne); unfold constructActual_FToS;
    cbn [Z.eqb Pos.eqb Expr.Fl32 Expr.Fl64 Expr.Fl80];
    run_checked Hs; rewrite H0; cbn [andb andThen];
    eexists; split; reflexivity.
Qed.

Lemma UToF_SToF_yieldsR (src : Z3ASTHandle) (sw w : Z) (rm : roundingMode) :
  Z3_get_sort src = Z3_mk_bv_sort sw -> isCastWidth w = true ->
  yieldsR (constructActual_UToF src w rm) true w /\
  yieldsR (constructActual_SToF src w rm) true w.
Proof.
  intros Hs H. unfold yieldsR.
  cast_width H; unfold constructActual_UToF, constructActual_SToF;
    cbn [Z.eqb Pos.eqb Expr.Fl32 Expr.Fl64 Expr.Fl80 castSort];
    run_checked Hs; split; eexists; split; reflexivity.
Qed.

Lemma ExplicitFloat_yieldsR (src : Z3ASTHandle) (w : Z) :
  Z3_get_sort src = Z3_mk_bv_sort w -> isCastWidth w = true ->
  yieldsR (constructActual_ExplicitFloat src w) true w.
Proof.
  intros Hs H. unfold yieldsR.
  cast_width H; unfold constructActual_ExplicitFloat;
    cbn [Z.eqb Pos.eqb Expr.Fl32 Expr.Fl64 Expr.Fl80 castSort];
    run_checked Hs; eexists; split; reflexivity.
Qed.

Lemma ExplicitInt_yieldsR (src : Z3ASTHandle) (w : Z) :
  Z3_get_sort src = floatSort w -> isCastWidth w = true -> w <> Expr.Fl80 ->
  yieldsR (constructActual_ExplicitInt src w) false w.
Proof.
  intros Hs H Hne. unfold yieldsR.
  cast_width H; try (now contradiction Hne); unfold constructActual_ExplicitInt;
    pose proof Hs as Hs'; run_checked Hs;
    cbn [Z.eqb Pos.eqb Expr.Fl32 Expr.Fl64 Expr.Fl80];
    (eexists; split; [reflexivity|]); cbn [Z3_get_sort]; rewrite Hs; reflexivity.
Qed.

(** On an F80 array the conversions [fp.to_sbv], [fp.to_ieee_bv] and
    [to_fp] are rejected by Z3: [FToS] and [ExplicitInt] from 80 bits and
    [FExt] to 80 bits abort when the translation of their operand is the
    array. *)
Lemma F80_array_conversions_abort (src : Z3ASTHandle) (sw w : Z) (rm : roundingMode) :
  Z3_get_sort src = sortF80Array ->
  constructActual_FToS src Expr.Fl80 w rm = Abort Z3_error /\
  constructActual_ExplicitInt src sw = Abort Z3_error /\
  constructActual_FExt src sw Expr.Fl80 rm = Abort Z3_error.
Proof.
  intros Hsrc. split; [|split].
  - unfold constructActual_FToS, Expr.Fl80, Expr.Int32, Expr.Int64. cbn [Z.eqb Pos.eqb].
    unfold Z3_checked, Z3_mk_fpa_to_sbv. cbn [map Z3_get_sort fpaSorted].
    rewrite sort_rm, Hsrc.
    destruct (w =? 32), (w =? 64);
      cbn [sortF80Array getArraySort isFpSort isRmSort andb andThen Z.ltb Z.compare];
      rewrite ?Bool.andb_false_r; reflexivity.
  - unfold constructActual_ExplicitInt, Z3_checked, Z3_mk_fpa_to_ieee_bv.
    cbn [map Z3_get_sort fpaSorted]. now rewrite Hsrc.
  - unfold constructActual_FExt, Expr.Fl80. cbn [Z.eqb Pos.eqb].
    unfold Z3_checked, Z3_mk_fpa_to_fp_float. cbn [map Z3_get_sort fpaSorted].
    now rewrite sort_rm, Hsrc.
Qed.

Lemma FUnary_yieldsR (kind : Expr.FUnaryKind) (expr : Z3ASTHandle) (w : Z) :
  Z3_get_sort expr = floatSort w -> isFloatWidth w = true ->
  yieldsR (match kind with
           | Expr.FAbs => constructActual_FAbs expr w
           | Expr.FpClassify => constructActual_FpClassify expr w
           | Expr.FIsFinite => constructActual_FIsFinite expr w
           | Expr.FIsNan => constructActual_FIsNan expr w
           | Expr.FIsInf => constructActual_FIsInf expr w
           end)
    (match kind with Expr.FAbs => true | _ => false end)
    (match kind with Expr.FAbs => w | _ => sizeof_int_bits end).
Proof.
  intros Hs H. float_width H; destruct kind;
    (eexists; split; [reflexivity|]); try reflexivity;
    cbn [Z3_get_sort writeExpr Z3_mk_fpa_abs]; exact Hs.
Qed.

Lemma FUnaryRound_yieldsR (kind : Expr.FUnaryRoundKind) (expr : Z3ASTHandle) (w : Z)
    (rm : roundingMode) :
  Z3_get_sort expr = floatSort w -> isFloatWidth w = true ->
  yieldsR (match kind with
           | Expr.FSqrt => constructActual_FSqrt expr w rm
           | Expr.FNearbyInt => constructActual_FNearbyInt expr w rm
           end) true w.
Proof.
  intros Hs H. float_width H; destruct kind;
    (eexists; split; [reflexivity|]); try reflexivity;
    cbn [Z3_get_sort Z3_mk_fpa_sqrt Z3_mk_fpa_round_to_integral]; exact Hs.
Qed.

Lemma bvArith_yieldsR (op : Z3_ast -> Z3_ast -> Z3_ast) (l r : Z3ASTHandle) (w : Z) :
  (forall a b, Z3_get_sort (op a b) = Z3_get_sort a) ->
  Z3_get_sort l = intSort w -> w <> 1 ->
  yieldsR (bvArith op l r w) false w.
Proof.
  intros Hop Hs Hw. rewrite intSort_bv in Hs by assumption.
  unfold bvArith, getBVLength. rewrite Hop, Hs. cbn [Z3_get_bv_sort_size].
  rewrite Z.eqb_refl. eexists; split; [reflexivity|].
  rewrite Hop, Hs. cbn [sortOf]. now rewrite intSort_bv.
Qed.

Lemma Bitwise_yields (l r : Z3ASTHandle) (w : Z) :
  Z3_get_sort l = intSort w ->
  yields (constructActual_And l r w) false w /\
  yields (constructActual_Or l r w) false w /\
  yields (constructActual_Xor l r w) false w /\
  yields (constructActual_Not l w) false w.
Proof.
  intros Hs. unfold constructActual_And, constructActual_Or, constructActual_Xor,
    constructActual_Not, yields, sortOf. unfold intSort in *.
  destruct (Z.eqb_spec w 1); cbn [fst snd]; repeat split; try reflexivity; exact Hs.
Qed.

Lemma sort_bvRightShift (x : Z3ASTHandle) (w k : Z) :
  Z3_get_sort x = Z3_mk_bv_sort w -> 0 <= k ->
  Z3_get_sort (bvRightShift x k) = Z3_mk_bv_sort w.
Proof.
  intros Hs Hk. rewrite (bvRightShift_cases x w k Hs).
  destruct (Z.eqb_spec k 0); [exact Hs|].
  destruct (Z.leb_spec w k); [apply sort_bvZero|].
  rewrite (sort_concatExpr _ _ k (w - 1 - k + 1)); [f_equal; lia | apply sort_bvZero |].
  reflexivity.
Qed.

Lemma sort_bvLeftShift (x : Z3ASTHandle) (w k : Z) :
  Z3_get_sort x = Z3_mk_bv_sort w -> 0 <= k ->
  Z3_get_sort (bvLeftShift x k) = Z3_mk_bv_sort w.
Proof.
  intros Hs Hk. rewrite (bvLeftShift_cases x w k Hs).
  destruct (Z.eqb_spec k 0); [exact Hs|].
  destruct (Z.leb_spec w k); [apply sort_bvZero|].
  rewrite (sort_concatExpr _ _ (w - k - 1 - 0 + 1) k);
    [f_equal; lia | reflexivity | apply sort_bvZero].
Qed.

Lemma sort_constructAShrByConstant (x isSigned : Z3ASTHandle) (w k : Z) :
  Z3_get_sort x = Z3_mk_bv_sort w -> 0 <= k ->
  Z3_get_sort (constructAShrByConstant x k isSigned) = Z3_mk_bv_sort w.
Proof.
  intros Hs Hk. rewrite (constructAShrByConstant_cases x isSigned w k Hs).
  destruct (Z.eqb_spec k 0); [exact Hs|].
  destruct (Z.leb_spec w k); [apply sort_bvZero|].
  unfold iteExpr. cbn [Z3_get_sort].
  change (Z3_get_sort (concatExpr (bvMinusOne k) (bvExtract x (w - 1) k))
          = Z3_mk_bv_sort w).
  rewrite (sort_concatExpr _ _ k (w - 1 - k + 1));
    [f_equal; lia | apply sort_bvMinusOne | reflexivity].
Qed.

Lemma sort_variable_shifts (x shift : Z3ASTHandle) (w : Z) :
  Z3_get_sort x = Z3_mk_bv_sort w -> 1 < w ->
  Z3_get_sort (bvVarLeftShift x shift) = Z3_mk_bv_sort w /\
  Z3_get_sort (bvVarRightShift x shift) = Z3_mk_bv_sort w /\
  Z3_get_sort (bvVarArithRightShift x shift) = Z3_mk_bv_sort w.
Proof.
  intros Hs Hw.
  unfold bvVarLeftShift, bvVarRightShift, bvVarArithRightShift.
  rewrite (getBVLength_sort x w Hs).
  rewrite bvVarLeftShift_loop_chain, bvVarRightShift_loop_chain,
    bvVarArithRightShift_loop_chain.
  destruct (Z.to_nat w) as [|n] eqn:E; [lia|].
  destruct (Z.to_nat (w - 1)) as [|m] eqn:E'; [lia|].
  unfold iteExpr. cbn [iteChain Z3_get_sort iteExpr].
  repeat split.
  - now apply sort_bvLeftShift.
  - now apply sort_bvRightShift.
  - now apply sort_constructAShrByConstant.
Qed.

Lemma fpArith_yieldsR (msg : string) (op : Z3_ast -> Z3_ast -> Z3_ast)
    (l r : Z3ASTHandle) (w : Z) :
  (forall a b, Z3_get_sort (op a b) = Z3_get_sort a) ->
  Z3_get_sort l = floatSort w -> isFloatWidth2 w = true ->
  yieldsR (fpArith msg op l r w) true w /\ yieldsR (fpMinMax msg op l r w) true w.
Proof.
  intros Hop Hs H. float_width H; split;
    (eexists; split; [reflexivity|]); try reflexivity;
    rewrite Hop; exact Hs.
Qed.

Lemma FBinaryRound_yieldsR (kind : Expr.FBinaryRoundKind) (l r : Z3ASTHandle) (w : Z)
    (rm : roundingMode) :
  Z3_get_sort l = floatSort w -> isFloatWidth2 w = true ->
  yieldsR (match kind with
           | Expr.FAdd => constructActual_FAdd l r w rm
           | Expr.FSub => constructActual_FSub l r w rm
           | Expr.FMul => constructActual_FMul l r w rm
           | Expr.FDiv => constructActual_FDiv l r w rm
           | Expr.FRem => constructActual_FRem l r w rm
           end) true w.
Proof.
  intros Hs H. destruct kind; apply fpArith_yieldsR; auto.
Qed.

Lemma FBinary_yieldsR (kind : Expr.FBinaryKind) (l r : Z3ASTHandle) (w : Z) :
  Z3_get_sort l = floatSort w -> isFloatWidth2 w = true ->
  yieldsR (match kind with
           | Expr.FMin => constructActual_FMin l r w
           | Expr.FMax => constructActual_FMax l r w
           end) true w.
Proof.
  intros Hs H. destruct kind; apply fpArith_yieldsR; auto.
Qed.

Lemma Eq_yieldsR (ee_left : Expr) (l r : Z3ASTHandle) (w : Z) :
  Z3_get_sort l = intSort w -> Z3_get_sort r = intSort w ->
  yieldsR (constructActual_Eq ee_left l r w) false 1.
Proof.
  intros Hl Hr. unfold constructActual_Eq, intSort in *.
  destruct (Z.eqb_spec w 1) as [Hw|Hw]; [|eexists; split; reflexivity].
  rewrite Hw.
  assert (Hiff : iffExpr l r = Ok (Z3_mk_iff l r)) by (unfold iffExpr; now rewrite Hl, Hr).
  destruct ee_left; rewrite ?Hiff; try (eexists; split; reflexivity).
  destruct (isTrue width value); eexists; split; try reflexivity. exact Hr.
Qed.

Lemma bvCompare_yieldsR (msg : string) (op : Z3_ast -> Z3_ast -> Z3_ast)
    (l r : Z3ASTHandle) (w : Z) :
  (forall a b, Z3_get_sort (op a b) = Z3_mk_bool_sort) -> w <> 1 ->
  yieldsR (bvCompare msg op l r w) false 1.
Proof.
  intros Hop Hw. unfold bvCompare. destruct (Z.eqb_spec w 1); [contradiction|].
  eexists; split; [reflexivity|]. apply Hop.
Qed.

Lemma FCmp_yieldsR (kind : Expr.FCmpKind) (l r : Z3ASTHandle) (w : Z) :
  isFloatWidth2 w = true ->
  yieldsR (match kind with
           | Expr.FOrd => constructActual_FOrd l r w
           | Expr.FUno => constructActual_FUno l r w
           | Expr.FUeq => constructActual_FUeq l r w
           | Expr.FOeq => constructActual_FOeq l r w
           | Expr.FUgt => constructActual_FUgt l r w
           | Expr.FOgt => constructActual_FOgt l r w
           | Expr.FUge => constructActual_FUge l r w
           | Expr.FOge => constructActual_FOge l r w
           | Expr.FUlt => constructActual_FUlt l r w
           | Expr.FOlt => constructActual_FOlt l r w
           | Expr.FUle => constructActual_FUle l r w
           | Expr.FOle => constructActual_FOle l r w
           | Expr.FUne => constructActual_FUne l r w
           | Expr.FOne => constructActual_FOne l r w
           end) false 1.
Proof.
  intros H. float_width H; destruct kind; eexists; split; reflexivity.
Qed.

(** ** The caches stay sound *)

Lemma cachesSound_newBuilder : cachesSound newBuilder.
Proof. repeat split; cbn; intros; discriminate. Qed.

Lemma cachesSound_insertConstructed (s : Z3Builder) (e : Expr) (a : Z3ASTHandle) (w : Z) :
  cachesSound s -> w = getWidth e -> Z3_get_sort a = sortFor e ->
  exists s', insertConstructed e a w s = Ok (tt, s') /\ cachesSound s'.
Proof.
  intros (H1 & H2 & H3) Hw Hs. eexists; split; [reflexivity|].
  split; [|split]; cbn; auto.
  intros e' a' w'. destruct (Expr_eq_dec e' e) as [->|]; [|apply H1].
  intros [= <- <-]. auto.
Qed.

Lemma cachesSound_hashArrayExpr (s : Z3Builder) (root : Array) (a : Z3ASTHandle) :
  cachesSound s -> Z3_get_sort a = arraySortOf root ->
  exists s', hashArrayExpr root a s = Ok (tt, s') /\ cachesSound s'.
Proof.
  intros (H1 & H2 & H3) Hs. eexists; split; [reflexivity|].
  split; [|split]; cbn; auto.
  intros root' a'. destruct (Array_eq_dec root' root) as [->|]; [|apply H2].
  intros [= <-]. auto.
Qed.

Lemma cachesSound_hashUpdateNodeExpr (s : Z3Builder) (root : Array) (un : UpdateNode)
    (a : Z3ASTHandle) :
  cachesSound s -> Z3_get_sort a = arraySortOf root ->
  exists s', hashUpdateNodeExpr root un a s = Ok (tt, s') /\ cachesSound s'.
Proof.
  intros (H1 & H2 & H3) Hs. eexists; split; [reflexivity|].
  split; [|split]; cbn; auto.
  intros root' un' a'. destruct (Array_eq_dec root' root) as [->|]; [|apply H3].
  destruct (UpdateNode_eq_dec un' un) as [->|]; [|apply H3].
  intros [= <-]. auto.
Qed.

Lemma getInitialArray_loop_ok (root : Array) (n : nat) :
  forall (i : Z) (arr : Z3ASTHandle),
    0 <= i -> (Z.to_nat i + n <= List.length (constantValues root))%nat ->
    exists a, getInitialArray_loop n i root arr = Ok a /\
              Z3_get_sort a = Z3_get_sort arr.
Proof.
  induction n as [|n IH]; intros i arr Hi Hn; cbn [getInitialArray_loop].
  - eauto.
  - destruct (nth_error (constantValues root) (Z.to_nat i)) as [[cw cv]|] eqn:E.
    + destruct (IH (i + 1)
                  (writeExpr arr (fst (constructActual_Constant (getDomain root) i))
                     (fst (constructActual_Constant cw cv)))) as (a & Ha & Hs);
        [lia | lia |].
      exists a. split; [exact Ha|]. rewrite Hs. reflexivity.
    + apply nth_error_None in E. lia.
Qed.

Lemma getInitialArray_ok (root : Array) (s : Z3Builder) :
  wellFormedArray root = true -> cachesSound s ->
  exists a s', getInitialArray root s = Ok (a, s') /\
               Z3_get_sort a = arraySortOf root /\ cachesSound s'.
Proof.
  intros Hwf Hs. unfold getInitialArray.
  destruct (lookupArrayExpr root (_array_hash s)) as [a|] eqn:E.
  - exists a, s. split; [reflexivity|]. split; [|exact Hs].
    destruct Hs as (_ & H2 & _). now apply H2.
  - set (nm := String.append _ _).
    assert (Hfl : exists a,
               (if isConstantArray root
                then getInitialArray_loop (Z.to_nat (size root)) 0 root
                       (buildArray nm (getDomain root) (getRange root))
                else Ok (buildArray nm (getDomain root) (getRange root))) = Ok a /\
               Z3_get_sort a = arraySortOf root).
    { unfold wellFormedArray in Hwf. apply andb_true_iff in Hwf. destruct Hwf as [_ Hc].
      destruct (isConstantArray root); [|eauto].
      cbn [negb orb] in Hc. apply Nat.leb_le in Hc.
      destruct (getInitialArray_loop_ok root (Z.to_nat (size root)) 0
                  (buildArray nm (getDomain root) (getRange root))) as (a & Ha & Hsa);
        [lia | cbn; lia |].
      exists a. split; [exact Ha|]. rewrite Hsa. reflexivity. }
    destruct Hfl as (a & Ha & Hsa). rewrite Ha.
    destruct (cachesSound_hashArrayExpr s root a Hs Hsa) as (s' & Hh & Hs').
    unfold bind, ret. rewrite Hh. exists a, s'. auto.
Qed.

(** ** Width and sort of the translation of a well-formed node *)

Lemma construct_ok (e : Expr) : constructActualOk e -> constructOk e.
Proof.
  intros HA s Hs. unfold construct, construct_with.
  destruct (negb (UseConstructHashZ3 s) || isa_ConstantExpr e); [now apply HA|].
  destruct (lookupExpr e (constructed s)) as [[res w]|] eqn:E.
  - destruct (proj1 Hs e res w E) as [-> Hsort].
    exists res, s. split; [reflexivity|]. split; [exact Hsort | exact Hs].
  - destruct (HA s Hs) as (a & s' & Hc & Hsort & Hs').
    destruct (cachesSound_insertConstructed s' e a (getWidth e) Hs' eq_refl Hsort)
      as (s'' & Hi & Hs'').
    unfold bind, ret. rewrite Hc, Hi. exists a, s''. auto.
Qed.

Lemma lift_yieldsR (r : Result ResW) (float : bool) (w : Z) (s : Z3Builder) (e : Expr) :
  yieldsR r float w -> getWidth e = w -> sortFor e = sortOf float w -> cachesSound s ->
  exists a s', lift r s = Ok ((a, getWidth e), s') /\
               Z3_get_sort a = sortFor e /\ cachesSound s'.
Proof.
  intros (a & -> & Hs) Hw Hsort Hc. exists a, s. rewrite Hw, Hsort. auto.
Qed.

Lemma ret_yields (r : ResW) (float : bool) (w : Z) (s : Z3Builder) (e : Expr) :
  yields r float w -> getWidth e = w -> sortFor e = sortOf float w -> cachesSound s ->
  exists a s', ret r s = Ok ((a, getWidth e), s') /\
               Z3_get_sort a = sortFor e /\ cachesSound s'.
Proof.
  intros H. apply yields_yieldsR in H. apply (lift_yieldsR (Ok r)); assumption.
Qed.

Lemma lift_yieldsR_at (r : Result ResW) (float : bool) (w : Z) (s : Z3Builder) :
  yieldsR r float w -> cachesSound s ->
  exists a s', lift r s = Ok ((a, w), s') /\
               Z3_get_sort a = sortOf float w /\ cachesSound s'.
Proof. intros (a & -> & Hs) Hc. exists a, s. auto. Qed.

Lemma ret_yields_at (r : ResW) (float : bool) (w : Z) (s : Z3Builder) :
  yields r float w -> cachesSound s ->
  exists a s', ret r s = Ok ((a, w), s') /\
               Z3_get_sort a = sortOf float w /\ cachesSound s'.
Proof.
  intros H. apply yields_yieldsR in H. apply (lift_yieldsR_at (Ok r)); assumption.
Qed.

Ltac wf_split H :=
  cbn [wellFormed wellFormedUpdates wellFormedKids] in H;
  repeat (let H' := fresh "Hwf" in apply andb_true_iff in H; destruct H as [H H']).

Ltac operand H :=
  first
    [ unfold intOperand in H; apply andb_true_iff in H;
      let Hf := fresh "Hint" in let Hw := fresh "Hpos" in
      destruct H as [Hf Hw]; apply negb_true_iff in Hf; apply Z.ltb_lt in Hw
    | unfold floatOperand in H; apply andb_true_iff in H;
      let Hf := fresh "Hflt" in let Hw := fresh "Hcw" in
      destruct H as [Hf Hw] ].

Ltac step_case := cbn [constructActual]; rewrite ?construct_fold; unfold bind.

Ltac wf_conj H := cbn [wellFormed wellFormedUpdates wellFormedKids] in H;
  rewrite ?andb_true_iff in H.

Ltac use H := rewrite H; cbv beta iota.

Ltac child IH Hwf s Hs a s1 Hc Hsort Hs1 :=
  destruct (construct_ok _ (IH Hwf) s Hs) as (a & s1 & Hc & Hsort & Hs1).

Lemma construct_sound_mut :
  (forall e, wellFormed e = true -> constructActualOk e) /\
  (forall un, wellFormedUpdates un = true ->
     forall root, wellFormedArray root = true ->
     forall s, cachesSound s ->
       exists a s', getArrayForUpdate root un s = Ok (a, s') /\
                    Z3_get_sort a = arraySortOf root /\ cachesSound s') /\
  (forall kids, wellFormedKids kids = true ->
     forall s, cachesSound s ->
       exists a s', constructKids kids s = Ok (a, s') /\
                    Z3_get_sort a = Z3_mk_bv_sort (kidsWidth kids) /\ cachesSound s').
Proof.
  apply Expr_mutind.
  - (* Constant *)
    intros width value Hwf s Hs. wf_split Hwf.
    apply Z.ltb_lt in Hwf. apply Z.leb_le in Hwf1. apply Z.ltb_lt in Hwf0.
    step_case. apply (ret_yields _ false width); auto.
    apply Constant_yields; lia.
  - (* FConstant *)
    intros width raw Hwf s Hs. cbn [wellFormed] in Hwf.
    step_case. apply (lift_yieldsR _ true width); auto.
    now apply FConstant_yieldsR.
  - (* NotOptimized *)
    intros src IH Hwf s Hs. cbn [wellFormed] in Hwf.
    destruct (construct_ok _ (IH Hwf) s Hs) as (a & s1 & Hc & Hsort & Hs1).
    step_case. exists a, s1. auto.
  - (* Read *)
    intros root head IHh index IHi Hwf s Hs. wf_conj Hwf.
    destruct Hwf as ((Ha & Hu) & Hi).
    destruct (IHh Hu root Ha s Hs) as (arr & s1 & Hc1 & Hsort1 & Hs1).
    child IHi Hi s1 Hs1 idx s2 Hc2 Hsort2 Hs2.
    step_case. use Hc1. use Hc2.
    apply (ret_yields _ false (getRange root)); auto.
    split; [reflexivity|]. cbn [fst readExpr Z3_get_sort]. rewrite Hsort1.
    cbn [arraySortOf getArraySort sortOf]. unfold wellFormedArray in Ha.
    apply andb_true_iff in Ha. destruct Ha as [Ha _]. apply Z.ltb_lt in Ha.
    rewrite intSort_bv by lia. reflexivity.
  - (* Select *)
    intros c IHc t IHt f IHf Hwf s Hs. wf_conj Hwf.
    destruct Hwf as (((((Hc & Ht) & Hf) & Hot) & Hof) & Heq).
    operand Hot. operand Hof. apply Z.eqb_eq in Heq.
    child IHc Hc s Hs ac s1 Hc1 Hsort1 Hs1.
    child IHt Ht s1 Hs1 a_t s2 Hc2 Hsort2 Hs2.
    child IHf Hf s2 Hs2 af s3 Hc3 Hsort3 Hs3.
    step_case. use Hc1. use Hc2. use Hc3.
    apply (ret_yields _ false (getWidth t)); auto.
    split; [symmetry; exact Heq|]. cbn [fst iteExpr Z3_get_sort]. rewrite Hsort2.
    unfold sortFor. now rewrite Hint.
  - (* FSelect *)
    intros c IHc t IHt f IHf Hwf s Hs. wf_conj Hwf.
    destruct Hwf as (((((Hc & Ht) & Hf) & Hot) & Hof) & Heq).
    operand Hot. operand Hof. apply Z.eqb_eq in Heq.
    child IHc Hc s Hs ac s1 Hc1 Hsort1 Hs1.
    child IHt Ht s1 Hs1 a_t s2 Hc2 Hsort2 Hs2.
    child IHf Hf s2 Hs2 af s3 Hc3 Hsort3 Hs3.
    step_case. use Hc1. use Hc2. use Hc3.
    apply (ret_yields _ true (getWidth t)); auto.
    split; [symmetry; exact Heq|]. cbn [fst iteExpr Z3_get_sort]. rewrite Hsort2.
    unfold sortFor. now rewrite Hflt.
  - (* Concat *)
    intros width kids IHk Hwf s Hs. wf_conj Hwf. destruct Hwf as (Hk & Hw).
    apply Z.eqb_eq in Hw.
    destruct (IHk Hk s Hs) as (a & s1 & Hc1 & Hsort1 & Hs1).
    step_case. use Hc1.
    apply (ret_yields _ false width); auto.
    split; [reflexivity|]. cbn [fst sortOf]. rewrite Hsort1, Hw.
    assert (1 < kidsWidth kids).
    { clear - Hk. induction kids; cbn [wellFormedKids kidsWidth] in *;
        rewrite ?andb_true_iff, ?Z.ltb_lt in Hk; [lia|].
      destruct Hk as (((_ & _) & H1) & H2). specialize (IHkids H2). lia. }
    rewrite intSort_bv by lia. reflexivity.
  - (* Extract *)
    intros expr IH offset width Hwf s Hs. wf_conj Hwf. destruct Hwf as (He & Hw).
    apply Z.ltb_lt in Hw.
    child IH He s Hs a s1 Hc1 Hsort1 Hs1.
    step_case. use Hc1.
    apply (ret_yields _ false width); auto. now apply Extract_yields.
  - (* Cast *)
    intros kind src IH width Hwf s Hs. wf_conj Hwf. destruct Hwf as ((He & Ho) & Hw).
    operand Ho. apply Z.ltb_lt in Hw.
    child IH He s Hs a s1 Hc1 Hsort1 Hs1.
    unfold sortFor in Hsort1. rewrite Hint in Hsort1. cbn [sortOf] in Hsort1.
    destruct kind; step_case; use Hc1.
    + apply (ret_yields _ false width); auto. apply ZExt_yields; auto; lia.
    + apply (lift_yieldsR _ false width); auto. apply SExt_yieldsR; auto; lia.
  - (* FCastRound *)
    intros kind src IH width rm Hwf s Hs.
    destruct kind; wf_conj Hwf; destruct Hwf as (((He & Ho) & Hw) & Hx); operand Ho;
      child IH He s Hs a s1 Hc1 Hsort1 Hs1; step_case; use Hc1;
      unfold sortFor in Hsort1; rewrite ?Hint, ?Hflt in Hsort1; cbn [sortOf] in Hsort1;
      apply (lift_yieldsR _ true width); auto.
    + apply FExt_yieldsR; auto. now apply negb_true_iff in Hx.
    + apply Z.ltb_lt in Hx. rewrite intSort_bv in Hsort1 by lia.
      now apply (UToF_SToF_yieldsR a (getWidth src)).
    + apply Z.ltb_lt in Hx. rewrite intSort_bv in Hsort1 by lia.
      now apply (UToF_SToF_yieldsR a (getWidth src)).
  - (* CastRound *)
    intros kind src IH width rm Hwf s Hs.
    destruct kind; wf_conj Hwf.
    + destruct Hwf as ((He & Ho) & Hw). operand Ho. apply Z.ltb_lt in Hw.
      child IH He s Hs a s1 Hc1 Hsort1 Hs1. step_case; use Hc1.
      unfold sortFor in Hsort1. rewrite Hflt in Hsort1. cbn [sortOf] in Hsort1.
      apply (lift_yieldsR _ false width); auto. now apply FToU_yieldsR.
    + destruct Hwf as (((He & Ho) & Hw) & Hx). operand Ho. apply Z.ltb_lt in Hw.
      apply negb_true_iff, Z.eqb_neq in Hx.
      child IH He s Hs a s1 Hc1 Hsort1 Hs1. step_case; use Hc1.
      unfold sortFor in Hsort1. rewrite Hflt in Hsort1. cbn [sortOf] in Hsort1.
      apply (lift_yieldsR _ false width); auto. now apply FToS_yieldsR.
  - (* ExplicitFloat *)
    intros src IH Hwf s Hs. wf_conj Hwf; destruct Hwf as ((He & Ho) & Hw). operand Ho.
    child IH He s Hs a s1 Hc1 Hsort1 Hs1. step_case; use Hc1.
    unfold sortFor in Hsort1. rewrite Hint in Hsort1. cbn [sortOf] in Hsort1.
    apply (lift_yieldsR _ true (getWidth src)); auto.
    apply ExplicitFloat_yieldsR; auto.
    rewrite Hsort1. apply intSort_bv. intros E. rewrite E in Hw. discriminate Hw.
  - (* ExplicitInt *)
    intros src IH Hwf s Hs. wf_conj Hwf; destruct Hwf as ((He & Ho) & Hx). operand Ho.
    apply negb_true_iff, Z.eqb_neq in Hx.
    child IH He s Hs a s1 Hc1 Hsort1 Hs1. step_case; use Hc1.
    unfold sortFor in Hsort1. rewrite Hflt in Hsort1. cbn [sortOf] in Hsort1.
    apply (lift_yieldsR _ false (getWidth src)); auto.
    now apply ExplicitInt_yieldsR.
  - (* FUnary *)
    intros kind expr IH Hwf s Hs.
    assert (Hwf' : wellFormed expr && floatOperand expr
                   && isFloatWidth (getWidth expr) = true) by (destruct kind; exact Hwf).
    clear Hwf. rewrite !andb_true_iff in Hwf'. destruct Hwf' as ((He & Ho) & Hw).
    operand Ho.
    child IH He s Hs a s1 Hc1 Hsort1 Hs1. step_case; use Hc1.
    unfold sortFor in Hsort1. rewrite Hflt in Hsort1. cbn [sortOf] in Hsort1.
    eapply lift_yieldsR;
      [apply (FUnary_yieldsR kind a (getWidth expr) Hsort1 Hw)
      | destruct kind; reflexivity | destruct kind; reflexivity | assumption].
  - (* FUnaryRound *)
    intros kind expr IH rm Hwf s Hs.
    wf_conj Hwf. destruct Hwf as ((He & Ho) & Hw). operand Ho.
    child IH He s Hs a s1 Hc1 Hsort1 Hs1. step_case; use Hc1.
    unfold sortFor in Hsort1. rewrite Hflt in Hsort1. cbn [sortOf] in Hsort1.
    apply (lift_yieldsR _ true (getWidth expr)); auto.
    now apply FUnaryRound_yieldsR.
  - (* Not *)
    intros expr IH Hwf s Hs. wf_conj Hwf. destruct Hwf as (He & Ho). operand Ho.
    child IH He s Hs a s1 Hc1 Hsort1 Hs1. step_case; use Hc1.
    unfold sortFor in Hsort1. rewrite Hint in Hsort1. cbn [sortOf] in Hsort1.
    apply (ret_yields _ false (getWidth expr)); auto.
    now apply Bitwise_yields.
  - (* Binary *)
    intros kind l IHl r IHr Hwf s Hs. wf_conj Hwf.
    destruct Hwf as (((((Hl & Hr) & Hol) & Hor) & Heq) & Hk).
    operand Hol. operand Hor. apply Z.eqb_eq in Heq.
    assert (Hl' := construct_ok _ (IHl Hl)). assert (Hr' := construct_ok _ (IHr Hr)).
    unfold constructOk, sortFor in Hl', Hr'. rewrite Hint in Hl'. rewrite Hint0 in Hr'.
    rewrite <- Heq in Hr'.
    change (exists a s', constructActual (BinaryExpr kind l r) s
                         = Ok ((a, getWidth l), s') /\
                         Z3_get_sort a = sortOf false (getWidth l) /\ cachesSound s').
    clear IHl IHr Hl Hr Hint Hint0 Heq Hpos0.
    set (w := getWidth l) in *. cbn [sortOf] in *.
    destruct kind; step_case;
      try (apply negb_true_iff in Hk; apply Z.eqb_neq in Hk).
    + (* Add *)
      destruct (Hl' s Hs) as (al & s1 & Hc1 & Hsl & Hs1).
      destruct (Hr' s1 Hs1) as (ar & s2 & Hc2 & Hsr & Hs2).
      use Hc1. use Hc2. apply (lift_yieldsR_at _ false w); auto. unfold constructActual_Add.
      destruct (Z.eqb_spec w 1); [contradiction|]. now apply bvArith_yieldsR.
    + (* Sub *)
      destruct (Hl' s Hs) as (al & s1 & Hc1 & Hsl & Hs1).
      destruct (Hr' s1 Hs1) as (ar & s2 & Hc2 & Hsr & Hs2).
      use Hc1. use Hc2. apply (lift_yieldsR_at _ false w); auto. unfold constructActual_Sub.
      destruct (Z.eqb_spec w 1); [contradiction|]. now apply bvArith_yieldsR.
    + (* Mul *)
      destruct (Hr' s Hs) as (ar & s1 & Hc1 & Hsr & Hs1).
      destruct (Hl' s1 Hs1) as (al & s2 & Hc2 & Hsl & Hs2).
      use Hc1. unfold assert. destruct (Z.eqb_spec w 1); [contradiction|].
      cbn [negb]. cbv beta iota. use Hc2.
      apply (lift_yieldsR_at _ false w); auto. now apply bvArith_yieldsR.
    + (* UDiv *)
      destruct (Hl' s Hs) as (al & s1 & Hc1 & Hsl & Hs1).
      use Hc1. unfold assert. destruct (Z.eqb_spec w 1); [contradiction|].
      cbn [negb]. cbv beta iota. rewrite intSort_bv in Hsl by assumption.
      destruct (constantPowerOfTwo r) as [bits|] eqn:E.
      * apply constantPowerOfTwo_spec in E. destruct E as (cw & cv & _ & _ & Hb & _).
        apply (ret_yields_at _ false w); auto. split; [reflexivity|]. cbn [fst sortOf].
        rewrite intSort_bv by assumption. now apply sort_bvRightShift.
      * destruct (Hr' s1 Hs1) as (ar & s2 & Hc2 & Hsr & Hs2). use Hc2.
        apply (lift_yieldsR_at _ false w); auto. apply bvArith_yieldsR; auto.
        now rewrite intSort_bv.
    + (* SDiv *)
      destruct (Hl' s Hs) as (al & s1 & Hc1 & Hsl & Hs1).
      destruct (Hr' s1 Hs1) as (ar & s2 & Hc2 & Hsr & Hs2).
      use Hc1. unfold assert. destruct (Z.eqb_spec w 1); [contradiction|].
      cbn [negb]. cbv beta iota. use Hc2.
      apply (lift_yieldsR_at _ false w); auto. now apply bvArith_yieldsR.
    + (* URem *)
      destruct (Hl' s Hs) as (al & s1 & Hc1 & Hsl & Hs1).
      use Hc1. unfold assert. destruct (Z.eqb_spec w 1); [contradiction|].
      cbn [negb]. cbv beta iota. rewrite intSort_bv in Hsl by assumption.
      destruct (constantPowerOfTwo r) as [bits|] eqn:E.
      * apply (ret_yields_at _ false w); auto. unfold constructActual_URem_pow2, yields.
        cbn [sortOf]. rewrite intSort_bv by assumption.
        destruct (Z.eqb_spec bits 0); cbn [fst snd]; (split; [reflexivity|]).
        -- apply sort_bvZero.
        -- rewrite (sort_concatExpr _ _ (w - bits) (bits - 1 - 0 + 1));
             [f_equal; lia | apply sort_bvZero | reflexivity].
      * destruct (Hr' s1 Hs1) as (ar & s2 & Hc2 & Hsr & Hs2). use Hc2.
        apply (lift_yieldsR_at _ false w); auto. apply bvArith_yieldsR; auto.
        now rewrite intSort_bv.
    + (* SRem *)
      destruct (Hl' s Hs) as (al & s1 & Hc1 & Hsl & Hs1).
      destruct (Hr' s1 Hs1) as (ar & s2 & Hc2 & Hsr & Hs2).
      use Hc1. use Hc2. apply (lift_yieldsR_at _ false w); auto. unfold constructActual_SRem.
      destruct (Z.eqb_spec w 1); [contradiction|]. now apply bvArith_yieldsR.
    + (* And *)
      destruct (Hl' s Hs) as (al & s1 & Hc1 & Hsl & Hs1).
      destruct (Hr' s1 Hs1) as (ar & s2 & Hc2 & Hsr & Hs2).
      use Hc1. use Hc2. apply (ret_yields_at _ false w); auto. now apply Bitwise_yields.
    + (* Or *)
      destruct (Hl' s Hs) as (al & s1 & Hc1 & Hsl & Hs1).
      destruct (Hr' s1 Hs1) as (ar & s2 & Hc2 & Hsr & Hs2).
      use Hc1. use Hc2. apply (ret_yields_at _ false w); auto. now apply Bitwise_yields.
    + (* Xor *)
      destruct (Hl' s Hs) as (al & s1 & Hc1 & Hsl & Hs1).
      destruct (Hr' s1 Hs1) as (ar & s2 & Hc2 & Hsr & Hs2).
      use Hc1. use Hc2. apply (ret_yields_at _ false w); auto. now apply Bitwise_yields.
    + (* Shl *)
      destruct (Hl' s Hs) as (al & s1 & Hc1 & Hsl & Hs1).
      use Hc1. unfold assert. destruct (Z.eqb_spec w 1); [contradiction|].
      cbn [negb]. cbv beta iota. rewrite intSort_bv in Hsl by assumption.
      destruct (constantShift r) as [shift|] eqn:E.
      * apply (ret_yields_at _ false w); auto. split; [reflexivity|]. cbn [fst sortOf].
        rewrite intSort_bv by assumption. apply sort_bvLeftShift; auto.
        destruct r; try discriminate E. injection E as <-.
        apply Z.mod_pos_bound. reflexivity.
      * destruct (Hr' s1 Hs1) as (ar & s2 & Hc2 & Hsr & Hs2). use Hc2.
        apply (ret_yields_at _ false w); auto. split; [reflexivity|]. cbn [fst sortOf].
        rewrite intSort_bv by assumption. apply sort_variable_shifts; auto. lia.
    + (* LShr *)
      destruct (Hl' s Hs) as (al & s1 & Hc1 & Hsl & Hs1).
      use Hc1. unfold assert. destruct (Z.eqb_spec w 1); [contradiction|].
      cbn [negb]. cbv beta iota. rewrite intSort_bv in Hsl by assumption.
      destruct (constantShift r) as [shift|] eqn:E.
      * apply (ret_yields_at _ false w); auto. split; [reflexivity|]. cbn [fst sortOf].
        rewrite intSort_bv by assumption. apply sort_bvRightShift; auto.
        destruct r; try discriminate E. injection E as <-.
        apply Z.mod_pos_bound. reflexivity.
      * destruct (Hr' s1 Hs1) as (ar & s2 & Hc2 & Hsr & Hs2). use Hc2.
        apply (ret_yields_at _ false w); auto. split; [reflexivity|]. cbn [fst sortOf].
        rewrite intSort_bv by assumption. apply sort_variable_shifts; auto. lia.
    + (* AShr *)
      destruct (Hl' s Hs) as (al & s1 & Hc1 & Hsl & Hs1).
      use Hc1. unfold assert. destruct (Z.eqb_spec w 1); [contradiction|].
      cbn [negb]. cbv beta iota. rewrite intSort_bv in Hsl by assumption.
      destruct (constantShift r) as [shift|] eqn:E.
      * apply (ret_yields_at _ false w); auto. split; [reflexivity|]. cbn [fst sortOf].
        rewrite intSort_bv by assumption. apply sort_constructAShrByConstant; auto.
        destruct r; try discriminate E. injection E as <-.
        apply Z.mod_pos_bound. reflexivity.
      * destruct (Hr' s1 Hs1) as (ar & s2 & Hc2 & Hsr & Hs2). use Hc2.
        apply (ret_yields_at _ false w); auto. split; [reflexivity|]. cbn [fst sortOf].
        rewrite intSort_bv by assumption. apply sort_variable_shifts; auto. lia.
  - (* FBinaryRound *)
    intros kind l IHl r IHr rm Hwf s Hs. wf_conj Hwf.
    destruct Hwf as (((((Hl & Hr) & Hol) & Hor) & Heq) & Hk).
    operand Hol. operand Hor. apply Z.eqb_eq in Heq.
    child IHl Hl s Hs al s1 Hc1 Hsl Hs1. child IHr Hr s1 Hs1 ar s2 Hc2 Hsr Hs2.
    step_case. use Hc1. use Hc2. rewrite <- Heq.
    unfold sortFor in Hsl. rewrite Hflt in Hsl.
    apply (lift_yieldsR _ true (getWidth l)); auto.
    now apply FBinaryRound_yieldsR.
  - (* FBinary *)
    intros kind l IHl r IHr Hwf s Hs. wf_conj Hwf.
    destruct Hwf as (((((Hl & Hr) & Hol) & Hor) & Heq) & Hk).
    operand Hol. operand Hor. apply Z.eqb_eq in Heq.
    child IHl Hl s Hs al s1 Hc1 Hsl Hs1. child IHr Hr s1 Hs1 ar s2 Hc2 Hsr Hs2.
    step_case. use Hc1. use Hc2. rewrite <- Heq.
    unfold sortFor in Hsl. rewrite Hflt in Hsl.
    apply (lift_yieldsR _ true (getWidth l)); auto.
    now apply FBinary_yieldsR.
  - (* Cmp *)
    intros kind l IHl r IHr Hwf s Hs. wf_conj Hwf.
    destruct Hwf as (((((Hl & Hr) & Hol) & Hor) & Heq) & Hk).
    operand Hol. operand Hor. apply Z.eqb_eq in Heq.
    child IHl Hl s Hs al s1 Hc1 Hsl Hs1. child IHr Hr s1 Hs1 ar s2 Hc2 Hsr Hs2.
    unfold sortFor in Hsl, Hsr. rewrite Hint in Hsl. rewrite Hint0 in Hsr.
    rewrite <- Heq in Hsr, Hc2. cbn [sortOf] in Hsl, Hsr.
    destruct kind; try discriminate Hk; step_case; use Hc1; use Hc2;
      try (apply negb_true_iff in Hk; apply Z.eqb_neq in Hk);
      apply (lift_yieldsR _ false 1); auto.
    + now apply Eq_yieldsR.
    + now apply bvCompare_yieldsR.
    + now apply bvCompare_yieldsR.
    + now apply bvCompare_yieldsR.
    + now apply bvCompare_yieldsR.
  - (* FCmp *)
    intros kind l IHl r IHr Hwf s Hs. wf_conj Hwf.
    destruct Hwf as (((((Hl & Hr) & Hol) & Hor) & Heq) & Hk).
    apply Z.eqb_eq in Heq.
    child IHl Hl s Hs al s1 Hc1 Hsl Hs1. child IHr Hr s1 Hs1 ar s2 Hc2 Hsr Hs2.
    step_case. use Hc1. use Hc2. rewrite <- Heq.
    apply (lift_yieldsR _ false 1); auto.
    now apply FCmp_yieldsR.
  - (* UNull *)
    intros _ root Ha s Hs. cbn [getArrayForUpdate]. now apply getInitialArray_ok.
  - (* UNode *)
    intros index IHi value IHv next IHn Hwf root Ha s Hs. wf_conj Hwf.
    destruct Hwf as ((Hi & Hv) & Hn).
    cbn [getArrayForUpdate]. rewrite ?construct_fold.
    destruct (lookupUpdateNodeExpr root (UNode index value next) (_update_node_hash s))
      as [a|] eqn:E.
    + exists a, s. split; [reflexivity|]. split; [|exact Hs].
      exact (proj2 (proj2 Hs) _ _ _ E).
    + destruct (IHn Hn root Ha s Hs) as (arr & s1 & Hc1 & Hsa & Hs1).
      child IHi Hi s1 Hs1 ai s2 Hc2 Hsi Hs2.
      child IHv Hv s2 Hs2 av s3 Hc3 Hsv Hs3.
      unfold bind. use Hc1. use Hc2. use Hc3.
      destruct (cachesSound_hashUpdateNodeExpr s3 root (UNode index value next)
                  (writeExpr arr ai av) Hs3 Hsa) as (s4 & Hh & Hs4).
      rewrite Hh. exists (writeExpr arr ai av), s4. auto.
  - (* KLast *)
    intros kid IH Hwf s Hs. wf_conj Hwf. destruct Hwf as ((Hk & Hf) & Hw).
    apply negb_true_iff in Hf. apply Z.ltb_lt in Hw.
    child IH Hk s Hs a s1 Hc1 Hsort1 Hs1.
    cbn [constructKids]. rewrite ?construct_fold. unfold bind. use Hc1.
    exists a, s1. split; [reflexivity|]. split; [|exact Hs1].
    rewrite Hsort1. unfold sortFor. rewrite Hf. cbn [sortOf kidsWidth].
    apply intSort_bv. lia.
  - (* KCons *)
    intros kid IH rest IHr Hwf s Hs. wf_conj Hwf.
    destruct Hwf as (((Hk & Hf) & Hw) & Hrest).
    apply negb_true_iff in Hf. apply Z.ltb_lt in Hw.
    destruct (IHr Hrest s Hs) as (res & s1 & Hc1 & Hsr & Hs1).
    child IH Hk s1 Hs1 a s2 Hc2 Hsort2 Hs2.
    cbn [constructKids]. rewrite ?construct_fold. unfold bind. use Hc1. use Hc2.
    exists (concatExpr a res), s2. split; [reflexivity|]. split; [|exact Hs2].
    cbn [kidsWidth]. apply sort_concatExpr; [|exact Hsr].
    rewrite Hsort2. unfold sortFor. rewrite Hf. cbn [sortOf].
    apply intSort_bv. lia.
Qed.


(** * Further properties

    Properties of the builder beyond the width and the shape of the result:
    the values of the terms it builds, the input it rejects, and what its
    caches do over a sequence of translations. *)

(** ** Values of the constant builders and of the shifts *)

(** X1.  [bvZExtConst width value] is a bitvector term of sort [BV width] for
    every width, also above 64 where the loop pads with zero chunks; its
    value is the 64-bit [value] truncated to [width] bits, and [value]
    itself once [width] is at least 64. *)
Theorem bvZExtConst_zero_extends (w v : Z) :
  0 < w -> 0 <= v < 2 ^ 64 ->
  Z3_get_sort (bvZExtConst w v) = Z3_mk_bv_sort w /\
  (forall M, eval M (bvZExtConst w v) = VBv w (v mod 2 ^ w)) /\
  (64 <= w -> forall M, eval M (bvZExtConst w v) = VBv w v).
Proof.
  intros Hw Hv. split; [apply sort_bvZExtConst|]. split.
  - intros M. now apply eval_bvZExtConst.
  - intros Hle M. rewrite eval_bvZExtConst by assumption. f_equal.
    apply Z.mod_small. split; [lia|]. apply Z.lt_le_trans with (2 ^ 64); [lia|].
    apply Z.pow_le_mono_r; lia.
Qed.

Lemma bvZExtConst_zero_extends_witness :
  Z3_get_sort (bvZExtConst 200 5) = Z3_mk_bv_sort 200 /\
  (forall M, eval M (bvZExtConst 200 5) = VBv 200 (5 mod 2 ^ 200)) /\
  (64 <= 200 -> forall M, eval M (bvZExtConst 200 5) = VBv 200 5).
Proof. apply (bvZExtConst_zero_extends 200 5); lia. Defined.

Lemma toSigned_mod (w k v : Z) :
  0 < k <= w -> 0 <= v < 2 ^ w -> toSigned w v mod 2 ^ k = v mod 2 ^ k.
Proof.
  intros Hk Hv. unfold toSigned. destruct (v <? 2 ^ (w - 1)); [reflexivity|].
  replace (2 ^ w) with (2 ^ (w - k) * 2 ^ k)
    by (rewrite <- Z.pow_add_r by lia; f_equal; lia).
  replace (v - 2 ^ (w - k) * 2 ^ k) with (v + (- 2 ^ (w - k)) * 2 ^ k) by ring.
  apply Z.mod_add. apply Z.pow_nonzero; lia.
Qed.

Lemma toSigned_mod_wide (w k v : Z) :
  0 < w <= k -> 0 <= v < 2 ^ w ->
  toSigned w v mod 2 ^ k = if v <? 2 ^ (w - 1) then v else 2 ^ k - 2 ^ w + v.
Proof.
  intros Hk Hv. unfold toSigned.
  assert (2 ^ w <= 2 ^ k) by (apply Z.pow_le_mono_r; lia).
  assert (0 < 2 ^ (w - 1)) by (apply pow2_pos; lia).
  destruct (Z.ltb_spec v (2 ^ (w - 1))).
  - apply Z.mod_small. lia.
  - replace (v - 2 ^ w) with (2 ^ k - 2 ^ w + v + (-1) * 2 ^ k) by ring.
    rewrite Z.mod_add by lia. apply Z.mod_small. lia.
Qed.

Lemma eval_bvSExtConst (M : Z3_model) (w u : Z) :
  0 < w ->
  eval M (bvSExtConst w u) = VBv w (toSigned 64 (u mod 2 ^ 64) mod 2 ^ w).
Proof.
  intros Hw. pose proof (Z.mod_pos_bound u (2 ^ 64) ltac:(lia)) as Hu.
  unfold bvSExtConst. destruct (Z.leb_spec w 64) as [Hle|Hgt].
  - rewrite eval_bvConst64 by lia. f_equal. symmetry. apply toSigned_mod; lia.
  - rewrite toSigned_mod_wide by lia. change (2 ^ (64 - 1)) with (2 ^ 63).
    rewrite Z.shiftr_div_pow2 by lia.
    assert (Hq : u mod 2 ^ 64 / 2 ^ 63 = 0 <-> u mod 2 ^ 64 < 2 ^ 63).
    { split; intros Hq.
      - apply Z.div_small_iff in Hq; lia.
      - apply Z.div_small; lia. }
    assert (Hlow : eval M (bvConst64 64 u) = VBv 64 (u mod 2 ^ 64)).
    { rewrite eval_bvConst64 by lia. now rewrite Z.mod_mod by lia. }
    assert (Hp : 0 < 2 ^ (w - 64)) by (apply pow2_pos; lia).
    assert (Hww : 2 ^ w = 2 ^ (w - 64) * 2 ^ 64)
      by (rewrite <- Z.pow_add_r by lia; f_equal; lia).
    destruct (Z.eqb_spec (u mod 2 ^ 64 / 2 ^ 63) 0) as [E|E]; cbn [negb].
    + destruct (Z.ltb_spec (u mod 2 ^ 64) (2 ^ 63)); [|lia].
      rewrite (eval_concatExpr M _ _ (w - 64) 0 64 (u mod 2 ^ 64)); [| |exact Hlow].
      * f_equal; lia.
      * cbn [eval numeral getBvSort]. destruct (Z.ltb_spec 0 (w - 64)); [|lia].
        now rewrite Z.mod_0_l by lia.
    + destruct (Z.ltb_spec (u mod 2 ^ 64) (2 ^ 63)); [lia|].
      rewrite (eval_concatExpr M _ _ (w - 64) (2 ^ (w - 64) - 1) 64 (u mod 2 ^ 64));
        [| |exact Hlow].
      * f_equal; [lia|]. rewrite Hww. ring.
      * cbn [eval numeral getBvSort]. destruct (Z.ltb_spec 0 (w - 64)); [|lia].
        f_equal. replace (-1) with (2 ^ (w - 64) - 1 + (-1) * 2 ^ (w - 64)) by ring.
        rewrite Z.mod_add by lia. apply Z.mod_small. lia.
Qed.

Lemma eval_bvMinusOne (M : Z3_model) (w : Z) :
  0 < w -> eval M (bvMinusOne w) = VBv w (2 ^ w - 1).
Proof.
  intros Hw. unfold bvMinusOne. rewrite eval_bvSExtConst by assumption.
  change ((-1) mod 2 ^ 64) with (2 ^ 64 - 1). f_equal.
  assert (Hp : 0 < 2 ^ w) by (apply pow2_pos; lia).
  change (toSigned 64 (2 ^ 64 - 1)) with (-1).
  replace (-1) with (2 ^ w - 1 + (-1) * 2 ^ w) by ring.
  rewrite Z.mod_add by lia. apply Z.mod_small. lia.
Qed.

(** X2.  [bvSExtConst width value] is a bitvector term of sort [BV width]
    whose value is the 64-bit [value], read as a signed number, modulo
    [2 ^ width]: above 64 bits the high part is all ones or all zeros after
    bit 63 of [value], and up to 64 bits the value is truncated.  Hence
    [bvMinusOne width] is the all-ones vector [2 ^ width - 1]. *)
Theorem bvSExtConst_sign_extends (w v : Z) :
  0 < w ->
  Z3_get_sort (bvSExtConst w v) = Z3_mk_bv_sort w /\
  (forall M, eval M (bvSExtConst w v) = VBv w (toSigned 64 (v mod 2 ^ 64) mod 2 ^ w)) /\
  (forall M, eval M (bvMinusOne w) = VBv w (2 ^ w - 1)).
Proof.
  intros Hw. split; [apply sort_bvSExtConst|].
  split; intros M; [now apply eval_bvSExtConst | now apply eval_bvMinusOne].
Qed.

Lemma bvSExtConst_sign_extends_witness :
  Z3_get_sort (bvSExtConst 128 (2 ^ 63)) = Z3_mk_bv_sort 128 /\
  (forall M, eval M (bvSExtConst 128 (2 ^ 63))
             = VBv 128 (toSigned 64 (2 ^ 63 mod 2 ^ 64) mod 2 ^ 128)) /\
  (forall M, eval M (bvMinusOne 128) = VBv 128 (2 ^ 128 - 1)).
Proof. apply (bvSExtConst_sign_extends 128 (2 ^ 63)); lia. Defined.

(** X3.  On a bitvector term of width [w] with value [n], [bvRightShift] by
    a constant [k] has the value [n / 2 ^ k] and [bvLeftShift] the value
    [(n * 2 ^ k) mod 2 ^ w], for every [k >= 0] (0 from [k = w] on); both
    keep the sort [BV w]. *)
Theorem bvShift_by_constant_value (x : Z3ASTHandle) (w n k : Z) (M : Z3_model) :
  Z3_get_sort x = Z3_mk_bv_sort w -> eval M x = VBv w n ->
  0 < w -> 0 <= n < 2 ^ w -> 0 <= k ->
  eval M (bvRightShift x k) = VBv w (n / 2 ^ k) /\
  eval M (bvLeftShift x k) = VBv w ((n * 2 ^ k) mod 2 ^ w) /\
  Z3_get_sort (bvRightShift x k) = Z3_mk_bv_sort w /\
  Z3_get_sort (bvLeftShift x k) = Z3_mk_bv_sort w.
Proof.
  intros Hs He Hw Hn Hk.
  split; [now apply eval_bvRightShift|]. split; [now apply eval_bvLeftShift|].
  split; [apply sort_bvRightShift | apply sort_bvLeftShift]; assumption || lia.
Qed.

Lemma bvShift_by_constant_value_witness :
  let x := Z3_mk_unsigned_int 200 (Z3_mk_bv_sort 8) in
  eval sampleModel (bvRightShift x 3) = VBv 8 (200 / 2 ^ 3) /\
  eval sampleModel (bvLeftShift x 3) = VBv 8 ((200 * 2 ^ 3) mod 2 ^ 8).
Proof.
  intro x.
  destruct (bvShift_by_constant_value x 8 200 3 sampleModel) as (H1 & H2 & _);
    [reflexivity | reflexivity | lia | lia | lia | split; assumption].
Defined.

Lemma eval_bvBoolExtract (M : Z3_model) (x : Z3ASTHandle) (w n bit : Z) :
  eval M x = VBv w n -> 0 <= bit < w ->
  eval M (bvBoolExtract x bit) = VBool ((n / 2 ^ bit) mod 2 =? 1).
Proof.
  intros He Hb. unfold bvBoolExtract. cbn [eval].
  rewrite (eval_bvExtract M x w n bit bit He) by lia.
  rewrite eval_bvOne_1. rewrite Z.sub_diag. cbn [Z.add val_eq].
  reflexivity.
Qed.

Lemma eval_constructAShrByConstant (M : Z3_model) (x : Z3ASTHandle) (w n k : Z) :
  Z3_get_sort x = Z3_mk_bv_sort w -> eval M x = VBv w n ->
  0 < w -> 0 <= n < 2 ^ w -> 0 <= k < w ->
  eval M (constructAShrByConstant x k (bvBoolExtract x (w - 1)))
  = VBv w ((toSigned w n / 2 ^ k) mod 2 ^ w).
Proof.
  intros Hs He Hw Hn Hk. rewrite (constructAShrByConstant_cases x _ w k Hs).
  destruct (Z.eqb_spec k 0) as [->|Hk0].
  - rewrite He. f_equal. change (2 ^ 0) with 1. rewrite Z.div_1_r.
    rewrite toSigned_mod by lia. symmetry. now apply Z.mod_small.
  - destruct (Z.leb_spec w k) as [Hle|Hlt]; [lia|].
    unfold iteExpr. cbn [eval].
    rewrite (eval_bvBoolExtract M x w n (w - 1) He) by lia.
    assert (Hp1 : 0 < 2 ^ (w - 1)) by (apply pow2_pos; lia).
    assert (Hpk : 0 < 2 ^ k) by (apply pow2_pos; lia).
    assert (Hpwk : 0 < 2 ^ (w - k)) by (apply pow2_pos; lia).
    assert (Hw2 : 2 ^ w = 2 * 2 ^ (w - 1)).
    { replace w with (1 + (w - 1)) at 1 by lia. now rewrite Z.pow_add_r by lia. }
    assert (Hwk : 2 ^ w = 2 ^ (w - k) * 2 ^ k)
      by (rewrite <- Z.pow_add_r by lia; f_equal; lia).
    assert (Hq : 0 <= n / 2 ^ k < 2 ^ (w - k)).
    { split; [apply Z.div_pos; lia|]. apply Z.div_lt_upper_bound; [lia|]. lia. }
    assert (Hle2 : 2 ^ (w - k) <= 2 ^ w) by (apply Z.pow_le_mono_r; lia).
    unfold toSigned. destruct (Z.ltb_spec n (2 ^ (w - 1))) as [Hpos|Hneg].
    + rewrite (Z.div_small n (2 ^ (w - 1))) by lia. cbn [Z.modulo Z.eqb].
      change (0 mod 2 =? 1) with false.
      rewrite (eval_bvRightShift M x w n k Hs He) by lia.
      f_equal. symmetry. apply Z.mod_small. lia.
    + assert (Hd : n / 2 ^ (w - 1) = 1).
      { symmetry. apply (Z.div_unique n (2 ^ (w - 1)) 1 (n - 2 ^ (w - 1))); lia. }
      rewrite Hd. change (1 mod 2 =? 1) with true.
      rewrite (eval_concatExpr M _ _ k (2 ^ k - 1) (w - 1 - k + 1)
                 ((n / 2 ^ k) mod 2 ^ (w - 1 - k + 1))).
      * f_equal; [lia|]. replace (w - 1 - k + 1) with (w - k) by lia.
        rewrite (Z.mod_small (n / 2 ^ k)) by lia.
        replace (n - 2 ^ w) with (n + (- 2 ^ (w - k)) * 2 ^ k) by (rewrite Hwk; ring).
        rewrite Z.div_add by lia.
        replace (n / 2 ^ k + - 2 ^ (w - k))
          with (2 ^ w - 2 ^ (w - k) + n / 2 ^ k + (-1) * 2 ^ w) by ring.
        rewrite Z.mod_add by lia. rewrite Z.mod_small by lia.
        rewrite Hwk. ring.
      * apply eval_bvMinusOne. lia.
      * apply (eval_bvExtract M x w n); [exact He | lia | lia].
Qed.

(** X4.  With the sign test the callers pass, [bvBoolExtract expr (w - 1)],
    which holds exactly when the top bit is set, [constructAShrByConstant]
    by a constant [k < w] is the arithmetic shift: its value is the signed
    value of the operand divided by [2 ^ k], rounded down, modulo
    [2 ^ w]; the sort [BV w] is kept. *)
Theorem constructAShrByConstant_value (x : Z3ASTHandle) (w n k : Z) (M : Z3_model) :
  Z3_get_sort x = Z3_mk_bv_sort w -> eval M x = VBv w n ->
  0 < w -> 0 <= n < 2 ^ w -> 0 <= k < w ->
  let isSigned := bvBoolExtract x (w - 1) in
  eval M isSigned = VBool (2 ^ (w - 1) <=? n) /\
  eval M (constructAShrByConstant x k isSigned)
  = VBv w ((toSigned w n / 2 ^ k) mod 2 ^ w) /\
  Z3_get_sort (constructAShrByConstant x k isSigned) = Z3_mk_bv_sort w.
Proof.
  intros Hs He Hw Hn Hk isSigned. split; [|split].
  - unfold isSigned. rewrite (eval_bvBoolExtract M x w n (w - 1) He) by lia.
    f_equal.
    assert (Hp1 : 0 < 2 ^ (w - 1)) by (apply pow2_pos; lia).
    assert (Hw2 : 2 ^ w = 2 * 2 ^ (w - 1)).
    { replace w with (1 + (w - 1)) at 1 by lia. now rewrite Z.pow_add_r by lia. }
    destruct (Z.leb_spec (2 ^ (w - 1)) n).
    + replace (n / 2 ^ (w - 1)) with 1; [reflexivity|].
      apply (Z.div_unique n (2 ^ (w - 1)) 1 (n - 2 ^ (w - 1))); lia.
    + now rewrite Z.div_small by lia.
  - now apply eval_constructAShrByConstant.
  - apply sort_constructAShrByConstant; [exact Hs | lia].
Qed.

Lemma constructAShrByConstant_value_witness :
  let x := Z3_mk_unsigned_int 200 (Z3_mk_bv_sort 8) in
  eval sampleModel (constructAShrByConstant x 3 (bvBoolExtract x (8 - 1)))
  = VBv 8 ((toSigned 8 200 / 2 ^ 3) mod 2 ^ 8).
Proof.
  intro x.
  destruct (constructAShrByConstant_value x 8 200 3 sampleModel) as (_ & H & _);
    [reflexivity | reflexivity | lia | lia | lia | exact H].
Defined.

Lemma lt_pow2 (w : Z) : 0 <= w -> w < 2 ^ w.
Proof. intros. apply Z.pow_gt_lin_r; lia. Qed.

Lemma eval_bvConst32_small (M : Z3_model) (w i : Z) :
  0 < w < 2 ^ 32 -> 0 <= i <= w -> eval M (bvConst32 w i) = VBv w i.
Proof.
  intros Hw Hi. rewrite eval_bvConst32 by lia. f_equal.
  pose proof (lt_pow2 w ltac:(lia)).
  rewrite (Z.mod_small i (2 ^ 32)) by lia. apply Z.mod_small. lia.
Qed.

Lemma eval_iteChain (M : Z3_model) (shift : Z3ASTHandle) (w m : Z)
    (byConst : Z -> Z3ASTHandle) (dflt : Z3ASTHandle) (n : nat) :
  eval M shift = VBv w m -> 0 < w < 2 ^ 32 ->
  forall i, 0 <= i -> i + Z.of_nat n <= w ->
    eval M (iteChain n i shift w byConst dflt)
    = if (i <=? m) && (m <? i + Z.of_nat n) then eval M (byConst m) else eval M dflt.
Proof.
  intros He Hw. induction n as [|n IH]; intros i Hi Hn.
  - cbn [iteChain]. replace (i + Z.of_nat 0) with i by lia.
    destruct (Z.leb_spec i m), (Z.ltb_spec m i); cbn [andb]; try reflexivity; lia.
  - cbn [iteChain]. unfold iteExpr, eqExpr. cbn [eval].
    rewrite He, (eval_bvConst32_small M w i) by lia. cbn [val_eq].
    rewrite Z.eqb_refl. destruct (Z.eqb_spec m i) as [->|Hne].
    + destruct (Z.leb_spec i i), (Z.ltb_spec i (i + Z.of_nat (S n)));
        cbn [andb]; try reflexivity; lia.
    + rewrite IH by lia.
      destruct (Z.leb_spec i m), (Z.ltb_spec m (i + Z.of_nat (S n))),
        (Z.leb_spec (i + 1) m), (Z.ltb_spec m (i + 1 + Z.of_nat n));
        cbn [andb]; try reflexivity; lia.
Qed.

Lemma eval_shift_guard (M : Z3_model) (shift : Z3ASTHandle) (w m : Z) :
  eval M shift = VBv w m -> 0 < w < 2 ^ 32 ->
  eval M (bvLtExpr shift (bvConst32 w w)) = VBool (m <? w).
Proof.
  intros He Hw. unfold bvLtExpr. cbn [eval].
  rewrite He, (eval_bvConst32_small M w w) by lia. cbn [bvCmp].
  now rewrite Z.eqb_refl.
Qed.

(** X5.  The variable shifts on an operand of width [w] and value [n], by an
    amount term of the same width with value [m]: [bvVarLeftShift] has the
    value [(n * 2 ^ m) mod 2 ^ w] and [bvVarRightShift] the value
    [n / 2 ^ m], so they agree with the shifts by the constant [m], and are
    0 from [m = w] on; [bvVarArithRightShift] is the arithmetic shift by
    [m] below [w] and 0 from [m = w] on, also for a negative operand. *)
Theorem bvVarShift_value (x shift : Z3ASTHandle) (w n m : Z) (M : Z3_model) :
  Z3_get_sort x = Z3_mk_bv_sort w -> Z3_get_sort shift = Z3_mk_bv_sort w ->
  eval M x = VBv w n -> eval M shift = VBv w m ->
  0 < w < 2 ^ 32 -> 0 <= n < 2 ^ w -> 0 <= m ->
  eval M (bvVarLeftShift x shift) = VBv w ((n * 2 ^ m) mod 2 ^ w) /\
  eval M (bvVarRightShift x shift) = VBv w (n / 2 ^ m) /\
  eval M (bvVarArithRightShift x shift)
  = VBv w (if m <? w then (toSigned w n / 2 ^ m) mod 2 ^ w else 0).
Proof.
  intros Hsx Hss Hex Hes Hw Hn Hm.
  assert (Hin : m < w ->
                (0 <=? m) && (m <? 0 + Z.of_nat (Z.to_nat w)) = true).
  { intros. apply andb_true_iff; split; [apply Z.leb_le | apply Z.ltb_lt]; lia. }
  assert (Hp0 : 0 < 2 ^ w) by (apply pow2_pos; lia).
  split; [|split].
  - rewrite (bvVarLeftShift_chain x shift w w Hsx Hss). unfold iteExpr at 1. cbn [eval].
    change (Z3_mk_bvult shift (bvConst32 w w)) with (bvLtExpr shift (bvConst32 w w)).
    rewrite (eval_shift_guard M shift w m Hes Hw).
    destruct (Z.ltb_spec m w) as [Hlt|Hge].
    + rewrite (eval_iteChain M shift w m _ _ _ Hes Hw) by lia.
      rewrite Hin by assumption. now apply eval_bvLeftShift.
    + rewrite (eval_bvZero M w) by lia. f_equal.
      symmetry. replace m with (w + (m - w)) by lia. rewrite Z.pow_add_r by lia.
      rewrite Z.mul_assoc, (Z.mul_comm n), <- Z.mul_assoc.
      rewrite Z.mul_comm. apply Z.mod_mul. lia.
  - rewrite (bvVarRightShift_chain x shift w w Hsx Hss). unfold iteExpr at 1. cbn [eval].
    change (Z3_mk_bvult shift (bvConst32 w w)) with (bvLtExpr shift (bvConst32 w w)).
    rewrite (eval_shift_guard M shift w m Hes Hw).
    destruct (Z.ltb_spec m w) as [Hlt|Hge].
    + rewrite (eval_iteChain M shift w m _ _ _ Hes Hw) by lia.
      rewrite Hin by assumption. now apply eval_bvRightShift.
    + rewrite (eval_bvZero M w) by lia. f_equal.
      assert (Hp : 2 ^ w <= 2 ^ m) by (apply Z.pow_le_mono_r; lia).
      symmetry. apply Z.div_small. lia.
  - rewrite (bvVarArithRightShift_chain x shift w w Hsx Hss). cbv zeta.
    unfold iteExpr at 1. cbn [eval].
    change (Z3_mk_bvult shift (bvConst32 w w)) with (bvLtExpr shift (bvConst32 w w)).
    rewrite (eval_shift_guard M shift w m Hes Hw).
    destruct (Z.ltb_spec m w) as [Hlt|Hge].
    + rewrite (eval_iteChain M shift w m _ _ _ Hes Hw) by lia.
      destruct ((0 <=? m) && (m <? 0 + Z.of_nat (Z.to_nat (w - 1)))) eqn:E.
      * apply eval_constructAShrByConstant; try assumption; lia.
      * assert (m = w - 1) as ->.
        { apply andb_false_iff in E. destruct E as [E|E];
            [apply Z.leb_gt in E | apply Z.ltb_ge in E]; lia. }
        apply eval_constructAShrByConstant; try assumption; lia.
    + apply eval_bvZero. lia.
Qed.

Lemma bvVarShift_value_witness :
  let x := Z3_mk_unsigned_int 200 (Z3_mk_bv_sort 8) in
  let k := Z3_mk_unsigned_int 9 (Z3_mk_bv_sort 8) in
  eval sampleModel (bvVarLeftShift x k) = VBv 8 ((200 * 2 ^ 9) mod 2 ^ 8) /\
  eval sampleModel (bvVarRightShift x k) = VBv 8 (200 / 2 ^ 9) /\
  eval sampleModel (bvVarArithRightShift x k)
  = VBv 8 (if 9 <? 8 then (toSigned 8 200 / 2 ^ 9) mod 2 ^ 8 else 0).
Proof.
  intros x k.
  apply (bvVarShift_value x k 8 200 9 sampleModel);
    [reflexivity | reflexivity | reflexivity | reflexivity | lia | lia | lia].
Defined.

(** X6.  A shift by a [ConstantExpr] shifts by
    [(unsigned)CE->getLimitedValue()], the amount reduced modulo [2 ^ 32]:
    [Shl], [LShr] and [AShr] call the constant shifts with that number.  So
    for a constant amount of at most 64 bits that is a multiple of
    [2 ^ 32], all three return the translation of the left operand
    unchanged (and not the zero vector an overshift gives). *)
Theorem constant_shift_amount_wraps (l : Expr) (cw cv : Z) (s s1 : Z3Builder)
    (lhs : Z3ASTHandle) (w : Z) :
  construct l s = Ok ((lhs, w), s1) -> w <> 1 ->
  let amount := getLimitedValue cw cv mod 2 ^ 32 in
  constructActual (BinaryExpr Expr.Shl l (ConstantExpr cw cv)) s
  = Ok ((bvLeftShift lhs amount, w), s1) /\
  constructActual (BinaryExpr Expr.LShr l (ConstantExpr cw cv)) s
  = Ok ((bvRightShift lhs amount, w), s1) /\
  constructActual (BinaryExpr Expr.AShr l (ConstantExpr cw cv)) s
  = Ok ((constructAShrByConstant lhs amount (bvBoolExtract lhs (w - 1)), w), s1) /\
  (0 <= cv < 2 ^ cw -> cw <= 64 -> cv mod 2 ^ 32 = 0 ->
   constructActual (BinaryExpr Expr.Shl l (ConstantExpr cw cv)) s = Ok ((lhs, w), s1) /\
   constructActual (BinaryExpr Expr.LShr l (ConstantExpr cw cv)) s = Ok ((lhs, w), s1) /\
   constructActual (BinaryExpr Expr.AShr l (ConstantExpr cw cv)) s = Ok ((lhs, w), s1)).
Proof.
  intros Hl Hw amount.
  assert (H1 : constructActual (BinaryExpr Expr.Shl l (ConstantExpr cw cv)) s
               = Ok ((bvLeftShift lhs amount, w), s1)).
  { run_case. rewrite Hl. destruct (Z.eqb_spec w 1); [contradiction | reflexivity]. }
  assert (H2 : constructActual (BinaryExpr Expr.LShr l (ConstantExpr cw cv)) s
               = Ok ((bvRightShift lhs amount, w), s1)).
  { run_case. rewrite Hl. destruct (Z.eqb_spec w 1); [contradiction | reflexivity]. }
  assert (H3 : constructActual (BinaryExpr Expr.AShr l (ConstantExpr cw cv)) s
               = Ok ((constructAShrByConstant lhs amount (bvBoolExtract lhs (w - 1)), w),
                     s1)).
  { run_case. rewrite Hl. destruct (Z.eqb_spec w 1); [contradiction | reflexivity]. }
  split; [exact H1|]. split; [exact H2|]. split; [exact H3|].
  intros Hcv Hcw Hz.
  assert (Ha : amount = 0).
  { unfold amount, getLimitedValue, APValue. rewrite (Z.mod_small cv (2 ^ cw)) by lia.
    assert (2 ^ cw <= 2 ^ 64) by (apply Z.pow_le_mono_r; lia).
    rewrite Z.min_l by lia. exact Hz. }
  rewrite H1, H2, H3, Ha. unfold bvLeftShift, bvRightShift, constructAShrByConstant.
  cbn [Z.eqb]. repeat split.
Qed.

Lemma constant_shift_amount_wraps_witness :
  let l := CastExpr Expr.ZExt sampleX 64 in
  exists lhs s1,
    construct l newBuilder = Ok ((lhs, 64), s1) /\
    constructActual (BinaryExpr Expr.Shl l (ConstantExpr 64 (2 ^ 32))) newBuilder
    = Ok ((lhs, 64), s1).
Proof.
  intro l. eexists _, _. split; [reflexivity|].
  destruct (constant_shift_amount_wraps l 64 (2 ^ 32) newBuilder _ _ 64 eq_refl
              ltac:(lia)) as (_ & _ & _ & H).
  apply H; [lia | lia | reflexivity].
Defined.

(** ** Values of the integer cases *)

(** X7.  [Extract] of [width] bits at [offset] from a bitvector of value [n]:
    the case reports [width]; at width 1 the result is the Boolean "bit
    [offset] of [n] is set", and at another width the bitvector
    [(n / 2 ^ offset) mod 2 ^ width]. *)
Theorem Extract_value (src : Z3ASTHandle) (sw n offset width : Z) (M : Z3_model) :
  eval M src = VBv sw n -> 0 <= n ->
  0 <= offset -> 0 < width -> offset + width <= sw ->
  snd (constructActual_Extract src offset width) = width /\
  eval M (fst (constructActual_Extract src offset width))
  = if width =? 1 then VBool (Z.testbit n offset)
    else VBv width ((n / 2 ^ offset) mod 2 ^ width).
Proof.
  intros He Hn Ho Hw Hb. unfold constructActual_Extract.
  destruct (Z.eqb_spec width 1) as [->|Hw1]; cbn [fst snd].
  - split; [reflexivity|]. rewrite (eval_bvBoolExtract M src sw n offset He) by lia.
    f_equal. rewrite Z.testbit_odd, Z.shiftr_div_pow2 by lia.
    rewrite Zmod_odd. now destruct (Z.odd (n / 2 ^ offset)).
  - split; [reflexivity|].
    rewrite (eval_bvExtract M src sw n (offset + width - 1) offset He) by lia.
    replace (offset + width - 1 - offset + 1) with width by lia. reflexivity.
Qed.

Lemma Extract_value_witness :
  let x := Z3_mk_unsigned_int 200 (Z3_mk_bv_sort 8) in
  snd (constructActual_Extract x 3 1) = 1 /\
  eval sampleModel (fst (constructActual_Extract x 3 1))
  = if 1 =? 1 then VBool (Z.testbit 200 3) else VBv 1 ((200 / 2 ^ 3) mod 2 ^ 1).
Proof.
  intro x. apply (Extract_value x 8 200 3 1 sampleModel); [reflexivity | lia ..].
Defined.

Lemma eval_bvOne (M : Z3_model) (w : Z) : 0 < w -> eval M (bvOne w) = VBv w 1.
Proof.
  intros Hw. unfold bvOne. rewrite eval_bvZExtConst by lia. f_equal.
  apply Z.mod_small. split; [lia|]. apply (Z.pow_gt_1 2 w); lia.
Qed.

(** X8.  [ZExt] to a wider [width] reports [width] and keeps the unsigned
    value: a Boolean source (width 1) becomes the vector 1 or 0, a bitvector
    source of value [n] the vector [n] of the new width. *)
Theorem ZExt_value (src : Z3ASTHandle) (srcWidth width : Z) (M : Z3_model) :
  0 < srcWidth < width ->
  snd (constructActual_ZExt src srcWidth width) = width /\
  (forall b, srcWidth = 1 -> eval M src = VBool b ->
     eval M (fst (constructActual_ZExt src srcWidth width))
     = VBv width (if b then 1 else 0)) /\
  (forall n, srcWidth <> 1 -> eval M src = VBv srcWidth n ->
     eval M (fst (constructActual_ZExt src srcWidth width)) = VBv width n).
Proof.
  intros Hw. unfold constructActual_ZExt.
  destruct (Z.eqb_spec srcWidth 1) as [E|E]; cbn [fst snd];
    (split; [reflexivity|]); split; try (intros; lia).
  - intros b _ He. unfold iteExpr. cbn [eval]. rewrite He.
    destruct b; [apply eval_bvOne | apply eval_bvZero]; lia.
  - intros n _ He.
    rewrite (eval_concatExpr M _ _ (width - srcWidth) 0 srcWidth n);
      [f_equal; lia | apply eval_bvZero; lia | exact He].
Qed.

Lemma ZExt_value_witness :
  let x := Z3_mk_unsigned_int 200 (Z3_mk_bv_sort 8) in
  eval sampleModel (fst (constructActual_ZExt x 8 32)) = VBv 32 200.
Proof.
  intro x.
  destruct (ZExt_value x 8 32 sampleModel ltac:(lia)) as (_ & _ & H).
  apply H; [lia | reflexivity].
Defined.

(** X9.  [SExt] to [width]: a Boolean source becomes the all-ones vector or
    0; a bitvector source of width [srcWidth <= width] and value [n] becomes
    its signed value modulo [2 ^ width]; and a bitvector source wider than
    [width] fails the assertion "attempted to extend longer data". *)
Theorem SExt_value (src : Z3ASTHandle) (srcWidth width : Z) (M : Z3_model) :
  0 < width ->
  (forall b, srcWidth = 1 -> eval M src = VBool b ->
     exists t, constructActual_SExt src srcWidth width = Ok (t, width) /\
               eval M t = VBv width (if b then 2 ^ width - 1 else 0)) /\
  (forall n, srcWidth <> 1 -> Z3_get_sort src = Z3_mk_bv_sort srcWidth ->
     srcWidth <= width -> eval M src = VBv srcWidth n ->
     exists t, constructActual_SExt src srcWidth width = Ok (t, width) /\
               eval M t = VBv width (toSigned srcWidth n mod 2 ^ width)) /\
  (srcWidth <> 1 -> Z3_get_sort src = Z3_mk_bv_sort srcWidth -> width < srcWidth ->
     constructActual_SExt src srcWidth width = Abort "attempted to extend longer data").
Proof.
  intros Hw. unfold constructActual_SExt, bvSignExtend. split; [|split].
  - intros b -> He. cbn [Z.eqb Pos.eqb]. eexists. split; [reflexivity|].
    unfold iteExpr. cbn [eval]. rewrite He.
    destruct b; [apply eval_bvMinusOne | apply eval_bvZero]; lia.
  - intros n Hn Hs Hle He. destruct (Z.eqb_spec srcWidth 1); [lia|].
    rewrite Hs. cbn [Z3_get_bv_sort_size]. destruct (Z.leb_spec srcWidth width); [|lia].
    eexists. split; [reflexivity|]. cbn [eval]. rewrite He.
    destruct (Z.leb_spec 0 (width - srcWidth)); [|lia].
    replace (srcWidth + (width - srcWidth)) with width by lia. reflexivity.
  - intros Hn Hs Hlt. destruct (Z.eqb_spec srcWidth 1); [lia|].
    rewrite Hs. cbn [Z3_get_bv_sort_size]. destruct (Z.leb_spec srcWidth width); [lia|].
    reflexivity.
Qed.

Lemma SExt_value_witness :
  let x := Z3_mk_unsigned_int 200 (Z3_mk_bv_sort 8) in
  (exists t, constructActual_SExt x 8 32 = Ok (t, 32) /\
             eval sampleModel t = VBv 32 (toSigned 8 200 mod 2 ^ 32)) /\
  constructActual_SExt (Z3_mk_unsigned_int 5 (Z3_mk_bv_sort 64)) 64 32
  = Abort "attempted to extend longer data".
Proof.
  intro x. split.
  - destruct (SExt_value x 8 32 sampleModel ltac:(lia)) as (_ & H & _).
    apply H; [lia | reflexivity | lia | reflexivity].
  - destruct (SExt_value (Z3_mk_unsigned_int 5 (Z3_mk_bv_sort 64)) 64 32 sampleModel
                ltac:(lia)) as (_ & _ & H).
    apply H; [lia | reflexivity | lia].
Defined.

(** X10.  The power-of-two lowerings agree with the Z3 operations they
    replace.  For a dividend of width [w] and value [n], [0 <= k < w] and
    any term [c] whose value is [2 ^ k]: the [UDiv] lowering
    [bvRightShift lhs k] and [bvudiv lhs c] both have the value
    [n / 2 ^ k]; the [URem] lowering reports [w] and, like [bvurem lhs c],
    has the value [n mod 2 ^ k] (0 for [k = 0], the special case of the
    code). *)
Theorem pow2_division_value (lhs c : Z3ASTHandle) (w n k : Z) (M : Z3_model) :
  Z3_get_sort lhs = Z3_mk_bv_sort w -> eval M lhs = VBv w n -> 0 <= n < 2 ^ w ->
  eval M c = VBv w (2 ^ k) -> 0 <= k < w ->
  eval M (bvRightShift lhs k) = VBv w (n / 2 ^ k) /\
  eval M (Z3_mk_bvudiv lhs c) = VBv w (n / 2 ^ k) /\
  snd (constructActual_URem_pow2 lhs w k) = w /\
  eval M (fst (constructActual_URem_pow2 lhs w k)) = VBv w (n mod 2 ^ k) /\
  eval M (Z3_mk_bvurem lhs c) = VBv w (n mod 2 ^ k).
Proof.
  intros Hs He Hn Hc Hk.
  assert (Hpk : 0 < 2 ^ k) by (apply pow2_pos; lia).
  assert (Hpw : 0 < 2 ^ w) by (apply pow2_pos; lia).
  assert (Hkw : 2 ^ k < 2 ^ w) by (apply Z.pow_lt_mono_r; lia).
  assert (Hq : 0 <= n / 2 ^ k <= n).
  { split; [apply Z.div_pos; lia|]. apply Z.div_le_upper_bound; nia. }
  assert (Hr : 0 <= n mod 2 ^ k < 2 ^ k) by (apply Z.mod_pos_bound; lia).
  split; [apply (eval_bvRightShift M lhs w n k); try assumption; lia|].
  split; [|split; [|split]].
  - cbn [eval]. rewrite He, Hc. cbn [bvBinop]. rewrite Z.eqb_refl. unfold udiv.
    destruct (Z.eqb_spec (2 ^ k) 0); [lia|]. f_equal. apply Z.mod_small. lia.
  - unfold constructActual_URem_pow2. now destruct (k =? 0).
  - unfold constructActual_URem_pow2. destruct (Z.eqb_spec k 0) as [->|Hk0]; cbn [fst].
    + rewrite eval_bvZero by lia. f_equal. change (2 ^ 0) with 1. now rewrite Z.mod_1_r.
    + rewrite (eval_concatExpr M _ _ (w - k) 0 (k - 1 - 0 + 1)
                 ((n / 2 ^ 0) mod 2 ^ (k - 1 - 0 + 1))).
      * f_equal; [lia|]. replace (k - 1 - 0 + 1) with k by lia.
        change (2 ^ 0) with 1. rewrite Z.div_1_r. lia.
      * apply eval_bvZero. lia.
      * apply (eval_bvExtract M lhs w n); [exact He | lia | lia].
  - cbn [eval]. rewrite He, Hc. cbn [bvBinop]. rewrite Z.eqb_refl. unfold urem.
    destruct (Z.eqb_spec (2 ^ k) 0); [lia|]. f_equal. apply Z.mod_small. lia.
Qed.

Lemma pow2_division_value_witness :
  let x := Z3_mk_unsigned_int 200 (Z3_mk_bv_sort 8) in
  let c := Z3_mk_unsigned_int 8 (Z3_mk_bv_sort 8) in
  eval sampleModel (bvRightShift x 3) = VBv 8 (200 / 2 ^ 3) /\
  eval sampleModel (Z3_mk_bvudiv x c) = VBv 8 (200 / 2 ^ 3) /\
  snd (constructActual_URem_pow2 x 8 3) = 8 /\
  eval sampleModel (fst (constructActual_URem_pow2 x 8 3)) = VBv 8 (200 mod 2 ^ 3) /\
  eval sampleModel (Z3_mk_bvurem x c) = VBv 8 (200 mod 2 ^ 3).
Proof.
  intros x c.
  apply (pow2_division_value x c 8 200 3 sampleModel);
    [reflexivity | reflexivity | lia | reflexivity | lia].
Defined.

(** X11.  [Eq] on operands of width 1 means equivalence on both paths of the
    code: whether the left operand is a constant (the result is the right
    translation or its negation) or not (the result is [iff]), the term
    returned is true exactly when the two translations have the same truth
    value. *)
Theorem Eq_bool_value (l r : Expr) (s s1 s2 : Z3Builder) (lhs rhs : Z3ASTHandle) :
  construct l s = Ok ((lhs, 1), s1) ->
  construct r s1 = Ok ((rhs, 1), s2) ->
  Z3_get_sort lhs = Z3_mk_bool_sort -> Z3_get_sort rhs = Z3_mk_bool_sort ->
  exists t,
    constructActual (CmpExpr Expr.Eq l r) s = Ok ((t, 1), s2) /\
    forall (M : Z3_model) (a b : bool),
      eval M lhs = VBool a -> eval M rhs = VBool b ->
      eval M t = VBool (Bool.eqb a b).
Proof.
  intros Hl Hr Hsl Hsr.
  assert (Hrun : constructActual (CmpExpr Expr.Eq l r) s
                 = lift (constructActual_Eq l lhs rhs 1) s2).
  { run_case. now rewrite Hl, Hr. }
  rewrite Hrun. unfold constructActual_Eq, iffExpr. rewrite Hsl, Hsr.
  cbn [Z.eqb Pos.eqb Z3_get_sort_kind Z3_sort_kind_eqb negb].
  assert (Hiff : forall (M : Z3_model) (a b : bool),
             eval M lhs = VBool a -> eval M rhs = VBool b ->
             eval M (Z3_mk_iff lhs rhs) = VBool (Bool.eqb a b)).
  { intros M a b Ha Hb. cbn [eval]. now rewrite Ha, Hb. }
  destruct l; try (eexists; split; [reflexivity | exact Hiff]).
  unfold construct, construct_with in Hl. cbn [isa_ConstantExpr] in Hl.
  rewrite orb_true_r in Hl. cbn [constructActual] in Hl. unfold ret in Hl.
  injection Hl as Hl _.
  assert (Hw : width = 1).
  { assert (snd (constructActual_Constant width value) = 1) by now rewrite Hl.
    unfold constructActual_Constant in H.
    destruct (width =? 1), (width <=? 32), (width <=? 64); exact H. }
  subst width. unfold constructActual_Constant in Hl. cbn [Z.eqb Pos.eqb] in Hl.
  injection Hl as Hl. unfold lift.
  destruct (isTrue 1 value); subst lhs; eexists; (split; [reflexivity|]);
    intros M a b Ha Hb; cbn [eval getTrue getFalse] in Ha; injection Ha as <-.
  - rewrite Hb. now destruct b.
  - unfold notExpr. cbn [eval]. rewrite Hb. now destruct b.
Qed.

Lemma Eq_bool_value_witness :
  exists lhs rhs s1 s2 t,
    construct (ConstantExpr 1 0) newBuilder = Ok ((lhs, 1), s1) /\
    construct sampleBit s1 = Ok ((rhs, 1), s2) /\
    constructActual (CmpExpr Expr.Eq (ConstantExpr 1 0) sampleBit) newBuilder
    = Ok ((t, 1), s2) /\
    forall (M : Z3_model) (a b : bool),
      eval M lhs = VBool a -> eval M rhs = VBool b ->
      eval M t = VBool (Bool.eqb a b).
Proof.
  destruct (Eq_bool_value (ConstantExpr 1 0) sampleBit newBuilder _ _ _ _
              eq_refl eq_refl eq_refl eq_refl) as (t & H1 & H2).
  eexists _, _, _, _, t. split; [reflexivity|]. split; [reflexivity|].
  split; [exact H1 | exact H2].
Defined.

(** ** 80-bit floats *)

(** X12.  An 80-bit float constant with sign [sign], exponent [exp], integer
    bit [j] and fraction [frac] is translated to the F80 array whose entry
    at index 0 is [fp sign exp frac'] and whose entry at index 1 is
    [fp_zero] when the integer bit is right for the exponent
    ([exp = 0] exactly when [j = 0]) and NaN when it is not.  The fraction
    numeral [frac'] is [frac mod 2 ^ 32]: [Z3_mk_unsigned_int] takes an
    [unsigned], so of the 63 fraction bits only the low 32 reach the term. *)
Theorem FConstant_F80_fields (sign exp j frac : Z) :
  0 <= sign < 2 -> 0 <= exp < 2 ^ 15 -> 0 <= j < 2 -> 0 <= frac < 2 ^ 63 ->
  let raw := sign * 2 ^ 79 + exp * 2 ^ 64 + j * 2 ^ 63 + frac in
  constructActual_FConstant 80 raw
  = Ok (packF80
          (Z3_mk_fpa_fp (Z3_mk_unsigned_int sign (Z3_mk_bv_sort 1))
             (Z3_mk_unsigned_int exp (Z3_mk_bv_sort 15))
             (Z3_mk_unsigned_int (frac mod 2 ^ 32) (Z3_mk_bv_sort 63)))
          (if Bool.eqb (exp =? 0) (j =? 0) then fpZero sortF80 else fpNan sortF80),
        80).
Proof.
  intros Hs He Hj Hf raw.
  assert (Hraw : APValue 80 raw = raw).
  { unfold APValue. apply Z.mod_small. unfold raw. lia. }
  assert (H1 : raw / 2 ^ 64 = sign * 2 ^ 15 + exp).
  { symmetry. apply (Z.div_unique raw (2 ^ 64) _ (j * 2 ^ 63 + frac)); unfold raw; lia. }
  assert (H0 : raw mod 2 ^ 64 = j * 2 ^ 63 + frac).
  { symmetry. apply (Z.mod_unique raw (2 ^ 64) (sign * 2 ^ 15 + exp)); unfold raw; lia. }
  unfold constructActual_FConstant. cbn [Z.eqb Pos.eqb Expr.Fl32 Expr.Fl64 Expr.Fl80].
  cbv zeta. rewrite Hraw, H1, H0.
  assert (Hsign : Z.land (Z.shiftr (sign * 2 ^ 15 + exp) 15) 1 = sign).
  { rewrite Z.shiftr_div_pow2 by lia.
    replace ((sign * 2 ^ 15 + exp) / 2 ^ 15) with sign
      by (apply (Z.div_unique _ (2 ^ 15) sign exp); lia).
    change 1 with (Z.ones 1). rewrite Z.land_ones by lia.
    apply Z.mod_small. lia. }
  assert (Hexp : Z.land (sign * 2 ^ 15 + exp) 32767 = exp).
  { change 32767 with (Z.ones 15). rewrite Z.land_ones by lia.
    symmetry. apply (Z.mod_unique _ (2 ^ 15) sign); lia. }
  assert (Hj' : Z.land (Z.shiftr (j * 2 ^ 63 + frac) 63) 1 = j).
  { rewrite Z.shiftr_div_pow2 by lia.
    replace ((j * 2 ^ 63 + frac) / 2 ^ 63) with j
      by (apply (Z.div_unique _ (2 ^ 63) j frac); lia).
    change 1 with (Z.ones 1). rewrite Z.land_ones by lia.
    apply Z.mod_small. lia. }
  assert (Hfrac : Z.land (j * 2 ^ 63 + frac) 9223372036854775807 = frac).
  { change 9223372036854775807 with (Z.ones 63). rewrite Z.land_ones by lia.
    symmetry. apply (Z.mod_unique _ (2 ^ 63) j); lia. }
  rewrite Hsign, Hexp, Hj', Hfrac.
  now destruct (Bool.eqb (exp =? 0) (j =? 0)).
Qed.

Lemma FConstant_F80_fields_witness :
  constructActual_FConstant 80 (0 * 2 ^ 79 + 16383 * 2 ^ 64 + 1 * 2 ^ 63 + 2 ^ 62)
  = Ok (packF80
          (Z3_mk_fpa_fp (Z3_mk_unsigned_int 0 (Z3_mk_bv_sort 1))
             (Z3_mk_unsigned_int 16383 (Z3_mk_bv_sort 15))
             (Z3_mk_unsigned_int (2 ^ 62 mod 2 ^ 32) (Z3_mk_bv_sort 63)))
          (if Bool.eqb (16383 =? 0) (1 =? 0) then fpZero sortF80 else fpNan sortF80),
        80).
Proof. apply (FConstant_F80_fields 0 16383 1 (2 ^ 62)); lia. Defined.

Lemma eval_iteExpr (M : Z3_model) (c t f : Z3ASTHandle) :
  eval M (iteExpr c t f)
  = match eval M c with
    | VBool true => eval M t
    | VBool false => eval M f
    | _ => VErr
    end.
Proof. reflexivity. Qed.

Lemma interpretsF80_sampleModel : interpretsF80 sampleModel.
Proof. eexists. reflexivity. Defined.

(** X13.  [FAdd], [FSub], [FMul], [FDiv] and [FRem] on 80-bit operands
    return an F80 array that is always marked normal (index 1 reads
    [fp_zero]); its number at index 0 is NaN when an operand is marked
    unnormal, and the Z3 operation on the two numbers when none is. *)
Theorem F80_arithmetic_value (kind : Expr.FBinaryRoundKind) (rm : roundingMode)
    (l r : Expr) (s s1 s2 : Z3Builder) (lhs rhs : Z3ASTHandle) (wl : Z) :
  construct l s = Ok ((lhs, wl), s1) ->
  construct r s1 = Ok ((rhs, Expr.Fl80), s2) ->
  exists res,
    constructActual (FBinaryRoundExpr kind l r rm) s = Ok ((res, Expr.Fl80), s2) /\
    Z3_get_sort res = getArraySort (getBvSort 1) sortF80 /\
    forall M, interpretsF80 M ->
      let L := readExpr lhs (bvZero 1) in
      let R := readExpr rhs (bvZero 1) in
      eval M (readExpr res (bvOne 1)) = eval M (fpZero sortF80) /\
      (eval M (wrongHiddenBit2 lhs rhs) = VBool true ->
       eval M (readExpr res (bvZero 1)) = eval M (fpNan sortF80)) /\
      (eval M (wrongHiddenBit2 lhs rhs) = VBool false ->
       eval M (readExpr res (bvZero 1)) = eval M (fpBinaryOp kind rm L R)).
Proof.
  intros Hl Hr.
  exists (packF80 (iteExpr (wrongHiddenBit2 lhs rhs) (fpNan sortF80)
                     (fpBinaryOp kind rm (readExpr lhs (bvZero 1)) (readExpr rhs (bvZero 1))))
            (fpZero sortF80)).
  split; [|split].
  - run_case. rewrite Hl, Hr. now destruct kind.
  - apply sort_packF80.
  - intros M HM L R. destruct (eval_packF80 M
      (iteExpr (wrongHiddenBit2 lhs rhs) (fpNan sortF80) (fpBinaryOp kind rm L R))
      (fpZero sortF80) HM) as [H0 H1].
    fold L R. rewrite H0, H1, eval_iteExpr. split; [reflexivity|].
    split; intros Hw; now rewrite Hw.
Qed.

Lemma F80_arithmetic_value_witness :
  match construct sampleUnnormal newBuilder with
  | Ok ((lhs, _), s1) =>
      match construct sampleNormal s1 with
      | Ok ((rhs, _), s2) =>
          exists res,
            constructActual (FBinaryRoundExpr Expr.FAdd sampleUnnormal sampleNormal
                               rmNearestTiesToEven) newBuilder
            = Ok ((res, Expr.Fl80), s2) /\
            eval sampleModel (readExpr res (bvOne 1)) = eval sampleModel (fpZero sortF80) /\
            eval sampleModel (readExpr res (bvZero 1)) = eval sampleModel (fpNan sortF80)
      | Abort _ => False
      end
  | Abort _ => False
  end.
Proof.
  destruct (construct sampleUnnormal newBuilder) as [[[lhs wl] s1]|] eqn:E1;
    [|vm_compute in E1; discriminate E1].
  pose proof E1 as E1'. vm_compute in E1'. injection E1' as <- <- <-.
  destruct (construct sampleNormal _) as [[[rhs wr] s2]|] eqn:E2;
    [|vm_compute in E2; discriminate E2].
  pose proof E2 as E2'. vm_compute in E2'. injection E2' as <- <- <-.
  destruct (F80_arithmetic_value Expr.FAdd rmNearestTiesToEven sampleUnnormal sampleNormal
              newBuilder _ _ _ _ _ E1 E2) as (res & H1 & _ & H3).
  exists res. split; [exact H1|].
  destruct (H3 sampleModel interpretsF80_sampleModel) as (H4 & H5 & _).
  split; [exact H4|]. apply H5. vm_compute. reflexivity.
Defined.

(** X14.  [FMin] and [FMax] on 80-bit operands return an F80 array marked
    normal whose number is: the right number when only the left operand is
    unnormal, the left number when only the right one is or both are, and
    the Z3 minimum or maximum of the two numbers when none is. *)
Theorem F80_min_max_value (kind : Expr.FBinaryKind)
    (l r : Expr) (s s1 s2 : Z3Builder) (lhs rhs : Z3ASTHandle) (wl : Z) :
  construct l s = Ok ((lhs, wl), s1) ->
  construct r s1 = Ok ((rhs, Expr.Fl80), s2) ->
  exists res,
    constructActual (FBinaryExpr kind l r) s = Ok ((res, Expr.Fl80), s2) /\
    Z3_get_sort res = getArraySort (getBvSort 1) sortF80 /\
    forall (M : Z3_model) (a b : bool), interpretsF80 M ->
      let L := readExpr lhs (bvZero 1) in
      let R := readExpr rhs (bvZero 1) in
      eval M (isNanExpr (readExpr lhs (bvOne 1))) = VBool a ->
      eval M (isNanExpr (readExpr rhs (bvOne 1))) = VBool b ->
      eval M (readExpr res (bvOne 1)) = eval M (fpZero sortF80) /\
      eval M (readExpr res (bvZero 1))
      = if a then (if b then eval M L else eval M R)
        else (if b then eval M L else eval M (fpMinMaxOp kind L R)).
Proof.
  intros Hl Hr.
  set (L := readExpr lhs (bvZero 1)). set (R := readExpr rhs (bvZero 1)).
  set (wl' := isNanExpr (readExpr lhs (bvOne 1))).
  set (wr' := isNanExpr (readExpr rhs (bvOne 1))).
  exists (packF80 (iteExpr wl' (iteExpr wr' L R) (iteExpr wr' L (fpMinMaxOp kind L R)))
            (fpZero sortF80)).
  split; [|split].
  - run_case. rewrite Hl, Hr. now destruct kind.
  - apply sort_packF80.
  - intros M a b HM L' R' Ha Hb. subst L' R'.
    destruct (eval_packF80 M
      (iteExpr wl' (iteExpr wr' L R) (iteExpr wr' L (fpMinMaxOp kind L R)))
      (fpZero sortF80) HM) as [H0 H1].
    rewrite H0, H1, !eval_iteExpr, Ha, Hb. split; [reflexivity|].
    now destruct a, b.
Qed.

Lemma F80_min_max_value_witness :
  match construct sampleUnnormal newBuilder with
  | Ok ((lhs, _), s1) =>
      match construct sampleNormal s1 with
      | Ok ((rhs, _), s2) =>
          exists res,
            constructActual (FBinaryExpr Expr.FMin sampleUnnormal sampleNormal) newBuilder
            = Ok ((res, Expr.Fl80), s2) /\
            eval sampleModel (readExpr res (bvZero 1))
            = eval sampleModel (readExpr rhs (bvZero 1))
      | Abort _ => False
      end
  | Abort _ => False
  end.
Proof.
  destruct (construct sampleUnnormal newBuilder) as [[[lhs wl] s1]|] eqn:E1;
    [|vm_compute in E1; discriminate E1].
  pose proof E1 as E1'. vm_compute in E1'. injection E1' as <- <- <-.
  destruct (construct sampleNormal _) as [[[rhs wr] s2]|] eqn:E2;
    [|vm_compute in E2; discriminate E2].
  pose proof E2 as E2'. vm_compute in E2'. injection E2' as <- <- <-.
  destruct (F80_min_max_value Expr.FMin sampleUnnormal sampleNormal
              newBuilder _ _ _ _ _ E1 E2) as (res & H1 & _ & H3).
  exists res. split; [exact H1|].
  destruct (H3 sampleModel true false interpretsF80_sampleModel) as (_ & H5);
    [vm_compute; reflexivity | vm_compute; reflexivity | exact H5].
Defined.

(** X15.  Conversions from an 80-bit float, whose translation [src] is an
    F80 array.  [FToU] and [FExt] report the target width; on an operand
    marked unnormal [FToU] gives 0 and [FExt] gives NaN, on an operand
    marked normal they convert the number read at index 0.  [FToS] applies
    [fp.to_sbv] to the F80 array itself at every target width: Z3 rejects
    the application and the translation aborts in the error handler, so
    [FToS] from 80 bits has no value. *)
Theorem F80_conversions_value (src : Z3ASTHandle) (width : Z) (rm : roundingMode)
    (M : Z3_model) (unnormal : bool) :
  0 < width ->
  Z3_get_sort src = sortF80Array ->
  eval M (isNanExpr (readExpr src (bvOne 1))) = VBool unnormal ->
  let RM := getRoundingModeAST rm in
  (exists t,
     constructActual_FToU src Expr.Fl80 width rm = Ok (t, width) /\
     eval M t
     = if unnormal then VBv width 0
       else eval M (Z3_mk_fpa_to_ubv RM (readExpr src (bvZero 1)) width)) /\
  constructActual_FToS src Expr.Fl80 width rm = Abort Z3_error /\
  (forall sort, castSort width = Some sort ->
     exists t,
       constructActual_FExt src Expr.Fl80 width rm = Ok (t, width) /\
       eval M t
       = if unnormal then eval M (fpNan sort)
         else eval M (Z3_mk_fpa_to_fp_float RM (readExpr src (bvZero 1)) sort)).
Proof.
  intros Hw Hsrc Hu RM.
  assert (H0 : (0 <? width) = true) by (apply Z.ltb_lt; lia).
  pose proof (sort_readF80 src (bvZero 1) Hsrc) as Hnum.
  split; [|split].
  - unfold constructActual_FToU, Expr.Fl80. cbn [Z.eqb Pos.eqb].
    unfold Z3_checked, Z3_mk_fpa_to_ubv. cbn [map Z3_get_sort fpaSorted].
    rewrite sort_rm, Hnum, H0. cbn [sortF80 isFpSort isRmSort andb andThen].
    eexists. split; [reflexivity|].
    rewrite eval_iteExpr, Hu. destruct unnormal; [apply eval_bvZero; lia | reflexivity].
  - exact (proj1 (F80_array_conversions_abort src Expr.Fl80 width rm Hsrc)).
  - intros sort Hsort. unfold constructActual_FExt. rewrite Hsort.
    assert (N80 : (width =? Expr.Fl80) = false).
    { unfold castSort, Expr.Fl32, Expr.Fl64 in Hsort. unfold Expr.Fl80.
      destruct (Z.eqb_spec width 80) as [->|]; [discriminate Hsort | reflexivity]. }
    rewrite N80. cbn [Z.eqb Pos.eqb Expr.Fl80].
    assert (Hs : isFpSort sort && sortExists sort = true).
    { unfold castSort in Hsort.
      repeat match type of Hsort with
             | (if ?c then _ else _) = _ =>
                 destruct c; [injection Hsort as <-; reflexivity|]
             end.
      discriminate Hsort. }
    unfold Z3_checked, Z3_mk_fpa_to_fp_float. cbn [map Z3_get_sort fpaSorted].
    rewrite sort_rm, Hnum, Hs. cbn [sortF80 isFpSort isRmSort andb andThen].
    eexists. split; [reflexivity|].
    rewrite eval_iteExpr, Hu. now destruct unnormal.
Qed.

Lemma F80_conversions_value_witness :
  let src := packF80 (fpZero sortF80) (fpNan sortF80) in
  (exists t,
     constructActual_FToU src Expr.Fl80 32 rmTowardZero = Ok (t, 32) /\
     eval sampleModel t = VBv 32 0) /\
  constructActual_FToS src Expr.Fl80 32 rmTowardZero = Abort Z3_error /\
  exists t,
    constructActual_FExt src Expr.Fl80 32 rmTowardZero = Ok (t, 32) /\
    eval sampleModel t = eval sampleModel (fpNan Z3_mk_fpa_sort_32).
Proof.
  intro src.
  destruct (F80_conversions_value src 32 rmTowardZero sampleModel true
              ltac:(lia) eq_refl eq_refl) as (H1 & H2 & H3).
  split; [exact H1|]. split; [exact H2|]. exact (H3 _ eq_refl).
Defined.

(** X16.  The classifications return a 32-bit vector ([sizeof(int) * 8]):
    [FpClassify] gives 0, 1, 2, 3, 4 for NaN, infinite, zero, subnormal and
    normal, tested in that order; [FIsFinite] gives 0 for NaN or infinite
    and 1 otherwise; [FIsNan] gives 1 or 0; [FIsInf] gives [2 ^ 32 - 1]
    (-1) for a negative infinity, 1 for a positive one and 0 otherwise.  At
    width 80 they look at the number at index 0; only [FIsInf] also looks at
    index 1 and gives 0 for an unnormal. *)
Theorem classification_value (expr : Z3ASTHandle) (width_out : Z) (M : Z3_model)
    (nan inf zero sub neg unnormal : bool) :
  isFloatWidth width_out = true ->
  let num := if width_out =? Expr.Fl80 then readExpr expr (bvZero 1) else expr in
  eval M (isNanExpr num) = VBool nan ->
  eval M (isInfinityExpr num) = VBool inf ->
  eval M (isFPZeroExpr num) = VBool zero ->
  eval M (isSubnormalExpr num) = VBool sub ->
  eval M (isFPNegativeExpr num) = VBool neg ->
  (width_out = Expr.Fl80 ->
   eval M (isNanExpr (readExpr expr (bvOne 1))) = VBool unnormal) ->
  exists tc tf tn ti,
    constructActual_FpClassify expr width_out = Ok (tc, 32) /\
    constructActual_FIsFinite expr width_out = Ok (tf, 32) /\
    constructActual_FIsNan expr width_out = Ok (tn, 32) /\
    constructActual_FIsInf expr width_out = Ok (ti, 32) /\
    eval M tc
    = VBv 32 (if nan then 0 else if inf then 1 else if zero then 2
              else if sub then 3 else 4) /\
    eval M tf = VBv 32 (if nan || inf then 0 else 1) /\
    eval M tn = VBv 32 (if nan then 1 else 0) /\
    eval M ti
    = VBv 32 (if (width_out =? Expr.Fl80) && unnormal then 0
              else if inf then (if neg then 2 ^ 32 - 1 else 1) else 0).
Proof.
  intros Hw num Hnan Hinf Hzero Hsub Hneg Hun.
  unfold constructActual_FpClassify, constructActual_FIsFinite,
    constructActual_FIsNan, constructActual_FIsInf.
  rewrite Hw. cbn [negb]. fold num.
  assert (Hc : forall v, 0 <= v < 5 -> eval M (bvSExtConst 32 v) = VBv 32 v).
  { intros v Hv. rewrite eval_bvSExtConst by lia.
    assert (v = 0 \/ v = 1 \/ v = 2 \/ v = 3 \/ v = 4) as [->|[->|[->|[->| ->]]]] by lia;
      reflexivity. }
  assert (H1 : eval M (bvOne 32) = VBv 32 1) by (apply eval_bvOne; lia).
  assert (H0 : eval M (bvZero 32) = VBv 32 0) by (apply eval_bvZero; lia).
  assert (Hm : eval M (bvMinusOne 32) = VBv 32 (2 ^ 32 - 1))
    by (apply eval_bvMinusOne; lia).
  unfold num in *. clear num.
  destruct (Z.eqb_spec width_out Expr.Fl80) as [E|E];
    [specialize (Hun E) | clear Hun; pose proof Hnan as Hun]; cbn [andb];
    eexists _, _, _, _;
    (split; [reflexivity|]); (split; [reflexivity|]); (split; [reflexivity|]);
    (split; [reflexivity|]); unfold sizeof_int_bits, orExpr;
    rewrite ?eval_iteExpr; cbn [eval fold_right];
    repeat match goal with
      | |- context [Z3_mk_fpa fpa_is_nan [?t]] =>
          change (Z3_mk_fpa fpa_is_nan [t]) with (isNanExpr t)
      | |- context [Z3_mk_fpa fpa_is_infinite [?t]] =>
          change (Z3_mk_fpa fpa_is_infinite [t]) with (isInfinityExpr t)
      end;
    rewrite ?eval_iteExpr, ?Hnan, ?Hinf, ?Hzero, ?Hsub, ?Hneg, ?Hun;
    unfold FP_NAN, FP_INFINITE, FP_ZERO, FP_SUBNORMAL, FP_NORMAL;
    destruct nan, inf, zero, sub, neg, unnormal; cbn [val_or orb];
    repeat split; auto; try (apply Hc; lia).
Qed.

Lemma classification_value_witness :
  let x := fpNan Z3_mk_fpa_sort_32 in
  exists tc tf tn ti,
    constructActual_FpClassify x 32 = Ok (tc, 32) /\
    constructActual_FIsFinite x 32 = Ok (tf, 32) /\
    constructActual_FIsNan x 32 = Ok (tn, 32) /\
    constructActual_FIsInf x 32 = Ok (ti, 32) /\
    eval sampleModel tc = VBv 32 0 /\
    eval sampleModel tf = VBv 32 0 /\
    eval sampleModel tn = VBv 32 1 /\
    eval sampleModel ti = VBv 32 0.
Proof.
  intro x.
  refine (classification_value x 32 sampleModel true false false false false false
            eq_refl eq_refl eq_refl eq_refl eq_refl eq_refl _).
  intros H. vm_compute in H. discriminate H.
Defined.

(** ** Input the translation rejects *)

(** X17.  The floating-point operations accept operands of width 32, 64 and
    80 only: when the (last) operand is translated with another width, every
    [FUnaryExpr], [FUnaryRoundExpr], [FBinaryRoundExpr], [FBinaryExpr] and
    [FCmpExpr] fails its assertion.  This includes the widths 16 and 128,
    which the casts [FExt], [UToF], [SToF] and [ExplicitFloat] do produce. *)
Theorem float_operations_reject_other_widths (e : Expr) (s s1 : Z3Builder)
    (a : Z3ASTHandle) (w : Z) :
  construct e s = Ok ((a, w), s1) ->
  w <> 32 -> w <> 64 -> w <> 80 ->
  (forall kind, exists msg, constructActual (FUnaryExpr kind e) s = Abort msg) /\
  (forall kind rm, exists msg, constructActual (FUnaryRoundExpr kind e rm) s = Abort msg) /\
  (forall l s0 al wl,
     construct l s0 = Ok ((al, wl), s) ->
     (forall kind rm, exists msg,
        constructActual (FBinaryRoundExpr kind l e rm) s0 = Abort msg) /\
     (forall kind, exists msg, constructActual (FBinaryExpr kind l e) s0 = Abort msg) /\
     (forall kind, exists msg, constructActual (FCmpExpr kind l e) s0 = Abort msg)).
Proof.
  intros He H32 H64 H80.
  assert (H1 : isFloatWidth w = false).
  { unfold isFloatWidth, Expr.Int32, Expr.Int64, Expr.Fl80.
    destruct (Z.eqb_spec w 32), (Z.eqb_spec w 64), (Z.eqb_spec w 80); try lia; reflexivity. }
  assert (H2 : isFloatWidth2 w = false) by exact H1.
  split; [|split].
  - intros kind. run_case. rewrite He.
    destruct kind;
      unfold constructActual_FAbs, constructActual_FpClassify, constructActual_FIsFinite,
        constructActual_FIsNan, constructActual_FIsInf;
      rewrite H1; eexists; reflexivity.
  - intros kind rm. run_case. rewrite He.
    destruct kind; unfold constructActual_FSqrt, constructActual_FNearbyInt, fpUnaryRound;
      rewrite H1; eexists; reflexivity.
  - intros l s0 al wl Hl. split; [|split].
    + intros kind rm. run_case. rewrite Hl, He.
      destruct kind;
        unfold constructActual_FAdd, constructActual_FSub, constructActual_FMul,
          constructActual_FDiv, constructActual_FRem, fpArith;
        rewrite H2; eexists; reflexivity.
    + intros kind. run_case. rewrite Hl, He.
      destruct kind; unfold constructActual_FMin, constructActual_FMax, fpMinMax;
        rewrite H2; eexists; reflexivity.
    + intros kind. rewrite (constructActual_FCmp kind l e s0 s s1 al a wl w Hl He).
      destruct kind;
        unfold constructActual_FOrd, constructActual_FUno, constructActual_FUeq,
          constructActual_FOeq, constructActual_FUgt, constructActual_FOgt,
          constructActual_FUge, constructActual_FOge, constructActual_FUlt,
          constructActual_FOlt, constructActual_FUle, constructActual_FOle,
          constructActual_FUne, constructActual_FOne, fcmpUnordered, fcmpOrdered, lift;
        rewrite H2; eexists; reflexivity.
Qed.

Lemma float_operations_reject_other_widths_witness :
  let e := FCastRoundExpr Expr.FExt sampleNormal 128 rmNearestTiesToEven in
  (exists a s1, construct e newBuilder = Ok ((a, 128), s1)) /\
  (forall kind, exists msg, constructActual (FUnaryExpr kind e) newBuilder = Abort msg) /\
  (forall kind rm, exists msg,
     constructActual (FUnaryRoundExpr kind e rm) newBuilder = Abort msg).
Proof.
  intro e. split; [eexists _, _; reflexivity|].
  destruct (float_operations_reject_other_widths e newBuilder _ _ 128 eq_refl
              ltac:(lia) ltac:(lia) ltac:(lia)) as (H1 & H2 & _).
  split; assumption.
Defined.



(** ** The caches over a sequence of translations *)

Lemma cacheExtends_refl (s : Z3Builder) : cacheExtends s s.
Proof. repeat split; auto. Qed.

Lemma cacheExtends_trans (s1 s2 s3 : Z3Builder) :
  cacheExtends s1 s2 -> cacheExtends s2 s3 -> cacheExtends s1 s3.
Proof.
  intros (F1 & E1 & A1 & U1) (F2 & E2 & A2 & U2).
  repeat split; [congruence | auto | auto | auto].
Qed.

Lemma untouchedFrom_refl (n : nat) (s : Z3Builder) : untouchedFrom n s s.
Proof. split; auto. Qed.

Lemma untouchedFrom_trans (n : nat) (s1 s2 s3 : Z3Builder) :
  untouchedFrom n s1 s2 -> untouchedFrom n s2 s3 -> untouchedFrom n s1 s3.
Proof.
  intros (E1 & U1) (E2 & U2). split; intros.
  - rewrite E2, E1; auto.
  - rewrite U2, U1; auto.
Qed.

Lemma untouchedFrom_mono (n n' : nat) (s s' : Z3Builder) :
  (n <= n')%nat -> untouchedFrom n s s' -> untouchedFrom n' s s'.
Proof. intros Hn (E & U). split; intros; [apply E | apply U]; lia. Qed.

Lemma memoisedBelow_mono {A : Type} (n n' : nat) (m : M A) :
  (n <= n')%nat -> memoisedBelow n m -> memoisedBelow n' m.
Proof.
  intros Hn Hm s a s1 H. destruct (Hm s a s1 H) as (E & U & R).
  split; [exact E|]. split; [eapply untouchedFrom_mono; eassumption | exact R].
Qed.

Lemma memoisedBelow_ret {A : Type} (n : nat) (a : A) : memoisedBelow n (ret a).
Proof.
  intros s b s1 H. unfold ret in H. injection H as <- <-.
  split; [apply cacheExtends_refl|]. split; [apply untouchedFrom_refl|]. reflexivity.
Qed.

Lemma memoisedBelow_lift {A : Type} (n : nat) (r : Result A) : memoisedBelow n (lift r).
Proof.
  intros s b s1 H. unfold lift in *. destruct r; [|discriminate]. injection H as <- <-.
  split; [apply cacheExtends_refl|]. split; [apply untouchedFrom_refl|]. reflexivity.
Qed.

Lemma memoisedBelow_assert (n : nat) (b : bool) (msg : string) :
  memoisedBelow n (assert b msg).
Proof.
  intros s u s1 H. unfold assert in *. destruct b; [|discriminate]. injection H as <- <-.
  split; [apply cacheExtends_refl|]. split; [apply untouchedFrom_refl|]. reflexivity.
Qed.

Lemma memoisedBelow_abort {A : Type} (n : nat) (msg : string) :
  memoisedBelow n (@abort A msg).
Proof. intros s a s1 H. discriminate H. Qed.

Lemma memoisedBelow_bind {A B : Type} (n : nat) (m : M A) (f : A -> M B) :
  memoisedBelow n m -> (forall a, memoisedBelow n (f a)) -> memoisedBelow n (bind m f).
Proof.
  intros Hm Hf s b s1 H. unfold bind in H.
  destruct (m s) as [[a t]|] eqn:Em; [|discriminate].
  destruct (Hm s a t Em) as (E1 & U1 & R1).
  destruct (Hf a t b s1 H) as (E2 & U2 & R2).
  split; [eapply cacheExtends_trans; eassumption|].
  split; [eapply untouchedFrom_trans; eassumption|].
  intros s2 E3. unfold bind.
  rewrite (R1 s2 (cacheExtends_trans _ _ _ E2 E3)). now apply R2.
Qed.

Lemma memoisedBelow_getInitialArray (n : nat) (root : Array) :
  memoisedBelow n (getInitialArray root).
Proof.
  intros s a s1 H. unfold getInitialArray in H.
  destruct (lookupArrayExpr root (_array_hash s)) as [z|] eqn:L.
  - injection H as <- <-.
    split; [apply cacheExtends_refl|]. split; [apply untouchedFrom_refl|].
    intros s2 (_ & _ & A2 & _). unfold getInitialArray. now rewrite (A2 _ _ L).
  - match type of H with
    | match ?flushed with Ok _ => _ | Abort _ => _ end = _ =>
        destruct flushed as [arr|] eqn:Ef; [|discriminate H]
    end.
    unfold bind, hashArrayExpr, ret in H. injection H as <- <-.
    split; [|split].
    + repeat split; cbn [UseConstructHashZ3 constructed _array_hash _update_node_hash];
        auto.
      intros root' v Hv. cbn [lookupArrayExpr].
      destruct (Array_eq_dec root' root) as [->|]; [congruence | exact Hv].
    + split; reflexivity.
    + intros s2 (_ & _ & A2 & _). unfold getInitialArray.
      rewrite (A2 root arr); [reflexivity|].
      cbn [_array_hash lookupArrayExpr]. now destruct (Array_eq_dec root root).
Qed.

Lemma memoisedBelow_construct_with (e : Expr) :
  memoisedBelow (exprSize e) (constructActual e) ->
  memoisedBelow (S (exprSize e)) (construct e).
Proof.
  intros Hc s r s1 H. unfold construct, construct_with in H.
  destruct (negb (UseConstructHashZ3 s) || isa_ConstantExpr e) eqn:Eb.
  - destruct (Hc s r s1 H) as (E & U & R).
    split; [exact E|]. split; [eapply untouchedFrom_mono; [|exact U]; lia|].
    intros s2 E2. unfold construct, construct_with.
    destruct E as (F & _), E2 as (F2 & E2).
    rewrite F2, F, Eb. apply R. repeat split; tauto.
  - destruct (lookupExpr e (constructed s)) as [[res w]|] eqn:L.
    + injection H as <- <-.
      split; [apply cacheExtends_refl|]. split; [apply untouchedFrom_refl|].
      intros s2 (F2 & E2 & _). unfold construct, construct_with.
      now rewrite F2, Eb, (E2 _ _ L).
    + unfold bind in H.
      destruct (constructActual e s) as [[[res w] t]|] eqn:Ec; [|discriminate H].
      unfold insertConstructed, ret in H. injection H as <- <-.
      destruct (Hc s (res, w) t Ec) as (E & (UE & UU) & R).
      assert (Lt : lookupExpr e (constructed t) = None)
        by (rewrite UE by lia; exact L).
      assert (Et : cacheExtends t
                (mkZ3Builder ((e, (res, w)) :: constructed t) (_array_hash t)
                   (_update_node_hash t) (UseConstructHashZ3 t))).
      { repeat split; cbn [UseConstructHashZ3 constructed _array_hash _update_node_hash];
          auto.
        intros k v Hv. cbn [lookupExpr].
        destruct (Expr_eq_dec k e) as [->|]; [congruence | exact Hv]. }
      split; [eapply cacheExtends_trans; eassumption|]. split.
      * split; cbn [constructed _update_node_hash].
        -- intros k Hk. cbn [lookupExpr].
           destruct (Expr_eq_dec k e) as [->|]; [lia|]. apply UE. lia.
        -- intros root un Hk. apply UU. lia.
      * intros s2 (F2 & E2 & _). unfold construct, construct_with.
        cbn [UseConstructHashZ3] in F2. destruct E as (F & _).
        rewrite F2, F, Eb. rewrite (E2 e (res, w)); [reflexivity|].
        cbn [constructed lookupExpr]. now destruct (Expr_eq_dec e e).
Qed.

Ltac memo_sizes := cbn [exprSize updateSize kidsSize]; lia.

Ltac memo_step :=
  first
    [ apply memoisedBelow_ret
    | apply memoisedBelow_lift
    | apply memoisedBelow_assert
    | apply memoisedBelow_abort
    | apply memoisedBelow_getInitialArray
    | match goal with
      | IH : memoisedBelow _ (constructActual ?e) |- memoisedBelow _ (construct ?e) =>
          apply (memoisedBelow_mono (S (exprSize e)));
          [memo_sizes | exact (memoisedBelow_construct_with e IH)]
      | IH : forall root, memoisedBelow _ (getArrayForUpdate root ?un)
        |- memoisedBelow _ (getArrayForUpdate ?r ?un) =>
          apply (memoisedBelow_mono (S (updateSize un))); [memo_sizes | exact (IH r)]
      | IH : memoisedBelow _ (constructKids ?k) |- memoisedBelow _ (constructKids ?k) =>
          apply (memoisedBelow_mono (kidsSize k)); [memo_sizes | exact IH]
      end
    | apply memoisedBelow_bind;
      [| let a := fresh "a" in
         intros a;
         lazymatch type of a with
         | unit => idtac
         | Z3ASTHandle => idtac
         | _ => destruct a
         end; cbv beta iota]
    | match goal with
      | |- memoisedBelow _ (match ?x with Some _ => _ | None => _ end) => destruct x
      end ].

Ltac memo := cbn [constructActual getArrayForUpdate constructKids];
  rewrite ?construct_fold; repeat memo_step.

Lemma construct_memoised_mut :
  (forall e, memoisedBelow (exprSize e) (constructActual e)) /\
  (forall un root, memoisedBelow (S (updateSize un)) (getArrayForUpdate root un)) /\
  (forall kids, memoisedBelow (kidsSize kids) (constructKids kids)).
Proof.
  apply Expr_mutind; intros.
  all: try (memo; fail).
  all: try (destruct kind; memo; fail).
  (* an update node *)
  intros s a s1 Hrun. cbn [getArrayForUpdate] in Hrun. rewrite ?construct_fold in Hrun.
  destruct (lookupUpdateNodeExpr root (UNode index value next) (_update_node_hash s))
    as [z|] eqn:L.
  - injection Hrun as <- <-.
    split; [apply cacheExtends_refl|]. split; [apply untouchedFrom_refl|].
    intros s2 (_ & _ & _ & U2). cbn [getArrayForUpdate]. now rewrite (U2 _ _ _ L).
  - assert (Hin : memoisedBelow (updateSize (UNode index value next))
              (arr <- getArrayForUpdate root next ;;
               ' (i, _) <- construct index ;;
               ' (v, _) <- construct value ;;
               ret (writeExpr arr i v))) by (repeat memo_step).
    unfold bind in Hrun.
    destruct (getArrayForUpdate root next s) as [[arr t1]|] eqn:E1; [|discriminate Hrun].
    destruct (construct index t1) as [[[i wi] t2]|] eqn:E2; [|discriminate Hrun].
    destruct (construct value t2) as [[[v wv] t3]|] eqn:E3; [|discriminate Hrun].
    unfold hashUpdateNodeExpr, ret in Hrun. injection Hrun as <- <-.
    destruct (Hin s (writeExpr arr i v) t3) as (E & (UE & UU) & _).
    { unfold bind. now rewrite E1, E2, E3. }
    assert (Lt : lookupUpdateNodeExpr root (UNode index value next) (_update_node_hash t3)
                 = None) by (rewrite UU by lia; exact L).
    assert (Et : cacheExtends t3
              (mkZ3Builder (constructed t3) (_array_hash t3)
                 (((root, UNode index value next), writeExpr arr i v)
                  :: _update_node_hash t3) (UseConstructHashZ3 t3))).
    { repeat split; cbn [UseConstructHashZ3 constructed _array_hash _update_node_hash];
        auto.
      intros root' un' v' Hv. cbn [lookupUpdateNodeExpr].
      destruct (Array_eq_dec root' root) as [->|]; [|exact Hv].
      destruct (UpdateNode_eq_dec un' (UNode index value next)) as [->|];
        [congruence | exact Hv]. }
    split; [eapply cacheExtends_trans; eassumption|]. split.
    + split; cbn [constructed _update_node_hash].
      * intros k Hk. apply UE. lia.
      * intros root' un' Hk. cbn [lookupUpdateNodeExpr].
        destruct (Array_eq_dec root' root) as [->|]; [|apply UU; lia].
        destruct (UpdateNode_eq_dec un' (UNode index value next)) as [->|];
          [lia | apply UU; lia].
    + intros s2 (_ & _ & _ & U2). cbn [getArrayForUpdate].
      rewrite (U2 root (UNode index value next) (writeExpr arr i v)); [reflexivity|].
      cbn [_update_node_hash lookupUpdateNodeExpr].
      destruct (Array_eq_dec root root); [|congruence].
      now destruct (UpdateNode_eq_dec (UNode index value next) (UNode index value next)).
Qed.

(** X19.  A call of [construct] that returns only adds to the caches: the
    hashing switch is unchanged and every entry of the three caches is still
    there with the same term.  With hash-consing on, the result for a
    non-constant expression is in the cache afterwards; and no entry for a
    larger expression is added. *)
Theorem construct_extends_caches (e : Expr) (s s' : Z3Builder) (r : ResW) :
  construct e s = Ok (r, s') ->
  cacheExtends s s' /\
  (UseConstructHashZ3 s = true -> isa_ConstantExpr e = false ->
   lookupExpr e (constructed s') = Some r) /\
  (forall k, (exprSize e < exprSize k)%nat ->
             lookupExpr k (constructed s') = lookupExpr k (constructed s)).
Proof.
  intros H.
  destruct (memoisedBelow_construct_with e (proj1 construct_memoised_mut e) s r s' H)
    as (E & (UE & _) & _).
  split; [exact E|]. split; [|intros k Hk; apply UE; lia].
  intros Hf Hc. unfold construct, construct_with in H. rewrite Hf, Hc in H.
  cbn [negb orb] in H.
  destruct (lookupExpr e (constructed s)) as [[res w]|] eqn:L.
  - injection H as <- <-. exact L.
  - unfold bind in H. destruct (constructActual e s) as [[[res w] t]|]; [|discriminate H].
    unfold insertConstructed, ret in H. injection H as <- <-.
    cbn [constructed lookupExpr]. now destruct (Expr_eq_dec e e).
Qed.

Lemma construct_extends_caches_witness :
  exists r s',
    construct (BinaryExpr Expr.Add sampleX sampleY) newBuilder = Ok (r, s') /\
    cacheExtends newBuilder s' /\
    lookupExpr (BinaryExpr Expr.Add sampleX sampleY) (constructed s') = Some r.
Proof.
  eexists _, _. split; [reflexivity|].
  destruct (construct_extends_caches (BinaryExpr Expr.Add sampleX sampleY) newBuilder _ _
              eq_refl) as (H1 & H2 & _).
  split; [exact H1 | exact (H2 eq_refl eq_refl)].
Defined.

(** X20.  Once [construct] has returned a term for an expression, it
    returns the same term and width for it again, leaving the builder as it
    is: right away, from every later state that extends the caches, and
    after any other call of [construct] that returned.  This holds with
    hash-consing on and off. *)
Theorem construct_stable (e : Expr) (s s1 : Z3Builder) (r : ResW) :
  construct e s = Ok (r, s1) ->
  construct e s1 = Ok (r, s1) /\
  (forall s2, cacheExtends s1 s2 -> construct e s2 = Ok (r, s2)) /\
  (forall e' r' s2, construct e' s1 = Ok (r', s2) -> construct e s2 = Ok (r, s2)).
Proof.
  intros H.
  destruct (memoisedBelow_construct_with e (proj1 construct_memoised_mut e) s r s1 H)
    as (_ & _ & R).
  split; [apply R, cacheExtends_refl|]. split; [exact R|].
  intros e' r' s2 H'. apply R.
  now destruct (memoisedBelow_construct_with e' (proj1 construct_memoised_mut e')
                  s1 r' s2 H') as (E & _).
Qed.

Lemma construct_stable_witness :
  exists r s1,
    construct (BinaryExpr Expr.Add sampleX sampleY) newBuilder = Ok (r, s1) /\
    construct (BinaryExpr Expr.Add sampleX sampleY) s1 = Ok (r, s1) /\
    forall e' r' s2,
      construct e' s1 = Ok (r', s2) ->
      construct (BinaryExpr Expr.Add sampleX sampleY) s2 = Ok (r, s2).
Proof.
  eexists _, _. split; [reflexivity|].
  destruct (construct_stable (BinaryExpr Expr.Add sampleX sampleY) newBuilder _ _ eq_refl)
    as (H1 & _ & H3).
  split; [exact H1 | exact H3].
Defined.

Lemma getArrayForUpdate_miss (root : Array) (index value : Expr) (next : UpdateNode)
    (s : Z3Builder) :
  lookupUpdateNodeExpr root (UNode index value next) (_update_node_hash s) = None ->
  getArrayForUpdate root (UNode index value next) s
  = (un_expr <- writeUpdateNode root index value next ;;
     hashUpdateNodeExpr root (UNode index value next) un_expr ;;;
     ret un_expr) s.
Proof.
  intros L. cbn [getArrayForUpdate]. rewrite ?construct_fold, L.
  unfold writeUpdateNode, bind.
  destruct (getArrayForUpdate root next s) as [[arr t1]|]; [|reflexivity].
  destruct (construct index t1) as [[[i wi] t2]|]; [|reflexivity].
  destruct (construct value t2) as [[[v wv] t3]|]; reflexivity.
Qed.

Lemma memoisedBelow_writeUpdateNode (root : Array) (index value : Expr)
    (next : UpdateNode) :
  memoisedBelow (updateSize (UNode index value next))
    (writeUpdateNode root index value next).
Proof.
  pose proof (proj1 construct_memoised_mut index).
  pose proof (proj1 construct_memoised_mut value).
  pose proof (proj1 (proj2 construct_memoised_mut) next).
  unfold writeUpdateNode. repeat memo_step.
Qed.

(** X21.  An update node that is not in the cache is translated to the
    write [store arr i v] of the translations of the rest of the list, of
    its index and of its value, which are what [getArrayForUpdate] and
    [construct] return for them in the final state too; the node is cached;
    and a read of the result at an index equal to [i] gives [v], at another
    index what [arr] holds there. *)
Theorem update_node_translation (root : Array) (index value : Expr) (next : UpdateNode)
    (s s1 : Z3Builder) (a : Z3ASTHandle) :
  lookupUpdateNodeExpr root (UNode index value next) (_update_node_hash s) = None ->
  getArrayForUpdate root (UNode index value next) s = Ok (a, s1) ->
  exists arr i wi v wv,
    a = writeExpr arr i v /\
    getArrayForUpdate root next s1 = Ok (arr, s1) /\
    construct index s1 = Ok ((i, wi), s1) /\
    construct value s1 = Ok ((v, wv), s1) /\
    getArrayForUpdate root (UNode index value next) s1 = Ok (a, s1) /\
    forall (M : Z3_model) (f : Z -> val) (at_ : Z3ASTHandle) (dw dw' j k : Z),
      eval M arr = VArr f -> eval M i = VBv dw k -> eval M at_ = VBv dw' j ->
      eval M (readExpr a at_) = if j =? k then eval M v else f j.
Proof.
  intros L Hrun.
  destruct (proj1 (proj2 construct_memoised_mut) (UNode index value next) root s a s1 Hrun)
    as (E & _ & R).
  cbn [getArrayForUpdate] in Hrun. rewrite ?construct_fold, L in Hrun. unfold bind in Hrun.
  destruct (getArrayForUpdate root next s) as [[arr t1]|] eqn:E1; [|discriminate Hrun].
  destruct (construct index t1) as [[[i wi] t2]|] eqn:E2; [|discriminate Hrun].
  destruct (construct value t2) as [[[v wv] t3]|] eqn:E3; [|discriminate Hrun].
  unfold hashUpdateNodeExpr, ret in Hrun. injection Hrun as <- Hs1.
  destruct (proj1 (proj2 construct_memoised_mut) next root s arr t1 E1) as (X1 & _ & R1).
  destruct (memoisedBelow_construct_with index (proj1 construct_memoised_mut index)
              t1 _ t2 E2) as (X2 & _ & R2).
  destruct (memoisedBelow_construct_with value (proj1 construct_memoised_mut value)
              t2 _ t3 E3) as (X3 & _ & R3).
  assert (X4 : cacheExtends t3 s1).
  { destruct (memoisedBelow_writeUpdateNode root index value next s (writeExpr arr i v) t3)
      as (_ & (_ & UU) & _).
    { unfold writeUpdateNode, bind. now rewrite E1, E2, E3. }
    subst s1.
    repeat split; cbn [UseConstructHashZ3 constructed _array_hash _update_node_hash];
      auto.
    intros root' un' v0 Hv. cbn [lookupUpdateNodeExpr].
    destruct (Array_eq_dec root' root) as [->|]; [|exact Hv].
    destruct (UpdateNode_eq_dec un' (UNode index value next)) as [->|]; [|exact Hv].
    rewrite UU in Hv by lia. congruence. }
  exists arr, i, wi, v, wv. split; [reflexivity|].
  split; [apply R1; eauto using cacheExtends_trans|].
  split; [apply R2; eauto using cacheExtends_trans|].
  split; [apply R3; exact X4|].
  split; [apply R, cacheExtends_refl|].
  intros M f at_ dw dw' j k Harr Hi Hat. unfold readExpr, writeExpr. cbn [eval].
  now rewrite Harr, Hi, Hat.
Qed.

Lemma update_node_translation_witness :
  let un := UNode (ConstantExpr 32 1) (ConstantExpr 8 7) UNull in
  match getArrayForUpdate sampleA un newBuilder with
  | Ok (a, s1) =>
      exists arr i wi v wv,
        a = writeExpr arr i v /\
        getArrayForUpdate sampleA UNull s1 = Ok (arr, s1) /\
        construct (ConstantExpr 32 1) s1 = Ok ((i, wi), s1) /\
        construct (ConstantExpr 8 7) s1 = Ok ((v, wv), s1)
  | Abort _ => False
  end.
Proof.
  intro un.
  destruct (getArrayForUpdate sampleA un newBuilder) as [[a s1]|] eqn:E;
    [|discriminate E].
  destruct (update_node_translation sampleA (ConstantExpr 32 1) (ConstantExpr 8 7) UNull
              newBuilder s1 a eq_refl E)
    as (arr & i & wi & v & wv & H1 & H2 & H3 & H4 & _).
  exists arr, i, wi, v, wv. repeat split; assumption.
Defined.

(** *** Hash-consing on and off *)

Lemma hashingAgrees_later (son soff soff' : Z3Builder) :
  hashingAgrees son soff -> cacheExtends soff soff' ->
  _array_hash soff' = _array_hash soff ->
  _update_node_hash soff' = _update_node_hash soff ->
  hashingAgrees son soff'.
Proof.
  intros (F1 & F2 & A & U & C) E HA HU.
  split; [exact F1|]. split; [destruct E as (F & _); congruence|].
  split; [congruence|]. split; [congruence|].
  intros e r L s2 E2. apply (C e r L). eapply cacheExtends_trans; eassumption.
Qed.

Lemma hashingTransparent_ret {A : Type} (a : A) : hashingTransparent (ret a).
Proof. intros son soff H. cbn. auto. Qed.

Lemma hashingTransparent_lift {A : Type} (r : Result A) : hashingTransparent (lift r).
Proof. intros son soff H. unfold lift. destruct r; cbn; auto. Qed.

Lemma hashingTransparent_assert (b : bool) (msg : string) :
  hashingTransparent (assert b msg).
Proof. intros son soff H. unfold assert. destruct b; cbn; auto. Qed.

Lemma hashingTransparent_abort {A : Type} (msg : string) :
  hashingTransparent (@abort A msg).
Proof. intros son soff H. reflexivity. Qed.

Lemma hashingTransparent_bind {A B : Type} (m : M A) (f : A -> M B) :
  hashingTransparent m -> (forall a, hashingTransparent (f a)) ->
  hashingTransparent (bind m f).
Proof.
  intros Hm Hf son soff H. unfold bind. specialize (Hm son soff H).
  destruct (m son) as [[a t]|], (m soff) as [[a' t']|]; cbn in Hm; try contradiction.
  - destruct Hm as [<- Ht]. now apply Hf.
  - exact Hm.
Qed.

Lemma hashingTransparent_getInitialArray (root : Array) :
  hashingTransparent (getInitialArray root).
Proof.
  intros son soff H.
  pose proof (memoisedBelow_getInitialArray 0 root soff) as Hoff.
  destruct H as (F1 & F2 & A & U & C).
  unfold getInitialArray in *. rewrite A in *.
  destruct (lookupArrayExpr root (_array_hash soff)) as [z|] eqn:L.
  - cbn. split; [reflexivity|]. repeat split; assumption.
  - match goal with
    | |- sameOutcome (match ?flushed with Ok _ => _ | Abort _ => _ end) _ =>
        destruct flushed as [arr|] eqn:Ef; [|reflexivity]
    end.
    destruct (Hoff arr _ eq_refl) as (E & _).
    unfold bind, hashArrayExpr, ret in *. cbn [sameOutcome].
    split; [reflexivity|].
    repeat split; cbn [UseConstructHashZ3 _array_hash _update_node_hash constructed];
      try assumption; try congruence.
    intros e r Le s2 E2. apply (C e r Le). eapply cacheExtends_trans; eassumption.
Qed.

Lemma hashingTransparent_construct_with (e : Expr) :
  hashingTransparent (constructActual e) -> hashingTransparent (construct e).
Proof.
  intros Hc son soff H. pose proof H as (F1 & F2 & A & U & C).
  unfold construct, construct_with at 2. rewrite F2. cbn [negb orb].
  unfold construct_with. rewrite F1. cbn [negb orb].
  destruct (isa_ConstantExpr e); [now apply Hc|].
  destruct (lookupExpr e (constructed son)) as [[res w]|] eqn:L.
  - pose proof (C e (res, w) L soff (cacheExtends_refl soff)) as Hrun.
    unfold construct, construct_with in Hrun. rewrite F2 in Hrun. cbn [negb orb] in Hrun.
    rewrite Hrun. cbn. split; [reflexivity | exact H].
  - specialize (Hc son soff H). unfold bind.
    destruct (constructActual e son) as [[[res w] t]|],
             (constructActual e soff) as [[[res' w'] t']|] eqn:Eoff;
      cbn in Hc; try contradiction; [|exact Hc].
    destruct Hc as [Heq (G1 & G2 & GA & GU & GC)]. injection Heq as <- <-.
    unfold insertConstructed, ret. cbn [sameOutcome]. split; [reflexivity|].
    repeat split; cbn [UseConstructHashZ3 _array_hash _update_node_hash constructed];
      try assumption.
    intros k v Lk s2 E2. cbn [lookupExpr] in Lk.
    destruct (Expr_eq_dec k e) as [->|]; [|now apply (GC k v Lk)].
    injection Lk as <-.
    assert (Hrun : construct e soff = Ok ((res, w), t')).
    { unfold construct, construct_with. rewrite F2. exact Eoff. }
    destruct (memoisedBelow_construct_with e (proj1 construct_memoised_mut e)
                soff _ _ Hrun) as (_ & _ & R).
    now apply R.
Qed.

Ltac transp_step :=
  first
    [ apply hashingTransparent_ret
    | apply hashingTransparent_lift
    | apply hashingTransparent_assert
    | apply hashingTransparent_abort
    | apply hashingTransparent_getInitialArray
    | match goal with
      | IH : hashingTransparent (constructActual ?e) |- hashingTransparent (construct ?e) =>
          exact (hashingTransparent_construct_with e IH)
      | IH : forall root, hashingTransparent (getArrayForUpdate root ?un)
        |- hashingTransparent (getArrayForUpdate ?r ?un) => exact (IH r)
      | IH : hashingTransparent (constructKids ?k) |- hashingTransparent (constructKids ?k) =>
          exact IH
      end
    | apply hashingTransparent_bind;
      [| let a := fresh "a" in
         intros a;
         lazymatch type of a with
         | unit => idtac
         | Z3ASTHandle => idtac
         | _ => destruct a
         end; cbv beta iota]
    | match goal with
      | |- hashingTransparent (match ?x with Some _ => _ | None => _ end) => destruct x
      end ].

Ltac transp := cbn [constructActual getArrayForUpdate constructKids];
  rewrite ?construct_fold; repeat transp_step.

Lemma construct_transparent_mut :
  (forall e, hashingTransparent (constructActual e)) /\
  (forall un root, hashingTransparent (getArrayForUpdate root un)) /\
  (forall kids, hashingTransparent (constructKids kids)).
Proof.
  apply Expr_mutind; intros.
  all: try (transp; fail).
  all: try (destruct kind; transp; fail).
  (* an update node *)
  intros son soff Hag. pose proof Hag as (F1 & F2 & A & U & C).
  destruct (lookupUpdateNodeExpr root (UNode index value next) (_update_node_hash soff))
    as [z|] eqn:L.
  - cbn [getArrayForUpdate]. rewrite U, L. cbn. split; [reflexivity | exact Hag].
  - assert (Hin : hashingTransparent (writeUpdateNode root index value next))
      by (unfold writeUpdateNode; repeat transp_step).
    specialize (Hin son soff Hag).
    pose proof (memoisedBelow_writeUpdateNode root index value next soff) as Hmemo.
    rewrite !getArrayForUpdate_miss by (rewrite ?U; exact L). unfold bind.
    destruct (writeUpdateNode root index value next son) as [[a t]|],
             (writeUpdateNode root index value next soff) as [[a' t']|];
      cbn [sameOutcome] in Hin; try contradiction; [|exact Hin].
    destruct Hin as [<- (G1 & G2 & GA & GU & GC)].
    destruct (Hmemo _ _ eq_refl) as (_ & (_ & UU) & _).
    assert (Lt : lookupUpdateNodeExpr root (UNode index value next)
                   (_update_node_hash t') = None) by (rewrite UU by lia; exact L).
    unfold hashUpdateNodeExpr, ret. cbn [sameOutcome]. split; [reflexivity|].
    repeat split; cbn [UseConstructHashZ3 _array_hash _update_node_hash constructed];
      try assumption; try congruence.
    intros e r Le s2 E2. apply (GC e r Le). eapply cacheExtends_trans; [|exact E2].
    repeat split; cbn [UseConstructHashZ3 constructed _array_hash _update_node_hash];
      auto.
    intros root' un' v0 Hv. cbn [lookupUpdateNodeExpr].
    destruct (Array_eq_dec root' root) as [->|]; [|exact Hv].
    destruct (UpdateNode_eq_dec un' (UNode index value next)) as [->|];
      [congruence | exact Hv].
Qed.

Lemma hashingAgrees_fresh :
  hashingAgrees (mkZ3Builder [] [] [] true) (mkZ3Builder [] [] [] false).
Proof. repeat split. intros e r L. discriminate L. Qed.

(** X22.  Hash-consing does not change the translation.  From two builders
    that agree, one with [UseConstructHashZ3] on and one with it off (such
    as two new builders), [construct] either aborts with the same message in
    both or returns the same term and width in both, in builders that agree
    again. *)
Theorem hashing_is_transparent (e : Expr) (son soff : Z3Builder) :
  hashingAgrees son soff ->
  match construct e son, construct e soff with
  | Ok (r, son'), Ok (r', soff') => r = r' /\ hashingAgrees son' soff'
  | Abort msg, Abort msg' => msg = msg'
  | _, _ => False
  end.
Proof.
  intros H.
  exact (hashingTransparent_construct_with e (proj1 construct_transparent_mut e)
           son soff H).
Qed.

Lemma hashing_is_transparent_witness :
  let e := BinaryExpr Expr.Add (BinaryExpr Expr.Mul sampleX sampleY)
             (BinaryExpr Expr.Mul sampleX sampleY) in
  match construct e (mkZ3Builder [] [] [] true),
        construct e (mkZ3Builder [] [] [] false) with
  | Ok (r, son'), Ok (r', soff') => r = r' /\ hashingAgrees son' soff'
  | Abort msg, Abort msg' => msg = msg'
  | _, _ => False
  end.
Proof.
  intro e. apply (hashing_is_transparent e). repeat split. intros k r L. discriminate L.
Defined.

(** ** Arrays *)

Lemma string_length_append (a b : string) :
  String.length (a ++ b) = (String.length a + String.length b)%nat.
Proof. induction a as [|c a IH]; cbn; [reflexivity | now rewrite IH]. Qed.

Lemma string_length_substring0 (s : string) :
  forall n, String.length (substring 0 n s) = Nat.min n (String.length s).
Proof.
  induction s as [|c s IH]; intros [|n]; cbn; try reflexivity. now rewrite IH.
Qed.

Lemma string_substring_all (s : string) : substring 0 (String.length s) s = s.
Proof. induction s as [|c s IH]; cbn; [reflexivity | now rewrite IH]. Qed.

Lemma string_append_assoc (a b c : string) : ((a ++ b) ++ c = a ++ (b ++ c))%string.
Proof. induction a as [|x a IH]; cbn; [reflexivity | now rewrite IH]. Qed.

Lemma getInitialArray_symbolic (root : Array) (s : Z3Builder) :
  lookupArrayExpr root (_array_hash s) = None ->
  isConstantArray root = false ->
  let arr := Z3_mk_const (uniqueName root (List.length (_array_hash s)))
               (arraySortOf root) in
  getInitialArray root s
  = Ok (arr, mkZ3Builder (constructed s) ((root, arr) :: _array_hash s)
               (_update_node_hash s) (UseConstructHashZ3 s)).
Proof.
  intros L Hc arr. unfold getInitialArray. rewrite L, Hc.
  unfold bind, hashArrayExpr, ret, buildArray. subst arr. unfold uniqueName.
  set (id := itostr _). cbv zeta.
  replace (if (32 - String.length id <? String.length (name root))%nat
           then (32 - String.length id)%nat else String.length (name root))
    with (Nat.min (32 - String.length id) (String.length (name root))).
  - reflexivity.
  - destruct (Nat.ltb_spec (32 - String.length id) (String.length (name root))); lia.
Qed.

(** X23.  The first translation of a symbolic array makes the Z3 constant
    named by a prefix of the array's name followed by the decimal count of
    the arrays cached so far, with the array sort from [BV domain] to
    [BV range]; it caches the constant, the count goes up by one, and the
    name has at most 32 characters: a name that fits is kept whole, a longer
    one is cut so that the result has 32 characters exactly. *)
Theorem getInitialArray_names (root : Array) (s : Z3Builder) :
  lookupArrayExpr root (_array_hash s) = None ->
  isConstantArray root = false ->
  let unique_id := itostr (List.length (_array_hash s)) in
  (String.length unique_id <= 32)%nat ->
  exists (prefix : string) (s1 : Z3Builder),
    getInitialArray root s
    = Ok (Z3_mk_const (prefix ++ unique_id) (arraySortOf root), s1) /\
    lookupArrayExpr root (_array_hash s1)
    = Some (Z3_mk_const (prefix ++ unique_id) (arraySortOf root)) /\
    List.length (_array_hash s1) = S (List.length (_array_hash s)) /\
    (String.length (prefix ++ unique_id) <= 32)%nat /\
    ((String.length (name root) + String.length unique_id <= 32)%nat ->
     prefix = name root) /\
    ((32 < String.length (name root) + String.length unique_id)%nat ->
     prefix = substring 0 (32 - String.length unique_id) (name root) /\
     String.length (prefix ++ unique_id) = 32%nat).
Proof.
  intros L Hc id Hid.
  eexists _, _. split; [apply (getInitialArray_symbolic root s L Hc)|].
  fold id. cbn [_array_hash lookupArrayExpr List.length].
  split; [now destruct (Array_eq_dec root root)|]. split; [reflexivity|].
  rewrite string_length_append, string_length_substring0, <- Nat.min_assoc, Nat.min_id.
  split; [lia|]. split.
  - intros Hs. rewrite Nat.min_r by lia. apply string_substring_all.
  - intros Hs. rewrite Nat.min_l by lia. split; [reflexivity | lia].
Qed.

Lemma getInitialArray_names_witness :
  exists (prefix : string) (s1 : Z3Builder),
    getInitialArray sampleA newBuilder
    = Ok (Z3_mk_const (prefix ++ "0") (arraySortOf sampleA), s1) /\
    lookupArrayExpr sampleA (_array_hash s1)
    = Some (Z3_mk_const (prefix ++ "0") (arraySortOf sampleA)) /\
    prefix = "A"%string.
Proof.
  destruct (getInitialArray_names sampleA newBuilder eq_refl eq_refl)
    as (prefix & s1 & H1 & H2 & _ & _ & H5 & _); [cbn; lia|].
  exists prefix, s1. split; [exact H1|]. split; [exact H2|]. apply H5. cbn. lia.
Defined.

(** X24.  The names are not unique: for every name [p] of at most 29
    characters, the array named [p1] translated first (count 0) and the
    array named [p] translated when ten arrays are cached get the same Z3
    constant, [p10], although the two arrays differ. *)
Theorem array_names_collide (p : string) (sz d r : Z) (s s' : Z3Builder) :
  (String.length p <= 29)%nat ->
  _array_hash s = [] ->
  List.length (_array_hash s') = 10%nat ->
  let A := mkArray (p ++ "1") sz d r [] in
  let B := mkArray p sz d r [] in
  lookupArrayExpr B (_array_hash s') = None ->
  A <> B /\
  exists t s1 s1',
    getInitialArray A s = Ok (t, s1) /\
    getInitialArray B s' = Ok (t, s1') /\
    t = Z3_mk_const (p ++ "10") (getArraySort (getBvSort d) (getBvSort r)).
Proof.
  intros Hp Hs Hs' A B LB. split.
  - intros E. apply (f_equal (fun a => String.length (name a))) in E.
    cbn [name A B] in E. rewrite string_length_append in E. cbn in E. lia.
  - eexists _, _, _.
    rewrite (getInitialArray_symbolic A s), (getInitialArray_symbolic B s');
      try reflexivity; try assumption.
    + unfold uniqueName. rewrite Hs, Hs'. cbn [List.length name A B].
      change (itostr 0) with "0"%string. change (itostr 10) with "10"%string.
      cbn [String.length Nat.sub]. rewrite string_length_append. cbn [String.length].
      rewrite !Nat.min_r by lia.
      replace (String.length p + 1)%nat with (String.length (p ++ "1"))
        by (rewrite string_length_append; reflexivity).
      rewrite !string_substring_all, string_append_assoc. cbn [String.append].
      split; [reflexivity|]. split; reflexivity.
    + now rewrite Hs.
Qed.

Lemma array_names_collide_witness :
  let A := mkArray "a1" 4 32 8 [] in
  let B := mkArray "a" 4 32 8 [] in
  let s' := mkZ3Builder [] (repeat (sampleA, Z3_mk_true) 10) [] true in
  A <> B /\
  exists t s1 s1',
    getInitialArray A newBuilder = Ok (t, s1) /\
    getInitialArray B s' = Ok (t, s1') /\
    t = Z3_mk_const "a10" (getArraySort (getBvSort 32) (getBvSort 8)).
Proof.
  intros A B s'.
  apply (array_names_collide "a" 4 32 8 newBuilder s');
    [cbn; lia | reflexivity | reflexivity | reflexivity].
Defined.

Lemma eval_constant_term (M : Z3_model) (w v : Z) :
  1 < w -> 0 <= v < 2 ^ w ->
  eval M (fst (constructActual_Constant w v)) = VBv w v.
Proof.
  intros Hw Hv.
  destruct (Constant_term_spec w v ltac:(lia) Hv) as (_ & _ & _ & _ & _ & H).
  now apply H.
Qed.

Lemma eval_getInitialArray_loop (M : Z3_model) (root : Array) (n : nat) :
  1 < getDomain root -> 1 < getRange root ->
  Forall (fun c => fst c = getRange root /\ 0 <= snd c < 2 ^ getRange root)
    (constantValues root) ->
  forall (i : Z) (arr0 : Z3ASTHandle) (f0 : Z -> val),
    0 <= i -> (Z.to_nat i + n <= List.length (constantValues root))%nat ->
    i + Z.of_nat n <= 2 ^ getDomain root ->
    eval M arr0 = VArr f0 ->
    exists arr f,
      getInitialArray_loop n i root arr0 = Ok arr /\
      eval M arr = VArr f /\
      (forall j cw cv, i <= j < i + Z.of_nat n ->
         nth_error (constantValues root) (Z.to_nat j) = Some (cw, cv) ->
         f j = VBv (getRange root) cv) /\
      (forall j, ~ i <= j < i + Z.of_nat n -> f j = f0 j).
Proof.
  intros Hd Hr Hall. induction n as [|n IH]; intros i arr0 f0 Hi Hn Hb He;
    cbn [getInitialArray_loop].
  - exists arr0, f0. split; [reflexivity|]. split; [exact He|]. split; [lia | reflexivity].
  - destruct (nth_error (constantValues root) (Z.to_nat i)) as [[cw cv]|] eqn:E;
      [|apply nth_error_None in E; lia].
    pose proof (proj1 (Forall_forall _ _) Hall _ (nth_error_In _ _ E)) as [Hcw Hcv].
    cbn [fst snd] in Hcw, Hcv. subst cw.
    set (arr1 := writeExpr arr0 (fst (constructActual_Constant (getDomain root) i))
                   (fst (constructActual_Constant (getRange root) cv))).
    assert (He1 : eval M arr1
                  = VArr (fun j => if j =? i then VBv (getRange root) cv else f0 j)).
    { unfold arr1, writeExpr. cbn [eval]. rewrite He.
      rewrite (eval_constant_term M (getDomain root) i) by lia.
      now rewrite (eval_constant_term M (getRange root) cv) by lia. }
    destruct (IH (i + 1) arr1 _ ltac:(lia) ltac:(lia) ltac:(lia) He1)
      as (arr & f & Hrun & Hev & Hin & Hout).
    exists arr, f. split; [exact Hrun|]. split; [exact Hev|]. split.
    + intros j cw' cv' Hj Hnth. destruct (Z.eq_dec j i) as [->|Hne].
      * rewrite Hout by lia. rewrite Z.eqb_refl. congruence.
      * apply (Hin j cw' cv'); [lia | exact Hnth].
    + intros j Hj. rewrite Hout by lia. destruct (Z.eqb_spec j i); [lia | reflexivity].
Qed.

(** X25.  The first translation of a constant array writes all its values:
    when the array has a value of the range width for each of its [size]
    cells, index and range are wider than one bit and [size] is at most
    [2 ^ domain], the term returned (and cached) reads, in every model and
    at every index [i] below [size], the [i]-th constant value. *)
Theorem constant_array_contents (root : Array) (s : Z3Builder) (M : Z3_model) :
  lookupArrayExpr root (_array_hash s) = None ->
  isConstantArray root = true ->
  size root = Z.of_nat (List.length (constantValues root)) ->
  1 < getDomain root -> 1 < getRange root -> size root <= 2 ^ getDomain root ->
  Forall (fun c => fst c = getRange root /\ 0 <= snd c < 2 ^ getRange root)
    (constantValues root) ->
  (forall nm, exists f, const_interp M nm (arraySortOf root) = VArr f) ->
  exists arr s1,
    getInitialArray root s = Ok (arr, s1) /\
    lookupArrayExpr root (_array_hash s1) = Some arr /\
    forall (i : nat) (cw cv : Z) (idx : Z3ASTHandle),
      nth_error (constantValues root) i = Some (cw, cv) ->
      eval M idx = VBv (getDomain root) (Z.of_nat i) ->
      eval M (readExpr arr idx) = VBv (getRange root) cv.
Proof.
  intros L Hc Hsz Hd Hr Hb Hall HM. unfold getInitialArray. rewrite L, Hc.
  set (nm := String.append _ _). destruct (HM nm) as [f0 Hf0].
  destruct (eval_getInitialArray_loop M root (Z.to_nat (size root)) Hd Hr Hall 0
              (buildArray nm (getDomain root) (getRange root)) f0)
    as (arr & f & Hrun & Hev & Hin & _); try lia.
  { exact Hf0. }
  rewrite Hrun. unfold bind, hashArrayExpr, ret. eexists _, _.
  split; [reflexivity|]. cbn [_array_hash lookupArrayExpr].
  split; [now destruct (Array_eq_dec root root)|].
  intros i cw cv idx Hnth Hidx. unfold readExpr. cbn [eval]. rewrite Hev, Hidx.
  apply (Hin (Z.of_nat i) cw cv).
  - assert (i < List.length (constantValues root))%nat
      by (apply nth_error_Some; congruence).
    lia.
  - now rewrite Nat2Z.id.
Qed.

Lemma constant_array_contents_witness :
  exists arr s1,
    getInitialArray sampleTable newBuilder = Ok (arr, s1) /\
    lookupArrayExpr sampleTable (_array_hash s1) = Some arr /\
    forall (i : nat) (cw cv : Z) (idx : Z3ASTHandle),
      nth_error (constantValues sampleTable) i = Some (cw, cv) ->
      eval sampleModel idx = VBv (getDomain sampleTable) (Z.of_nat i) ->
      eval sampleModel (readExpr arr idx) = VBv (getRange sampleTable) cv.
Proof.
  apply (constant_array_contents sampleTable newBuilder sampleModel);
    try reflexivity; try (cbn; lia).
  - repeat constructor; cbn; lia.
  - intros nm. eexists. reflexivity.
Defined.

(** ** Clearing the construct cache *)

Lemma reachable_hashingAgrees (s : Z3Builder) :
  reachable s -> exists soff, hashingAgrees s soff.
Proof.
  induction 1 as [|e r s s' _ (soff & IH) Hrun|s s' _ (soff & IH) Hrun].
  - exists (mkZ3Builder [] [] [] false). exact hashingAgrees_fresh.
  - pose proof (hashingTransparent_construct_with e (proj1 construct_transparent_mut e)
                  s soff IH) as Hsame.
    rewrite Hrun in Hsame. unfold sameOutcome in Hsame.
    destruct (construct e soff) as [[r' soff']|]; [|contradiction].
    exists soff'. apply Hsame.
  - exists soff. unfold clearConstructCache in Hrun. injection Hrun as <-.
    destruct IH as (F1 & F2 & A & U & C).
    repeat split; try assumption. intros e r L. discriminate L.
Qed.

(** X26.  Clearing the construct cache does not change what is built.  In a
    builder reached from a new one by translations and by
    [clearConstructCache], translating [e] right away and translating it
    after the construct cache was cleared abort with the same message or
    return the same term and width: the array and update-node caches are
    kept, and with them the Z3 constant every array got. *)
Theorem clearing_keeps_translations (e : Expr) (s : Z3Builder) :
  reachable s ->
  match construct e s, (clearConstructCache ;;; construct e) s with
  | Ok (r, _), Ok (r', _) => r = r'
  | Abort msg, Abort msg' => msg = msg'
  | _, _ => False
  end.
Proof.
  intros Hr.
  destruct (reachable_hashingAgrees s Hr) as (soff & Hag).
  assert (Hag' : hashingAgrees (mkZ3Builder [] (_array_hash s) (_update_node_hash s)
                                  (UseConstructHashZ3 s)) soff).
  { destruct Hag as (F1 & F2 & A & U & C).
    repeat split; try assumption. intros k r L. discriminate L. }
  pose proof (hashingTransparent_construct_with e (proj1 construct_transparent_mut e)
                _ _ Hag) as H1.
  pose proof (hashingTransparent_construct_with e (proj1 construct_transparent_mut e)
                _ _ Hag') as H2.
  unfold bind, clearConstructCache. unfold sameOutcome in H1, H2.
  destruct (construct e s) as [[r1 s1]|], (construct e soff) as [[r0 s0]|],
    (construct e _) as [[r2 s2]|]; try contradiction.
  - destruct H1 as [-> _], H2 as [-> _]. reflexivity.
  - congruence.
Qed.

Lemma clearing_keeps_translations_witness :
  let e := BinaryExpr Expr.Add sampleX sampleY in
  match construct e newBuilder with
  | Ok (_, s) =>
      reachable s /\
      match construct sampleX s, (clearConstructCache ;;; construct sampleX) s with
      | Ok (r, _), Ok (r', _) => r = r'
      | Abort msg, Abort msg' => msg = msg'
      | _, _ => False
      end
  | Abort _ => False
  end.
Proof.
  intros e. destruct (construct e newBuilder) as [[r s]|] eqn:E;
    [|vm_compute in E; discriminate E].
  assert (Hr : reachable s) by exact (reach_construct e r newBuilder s reach_new E).
  split; [exact Hr|]. exact (clearing_keeps_translations sampleX s Hr).
Defined.

(** ** More cases: bits to an 80-bit float, and concatenation *)

(** X29.  [ExplicitFloat] at width 80, on a bitvector of value [n].  The
    number of the result is [to_fp] of the 79 bits left when bit 63 is
    dropped: [n / 2 ^ 64] (sign and exponent) above the low 63 bits of [n],
    so the whole fraction is kept.  Index 1 holds [fp_zero] when bit 63 is
    set exactly when the exponent is not 0, and NaN otherwise: the
    classification [FConstant] makes of an 80-bit constant. *)
Theorem ExplicitFloat_F80_value (src : Z3ASTHandle) (n : Z) (M : Z3_model) :
  eval M src = VBv 80 n -> 0 <= n < 2 ^ 80 -> interpretsF80 M ->
  let exp := (n / 2 ^ 64) mod 2 ^ 15 in
  let j := (n / 2 ^ 63) mod 2 in
  exists bits sentinel,
    constructActual_ExplicitFloat src Expr.Fl80
    = Ok (packF80 (Z3_mk_fpa_to_fp_bv bits sortF80) sentinel, Expr.Fl80) /\
    eval M bits = VBv 79 (n / 2 ^ 64 * 2 ^ 63 + n mod 2 ^ 63) /\
    eval M sentinel
    = eval M (if Bool.eqb (exp =? 0) (j =? 0) then fpZero sortF80 else fpNan sortF80) /\
    eval M (readExpr (packF80 (Z3_mk_fpa_to_fp_bv bits sortF80) sentinel) (bvOne 1))
    = eval M sentinel.
Proof.
  intros Hsrc Hn HM exp j.
  eexists. eexists. split; [reflexivity|].
  assert (Hq : 0 <= n / 2 ^ 64 < 2 ^ 16).
  { split; [apply Z.div_pos; lia|]. apply Z.div_lt_upper_bound; lia. }
  split; [|split].
  - unfold concatExpr3, extractExpr. cbn [eval]. rewrite Hsrc.
    cbn [Z.leb Z.ltb Z.compare Pos.compare Pos.compare_cont andb Z.sub Z.add Z.opp
         Z.pos_sub Pos.add Pos.succ Pos.pred_double Z.succ_double Z.pred_double Z.double
         Pos.add_carry].
    f_equal. rewrite Z.div_1_r.
    replace (n / 2 ^ 79) with (n / 2 ^ 64 / 2 ^ 15)
      by (rewrite Z.div_div by lia; reflexivity).
    pose proof (Z.div_mod (n / 2 ^ 64) (2 ^ 15) ltac:(lia)) as Hdm.
    assert (Hs : 0 <= n / 2 ^ 64 / 2 ^ 15 < 2).
    { split; [apply Z.div_pos; lia|]. apply Z.div_lt_upper_bound; lia. }
    rewrite (Z.mod_small (n / 2 ^ 64 / 2 ^ 15) (2 ^ 1)) by (change (2 ^ 1) with 2; lia).
    lia.
  - unfold iteExpr, eqExpr, bvRedorExpr, extractExpr. cbn [eval]. rewrite Hsrc.
    cbn [Z.leb Z.ltb Z.compare Pos.compare Pos.compare_cont andb Z.sub Z.add Z.opp
         Z.pos_sub Pos.add Pos.succ Pos.pred_double Z.succ_double Z.pred_double Z.double
         Pos.add_carry].
    rewrite eval_bvZero_1. rewrite (eval_bvOne M 1) by lia.
    change (2 ^ 1) with 2. fold exp. fold j.
    assert (Hj : j = 0 \/ j = 1) by (unfold j; pose proof (Z.mod_pos_bound (n / 2 ^ 63) 2); lia).
    destruct (Z.eqb_spec exp 0) as [He|He]; cbn [val_eq Z.eqb];
      destruct Hj as [-> | ->]; reflexivity.
  - exact (proj2 (eval_packF80 M _ _ HM)).
Qed.

Lemma ExplicitFloat_F80_value_witness :
  let n := 16383 * 2 ^ 64 + 2 ^ 63 in
  let src := fst (constructActual_Constant 80 n) in
  exists bits sentinel,
    constructActual_ExplicitFloat src Expr.Fl80
    = Ok (packF80 (Z3_mk_fpa_to_fp_bv bits sortF80) sentinel, Expr.Fl80) /\
    eval sampleModel bits = VBv 79 (n / 2 ^ 64 * 2 ^ 63 + n mod 2 ^ 63) /\
    eval sampleModel sentinel
    = eval sampleModel
        (if Bool.eqb ((n / 2 ^ 64) mod 2 ^ 15 =? 0) ((n / 2 ^ 63) mod 2 =? 0)
         then fpZero sortF80 else fpNan sortF80) /\
    eval sampleModel
      (readExpr (packF80 (Z3_mk_fpa_to_fp_bv bits sortF80) sentinel) (bvOne 1))
    = eval sampleModel sentinel.
Proof.
  intros n src. apply (ExplicitFloat_F80_value src n sampleModel).
  - vm_compute. reflexivity.
  - split; vm_compute; [discriminate | reflexivity].
  - exact interpretsF80_sampleModel.
Defined.

Lemma constructKids_terms (kids : Kids) :
  forall s a s',
    constructKids kids s = Ok (a, s') ->
    cacheExtends s s' /\
    exists t ts,
      a = concatTerms t ts /\
      Forall2 (fun kid k => exists w, forall s2, cacheExtends s' s2 ->
                 construct kid s2 = Ok ((k, w), s2))
        (kidsList kids) (t :: ts).
Proof.
  induction kids as [kid|kid rest IH]; intros s a s' Hrun;
    cbn [constructKids] in Hrun; rewrite ?construct_fold in Hrun; unfold bind in Hrun.
  - destruct (construct kid s) as [[[k w] s1]|] eqn:E; [|discriminate Hrun].
    unfold ret in Hrun. injection Hrun as <- <-.
    destruct (memoisedBelow_construct_with kid (proj1 construct_memoised_mut kid)
                s _ _ E) as (Hext & _ & R).
    split; [exact Hext|]. exists k, []. split; [reflexivity|].
    cbn [kidsList]. constructor; [|constructor]. exists w. exact R.
  - destruct (constructKids rest s) as [[res s1]|] eqn:E1; [|discriminate Hrun].
    destruct (construct kid s1) as [[[k w] s2]|] eqn:E2; [|discriminate Hrun].
    unfold ret in Hrun. injection Hrun as <- <-.
    destruct (IH s res s1 E1) as (Hext1 & t & ts & -> & Hall).
    destruct (memoisedBelow_construct_with kid (proj1 construct_memoised_mut kid)
                s1 _ _ E2) as (Hext2 & _ & R).
    split; [eapply cacheExtends_trans; eassumption|].
    exists k, (t :: ts). split; [reflexivity|].
    cbn [kidsList]. constructor; [exists w; exact R|].
    eapply Forall2_impl; [|exact Hall].
    intros kid' k' (w' & Hk'). exists w'. intros s3 H3. apply Hk'.
    eapply cacheExtends_trans; eassumption.
Qed.

Lemma eval_concatTerms (M : Z3_model) (ts : list Z3ASTHandle) :
  forall t c cs,
    Forall2 (fun k wv => eval M k = VBv (fst wv) (snd wv)) (t :: ts) (c :: cs) ->
    eval M (concatTerms t ts) = VBv (fst (bigEndian c cs)) (snd (bigEndian c cs)).
Proof.
  induction ts as [|t' ts IH]; intros t c cs H; inversion H as [|? ? ? ? Ht Hts]; subst.
  - inversion Hts; subst. exact Ht.
  - inversion Hts as [|? c' ? cs' Ht' Hts']; subst.
    cbn [concatTerms bigEndian fst snd].
    apply eval_concatExpr; [exact Ht|]. apply IH. exact Hts.
Qed.

(** X30.  [Concat] reports the width of the node and returns the
    translations of its operands concatenated, the first operand on the
    high side: the term is [concat(k1, concat(k2, ...))] where [ki] is what
    [construct] returns for the i-th operand, also in the final state, and
    its value has the value of the first operand above those of the
    others. *)
Theorem Concat_of_kids (width : Z) (kids : Kids) (s s' : Z3Builder)
    (a : Z3ASTHandle) (w : Z) :
  constructActual (ConcatExpr width kids) s = Ok ((a, w), s') ->
  w = width /\
  exists t ts,
    a = concatTerms t ts /\
    Forall2 (fun kid k => exists wk, construct kid s' = Ok ((k, wk), s'))
      (kidsList kids) (t :: ts) /\
    forall M c cs,
      Forall2 (fun k wv => eval M k = VBv (fst wv) (snd wv)) (t :: ts) (c :: cs) ->
      eval M a = VBv (fst (bigEndian c cs)) (snd (bigEndian c cs)).
Proof.
  intros Hrun. cbn [constructActual] in Hrun. unfold bind in Hrun.
  destruct (constructKids kids s) as [[res s1]|] eqn:E; [|discriminate Hrun].
  unfold ret in Hrun. injection Hrun as <- <- <-.
  split; [reflexivity|].
  destruct (constructKids_terms kids s res s1 E) as (_ & t & ts & -> & Hall).
  exists t, ts. split; [reflexivity|]. split.
  - eapply Forall2_impl; [|exact Hall].
    intros kid k (wk & Hk). exists wk. apply Hk, cacheExtends_refl.
  - intros M c cs H. now apply eval_concatTerms.
Qed.

Lemma Concat_of_kids_witness :
  match constructActual (ConcatExpr 16 (KCons sampleX (KLast sampleY))) newBuilder with
  | Ok ((a, w), s') =>
      w = 16 /\
      exists t ts,
        a = concatTerms t ts /\
        Forall2 (fun kid k => exists wk, construct kid s' = Ok ((k, wk), s'))
          (kidsList (KCons sampleX (KLast sampleY))) (t :: ts) /\
        forall M c cs,
          Forall2 (fun k wv => eval M k = VBv (fst wv) (snd wv)) (t :: ts) (c :: cs) ->
          eval M a = VBv (fst (bigEndian c cs)) (snd (bigEndian c cs))
  | Abort _ => False
  end.
Proof.
  destruct (constructActual (ConcatExpr 16 (KCons sampleX (KLast sampleY))) newBuilder)
    as [[[a w] s']|] eqn:E; [|vm_compute in E; discriminate E].
  exact (Concat_of_kids _ _ _ _ _ _ E).
Defined.

(** ** Well-sorted translations *)

Lemma sortEqb_refl (s : Z3_sort) : sortEqb s s = true.
Proof.
  induction s; cbn [sortEqb]; rewrite ?Z.eqb_refl, ?IHs1, ?IHs2; reflexivity.
Qed.

Lemma sortEqb_eq (a b : Z3_sort) : sortEqb a b = true -> a = b.
Proof.
  revert b. induction a; intros [] H; cbn [sortEqb] in H; try discriminate H;
    try reflexivity.
  - apply Z.eqb_eq in H. now subst.
  - apply andb_true_iff in H. destruct H as [H1 H2].
    now rewrite (IHa1 _ H1), (IHa2 _ H2).
  - apply andb_true_iff in H. destruct H as [H1 H2].
    apply Z.eqb_eq in H1, H2. now subst.
Qed.

Ltac bool_lia :=
  rewrite ?andb_true_iff, ?Z.ltb_lt, ?Z.leb_le, ?Z.eqb_eq;
  repeat split; first [reflexivity | assumption | lia].

(** *** Constants and shifts *)
Lemma wellSorted_bvConst64 (w v : Z) : 0 < w -> wellSorted (bvConst64 w v) = true.
Proof. intros H. unfold bvConst64, getBvSort. cbn [wellSorted isBvSort sortExists]. bool_lia. Qed.

Lemma wellSorted_bvConst32 (w v : Z) : 0 < w -> wellSorted (bvConst32 w v) = true.
Proof. intros H. unfold bvConst32, getBvSort. cbn [wellSorted isBvSort sortExists]. bool_lia. Qed.

Lemma wellSorted_concatExpr (a b : Z3ASTHandle) (n m : Z) :
  wellSorted a = true -> wellSorted b = true ->
  Z3_get_sort a = Z3_mk_bv_sort n -> Z3_get_sort b = Z3_mk_bv_sort m ->
  wellSorted (concatExpr a b) = true.
Proof.
  intros Ha Hb Sa Sb. unfold concatExpr. cbn [wellSorted]. now rewrite Ha, Hb, Sa, Sb.
Qed.

Lemma wellSorted_bvZExtConst_loop (fuel : nat) :
  forall (width : Z) (expr : Z3ASTHandle) (k : Z),
    0 < width ->
    wellSorted expr = true -> Z3_get_sort expr = Z3_mk_bv_sort k ->
    let r := bvZExtConst_loop fuel width (bvConst64 64 0) expr in
    0 < fst r /\ wellSorted (snd r) = true /\ isBvSort (Z3_get_sort (snd r)) = true.
Proof.
  induction fuel as [|fuel IH]; intros width expr k Hw He Hs; cbn [bvZExtConst_loop].
  - cbn [fst snd]. rewrite Hs. auto.
  - destruct (Z.ltb_spec 64 width).
    + apply (IH (width - 64) _ (64 + k)); [lia | |].
      * apply (wellSorted_concatExpr _ _ 64 k); auto using sort_bvConst64.
      * apply sort_concatExpr; [apply sort_bvConst64 | exact Hs].
    + cbn [fst snd]. rewrite Hs. auto.
Qed.

Lemma wellSorted_bvZExtConst (w v : Z) : 0 < w -> wellSorted (bvZExtConst w v) = true.
Proof.
  intros Hw. unfold bvZExtConst.
  destruct (Z.leb_spec w 64); [now apply wellSorted_bvConst64|].
  pose proof (wellSorted_bvZExtConst_loop (Z.to_nat w) (w - 64) (bvConst64 64 v) 64) as HL.
  destruct (bvZExtConst_loop (Z.to_nat w) (w - 64) (bvConst64 64 0) (bvConst64 64 v))
    as [w' e'].
  cbn [fst snd] in HL. destruct HL as (H1 & H2 & H3);
    [lia | apply wellSorted_bvConst64; lia | apply sort_bvConst64 |].
  unfold concatExpr. cbn [wellSorted]. rewrite H2, H3, sort_bvConst64.
  rewrite wellSorted_bvConst64 by assumption. reflexivity.
Qed.

Lemma wellSorted_bvZero (w : Z) : 0 < w -> wellSorted (bvZero w) = true.
Proof. apply wellSorted_bvZExtConst. Qed.

Lemma wellSorted_bvOne (w : Z) : 0 < w -> wellSorted (bvOne w) = true.
Proof. apply wellSorted_bvZExtConst. Qed.

Lemma wellSorted_bvSExtConst (w v : Z) : 0 < w -> wellSorted (bvSExtConst w v) = true.
Proof.
  intros Hw. unfold bvSExtConst.
  destruct (Z.leb_spec w 64); [now apply wellSorted_bvConst64|].
  destruct (negb _); unfold concatExpr, getBvSort;
    cbn [wellSorted isBvSort sortExists Z3_get_sort]; rewrite sort_bvConst64;
    rewrite wellSorted_bvConst64 by lia; bool_lia.
Qed.

Lemma wellSorted_bvMinusOne (w : Z) : 0 < w -> wellSorted (bvMinusOne w) = true.
Proof. apply wellSorted_bvSExtConst. Qed.

Lemma wellSorted_bvExtract (x : Z3ASTHandle) (n top bottom : Z) :
  wellSorted x = true -> Z3_get_sort x = Z3_mk_bv_sort n ->
  0 <= bottom <= top -> top < n ->
  wellSorted (bvExtract x top bottom) = true.
Proof.
  intros Hx Hs H1 H2. unfold bvExtract. cbn [wellSorted]. rewrite Hx, Hs. bool_lia.
Qed.

Lemma wellSorted_bvBoolExtract (x : Z3ASTHandle) (n bit : Z) :
  wellSorted x = true -> Z3_get_sort x = Z3_mk_bv_sort n -> 0 <= bit < n ->
  wellSorted (bvBoolExtract x bit) = true.
Proof.
  intros Hx Hs Hb. unfold bvBoolExtract. cbn [wellSorted].
  rewrite (wellSorted_bvExtract x n) by (auto; lia).
  rewrite wellSorted_bvOne by lia. unfold bvExtract. cbn [Z3_get_sort].
  rewrite sort_bvOne. cbn [sortEqb andb]. bool_lia.
Qed.

Lemma wellSorted_bvRightShift (x : Z3ASTHandle) (w k : Z) :
  wellSorted x = true -> Z3_get_sort x = Z3_mk_bv_sort w -> 0 < w -> 0 <= k ->
  wellSorted (bvRightShift x k) = true.
Proof.
  intros Hx Hs Hw Hk. rewrite (bvRightShift_cases x w k Hs).
  destruct (Z.eqb_spec k 0); [exact Hx|].
  destruct (Z.leb_spec w k); [now apply wellSorted_bvZero|].
  apply (wellSorted_concatExpr _ _ k (w - 1 - k + 1)).
  - apply wellSorted_bvZero. lia.
  - apply (wellSorted_bvExtract x w); auto; lia.
  - apply sort_bvZero.
  - reflexivity.
Qed.

Lemma wellSorted_bvLeftShift (x : Z3ASTHandle) (w k : Z) :
  wellSorted x = true -> Z3_get_sort x = Z3_mk_bv_sort w -> 0 < w -> 0 <= k ->
  wellSorted (bvLeftShift x k) = true.
Proof.
  intros Hx Hs Hw Hk. rewrite (bvLeftShift_cases x w k Hs).
  destruct (Z.eqb_spec k 0); [exact Hx|].
  destruct (Z.leb_spec w k); [now apply wellSorted_bvZero|].
  apply (wellSorted_concatExpr _ _ (w - k - 1 - 0 + 1) k).
  - apply (wellSorted_bvExtract x w); auto; lia.
  - apply wellSorted_bvZero. lia.
  - reflexivity.
  - apply sort_bvZero.
Qed.

Lemma wellSorted_constructAShrByConstant (x isSigned : Z3ASTHandle) (w k : Z) :
  wellSorted x = true -> Z3_get_sort x = Z3_mk_bv_sort w -> 0 < w -> 0 <= k ->
  wellSorted isSigned = true -> Z3_get_sort isSigned = Z3_mk_bool_sort ->
  wellSorted (constructAShrByConstant x k isSigned) = true.
Proof.
  intros Hx Hs Hw Hk Hi His. rewrite (constructAShrByConstant_cases x isSigned w k Hs).
  destruct (Z.eqb_spec k 0); [exact Hx|].
  destruct (Z.leb_spec w k); [now apply wellSorted_bvZero|].
  unfold iteExpr. cbn [wellSorted]. rewrite Hi, His.
  rewrite (wellSorted_concatExpr _ _ k (w - 1 - k + 1));
    [| apply wellSorted_bvMinusOne; lia | apply (wellSorted_bvExtract x w); auto; lia
     | apply sort_bvMinusOne | reflexivity].
  rewrite (wellSorted_bvRightShift x w) by (auto; lia).
  rewrite (sort_concatExpr _ _ k (w - 1 - k + 1)) by (apply sort_bvMinusOne || reflexivity).
  rewrite (sort_bvRightShift x w) by (auto; lia).
  cbn [isBoolSort sortEqb andb]. bool_lia.
Qed.

(** The demultiplexer of the variable shifts. *)
Lemma wellSorted_iteChain (shift : Z3ASTHandle) (w : Z) (byConst : Z -> Z3ASTHandle)
    (dflt : Z3ASTHandle) (n : nat) :
  forall i,
    0 < w -> 0 <= i ->
    wellSorted shift = true -> Z3_get_sort shift = Z3_mk_bv_sort w ->
    (forall j, 0 <= j -> wellSorted (byConst j) = true /\
                         Z3_get_sort (byConst j) = Z3_mk_bv_sort w) ->
    wellSorted dflt = true -> Z3_get_sort dflt = Z3_mk_bv_sort w ->
    wellSorted (iteChain n i shift w byConst dflt) = true /\
    Z3_get_sort (iteChain n i shift w byConst dflt) = Z3_mk_bv_sort w.
Proof.
  induction n as [|n IH]; intros i Hw Hi Hsh Ssh Hby Hd Sd; cbn [iteChain]; [auto|].
  destruct (IH (i + 1)) as (H1 & H2); auto; try lia.
  destruct (Hby i Hi) as (H3 & H4).
  unfold iteExpr, eqExpr. cbn [wellSorted Z3_get_sort].
  rewrite H1, H2, H3, H4, Hsh, Ssh, sort_bvConst32.
  rewrite wellSorted_bvConst32 by lia.
  cbn [sortEqb isBoolSort andb]. rewrite Z.eqb_refl. auto.
Qed.

Lemma wellSorted_variable_shifts (x shift : Z3ASTHandle) (w : Z) :
  wellSorted x = true -> Z3_get_sort x = Z3_mk_bv_sort w ->
  wellSorted shift = true -> Z3_get_sort shift = Z3_mk_bv_sort w -> 1 < w ->
  wellSorted (bvVarLeftShift x shift) = true /\
  wellSorted (bvVarRightShift x shift) = true /\
  wellSorted (bvVarArithRightShift x shift) = true.
Proof.
  intros Hx Sx Hsh Ssh Hw.
  rewrite (bvVarLeftShift_chain x shift w w Sx Ssh),
    (bvVarRightShift_chain x shift w w Sx Ssh),
    (bvVarArithRightShift_chain x shift w w Sx Ssh).
  assert (Hz : wellSorted (bvZero w) = true) by (apply wellSorted_bvZero; lia).
  assert (Hlt : wellSorted (bvLtExpr shift (bvConst32 w w)) = true).
  { unfold bvLtExpr. cbn [wellSorted]. rewrite Hsh, Ssh, sort_bvConst32.
    rewrite wellSorted_bvConst32 by lia. cbn [isBvSort sortEqb andb]. apply Z.eqb_refl. }
  assert (Hsb : wellSorted (bvBoolExtract x (w - 1)) = true)
    by (apply (wellSorted_bvBoolExtract x w); auto; lia).
  repeat split.
  - destruct (wellSorted_iteChain shift w (bvLeftShift x) (bvZero w) (Z.to_nat w) 0)
      as (H1 & H2); auto using sort_bvZero; try lia.
    { intros j Hj. split; [apply (wellSorted_bvLeftShift x w) | apply sort_bvLeftShift];
        auto; lia. }
    unfold iteExpr. cbn [wellSorted]. rewrite Hlt, H1, H2, Hz, sort_bvZero.
    cbn [bvLtExpr Z3_get_sort isBoolSort sortEqb andb]. apply Z.eqb_refl.
  - destruct (wellSorted_iteChain shift w (bvRightShift x) (bvZero w) (Z.to_nat w) 0)
      as (H1 & H2); auto using sort_bvZero; try lia.
    { intros j Hj. split; [apply (wellSorted_bvRightShift x w) | apply sort_bvRightShift];
        auto; lia. }
    unfold iteExpr. cbn [wellSorted]. rewrite Hlt, H1, H2, Hz, sort_bvZero.
    cbn [bvLtExpr Z3_get_sort isBoolSort sortEqb andb]. apply Z.eqb_refl.
  - cbv zeta.
    destruct (wellSorted_iteChain shift w
                (fun i => constructAShrByConstant x i (bvBoolExtract x (w - 1)))
                (constructAShrByConstant x (w - 1) (bvBoolExtract x (w - 1)))
                (Z.to_nat (w - 1)) 0) as (H1 & H2); auto; try lia.
    { intros j Hj. split; [apply (wellSorted_constructAShrByConstant x _ w)
                          | apply sort_constructAShrByConstant]; auto; lia. }
    { apply (wellSorted_constructAShrByConstant x _ w); auto; lia. }
    { apply sort_constructAShrByConstant; auto; lia. }
    unfold iteExpr. cbn [wellSorted]. rewrite Hlt, H1, H2, Hz, sort_bvZero.
    cbn [bvLtExpr Z3_get_sort isBoolSort sortEqb andb]. apply Z.eqb_refl.
Qed.

Lemma wellSorted_Constant_loop (fuel : nat) :
  forall (Tmp : Z * Z) (Res : Z3ASTHandle),
    wellSorted Res = true -> isBvSort (Z3_get_sort Res) = true ->
    wellSorted (Constant_loop fuel Tmp Res) = true /\
    isBvSort (Z3_get_sort (Constant_loop fuel Tmp Res)) = true.
Proof.
  induction fuel as [|fuel IH]; intros Tmp Res HR SR; cbn [Constant_loop]; [auto|].
  destruct (Z.ltb_spec 64 (fst Tmp)); [|auto].
  apply IH.
  - unfold concatExpr, CE_Extract. cbn [wellSorted fst snd]. rewrite HR, SR, sort_bvConst64.
    rewrite wellSorted_bvConst64 by lia. reflexivity.
  - unfold concatExpr. cbn [Z3_get_sort]. rewrite sort_bvConst64.
    destruct (Z3_get_sort Res); try discriminate SR. reflexivity.
Qed.

Lemma wellSorted_Constant (width value : Z) :
  0 < width -> wellSorted (fst (constructActual_Constant width value)) = true.
Proof.
  intros Hw. unfold constructActual_Constant.
  destruct (Z.eqb_spec width 1); [cbn [fst]; now destruct (isTrue width value)|].
  destruct (Z.leb_spec width 32); [cbn [fst]; now apply wellSorted_bvConst32|].
  destruct (Z.leb_spec width 64); [cbn [fst]; now apply wellSorted_bvConst64|].
  cbn [fst]. apply wellSorted_Constant_loop.
  - apply wellSorted_bvConst64. lia.
  - now rewrite sort_bvConst64.
Qed.

(** The chunks of a wide constant add up to its width, whatever its
    value. *)
Lemma sort_Constant_loop (fuel : nat) :
  forall (W V : Z) (Res : Z3ASTHandle) (k : Z),
    W <= 64 * Z.of_nat fuel + 64 ->
    Z3_get_sort Res = Z3_mk_bv_sort k ->
    Z3_get_sort (Constant_loop fuel (W, V) Res) = Z3_mk_bv_sort (k + Z.max 0 (W - 64)).
Proof.
  induction fuel as [|fuel IH]; intros W V Res k Hf HR; cbn [Constant_loop fst snd].
  - rewrite HR. f_equal. lia.
  - destruct (Z.ltb_spec 64 W).
    + unfold CE_Extract at 1 2. cbn [fst snd].
      rewrite (IH _ _ _ (Z.min 64 (W - 64) + k)); [f_equal; lia | lia |].
      apply sort_concatExpr; [apply sort_bvConst64 | exact HR].
    + rewrite HR. f_equal. lia.
Qed.

Lemma sort_Constant (width value : Z) :
  0 < width ->
  Z3_get_sort (fst (constructActual_Constant width value)) = intSort width.
Proof.
  intros Hw. unfold constructActual_Constant, intSort.
  destruct (Z.eqb_spec width 1); [cbn [fst]; now destruct (isTrue width value)|].
  destruct (Z.leb_spec width 32); [apply sort_bvConst32|].
  destruct (Z.leb_spec width 64); [apply sort_bvConst64|].
  cbn [fst]. rewrite (sort_Constant_loop _ _ _ _ 64); [f_equal; lia | lia |].
  apply sort_bvConst64.
Qed.

Lemma wellSorted_rm (rm : roundingMode) : wellSorted (getRoundingModeAST rm) = true.
Proof. now destruct rm. Qed.

Ltac ws_unfold :=
  unfold packF80, arrF80, iteExpr, eqExpr, notExpr, bvNotExpr, andExpr, bvAndExpr, orExpr,
    orExpr3, bvOrExpr, bvXorExpr, bvRedorExpr, extractExpr, isNanExpr, isInfinityExpr,
    isFPZeroExpr, isSubnormalExpr, isFPNegativeExpr, fpNan, fpZero, writeExpr, readExpr,
    bvLtExpr, bvLeExpr, sbvLtExpr, sbvLeExpr, concatExpr, concatExpr3, concatExpr4,
    bvExtract, wrongHiddenBit2,
    Z3_mk_fpa_nan, Z3_mk_fpa_zero, Z3_mk_fpa_numeral_float, Z3_mk_fpa_numeral_double,
    Z3_mk_fpa_fp, Z3_mk_fpa_is_nan, Z3_mk_fpa_is_infinite, Z3_mk_fpa_is_zero,
    Z3_mk_fpa_is_subnormal, Z3_mk_fpa_is_negative, Z3_mk_fpa_abs, Z3_mk_fpa_sqrt,
    Z3_mk_fpa_round_to_integral, Z3_mk_fpa_add, Z3_mk_fpa_sub, Z3_mk_fpa_mul,
    Z3_mk_fpa_div, Z3_mk_fpa_rem, Z3_mk_fpa_min, Z3_mk_fpa_max, Z3_mk_fpa_eq,
    Z3_mk_fpa_lt, Z3_mk_fpa_leq, Z3_mk_fpa_gt, Z3_mk_fpa_geq, Z3_mk_fpa_to_fp_bv,
    Z3_mk_fpa_to_fp_float, Z3_mk_fpa_to_fp_signed, Z3_mk_fpa_to_fp_unsigned,
    Z3_mk_fpa_to_ubv, Z3_mk_fpa_to_sbv, Z3_mk_fpa_to_ieee_bv,
    sortF80Array, sortF80, getArraySort, getBvSort,
    Z3_mk_fpa_sort_16, Z3_mk_fpa_sort_32, Z3_mk_fpa_sort_64, Z3_mk_fpa_sort_128,
    sizeof_int_bits, Expr.Int32, Expr.Int64, Expr.Fl32, Expr.Fl64, Expr.Fl80 in *.

Ltac ws_rewrite :=
  repeat match goal with
  | H : wellSorted ?a = true |- context [wellSorted ?a] => rewrite H
  | H : Z3_get_sort ?a = _ |- context [Z3_get_sort ?a] => rewrite H
  end;
  rewrite ?sort_bvZero, ?sort_bvOne, ?sort_bvMinusOne, ?sort_bvSExtConst,
    ?sort_bvZExtConst, ?sort_bvConst32, ?sort_bvConst64, ?sort_rm, ?wellSorted_rm,
    ?sortEqb_refl;
  rewrite ?wellSorted_bvZero, ?wellSorted_bvOne, ?wellSorted_bvMinusOne,
    ?wellSorted_bvSExtConst, ?wellSorted_bvConst32, ?wellSorted_bvConst64 by lia.

Ltac ws_cbn :=
  cbn [wellSorted forallb map Z3_get_sort fpaSorted isBoolSort isBvSort isFpSort isRmSort
       sortEqb sortExists andb orb negb fst snd Z.eqb Z.ltb Z.leb Z.compare Pos.eqb Pos.compare
       Pos.compare_cont Z.add Z.sub Z.opp Pos.add Pos.succ Pos.sub Z.pos_sub Pos.pred_double
       Z.succ_double Z.pred_double Z.double Pos.add_carry CompOpp].

Ltac ws_solve :=
  ws_unfold; repeat (progress (ws_cbn; ws_rewrite)); try bool_lia.

Lemma wellSorted_packF80 (number sentinel : Z3ASTHandle) :
  wellSorted number = true -> Z3_get_sort number = sortF80 ->
  wellSorted sentinel = true -> Z3_get_sort sentinel = sortF80 ->
  wellSorted (packF80 number sentinel) = true.
Proof. intros. ws_solve. Qed.

Lemma wellSorted_readF80 (src : Z3ASTHandle) :
  wellSorted src = true -> Z3_get_sort src = sortF80Array ->
  (wellSorted (readExpr src (bvZero 1)) = true /\
   Z3_get_sort (readExpr src (bvZero 1)) = sortF80) /\
  (wellSorted (readExpr src (bvOne 1)) = true /\
   Z3_get_sort (readExpr src (bvOne 1)) = sortF80).
Proof. intros. repeat split; ws_solve. Qed.

(** *** The cases of [constructActual] *)

Ltac ws_float :=
  ws_unfold; unfold floatSort, castSort, isFloatWidth, isFloatWidth2 in *; ws_unfold; ws_cbn.

Lemma okSorted_FConstant (w raw : Z) : okSorted (constructActual_FConstant w raw).
Proof.
  unfold constructActual_FConstant, okSorted.
  destruct (w =? Expr.Fl32); [reflexivity|].
  destruct (w =? Expr.Fl64); [reflexivity|].
  destruct (w =? Expr.Fl80); [|exact I].
  destruct (Bool.eqb _ _); apply wellSorted_packF80; reflexivity.
Qed.

Lemma wellSorted_Extract (src : Z3ASTHandle) (n offset w : Z) :
  wellSorted src = true -> Z3_get_sort src = Z3_mk_bv_sort n ->
  0 <= offset -> 0 < w -> offset + w <= n ->
  wellSorted (fst (constructActual_Extract src offset w)) = true.
Proof.
  intros Hs Ss Ho Hw Hn. unfold constructActual_Extract.
  destruct (Z.eqb_spec w 1); cbn [fst].
  - apply (wellSorted_bvBoolExtract src n); auto; lia.
  - apply (wellSorted_bvExtract src n); auto; lia.
Qed.

Lemma wellSorted_ZExt (src : Z3ASTHandle) (sw w : Z) :
  wellSorted src = true -> Z3_get_sort src = intSort sw -> 0 < sw < w ->
  wellSorted (fst (constructActual_ZExt src sw w)) = true.
Proof.
  intros Hs Ss Hw. unfold constructActual_ZExt, intSort in *.
  destruct (Z.eqb_spec sw 1); cbn [fst]; ws_solve.
Qed.

Lemma okSorted_SExt (src : Z3ASTHandle) (sw w : Z) :
  wellSorted src = true -> Z3_get_sort src = intSort sw -> 0 < sw < w ->
  okSorted (constructActual_SExt src sw w).
Proof.
  intros Hs Ss Hw. unfold constructActual_SExt, bvSignExtend, intSort, okSorted in *.
  destruct (Z.eqb_spec sw 1); [ws_solve|].
  rewrite Ss. cbn [Z3_get_bv_sort_size].
  destruct (Z.leb_spec sw w); [|exact I]. ws_solve.
Qed.

Lemma okSorted_checked (t : Z3_ast) (f : Z3_ast -> Result ResW) :
  (wellSorted t = true -> okSorted (f t)) ->
  forallb wellSorted (match t with Z3_mk_fpa _ args => args | _ => [] end) = true ->
  match t with Z3_mk_fpa _ _ => True | _ => False end ->
  okSorted (andThen (Z3_checked t) f).
Proof.
  intros Hf Hargs Ht. destruct t; try contradiction. unfold Z3_checked.
  destruct (fpaSorted _ _) eqn:E; [|exact I]. cbn [andThen]. apply Hf.
  cbn [wellSorted]. now rewrite E, Hargs.
Qed.

Ltac ok_checked :=
  repeat (apply okSorted_checked;
          [intros ?Hconv | cbn [forallb]; ws_rewrite; rewrite ?wellSorted_rm; try reflexivity
          | exact I]).

Lemma okSorted_FExt (src : Z3ASTHandle) (sw w : Z) (rm : roundingMode) :
  wellSorted src = true -> Z3_get_sort src = floatSort sw ->
  isCastWidth sw = true -> isCastWidth w = true ->
  (sw =? 80) && (w =? 80) = false ->
  okSorted (constructActual_FExt src sw w rm).
Proof.
  intros Hs Ss Hsw Hw Hne. unfold constructActual_FExt.
  cast_width Hsw; cast_width Hw; try discriminate Hne;
    cbn [Z.eqb Pos.eqb Expr.Fl32 Expr.Fl64 Expr.Fl80 castSort];
    unfold Z3_mk_fpa_to_fp_float; ok_checked; unfold okSorted; ws_float; ws_solve.
Qed.

Lemma okSorted_FToU (src : Z3ASTHandle) (sw w : Z) (rm : roundingMode) :
  wellSorted src = true -> Z3_get_sort src = floatSort sw ->
  isCastWidth sw = true -> 0 < w ->
  okSorted (constructActual_FToU src sw w rm).
Proof.
  intros Hs Ss Hsw Hw. unfold constructActual_FToU.
  cast_width Hsw; cbn [Z.eqb Pos.eqb Expr.Fl32 Expr.Fl64 Expr.Fl80];
    unfold Z3_mk_fpa_to_ubv; ok_checked; unfold okSorted; ws_float; ws_solve.
Qed.

Lemma okSorted_FToS (src : Z3ASTHandle) (sw w : Z) (rm : roundingMode) :
  wellSorted src = true -> Z3_get_sort src = floatSort sw ->
  isCastWidth sw = true -> sw <> 80 -> 0 < w ->
  okSorted (constructActual_FToS src sw w rm).
Proof.
  intros Hs Ss Hsw Hne Hw. unfold constructActual_FToS.
  cast_width Hsw; try contradiction; cbn [Z.eqb Pos.eqb Expr.Fl32 Expr.Fl64 Expr.Fl80];
    unfold Z3_mk_fpa_to_sbv; ok_checked; unfold okSorted; ws_float; ws_solve.
Qed.

Lemma okSorted_UToF_SToF (src : Z3ASTHandle) (sw w : Z) (rm : roundingMode) :
  wellSorted src = true -> Z3_get_sort src = Z3_mk_bv_sort sw ->
  isCastWidth w = true ->
  okSorted (constructActual_UToF src w rm) /\ okSorted (constructActual_SToF src w rm).
Proof.
  intros Hs Ss Hw. unfold constructActual_UToF, constructActual_SToF.
  cast_width Hw; cbn [Z.eqb Pos.eqb Expr.Fl32 Expr.Fl64 Expr.Fl80 castSort];
    unfold Z3_mk_fpa_to_fp_unsigned, Z3_mk_fpa_to_fp_signed;
    split; ok_checked; unfold okSorted; ws_float; ws_solve.
Qed.

Lemma okSorted_ExplicitFloat (src : Z3ASTHandle) (w : Z) :
  wellSorted src = true -> Z3_get_sort src = Z3_mk_bv_sort w ->
  isCastWidth w = true ->
  okSorted (constructActual_ExplicitFloat src w).
Proof.
  intros Hs Ss Hw. unfold constructActual_ExplicitFloat.
  cast_width Hw; cbn [Z.eqb Pos.eqb Expr.Fl32 Expr.Fl64 Expr.Fl80 castSort];
    unfold Z3_mk_fpa_to_fp_bv; ok_checked; unfold okSorted; ws_float; ws_solve.
Qed.

Lemma okSorted_ExplicitInt (src : Z3ASTHandle) (w : Z) :
  wellSorted src = true -> Z3_get_sort src = floatSort w ->
  isCastWidth w = true -> w <> 80 ->
  okSorted (constructActual_ExplicitInt src w).
Proof.
  intros Hs Ss Hw Hne. unfold constructActual_ExplicitInt.
  cast_width Hw; try contradiction; cbn [Z.eqb Pos.eqb Expr.Fl32 Expr.Fl64 Expr.Fl80];
    unfold Z3_mk_fpa_to_ieee_bv; ok_checked; unfold okSorted; ws_float; ws_solve.
Qed.

Lemma okSorted_FUnary (kind : Expr.FUnaryKind) (expr : Z3ASTHandle) (w : Z) :
  wellSorted expr = true -> Z3_get_sort expr = floatSort w -> isFloatWidth w = true ->
  okSorted (match kind with
            | Expr.FAbs => constructActual_FAbs expr w
            | Expr.FpClassify => constructActual_FpClassify expr w
            | Expr.FIsFinite => constructActual_FIsFinite expr w
            | Expr.FIsNan => constructActual_FIsNan expr w
            | Expr.FIsInf => constructActual_FIsInf expr w
            end).
Proof.
  intros Hs Ss Hw. unfold okSorted.
  float_width Hw; destruct kind;
    unfold constructActual_FAbs, constructActual_FpClassify, constructActual_FIsFinite,
      constructActual_FIsNan, constructActual_FIsInf;
    ws_float; ws_solve.
Qed.

Lemma okSorted_FUnaryRound (kind : Expr.FUnaryRoundKind) (expr : Z3ASTHandle) (w : Z)
    (rm : roundingMode) :
  wellSorted expr = true -> Z3_get_sort expr = floatSort w -> isFloatWidth w = true ->
  okSorted (match kind with
            | Expr.FSqrt => constructActual_FSqrt expr w rm
            | Expr.FNearbyInt => constructActual_FNearbyInt expr w rm
            end).
Proof.
  intros Hs Ss Hw. unfold okSorted.
  float_width Hw; destruct kind;
    unfold constructActual_FSqrt, constructActual_FNearbyInt, fpUnaryRound;
    ws_float; ws_solve.
Qed.

Lemma okSorted_bvArith (op : Z3_ast -> Z3_ast -> Z3_ast) (l r : Z3ASTHandle) (w : Z) :
  (forall a b, wellSorted (op a b)
               = wellSorted a && wellSorted b && isBvSort (Z3_get_sort a)
                 && sortEqb (Z3_get_sort a) (Z3_get_sort b)) ->
  wellSorted l = true -> wellSorted r = true ->
  Z3_get_sort l = Z3_mk_bv_sort w -> Z3_get_sort r = Z3_mk_bv_sort w ->
  okSorted (bvArith op l r w) /\ wellSorted (op l r) = true.
Proof.
  intros Hop Hl Hr Sl Sr.
  assert (H : wellSorted (op l r) = true).
  { rewrite Hop, Hl, Hr, Sl, Sr. cbn [isBvSort sortEqb andb]. apply Z.eqb_refl. }
  split; [|exact H]. unfold bvArith, okSorted. now destruct (_ =? _).
Qed.

Lemma wellSorted_Bitwise (l r : Z3ASTHandle) (w : Z) :
  wellSorted l = true -> wellSorted r = true ->
  Z3_get_sort l = intSort w -> Z3_get_sort r = intSort w ->
  wellSorted (fst (constructActual_And l r w)) = true /\
  wellSorted (fst (constructActual_Or l r w)) = true /\
  wellSorted (fst (constructActual_Xor l r w)) = true /\
  wellSorted (fst (constructActual_Not l w)) = true.
Proof.
  intros Hl Hr Sl Sr.
  unfold constructActual_And, constructActual_Or, constructActual_Xor,
    constructActual_Not, intSort in *.
  destruct (Z.eqb_spec w 1); cbn [fst]; repeat split; ws_solve.
Qed.

Lemma wellSorted_URem_pow2 (left : Z3ASTHandle) (w bits : Z) :
  wellSorted left = true -> Z3_get_sort left = Z3_mk_bv_sort w ->
  0 <= bits < w ->
  wellSorted (fst (constructActual_URem_pow2 left w bits)) = true.
Proof.
  intros Hl Sl Hb. unfold constructActual_URem_pow2.
  destruct (Z.eqb_spec bits 0); cbn [fst]; ws_solve.
Qed.

Lemma okSorted_FBinaryRound (kind : Expr.FBinaryRoundKind) (l r : Z3ASTHandle) (w : Z)
    (rm : roundingMode) :
  wellSorted l = true -> wellSorted r = true ->
  Z3_get_sort l = floatSort w -> Z3_get_sort r = floatSort w ->
  isFloatWidth2 w = true ->
  okSorted (match kind with
            | Expr.FAdd => constructActual_FAdd l r w rm
            | Expr.FSub => constructActual_FSub l r w rm
            | Expr.FMul => constructActual_FMul l r w rm
            | Expr.FDiv => constructActual_FDiv l r w rm
            | Expr.FRem => constructActual_FRem l r w rm
            end).
Proof.
  intros Hl Hr Sl Sr Hw. unfold okSorted.
  float_width Hw; destruct kind;
    unfold constructActual_FAdd, constructActual_FSub, constructActual_FMul,
      constructActual_FDiv, constructActual_FRem, fpArith;
    ws_float; ws_solve.
Qed.

Lemma okSorted_FBinary (kind : Expr.FBinaryKind) (l r : Z3ASTHandle) (w : Z) :
  wellSorted l = true -> wellSorted r = true ->
  Z3_get_sort l = floatSort w -> Z3_get_sort r = floatSort w ->
  isFloatWidth2 w = true ->
  okSorted (match kind with
            | Expr.FMin => constructActual_FMin l r w
            | Expr.FMax => constructActual_FMax l r w
            end).
Proof.
  intros Hl Hr Sl Sr Hw. unfold okSorted.
  float_width Hw; destruct kind;
    unfold constructActual_FMin, constructActual_FMax, fpMinMax;
    ws_float; ws_solve.
Qed.

Lemma okSorted_Eq (ee_left : Expr) (l r : Z3ASTHandle) (w : Z) :
  wellSorted l = true -> wellSorted r = true ->
  Z3_get_sort l = intSort w -> Z3_get_sort r = intSort w ->
  okSorted (constructActual_Eq ee_left l r w).
Proof.
  intros Hl Hr Sl Sr. unfold constructActual_Eq, iffExpr, okSorted, intSort in *.
  destruct (Z.eqb_spec w 1).
  - destruct ee_left; try (rewrite Sl, Sr; cbn; ws_solve).
    destruct (isTrue _ _); ws_solve.
  - ws_solve.
Qed.

Lemma okSorted_bvCompare (msg : string) (op : Z3_ast -> Z3_ast -> Z3_ast)
    (l r : Z3ASTHandle) (w : Z) :
  (forall a b, wellSorted (op a b)
               = wellSorted a && wellSorted b && isBvSort (Z3_get_sort a)
                 && sortEqb (Z3_get_sort a) (Z3_get_sort b)) ->
  wellSorted l = true -> wellSorted r = true ->
  Z3_get_sort l = Z3_mk_bv_sort w -> Z3_get_sort r = Z3_mk_bv_sort w ->
  okSorted (bvCompare msg op l r w).
Proof.
  intros Hop Hl Hr Sl Sr. unfold bvCompare, okSorted.
  destruct (w =? 1); [exact I|].
  rewrite Hop, Hl, Hr, Sl, Sr. cbn [isBvSort sortEqb andb]. apply Z.eqb_refl.
Qed.

Lemma okSorted_FCmp (kind : Expr.FCmpKind) (l r : Z3ASTHandle) (w : Z) :
  wellSorted l = true -> wellSorted r = true ->
  Z3_get_sort l = floatSort w -> Z3_get_sort r = floatSort w ->
  isFloatWidth2 w = true ->
  okSorted (match kind with
            | Expr.FOrd => constructActual_FOrd l r w
            | Expr.FUno => constructActual_FUno l r w
            | Expr.FUeq => constructActual_FUeq l r w
            | Expr.FOeq => constructActual_FOeq l r w
            | Expr.FUgt => constructActual_FUgt l r w
            | Expr.FOgt => constructActual_FOgt l r w
            | Expr.FUge => constructActual_FUge l r w
            | Expr.FOge => constructActual_FOge l r w
            | Expr.FUlt => constructActual_FUlt l r w
            | Expr.FOlt => constructActual_FOlt l r w
            | Expr.FUle => constructActual_FUle l r w
            | Expr.FOle => constructActual_FOle l r w
            | Expr.FUne => constructActual_FUne l r w
            | Expr.FOne => constructActual_FOne l r w
            end).
Proof.
  intros Hl Hr Sl Sr Hw. unfold okSorted.
  float_width Hw; destruct kind;
    unfold constructActual_FOrd, constructActual_FUno, constructActual_FUeq,
      constructActual_FOeq, constructActual_FUgt, constructActual_FOgt,
      constructActual_FUge, constructActual_FOge, constructActual_FUlt,
      constructActual_FOlt, constructActual_FUle, constructActual_FOle,
      constructActual_FUne, constructActual_FOne, fcmpUnordered, fcmpOrdered;
    ws_float; ws_solve.
Qed.

(** *** The caches *)

Lemma ret_inv (r : ResW) (s : Z3Builder) (a : Z3ASTHandle) (w : Z) (s' : Z3Builder) :
  ret r s = Ok ((a, w), s') -> a = fst r /\ s' = s.
Proof. unfold ret. intros H. injection H as H <-. now rewrite H. Qed.

Lemma lift_inv (r : Result ResW) (s : Z3Builder) (a : Z3ASTHandle) (w : Z)
    (s' : Z3Builder) :
  lift r s = Ok ((a, w), s') -> r = Ok (a, w) /\ s' = s.
Proof. unfold lift. destruct r as [x|]; [|discriminate]. intros H. now injection H as -> <-. Qed.

Lemma okSorted_Ok (r : Result ResW) (a : Z3ASTHandle) (w : Z) :
  okSorted r -> r = Ok (a, w) -> wellSorted a = true.
Proof. intros H ->. exact H. Qed.

Lemma cachesWellSorted_newBuilder : cachesWellSorted newBuilder.
Proof. repeat split; intros; discriminate. Qed.

Lemma cachesWellSorted_insertConstructed (s s' : Z3Builder) (e : Expr)
    (a : Z3ASTHandle) (w : Z) (u : unit) :
  cachesWellSorted s -> wellSorted a = true ->
  insertConstructed e a w s = Ok (u, s') -> cachesWellSorted s'.
Proof.
  intros (C & A & U) Ha H. unfold insertConstructed in H. injection H as _ <-.
  split; [|split; assumption]. cbn [constructed lookupExpr]. intros k b v.
  destruct (Expr_eq_dec k e); [|apply C]. intros E. now injection E as <- <-.
Qed.

Lemma cachesWellSorted_hashArrayExpr (s s' : Z3Builder) (root : Array)
    (a : Z3ASTHandle) (u : unit) :
  cachesWellSorted s -> wellSorted a = true ->
  hashArrayExpr root a s = Ok (u, s') -> cachesWellSorted s'.
Proof.
  intros (C & A & U) Ha H. unfold hashArrayExpr in H. injection H as _ <-.
  split; [assumption|]. split; [|assumption]. cbn [_array_hash lookupArrayExpr].
  intros k b. destruct (Array_eq_dec k root); [|apply A]. intros E. now injection E as <-.
Qed.

Lemma cachesWellSorted_hashUpdateNodeExpr (s s' : Z3Builder) (root : Array)
    (un : UpdateNode) (a : Z3ASTHandle) (u : unit) :
  cachesWellSorted s -> wellSorted a = true ->
  hashUpdateNodeExpr root un a s = Ok (u, s') -> cachesWellSorted s'.
Proof.
  intros (C & A & U) Ha H. unfold hashUpdateNodeExpr in H. injection H as _ <-.
  split; [assumption|]. split; [assumption|].
  cbn [_update_node_hash lookupUpdateNodeExpr]. intros k kn b.
  destruct (Array_eq_dec k root); [|apply U].
  destruct (UpdateNode_eq_dec kn un); [|apply U]. intros E. now injection E as <-.
Qed.

(** *** Arrays *)
Lemma wellSorted_getInitialArray_loop (root : Array) (n : nat) :
  forall (i : Z) (arr a : Z3ASTHandle),
    1 < getDomain root -> 1 < getRange root ->
    forallb (fun c => fst c =? getRange root) (constantValues root) = true ->
    wellSorted arr = true -> Z3_get_sort arr = arraySortOf root ->
    getInitialArray_loop n i root arr = Ok a ->
    wellSorted a = true.
Proof.
  induction n as [|n IH]; intros i arr a Hd Hr Hv Harr Sarr Hrun;
    cbn [getInitialArray_loop] in Hrun.
  - now injection Hrun as <-.
  - destruct (nth_error (constantValues root) (Z.to_nat i)) as [[cw cv]|] eqn:E;
      [|discriminate Hrun].
    pose proof Hv as Hall.
    rewrite forallb_forall in Hv. specialize (Hv _ (nth_error_In _ _ E)).
    cbn [fst] in Hv. apply Z.eqb_eq in Hv. subst cw.
    apply (IH (i + 1)) in Hrun; auto.
    unfold writeExpr. cbn [wellSorted Z3_get_sort]. rewrite Harr, Sarr.
    rewrite !wellSorted_Constant by lia.
    rewrite !sort_Constant by lia. unfold arraySortOf, getArraySort, getBvSort.
    rewrite !intSort_bv by lia. cbn [sortEqb andb]. now rewrite !Z.eqb_refl.
Qed.

Lemma wellSorted_getInitialArray (root : Array) (s s' : Z3Builder) (a : Z3ASTHandle) :
  wellFormedArray root = true -> sortSafeArray root = true ->
  cachesWellSorted s ->
  getInitialArray root s = Ok (a, s') ->
  wellSorted a = true /\ cachesWellSorted s'.
Proof.
  intros Hwf Hsafe Hc Hrun. unfold getInitialArray in Hrun.
  destruct (lookupArrayExpr root (_array_hash s)) as [z|] eqn:L.
  - injection Hrun as <- <-. split; [|exact Hc]. exact (proj1 (proj2 Hc) _ _ L).
  - unfold wellFormedArray in Hwf. unfold sortSafeArray in Hsafe.
    rewrite !andb_true_iff in Hwf. rewrite !andb_true_iff in Hsafe.
    destruct Hwf as (Hr & _).
    destruct Hsafe as (Hd & Hv).
    apply Z.ltb_lt in Hr, Hd.
    match type of Hrun with
    | match ?f with _ => _ end = _ => destruct f as [arr|] eqn:F; [|discriminate Hrun]
    end.
    unfold bind, ret in Hrun.
    destruct (hashArrayExpr root arr s) as [[u s1]|] eqn:Eh; [|discriminate Hrun].
    injection Hrun as <- <-.
    assert (Harr : wellSorted arr = true).
    { assert (Hb : forall nm, wellSorted (buildArray nm (getDomain root) (getRange root))
                              = true).
      { intros nm. unfold buildArray, getArraySort, getBvSort.
        cbn [wellSorted sortExists]. bool_lia. }
      destruct (isConstantArray root).
      - eapply (wellSorted_getInitialArray_loop root _ 0); try exact F; auto.
      - injection F as <-. apply Hb. }
    split; [exact Harr|]. eapply cachesWellSorted_hashArrayExpr; eassumption.
Qed.

(** *** The translation *)

(** What a call of [construct] on an operand gives the case that makes it:
    the width and sort of the operand (by [construct_sound_mut]) and a
    well-sorted term. *)
Lemma construct_child (e : Expr) :
  wellFormed e = true -> actualSorted e ->
  forall s a w s', cachesSound s -> cachesWellSorted s ->
    construct e s = Ok ((a, w), s') ->
    (w = getWidth e /\ Z3_get_sort a = sortFor e /\ cachesSound s') /\
    wellSorted a = true /\ cachesWellSorted s'.
Proof.
  intros Hwf IH s a w s' Hs Hc Hrun. split.
  - destruct (construct_ok e (proj1 construct_sound_mut e Hwf) s Hs)
      as (a0 & s0 & H0 & S0 & C0).
    rewrite Hrun in H0. injection H0 as -> -> ->. auto.
  - unfold construct, construct_with in Hrun.
    destruct (negb (UseConstructHashZ3 s) || isa_ConstantExpr e); 
      [exact (IH s a w s' Hs Hc Hrun)|].
    destruct (lookupExpr e (constructed s)) as [[res width]|] eqn:L.
    + injection Hrun as <- <- <-. split; [|exact Hc]. exact (proj1 Hc _ _ _ L).
    + unfold bind in Hrun.
      destruct (constructActual e s) as [[[res wd] s1]|] eqn:E; [|discriminate Hrun].
      destruct (IH s res wd s1 Hs Hc E) as (Hres & Hc1).
      unfold ret in Hrun.
      destruct (insertConstructed e res wd s1) as [[u s2]|] eqn:Ei; [|discriminate Hrun].
      injection Hrun as <- <- <-. split; [exact Hres|].
      eapply cachesWellSorted_insertConstructed; eassumption.
Qed.

Ltac norm_sort S :=
  unfold sortFor in S;
  repeat match goal with H : isFloat _ = _ |- _ => rewrite H in S end;
  cbn [sortOf] in S.

Ltac sorted_child Hrun Hwf IH :=
  match type of Hrun with
  | context [construct ?c ?s] =>
      match goal with
      | Hs : cachesSound s, Hc : cachesWellSorted s |- _ =>
          let a := fresh "a" in let w := fresh "w" in let s1 := fresh "s" in
          let E := fresh "E" in
          destruct (construct c s) as [[[a w] s1]|] eqn:E; [|discriminate Hrun];
          let Hw := fresh "Hw" in let S := fresh "S" in let Hs1 := fresh "Hs" in
          let W := fresh "W" in let Hc1 := fresh "Hc" in
          destruct (construct_child c Hwf IH s a w s1 Hs Hc E)
            as ((Hw & S & Hs1) & W & Hc1);
          subst w; norm_sort S; clear E
      end
  end.

Ltac step_in Hrun :=
  cbn [constructActual] in Hrun; rewrite ?construct_fold in Hrun; unfold bind in Hrun.

Ltac fin_ret Hrun :=
  apply ret_inv in Hrun; destruct Hrun as [-> ->]; split; [|assumption].

Ltac fin_lift Hrun :=
  apply lift_inv in Hrun; destruct Hrun as [Hrun ->]; split; [|assumption];
  refine (okSorted_Ok _ _ _ _ Hrun).

Ltac safe_conj H := cbn [sortSafe sortSafeUpdates sortSafeKids] in H;
  rewrite ?andb_true_iff in H.

Ltac int_width H :=
  unfold intOfWidth in H; apply andb_true_iff in H;
  let Hf := fresh "Hint" in let Hw := fresh "Hwd" in
  destruct H as [Hf Hw]; apply negb_true_iff in Hf; apply Z.eqb_eq in Hw.

Lemma construct_sorted_mut :
  (forall e, wellFormed e = true -> sortSafe e = true -> actualSorted e) /\
  (forall un root, wellFormedUpdates un = true -> wellFormedArray root = true ->
     sortSafeArray root = true -> sortSafeUpdates root un = true ->
     forall s a s', cachesSound s -> cachesWellSorted s ->
       getArrayForUpdate root un s = Ok (a, s') ->
       wellSorted a = true /\ cachesWellSorted s') /\
  (forall kids, wellFormedKids kids = true -> sortSafeKids kids = true ->
     forall s a s', cachesSound s -> cachesWellSorted s ->
       constructKids kids s = Ok (a, s') ->
       wellSorted a = true /\ cachesWellSorted s').
Proof.
  apply Expr_mutind.
  - (* Constant *)
    intros width value Hwf _ s a w s' Hs Hc Hrun. wf_split Hwf.
    apply Z.ltb_lt in Hwf. step_in Hrun. fin_ret Hrun.
    now apply wellSorted_Constant.
  - (* FConstant *)
    intros width raw Hwf _ s a w s' Hs Hc Hrun. step_in Hrun. fin_lift Hrun.
    apply okSorted_FConstant.
  - (* NotOptimized *)
    intros src IH Hwf Hsafe s a w s' Hs Hc Hrun. cbn [wellFormed sortSafe] in *.
    step_in Hrun. destruct (construct_child src Hwf (IH Hwf Hsafe) s a w s' Hs Hc Hrun)
      as (_ & H). exact H.
  - (* Read *)
    intros root head IHh index IHi Hwf Hsafe s a w s' Hs Hc Hrun.
    wf_conj Hwf. destruct Hwf as ((Ha & Hu) & Hi).
    safe_conj Hsafe. destruct Hsafe as (((Hsa & Hsu) & Hsi) & Hiw). int_width Hiw.
    step_in Hrun.
    destruct (getArrayForUpdate root head s) as [[arr s1]|] eqn:E1; [|discriminate Hrun].
    destruct (IHh root Hu Ha Hsa Hsu s arr s1 Hs Hc E1) as (Warr & Hc1).
    destruct (proj1 (proj2 construct_sound_mut) head Hu root Ha s Hs)
      as (arr0 & s0 & E0 & Sarr & Hs1).
    rewrite E1 in E0. injection E0 as <- <-.
    sorted_child Hrun Hi (IHi Hi Hsi).
    fin_ret Hrun. cbn [fst]. unfold readExpr. cbn [wellSorted].
    rewrite Warr, W, Sarr, S, Hwd. unfold arraySortOf, getArraySort, getBvSort.
    unfold sortSafeArray in Hsa. rewrite !andb_true_iff in Hsa.
    destruct Hsa as (Hd & _). apply Z.ltb_lt in Hd.
    rewrite intSort_bv by lia. cbn [sortEqb andb]. apply Z.eqb_refl.
  - (* Select *)
    intros c IHc t IHt f IHf Hwf Hsafe s a w s' Hs Hc Hrun. wf_conj Hwf.
    destruct Hwf as (((((Hwc & Hwt) & Hwf') & Hot) & Hof) & Heq).
    operand Hot. operand Hof. apply Z.eqb_eq in Heq.
    safe_conj Hsafe. destruct Hsafe as (((Hsc & Hst) & Hsf) & Hcond). int_width Hcond.
    step_in Hrun.
    sorted_child Hrun Hwc (IHc Hwc Hsc). sorted_child Hrun Hwt (IHt Hwt Hst).
    sorted_child Hrun Hwf' (IHf Hwf' Hsf).
    fin_ret Hrun. rewrite Hwd in *. rewrite Heq in *. cbn [fst]. ws_solve.
  - (* FSelect *)
    intros c IHc t IHt f IHf Hwf Hsafe s a w s' Hs Hc Hrun. wf_conj Hwf.
    destruct Hwf as (((((Hwc & Hwt) & Hwf') & Hot) & Hof) & Heq).
    operand Hot. operand Hof. apply Z.eqb_eq in Heq.
    safe_conj Hsafe. destruct Hsafe as (((Hsc & Hst) & Hsf) & Hcond). int_width Hcond.
    step_in Hrun.
    sorted_child Hrun Hwc (IHc Hwc Hsc). sorted_child Hrun Hwt (IHt Hwt Hst).
    sorted_child Hrun Hwf' (IHf Hwf' Hsf).
    fin_ret Hrun. rewrite Hwd in *. rewrite Heq in *. cbn [fst]. ws_solve.
  - (* Concat *)
    intros width kids IHk Hwf Hsafe s a w s' Hs Hc Hrun. wf_conj Hwf.
    destruct Hwf as (Hk & _). cbn [sortSafe] in Hsafe. step_in Hrun.
    destruct (constructKids kids s) as [[res s1]|] eqn:E1; [|discriminate Hrun].
    destruct (IHk Hk Hsafe s res s1 Hs Hc E1) as (Wres & Hc1).
    fin_ret Hrun. exact Wres.
  - (* Extract *)
    intros expr IH offset width Hwf Hsafe s a w s' Hs Hc Hrun. wf_conj Hwf.
    destruct Hwf as (He & Hw). apply Z.ltb_lt in Hw.
    safe_conj Hsafe. destruct Hsafe as ((((Hse & Hint) & Hew) & Hoff) & Hfit).
    apply negb_true_iff in Hint. apply Z.ltb_lt in Hew. apply Z.leb_le in Hoff, Hfit.
    step_in Hrun. sorted_child Hrun He (IH He Hse). rewrite intSort_bv in S by lia.
    fin_ret Hrun. now apply (wellSorted_Extract _ (getWidth expr)).
  - (* Cast *)
    intros kind src IH width Hwf Hsafe s a w s' Hs Hc Hrun. wf_conj Hwf.
    destruct Hwf as ((He & Ho) & Hw). operand Ho. apply Z.ltb_lt in Hw.
    cbn [sortSafe] in Hsafe.
    destruct kind; step_in Hrun; sorted_child Hrun He (IH He Hsafe).
    + fin_ret Hrun. apply wellSorted_ZExt; auto; lia.
    + fin_lift Hrun. apply okSorted_SExt; auto; lia.
  - (* FCastRound *)
    intros kind src IH width rm Hwf Hsafe s a w s' Hs Hc Hrun.
    destruct kind; wf_conj Hwf; destruct Hwf as (((He & Ho) & Hw) & _); operand Ho;
      safe_conj Hsafe; destruct Hsafe as (Hse & Hx);
      step_in Hrun; sorted_child Hrun He (IH He Hse); fin_lift Hrun.
    + apply okSorted_FExt; auto. now apply negb_true_iff in Hx.
    + apply Z.ltb_lt in Hx. rewrite intSort_bv in S by lia.
      now apply (okSorted_UToF_SToF _ (getWidth src)).
    + apply Z.ltb_lt in Hx. rewrite intSort_bv in S by lia.
      now apply (okSorted_UToF_SToF _ (getWidth src)).
  - (* CastRound *)
    intros kind src IH width rm Hwf Hsafe s a w s' Hs Hc Hrun.
    destruct kind; wf_conj Hwf; safe_conj Hsafe.
    + destruct Hwf as ((He & Ho) & Hw). operand Ho. apply Z.ltb_lt in Hw.
      step_in Hrun. sorted_child Hrun He (IH He Hsafe). fin_lift Hrun.
      apply okSorted_FToU; auto; lia.
    + destruct Hwf as (((He & Ho) & Hw) & _). operand Ho. apply Z.ltb_lt in Hw.
      destruct Hsafe as (Hse & Hx). apply negb_true_iff, Z.eqb_neq in Hx.
      step_in Hrun. sorted_child Hrun He (IH He Hse). fin_lift Hrun.
      apply okSorted_FToS; auto; lia.
  - (* ExplicitFloat *)
    intros src IH Hwf Hsafe s a w s' Hs Hc Hrun.
    wf_conj Hwf; destruct Hwf as ((He & Ho) & Hw). operand Ho. cbn [sortSafe] in Hsafe.
    step_in Hrun. sorted_child Hrun He (IH He Hsafe). fin_lift Hrun.
    apply okSorted_ExplicitFloat; auto.
    rewrite S. apply intSort_bv. intros E. rewrite E in Hw. discriminate Hw.
  - (* ExplicitInt *)
    intros src IH Hwf Hsafe s a w s' Hs Hc Hrun.
    wf_conj Hwf; destruct Hwf as ((He & Ho) & _). operand Ho.
    safe_conj Hsafe. destruct Hsafe as (Hse & Hx). apply negb_true_iff, Z.eqb_neq in Hx.
    step_in Hrun. sorted_child Hrun He (IH He Hse). fin_lift Hrun.
    now apply okSorted_ExplicitInt.
  - (* FUnary *)
    intros kind expr IH Hwf Hsafe s a w s' Hs Hc Hrun.
    assert (Hwf' : wellFormed expr && floatOperand expr
                   && isFloatWidth (getWidth expr) = true) by (destruct kind; exact Hwf).
    clear Hwf. rewrite !andb_true_iff in Hwf'. destruct Hwf' as ((He & Ho) & Hw).
    operand Ho. cbn [sortSafe] in Hsafe.
    step_in Hrun. sorted_child Hrun He (IH He Hsafe). fin_lift Hrun.
    now apply okSorted_FUnary.
  - (* FUnaryRound *)
    intros kind expr IH rm Hwf Hsafe s a w s' Hs Hc Hrun.
    wf_conj Hwf. destruct Hwf as ((He & Ho) & Hw). operand Ho. cbn [sortSafe] in Hsafe.
    step_in Hrun. sorted_child Hrun He (IH He Hsafe). fin_lift Hrun.
    now apply okSorted_FUnaryRound.
  - (* Not *)
    intros expr IH Hwf Hsafe s a w s' Hs Hc Hrun.
    wf_conj Hwf. destruct Hwf as (He & Ho). operand Ho. cbn [sortSafe] in Hsafe.
    step_in Hrun. sorted_child Hrun He (IH He Hsafe). fin_ret Hrun.
    now apply (wellSorted_Bitwise _ a0 (getWidth expr)).
  - (* Binary *)
    intros kind l IHl r IHr Hwf Hsafe s a w s' Hs Hc Hrun. wf_conj Hwf.
    destruct Hwf as (((((Hl & Hr) & Hol) & Hor) & Heq) & Hk).
    operand Hol. operand Hor. apply Z.eqb_eq in Heq.
    safe_conj Hsafe. destruct Hsafe as (Hsl & Hsr).
    specialize (IHl Hl Hsl). specialize (IHr Hr Hsr).
    assert (Hcs : forall bits, constantShift r = Some bits -> 0 <= bits).
    { intros bits E. destruct r; try discriminate E. injection E as <-.
      apply Z.mod_pos_bound. reflexivity. }
    assert (Hcp : forall bits, constantPowerOfTwo r = Some bits ->
                               0 <= bits < getWidth l).
    { intros bits E. apply constantPowerOfTwo_spec in E.
      destruct E as (cw & cv & -> & Hcw & Hb & Hv).
      cbn [wellFormed getWidth] in Hr, Heq.
      rewrite !andb_true_iff, Z.ltb_lt, Z.leb_le in Hr.
      destruct Hr as ((Hr1 & Hr2) & Hr3). apply Z.ltb_lt in Hr3.
      unfold getZExtValue, APValue in Hv.
      assert (Hcv : cv = 2 ^ bits).
      { rewrite <- Hv. rewrite (Z.mod_small cv) by lia.
        symmetry. apply Z.mod_small. split; [lia|].
        apply Z.lt_le_trans with (2 ^ cw); [lia|].
        apply Z.pow_le_mono_r; lia. }
      subst cv. split; [exact Hb|]. rewrite Heq.
      apply (Z.pow_lt_mono_r_iff 2); lia. }
    destruct kind; step_in Hrun;
      try (apply negb_true_iff in Hk; apply Z.eqb_neq in Hk).
    + (* Add *)
      sorted_child Hrun Hl IHl. sorted_child Hrun Hr IHr. fin_lift Hrun.
      rewrite <- Heq in *. rewrite intSort_bv in * by assumption.
      unfold constructActual_Add. destruct (_ =? 1); [exact I|].
      now apply okSorted_bvArith.
    + (* Sub *)
      sorted_child Hrun Hl IHl. sorted_child Hrun Hr IHr. fin_lift Hrun.
      rewrite <- Heq in *. rewrite intSort_bv in * by assumption.
      unfold constructActual_Sub. destruct (_ =? 1); [exact I|].
      now apply okSorted_bvArith.
    + (* Mul *)
      sorted_child Hrun Hr IHr. unfold assert in Hrun.
      destruct (negb _); [|discriminate Hrun].
      sorted_child Hrun Hl IHl. fin_lift Hrun.
      rewrite <- Heq in *. rewrite intSort_bv in * by assumption.
      now apply okSorted_bvArith.
    + (* UDiv *)
      sorted_child Hrun Hl IHl. unfold assert in Hrun.
      destruct (negb _); [|discriminate Hrun].
      rewrite intSort_bv in * by assumption.
      destruct (constantPowerOfTwo r) as [bits|] eqn:E.
      * fin_ret Hrun. cbn [fst]. destruct (Hcp bits eq_refl).
        apply (wellSorted_bvRightShift _ (getWidth l)); auto; lia.
      * sorted_child Hrun Hr IHr. fin_lift Hrun.
        rewrite <- Heq in *. rewrite intSort_bv in * by assumption.
        now apply okSorted_bvArith.
    + (* SDiv *)
      sorted_child Hrun Hl IHl. unfold assert in Hrun.
      destruct (negb _); [|discriminate Hrun].
      sorted_child Hrun Hr IHr. fin_lift Hrun.
      rewrite <- Heq in *. rewrite intSort_bv in * by assumption.
      now apply okSorted_bvArith.
    + (* URem *)
      sorted_child Hrun Hl IHl. unfold assert in Hrun.
      destruct (negb _); [|discriminate Hrun].
      rewrite intSort_bv in * by assumption.
      destruct (constantPowerOfTwo r) as [bits|] eqn:E.
      * fin_ret Hrun. destruct (Hcp bits eq_refl).
        apply wellSorted_URem_pow2; auto.
      * sorted_child Hrun Hr IHr. fin_lift Hrun.
        rewrite <- Heq in *. rewrite intSort_bv in * by assumption.
        now apply okSorted_bvArith.
    + (* SRem *)
      sorted_child Hrun Hl IHl. sorted_child Hrun Hr IHr. fin_lift Hrun.
      rewrite <- Heq in *. rewrite intSort_bv in * by assumption.
      unfold constructActual_SRem. destruct (_ =? 1); [exact I|].
      now apply okSorted_bvArith.
    + (* And *)
      sorted_child Hrun Hl IHl. sorted_child Hrun Hr IHr. fin_ret Hrun. rewrite <- Heq in *.
      now apply (wellSorted_Bitwise a0 a1 (getWidth l)).
    + (* Or *)
      sorted_child Hrun Hl IHl. sorted_child Hrun Hr IHr. fin_ret Hrun. rewrite <- Heq in *.
      now apply (wellSorted_Bitwise a0 a1 (getWidth l)).
    + (* Xor *)
      sorted_child Hrun Hl IHl. sorted_child Hrun Hr IHr. fin_ret Hrun. rewrite <- Heq in *.
      now apply (wellSorted_Bitwise a0 a1 (getWidth l)).
    + (* Shl *)
      sorted_child Hrun Hl IHl. unfold assert in Hrun.
      destruct (negb _); [|discriminate Hrun].
      rewrite intSort_bv in * by assumption.
      destruct (constantShift r) as [bits|] eqn:E.
      * fin_ret Hrun. cbn [fst].
        apply (wellSorted_bvLeftShift _ (getWidth l)); auto.
      * sorted_child Hrun Hr IHr. fin_ret Hrun. cbn [fst].
        rewrite <- Heq in *. rewrite intSort_bv in * by assumption.
        apply (wellSorted_variable_shifts a0 a1 (getWidth l)); auto; lia.
    + (* LShr *)
      sorted_child Hrun Hl IHl. unfold assert in Hrun.
      destruct (negb _); [|discriminate Hrun].
      rewrite intSort_bv in * by assumption.
      destruct (constantShift r) as [bits|] eqn:E.
      * fin_ret Hrun. cbn [fst].
        apply (wellSorted_bvRightShift _ (getWidth l)); auto.
      * sorted_child Hrun Hr IHr. fin_ret Hrun. cbn [fst].
        rewrite <- Heq in *. rewrite intSort_bv in * by assumption.
        apply (wellSorted_variable_shifts a0 a1 (getWidth l)); auto; lia.
    + (* AShr *)
      sorted_child Hrun Hl IHl. unfold assert in Hrun.
      destruct (negb _); [|discriminate Hrun].
      rewrite intSort_bv in * by assumption.
      destruct (constantShift r) as [bits|] eqn:E.
      * fin_ret Hrun. cbn [fst].
        apply (wellSorted_constructAShrByConstant _ _ (getWidth l)); auto.
        apply (wellSorted_bvBoolExtract _ (getWidth l)); auto; lia.
      * sorted_child Hrun Hr IHr. fin_ret Hrun. cbn [fst].
        rewrite <- Heq in *. rewrite intSort_bv in * by assumption.
        apply (wellSorted_variable_shifts a0 a1 (getWidth l)); auto; lia.
  - (* FBinaryRound *)
    intros kind l IHl r IHr rm Hwf Hsafe s a w s' Hs Hc Hrun. wf_conj Hwf.
    destruct Hwf as (((((Hl & Hr) & Hol) & Hor) & Heq) & Hk).
    operand Hol. operand Hor. apply Z.eqb_eq in Heq.
    safe_conj Hsafe. destruct Hsafe as (Hsl & Hsr).
    step_in Hrun. sorted_child Hrun Hl (IHl Hl Hsl). sorted_child Hrun Hr (IHr Hr Hsr).
    fin_lift Hrun. rewrite <- Heq in *. now apply okSorted_FBinaryRound.
  - (* FBinary *)
    intros kind l IHl r IHr Hwf Hsafe s a w s' Hs Hc Hrun. wf_conj Hwf.
    destruct Hwf as (((((Hl & Hr) & Hol) & Hor) & Heq) & Hk).
    operand Hol. operand Hor. apply Z.eqb_eq in Heq.
    safe_conj Hsafe. destruct Hsafe as (Hsl & Hsr).
    step_in Hrun. sorted_child Hrun Hl (IHl Hl Hsl). sorted_child Hrun Hr (IHr Hr Hsr).
    fin_lift Hrun. rewrite <- Heq in *. now apply okSorted_FBinary.
  - (* Cmp *)
    intros kind l IHl r IHr Hwf Hsafe s a w s' Hs Hc Hrun. wf_conj Hwf.
    destruct Hwf as (((((Hl & Hr) & Hol) & Hor) & Heq) & Hk).
    operand Hol. operand Hor. apply Z.eqb_eq in Heq.
    safe_conj Hsafe. destruct Hsafe as (Hsl & Hsr).
    destruct kind; try discriminate Hk; step_in Hrun;
      sorted_child Hrun Hl (IHl Hl Hsl); sorted_child Hrun Hr (IHr Hr Hsr);
      fin_lift Hrun; rewrite <- Heq in *;
      try (apply negb_true_iff in Hk; apply Z.eqb_neq in Hk;
           rewrite intSort_bv in * by assumption;
           now apply okSorted_bvCompare).
    now apply okSorted_Eq.
  - (* FCmp *)
    intros kind l IHl r IHr Hwf Hsafe s a w s' Hs Hc Hrun. wf_conj Hwf.
    destruct Hwf as (((((Hl & Hr) & Hol) & Hor) & Heq) & Hk).
    operand Hol. operand Hor. apply Z.eqb_eq in Heq.
    safe_conj Hsafe. destruct Hsafe as (Hsl & Hsr).
    step_in Hrun. sorted_child Hrun Hl (IHl Hl Hsl). sorted_child Hrun Hr (IHr Hr Hsr).
    fin_lift Hrun. rewrite <- Heq in *. now apply okSorted_FCmp.
  - (* UNull *)
    intros root _ Ha Hsa _ s a s' Hs Hc Hrun. cbn [getArrayForUpdate] in Hrun.
    now apply (wellSorted_getInitialArray root s).
  - (* UNode *)
    intros index IHi value IHv next IHn root Hwf Ha Hsa Hsafe s a s' Hs Hc Hrun.
    wf_conj Hwf. destruct Hwf as ((Hi & Hv) & Hn).
    safe_conj Hsafe. destruct Hsafe as ((((Hsi & Hsv) & Hsn) & Hiw) & Hvw).
    int_width Hiw. int_width Hvw.
    cbn [getArrayForUpdate] in Hrun. rewrite ?construct_fold in Hrun.
    destruct (lookupUpdateNodeExpr root (UNode index value next) (_update_node_hash s))
      as [z|] eqn:L.
    + injection Hrun as <- <-. split; [|exact Hc]. exact (proj2 (proj2 Hc) _ _ _ L).
    + unfold bind in Hrun.
      destruct (getArrayForUpdate root next s) as [[arr s1]|] eqn:E1; [|discriminate Hrun].
      destruct (IHn root Hn Ha Hsa Hsn s arr s1 Hs Hc E1) as (Warr & Hc1).
      destruct (proj1 (proj2 construct_sound_mut) next Hn root Ha s Hs)
        as (arr0 & s0 & E0 & Sarr & Hs1).
      rewrite E1 in E0. injection E0 as <- <-.
      sorted_child Hrun Hi (IHi Hi Hsi). sorted_child Hrun Hv (IHv Hv Hsv).
      match type of Hrun with
      | context [hashUpdateNodeExpr ?r ?n ?t ?st] =>
          destruct (hashUpdateNodeExpr r n t st) as [[u s4]|] eqn:Eh; [|discriminate Hrun]
      end.
      unfold ret in Hrun. injection Hrun as <- <-.
      assert (Hw : wellSorted (writeExpr arr a0 a1) = true).
      { unfold writeExpr. cbn [wellSorted]. rewrite Warr, W, W0, Sarr, S, S0, Hwd, Hwd0.
        unfold arraySortOf, getArraySort, getBvSort.
        unfold sortSafeArray in Hsa. rewrite !andb_true_iff in Hsa.
        destruct Hsa as (Hd & _). apply Z.ltb_lt in Hd.
        unfold wellFormedArray in Ha. rewrite !andb_true_iff in Ha.
        destruct Ha as (Hr & _). apply Z.ltb_lt in Hr.
        rewrite !intSort_bv by lia. cbn [sortEqb andb]. now rewrite !Z.eqb_refl. }
      split; [exact Hw|]. eapply cachesWellSorted_hashUpdateNodeExpr; eassumption.
  - (* KLast *)
    intros kid IH Hwf Hsafe s a s' Hs Hc Hrun. wf_conj Hwf.
    destruct Hwf as ((Hk & Hf) & Hw). cbn [sortSafeKids] in Hsafe.
    cbn [constructKids] in Hrun. rewrite ?construct_fold in Hrun. unfold bind in Hrun.
    sorted_child Hrun Hk (IH Hk Hsafe). unfold ret in Hrun. injection Hrun as <- <-. auto.
  - (* KCons *)
    intros kid IH rest IHr Hwf Hsafe s a s' Hs Hc Hrun. wf_conj Hwf.
    destruct Hwf as (((Hk & Hf) & Hw) & Hrest).
    apply negb_true_iff in Hf. apply Z.ltb_lt in Hw.
    safe_conj Hsafe. destruct Hsafe as (Hsk & Hsr).
    cbn [constructKids] in Hrun. rewrite ?construct_fold in Hrun. unfold bind in Hrun.
    destruct (constructKids rest s) as [[res s1]|] eqn:E1; [|discriminate Hrun].
    destruct (IHr Hrest Hsr s res s1 Hs Hc E1) as (Wres & Hc1).
    destruct (proj2 (proj2 construct_sound_mut) rest Hrest s Hs)
      as (res0 & s0 & E0 & Sres & Hs1).
    rewrite E1 in E0. injection E0 as <- <-.
    sorted_child Hrun Hk (IH Hk Hsk). unfold ret in Hrun. injection Hrun as <- <-.
    split; [|assumption]. rewrite intSort_bv in S by lia.
    now apply (wellSorted_concatExpr _ _ (getWidth kid) (kidsWidth rest)).
Qed.

(** ** The width and the sort of the translation *)




(** X27.  The translation of a node that is [wellFormed] and [sortSafe] is
    well-sorted.  From a builder whose caches are sound and hold well-sorted
    terms (such as a new builder), [construct] returns, with the width of
    the node, a term in which every application has arguments of the sorts
    its symbol takes, so that Z3 reports no error while the term is built;
    the builder it leaves is of that kind again. *)
Theorem translation_well_sorted (e : Expr) (s : Z3Builder) :
  wellFormed e = true -> sortSafe e = true ->
  cachesSound s -> cachesWellSorted s ->
  exists a s',
    construct e s = Ok ((a, getWidth e), s') /\
    wellSorted a = true /\ cachesSound s' /\ cachesWellSorted s'.
Proof.
  intros Hwf Hsafe Hs Hc.
  destruct (construct_ok e (proj1 construct_sound_mut e Hwf) s Hs) as (a & s' & Hrun & _).
  exists a, s'. split; [exact Hrun|].
  destruct (construct_child e Hwf (proj1 construct_sorted_mut e Hwf Hsafe)
              s a (getWidth e) s' Hs Hc Hrun) as ((_ & _ & Hs') & Ha & Hc').
  auto.
Qed.

Lemma translation_well_sorted_witness :
  let e := SelectExpr (CmpExpr Expr.Ult sampleX (ConstantExpr 8 5))
             (BinaryExpr Expr.Shl sampleX sampleY)
             (ReadExpr sampleTable UNull (ConstantExpr 32 1)) in
  exists a s',
    construct e newBuilder = Ok ((a, getWidth e), s') /\
    wellSorted a = true /\ cachesSound s' /\ cachesWellSorted s'.
Proof.
  intros e. apply (translation_well_sorted e newBuilder).
  - vm_compute. reflexivity.
  - vm_compute. reflexivity.
  - exact cachesSound_newBuilder.
  - exact cachesWellSorted_newBuilder.
Defined.

(** X28.  [FToS] and [ExplicitInt] of an 80-bit float, and [FExt] from 80 to
    80 bits, abort when they are translated for the first time.  The
    translation of the operand is the F80 array, and the cases apply
    [fp.to_sbv], [fp.to_ieee_bv] and [to_fp] to the array as it is ([FToS]
    at every target width and whatever the sentinel holds).  Z3 rejects the
    application and the error handler of the builder aborts with
    "Error: Incorrect use of Z3.".  These are the nodes [wellFormed] and
    [sortSafe] leave out. *)
Theorem F80_source_aborts (src : Expr) (w : Z) (rm : roundingMode) (s : Z3Builder) :
  wellFormed src = true -> isFloat src = true -> getWidth src = Expr.Fl80 ->
  cachesSound s ->
  forall e,
    e = CastRoundExpr Expr.FToS src w rm \/ e = ExplicitIntExpr src
    \/ e = FCastRoundExpr Expr.FExt src Expr.Fl80 rm ->
    lookupExpr e (constructed s) = None ->
    construct e s = Abort Z3_error.
Proof.
  intros Hwf Hf Hw Hs e He Hmiss.
  destruct (construct_ok src (proj1 construct_sound_mut src Hwf) s Hs)
    as (a0 & s1 & Hrun & S & _).
  unfold sortFor in S. rewrite Hf, Hw in S. cbn [sortOf] in S.
  change (floatSort Expr.Fl80) with sortF80Array in S.
  destruct (F80_array_conversions_abort a0 (getWidth src) w rm S) as (H1 & H2 & H3).
  assert (Hc : constructActual e s = Abort Z3_error -> construct e s = Abort Z3_error).
  { intros Ha. unfold construct, construct_with.
    destruct (negb (UseConstructHashZ3 s) || isa_ConstantExpr e); [exact Ha|].
    rewrite Hmiss. unfold bind. now rewrite Ha. }
  apply Hc.
  destruct He as [-> | [-> | ->]]; cbn [constructActual]; rewrite construct_fold;
    unfold bind; rewrite Hrun; unfold lift.
  - rewrite Hw, H1. reflexivity.
  - rewrite H2. reflexivity.
  - rewrite H3. reflexivity.
Qed.

Lemma F80_source_aborts_witness :
  construct (CastRoundExpr Expr.FToS sampleNormal 32 rmNearestTiesToEven) newBuilder
  = Abort Z3_error.
Proof.
  apply (F80_source_aborts sampleNormal 32 rmNearestTiesToEven newBuilder).
  - vm_compute. reflexivity.
  - reflexivity.
  - reflexivity.
  - exact cachesSound_newBuilder.
  - left. reflexivity.
  - reflexivity.
Defined.
